(** * complex-args: the listing/tree grammar, its placeholders and containers

    A shallow embedding of [src/util.py], [src/variables.py] and
    [src/parser.py], followed by the properties established about them.

    Conventions of the embedding.
    - Python [str] is a list of 8-bit characters, [int] is [Z].
    - A level type converter is a function [str -> option Z]; [None] stands
      for any exception raised by the converter.
    - Code that allocates objects, draws random numbers or raises runs in the
      monad [M]: a state (next object address, random source) is threaded and
      the outcome is a value, a raised exception, or exhaustion of the fuel
      that bounds the [while True] loops.
    - Objects whose identity is observable (placeholders used as set elements
      and dict keys, containers and their partitions) carry their address. *)

From Stdlib Require Import ZArith Ascii String List Lia Bool.
From stdpp Require Import base list strings gmap sets.

Local Open Scope Z_scope.
Set Warnings "-register-all,-clear-no-such-hyp".

(* ===================================================================== *)
(** * Part I. The embedding                                              *)
(* ===================================================================== *)

(** ** Python strings *)

Module Py.

Definition str : Type := list ascii.

Definition str_of (s : string) : str := list_ascii_of_string s.

Definition len {A} (l : list A) : Z := Z.of_nat (length l).

(** [value.startswith(prefix)] *)
Fixpoint startswith (value prefix : str) : bool :=
  match prefix, value with
  | [], _ => true
  | p :: prefix', c :: value' => Ascii.eqb p c && startswith value' prefix'
  | _ :: _, [] => false
  end.

(** Lowest index [i + k] such that [sub] occurs at offset [k] of [s]. *)
Fixpoint find_at (s sub : str) (i : Z) : Z :=
  if startswith s sub then i
  else match s with
       | [] => -1
       | _ :: s' => find_at s' sub (i + 1)
       end.

(** Slice bounds as Python normalises them: a negative index counts from the
    end, and the result is clipped to [0, len]. *)
Definition clip (n i : Z) : nat :=
  Z.to_nat (Z.min n (if i <? 0 then Z.max 0 (n + i) else i)).

(** [s[i:]] and [s[:i]] *)
Definition slice_from {A} (s : list A) (i : Z) : list A := drop (clip (len s) i) s.
Definition slice_to {A} (s : list A) (i : Z) : list A := take (clip (len s) i) s.

(** [s.find(sub, start)] *)
Definition find (s sub : str) (start : Z) : Z :=
  let st := if start <? 0 then Z.max 0 (len s + start) else start in
  if len s <? st then -1 else find_at (drop (Z.to_nat st) s) sub st.

(** [sub in s] *)
Definition contains (s sub : str) : bool := negb (find s sub 0 =? -1).

(** [s.split(sep)] for a non-empty [sep]: [skip] counts the characters of a
    separator just matched that are still to be passed over, [acc] is the
    current piece, reversed. *)
Fixpoint split_go (s sep : str) (skip : nat) (acc : str) : list str :=
  match s with
  | [] => [rev acc]
  | c :: s' =>
      match skip with
      | S k => split_go s' sep k acc
      | O => if startswith s sep
             then rev acc :: split_go s' sep (length sep - 1) []
             else split_go s' sep 0 (c :: acc)
      end
  end.

(** [s.split(sep)]; [None] is the [ValueError] of an empty separator. *)
Definition split (s sep : str) : option (list str) :=
  match sep with
  | [] => None
  | _ => Some (split_go s sep 0 [])
  end.

(** [s.split(sep, 1)]: one piece when [sep] does not occur, else two. *)
Definition split1 (s sep : str) : option (list str) :=
  match sep with
  | [] => None
  | _ => let i := find s sep 0 in
         if i =? -1 then Some [s]
         else Some [slice_to s i; slice_from s (i + len sep)]
  end.

(** [s * n] *)
Definition repeat_str (s : str) (n : nat) : str := concat (replicate n s).

(** Characters [int] skips around a number: the ASCII white space and the two
    white-space code points of the upper half of the 8-bit range. *)
Definition is_space (c : ascii) : bool :=
  let n := nat_of_ascii c in
  ((9 <=? n)%nat && (n <=? 13)%nat) || (n =? 32)%nat || (n =? 133)%nat || (n =? 160)%nat.

Fixpoint lstrip (s : str) : str :=
  match s with
  | c :: s' => if is_space c then lstrip s' else s
  | [] => []
  end.

Definition strip (s : str) : str := rev (lstrip (rev (lstrip s))).

Definition digit_of (c : ascii) : option Z :=
  let n := nat_of_ascii c in
  if (48 <=? n)%nat && (n <=? 57)%nat then Some (Z.of_nat (n - 48)) else None.

(** Decimal digits, single underscores allowed between two digits. *)
Fixpoint digits (s : str) (acc : Z) (after_digit : bool) : option Z :=
  match s with
  | [] => if after_digit then Some acc else None
  | c :: s' =>
      match digit_of c with
      | Some d => digits s' (10 * acc + d) true
      | None => if Ascii.eqb c "_" && after_digit then digits s' acc false else None
      end
  end.

(** [int(s)]; [None] is its [ValueError]. *)
Definition int (s : str) : option Z :=
  match strip s with
  | c :: r =>
      if Ascii.eqb c "+" then digits r 0 false
      else if Ascii.eqb c "-" then Z.opp <$> digits r 0 false
      else digits (c :: r) 0 false
  | [] => None
  end.

(** [range(first, last)] *)
Definition range (first last : Z) : list Z :=
  (fun i => first + Z.of_nat i) <$> seq 0 (Z.to_nat (last - first)).

(** [container[i]]; [None] is the [IndexError]. *)
Definition index {A} (container : list A) (i : Z) : option A :=
  let n := len container in
  if (0 <=? i) && (i <? n) then container !! Z.to_nat i
  else if (- n <=? i) && (i <? 0) then container !! Z.to_nat (n + i)
  else None.

End Py.

Import Py.
Coercion Py.str_of : string >-> Py.str.

(** ** util.py *)

Definition valid_comp (first second : Z) : Z :=
  if first =? second then 0
  else if (negb (first =? -1) && (first <? second)) || (second =? -1) then -1
  else 1.

(** [valid_min]: its variadic arguments as a first element and the rest (the
    source never calls it on no argument). *)
Fixpoint valid_min (first : Z) (rest : list Z) : Z :=
  match rest with
  | [] => first
  | x :: rest' =>
      let second := valid_min x rest' in
      if valid_comp first second <? 0 then first else second
  end.

(** ** Exceptions, state and the monad *)

Inductive parse_message : Type :=
  | CannotConvert (value : str)
  | MoreLevelsRequired
  | ExpectedClosers.

Inductive exn : Type :=
  | ParseError (position : Z) (message : parse_message)
  | ResolveError
  | ValueError
  | KeyError
  | IndexError
  | TypeError
  | AttributeError.

Abbreviation addr := N (only parsing).

(** The part of the interpreter's state the code depends on: the address the
    next allocated object gets, and the numbers the random source will
    produce (an exhausted source keeps producing 0). *)
Record state : Type := State { next_addr : addr; random : list Z }.

Inductive outcome (A : Type) : Type :=
  | Ok (a : A)
  | Raise (e : exn)
  | OutOfFuel.
Arguments Ok {A} a.
Arguments Raise {A} e.
Arguments OutOfFuel {A}.

Definition M (A : Type) : Type := state -> outcome (A * state).

Definition ret {A} (a : A) : M A := fun s => Ok (a, s).
Definition raise {A} (e : exn) : M A := fun _ => Raise e.
Definition out_of_fuel {A} : M A := fun _ => OutOfFuel.
Definition bind {A B} (c : M A) (k : A -> M B) : M B :=
  fun s => match c s with
           | Ok (a, s') => k a s'
           | Raise e => Raise e
           | OutOfFuel => OutOfFuel
           end.

Notation "'let*' x := c 'in' k" := (bind c (fun x => k))
  (at level 10, x pattern, c at level 100, k at level 200).

(** The address of a newly created object. *)
Definition alloc : M addr :=
  fun s => Ok (next_addr s, State (N.succ (next_addr s)) (random s)).

(** The next number of the random source, reduced to [0 <= r < bound]. *)
Definition randbelow (bound : Z) : M Z :=
  fun s => Ok (hd 0 (random s) mod bound, State (next_addr s) (tl (random s))).

Definition of_option {A} (o : option A) (e : exn) : M A :=
  match o with Some a => ret a | None => raise e end.

(** [sys.maxsize] *)
Definition maxsize : Z := 2 ^ 63 - 1.

(** [random.randint(a, b)] *)
Definition randint (a b : Z) : M Z :=
  let* r := randbelow (b - a + 1) in ret (a + r).

(** [random.sample(population, k)]: [k] elements at pairwise distinct
    positions, each position drawn among those not yet taken. *)
Fixpoint sample_go (pool : list Z) (k : nat) : M (list Z) :=
  match k with
  | O => ret []
  | S k' =>
      let* j := randbelow (len pool) in
      match pool !! Z.to_nat j with
      | Some x => let* rest := sample_go (delete (Z.to_nat j) pool) k' in ret (x :: rest)
      | None => raise ValueError
      end
  end.

Definition sample (population : list Z) (k : Z) : M (list Z) :=
  if (0 <=? k) && (k <=? len population) then sample_go population (Z.to_nat k)
  else raise ValueError.

(** [s.pop()] on a set: removes and returns an arbitrary element, chosen here
    by the random source; returns the element and the remaining set. *)
Definition set_pop (s : gset Z) : M (Z * gset Z) :=
  match elements s with
  | [] => raise KeyError
  | l => let* j := randbelow (len l) in
         match l !! Z.to_nat j with
         | Some x => ret (x, s ∖ {[ x ]})
         | None => raise KeyError
         end
  end.

(** ** variables.py: placeholders *)

Inductive variable : Type :=
  | IndexVariable (_index : Z)
  | SizeVariable
  | ConstantVariable (_value : Z)
  | AllVariable
  | RangeVariable (_first _last : Z + variable)
  | SampleVariable (_n : Z) (_exclude_original : bool) (_id : Z)
  | RandomVariable (_exclude_original : bool) (_id : Z).

(** [SampleVariable.evaluate], shared by [RandomVariable] with [_n = 1]. *)
Definition SampleVariable_evaluate (_n : Z) (_exclude_original : bool)
    (container : list Z) (original_value : option Z) : M (gset Z) :=
  if negb _exclude_original then
    if len container <? _n then raise ResolveError
    else let* drawn := sample container _n in ret (list_to_set drawn)
  else
    match original_value with
    | None => raise ResolveError
    | Some original =>
        if len container <? _n + 1 then raise ResolveError
        else
          let* drawn := sample container (_n + 1) in
          let result : gset Z := list_to_set drawn in
          if bool_decide (original ∈ result) then ret (result ∖ {[ original ]})
          else let* popped := set_pop result in ret (snd popped)
    end.

(** The [try: x = x.evaluate(container).pop() except AttributeError: pass]
    of [RangeVariable.evaluate], [eval] being [evaluate] on placeholders. *)
Definition resolve_endpoint (eval : variable -> M (gset Z)) (x : Z + variable)
  : M (Z + variable) :=
  match x with
  | inl z => ret (inl z)
  | inr v =>
      fun s => match (let* values := eval v in let* popped := set_pop values in
                      ret (inl (fst popped))) s with
               | Raise AttributeError => Ok (inr v, s)
               | r => r
               end
  end.

(** [v.evaluate(container, original_value)] *)
Fixpoint evaluate (v : variable) (container : list Z) (original_value : option Z)
  : M (gset Z) :=
  match v with
  | IndexVariable i =>
      let* x := of_option (Py.index container i) IndexError in ret {[ x ]}
  | SizeVariable => ret {[ len container ]}
  | ConstantVariable x => ret {[ x ]}
  | AllVariable => ret (list_to_set container)
  | RangeVariable _first _last =>
      let* first := resolve_endpoint (fun w => evaluate w container None) _first in
      let* last := resolve_endpoint (fun w => evaluate w container None) _last in
      match first, last with
      | inl a, inl b => ret (list_to_set (range a (b + 1)))
      | _, _ => raise TypeError
      end
  | SampleVariable n ex _ => SampleVariable_evaluate n ex container original_value
  | RandomVariable ex _ => SampleVariable_evaluate 1 ex container original_value
  end.

(** ** variables.py: containers *)

(** A placeholder object: its address and its attributes. *)
Record varobj : Type := VarObj { addr_of : addr; var : variable }.

(** [a == b] on placeholder objects.  [SampleVariable.__eq__] (inherited by
    [RandomVariable]) compares class and [_id]; every other class keeps the
    default comparison by identity. *)
Definition var_eq (a b : varobj) : bool :=
  match var a, var b with
  | SampleVariable _ _ i, SampleVariable _ _ j => i =? j
  | RandomVariable _ i, RandomVariable _ j => i =? j
  | SampleVariable _ _ _, _ | RandomVariable _ _, _ => false
  | _, SampleVariable _ _ _ | _, RandomVariable _ _ => false
  | _, _ => (addr_of a =? addr_of b)%N
  end.

(** A container as built by its constructor, unfolded from its root: the
    object itself and the two partition objects it references carry their
    addresses ([self], [fixed_at], [variable_at]).  What the object holds as
    a [set] or [dict] of its own is, on construction, the content of the two
    partitions, and is read from them. *)
Inductive container : Type :=
  | VariableSet (self fixed_at : addr) (fixed_parts : gset Z)
                (variable_at : addr) (variable_parts : list varobj)
  | VariableDict (self fixed_at : addr) (fixed_parts : list (Z * container))
                 (variable_at : addr) (variable_parts : list (varobj * container)).

(** Python [set] with elements compared by [eqb], in insertion order. *)
Definition set_in {K} (eqb : K -> K -> bool) (s : list K) (k : K) : bool :=
  existsb (eqb k) s.

Definition set_add {K} (eqb : K -> K -> bool) (s : list K) (k : K) : list K :=
  if set_in eqb s k then s else s ++ [k].

Definition set_union {K} (eqb : K -> K -> bool) (s t : list K) : list K :=
  foldl (set_add eqb) s t.

(** Python [dict] as an association list in insertion order. *)
Fixpoint dict_get {K V} (eqb : K -> K -> bool) (d : list (K * V)) (k : K) : option V :=
  match d with
  | [] => None
  | (k', v) :: d' => if eqb k k' then Some v else dict_get eqb d' k
  end.

Fixpoint dict_set {K V} (eqb : K -> K -> bool) (d : list (K * V)) (k : K) (v : V)
  : list (K * V) :=
  match d with
  | [] => [(k, v)]
  | (k', v') :: d' => if eqb k k' then (k', v) :: d' else (k', v') :: dict_set eqb d' k v
  end.

(** [dict.fromkeys(keys, value)] *)
Definition fromkeys {K V} (eqb : K -> K -> bool) (keys : list K) (value : V)
  : list (K * V) :=
  foldl (fun d k => dict_set eqb d k value) [] keys.

Fixpoint mapM {A B} (f : A -> M B) (l : list A) : M (list B) :=
  match l with
  | [] => ret []
  | a :: l' => let* b := f a in let* bs := mapM f l' in ret (b :: bs)
  end.

(** [VariableSet(fixed_parts, variable_parts)] on two set objects *)
Definition new_VariableSet (fixed : addr * gset Z) (variable : addr * list varobj)
  : M container :=
  let* self := alloc in
  ret (VariableSet self (fst fixed) (snd fixed) (fst variable) (snd variable)).

(** [VariableDict(fixed_parts, variable_parts)] on two dict objects *)
Definition new_VariableDict (fixed : addr * list (Z * container))
    (variable : addr * list (varobj * container)) : M container :=
  let* self := alloc in
  ret (VariableDict self (fst fixed) (snd fixed) (fst variable) (snd variable)).

(** [VariableDict()]: both partitions default to a new empty dict. *)
Definition empty_VariableDict : M container :=
  let* f := alloc in
  let* v := alloc in
  new_VariableDict (f, []) (v, []).

(** [copy.deepcopy] of a placeholder: a new object with the same attributes
    (so a copied sample keeps its [_id]). *)
Definition deepcopy_var (v : varobj) : M varobj :=
  let* a := alloc in ret (VarObj a (var v)).

(** The items of a dict copied one by one, keys by [copy_key] and values by
    [copy]. *)
Definition copy_items {K} (copy_key : K -> M K) (copy : container -> M container)
  : list (K * container) -> M (list (K * container)) :=
  fix items (l : list (K * container)) : M (list (K * container)) :=
    match l with
    | [] => ret []
    | (k, sub) :: l' =>
        let* k' := copy_key k in
        let* sub' := copy sub in
        let* r := items l' in ret ((k', sub') :: r)
    end.

(** [copy.deepcopy] of a container: every object reached is copied to a new
    address.  The unfolding repeats an object referenced twice, and each
    occurrence is copied on its own, where the memo of [copy.deepcopy]
    copies such an object once and keeps the sharing: the copy has the
    keys, values and shape of the Python copy, but not the identities
    shared between its subtrees. *)
Fixpoint deepcopy (c : container) : M container :=
  match c with
  | VariableSet _ _ fixed _ deferred =>
      let* fixed_at := alloc in
      let* deferred' := mapM deepcopy_var deferred in
      let* variable_at := alloc in
      new_VariableSet (fixed_at, fixed) (variable_at, deferred')
  | VariableDict _ _ fixed _ deferred =>
      let* fixed_at := alloc in
      let* fixed' := copy_items ret deepcopy fixed in
      let* variable_at := alloc in
      let* deferred' := copy_items deepcopy_var deepcopy deferred in
      new_VariableDict (fixed_at, fixed') (variable_at, deferred')
  end.

(** [d[key]] on a container: the object's own dict holds the entries of both
    partitions, keys of the fixed partition first. *)
Definition getitem (d : container) (key : Z + varobj) : M container :=
  match d, key with
  | VariableDict _ _ fixed _ _, inl k => of_option (dict_get Z.eqb fixed k) KeyError
  | VariableDict _ _ _ _ variable, inr k => of_option (dict_get var_eq variable k) KeyError
  | VariableSet _ _ _ _ _, _ => raise TypeError
  end.

(** One of the two [for element in new_second.<partition>] loops of [merge]:
    [parts] is the partition of [new_first] being updated in place, [rec] is
    the recursive call. *)
Fixpoint merge_loop {K} (eqb : K -> K -> bool)
    (rec : container -> container -> M container)
    (new_second_item : K -> M container)
    (parts : list (K * container)) (elements : list K) : M (list (K * container)) :=
  match elements with
  | [] => ret parts
  | element :: rest =>
      let* parts' :=
        match dict_get eqb parts element with
        | None =>
            let* v := new_second_item element in
            ret (dict_set eqb parts element v)
        | Some mine =>
            let* theirs := new_second_item element in
            let* merged := rec mine theirs in
            ret (dict_set eqb parts element merged)
        end in
      merge_loop eqb rec new_second_item parts' rest
  end.

(** [merge(first, second)]; [fuel] bounds the depth of the recursion. *)
Fixpoint merge (fuel : nat) (first second : container) : M container :=
  match fuel with
  | O => out_of_fuel
  | S fuel' =>
      match first, second with
      | VariableSet _ _ fixed1 _ variable1, VariableSet _ _ fixed2 _ variable2 =>
          let* fixed_at := alloc in
          let* variable_at := alloc in
          new_VariableSet (fixed_at, fixed1 ∪ fixed2)
                          (variable_at, set_union var_eq variable1 variable2)
      | VariableDict _ _ _ _ _, VariableDict _ _ _ _ _ =>
          let* new_first := deepcopy first in
          let* new_second := deepcopy second in
          match new_first, new_second with
          | VariableDict _ fixed_at fixed_parts variable_at variable_parts,
            VariableDict _ _ fixed2 _ variable2 =>
              let* fixed_parts' :=
                merge_loop Z.eqb (merge fuel')
                  (fun element => getitem new_second (inl element))
                  fixed_parts (fst <$> fixed2) in
              let* variable_parts' :=
                merge_loop var_eq (merge fuel')
                  (fun element => getitem new_second (inr element))
                  variable_parts (fst <$> variable2) in
              new_VariableDict (fixed_at, fixed_parts') (variable_at, variable_parts')
          | _, _ => raise TypeError
          end
      | _, _ => raise ValueError
      end
  end.

(** [VariableSet.evaluate(container)] on a value set with the partitions
    [fixed_parts] and [variable_parts]: the elements the set object holds
    after the call.  The loop visits the deferred elements in the order of
    the list; [own] is the content of the set object so far. *)
Fixpoint evaluate_elements (variable_parts : list varobj) (container : list Z)
    (own : gset Z) : M (gset Z) :=
  match variable_parts with
  | [] => ret own
  | variable_part :: rest =>
      let* values := evaluate (var variable_part) container None in
      evaluate_elements rest container (own ∪ values)
  end.

Definition VariableSet_evaluate (fixed_parts : gset Z) (variable_parts : list varobj)
    (container : list Z) : M (gset Z) :=
  evaluate_elements variable_parts container fixed_parts.

(** The inner loop of [VariableDict.evaluate],
    [for variable in variable_part.evaluate(container)], over the resolved
    keys: a key the dict object does not hold is bound to [value] itself, a
    key it holds to the merge of what it is bound to with [value]. *)
Fixpoint evaluate_keys (fuel : nat) (keys : list Z) (value : container)
    (own : list (Z * container)) : M (list (Z * container)) :=
  match keys with
  | [] => ret own
  | variable :: rest =>
      let* own' :=
        match dict_get Z.eqb own variable with
        | None => ret (dict_set Z.eqb own variable value)
        | Some mine =>
            let* merged := merge fuel mine value in
            ret (dict_set Z.eqb own variable merged)
        end in
      evaluate_keys fuel rest value own'
  end.

(** The outer loop, over the items of the deferred partition; [space] is
    the argument [container] of the method. *)
Fixpoint evaluate_items (fuel : nat) (items : list (varobj * container))
    (space : list Z) (own : list (Z * container)) : M (list (Z * container)) :=
  match items with
  | [] => ret own
  | (variable_part, value) :: rest =>
      let* keys := evaluate (var variable_part) space None in
      let* own' := evaluate_keys fuel (elements keys) value own in
      evaluate_items fuel rest space own'
  end.

(** [VariableDict.evaluate(container)] on a keyed tree with the partitions
    [fixed_parts] and [variable_parts]: the entries the dict object holds
    after the call; [fuel] bounds the depth of the merges. *)
Definition VariableDict_evaluate (fuel : nat) (fixed_parts : list (Z * container))
    (variable_parts : list (varobj * container)) (space : list Z)
  : M (list (Z * container)) :=
  evaluate_items fuel variable_parts space fixed_parts.

(** ** parser.py *)

Definition _default_listing_delimiter : str := ",".
Definition _default_range_delimiter : str := "~".
Definition _default_level_opener : str := ":[".
Definition _default_level_closer : str := "]".
Definition _default_level_delimiter : str := ",".
Definition _default_lazy_opener : str := ":".

Definition _default_index_specifier : str := "#".
Definition _default_random_specifier : str := "?".
Definition _default_all_specifier : str := "*".

(** A level type converter; [None] when it raises. *)
Definition converter : Type := str -> option Z.

(** Creation of a placeholder object. *)
Definition new_var (v : variable) : M varobj :=
  let* a := alloc in ret (VarObj a v).

(** [SampleVariable(n, exclude_original)] and [RandomVariable(exclude_original)]:
    the constructor draws the [_id]. *)
Definition new_SampleVariable (n : Z) (exclude_original : bool) : M varobj :=
  let* a := alloc in
  let* i := randint 0 maxsize in
  ret (VarObj a (SampleVariable n exclude_original i)).

Definition new_RandomVariable (exclude_original : bool) : M varobj :=
  let* a := alloc in
  let* i := randint 0 maxsize in
  ret (VarObj a (RandomVariable exclude_original i)).

Definition convert (value : str) (level_type_converter : converter)
    (index_specifier random_specifier all_specifier : str)
    (overall_position : Z) : M (varobj + Z) :=
  if startswith value index_specifier then
    if startswith value (repeat_str index_specifier 2) then
      let* v := new_var SizeVariable in ret (inl v)
    else
      let* i := of_option (Py.int (slice_from value (len index_specifier))) ValueError in
      let* v := new_var (IndexVariable i) in ret (inl v)
  else if startswith value random_specifier then
    let exclude_original := startswith value (repeat_str random_specifier 2) in
    if bool_decide (value = random_specifier) then
      let* v := new_RandomVariable exclude_original in ret (inl v)
    else
      let* n := of_option (Py.int (slice_from value (len random_specifier))) ValueError in
      let* v := new_SampleVariable n exclude_original in ret (inl v)
  else if bool_decide (value = all_specifier) then
    let* v := new_var AllVariable in ret (inl v)
  else
    match level_type_converter value with
    | Some x => ret (inr x)
    | None => raise (ParseError overall_position (CannotConvert value))
    end.

(** A converted range limit as [RangeVariable] stores it. *)
Definition limit (x : varobj + Z) : Z + variable :=
  match x with
  | inl v => inr (var v)
  | inr z => inl z
  end.

(** The body of the [for range_element in ...] loop of [unravel], without
    the update of the position: the two sets after the segment. *)
Definition unravel_segment (range_element : str) (level_type_converter : converter)
    (range_delimiter : str) (index_specifier random_specifier all_specifier : str)
    (fixed_parts : gset Z) (variable_parts : list varobj)
    (overall_position : Z) : M (gset Z * list varobj) :=
  let _convert value position :=
    convert value level_type_converter index_specifier random_specifier
            all_specifier position in
  if contains range_element range_delimiter then
    let* pieces := of_option (split range_element range_delimiter) ValueError in
    match pieces with
    | [first_tmp; last_tmp] =>
        let* first := _convert first_tmp overall_position in
        let* last := _convert last_tmp
                       (overall_position + len first_tmp + len range_delimiter) in
        match first, last with
        | inr a, inr b =>
            ret (fixed_parts ∪ list_to_set (range a (b + 1)), variable_parts)
        | _, _ =>
            let* v := new_var (RangeVariable (limit first) (limit last)) in
            ret (fixed_parts, set_add var_eq variable_parts v)
        end
    | _ => raise ValueError
    end
  else
    let* element := _convert range_element overall_position in
    match element with
    | inl v => ret (fixed_parts, set_add var_eq variable_parts v)
    | inr x => ret (fixed_parts ∪ {[ x ]}, variable_parts)
    end.

(** The [for range_element in ...] loop of [unravel] over the segments; the
    state of the loop is the two sets and the position. *)
Fixpoint unravel_loop (segments : list str) (level_type_converter : converter)
    (listing_delimiter range_delimiter : str)
    (index_specifier random_specifier all_specifier : str)
    (fixed_parts : gset Z) (variable_parts : list varobj)
    (overall_position : Z) : M (gset Z * list varobj) :=
  match segments with
  | [] => ret (fixed_parts, variable_parts)
  | range_element :: rest =>
      let* parts :=
        unravel_segment range_element level_type_converter range_delimiter
          index_specifier random_specifier all_specifier fixed_parts variable_parts
          overall_position in
      unravel_loop rest level_type_converter listing_delimiter range_delimiter
        index_specifier random_specifier all_specifier
        (fst parts) (snd parts)
        (overall_position + len range_element + len listing_delimiter)
  end.

Definition unravel (listing : str) (level_type_converter : converter)
    (listing_delimiter range_delimiter : str)
    (index_specifier random_specifier all_specifier : str)
    (overall_position : Z) : M container :=
  let* fixed_at := alloc in
  let* variable_at := alloc in
  let* parts :=
    if 0 <? len listing then
      let* segments := of_option (split listing listing_delimiter) ValueError in
      unravel_loop segments level_type_converter listing_delimiter range_delimiter
        index_specifier random_specifier all_specifier ∅ [] overall_position
    else ret (∅, []) in
  new_VariableSet (fixed_at, fst parts) (variable_at, snd parts).

(** The stack of pending openers, its top first. *)
Fixpoint remove_trailing_lazy_openers (lazy_opener : str) (stack : list str) : list str :=
  match stack with
  | top :: stack' =>
      if bool_decide (top = lazy_opener)
      then remove_trailing_lazy_openers lazy_opener stack'
      else stack
  | [] => []
  end.

(** [stack.pop()], the popped element dropped. *)
Definition pop {A} (stack : list A) : M (list A) :=
  match stack with
  | _ :: stack' => ret stack'
  | [] => raise IndexError
  end.

(** The inner [while True] loop of [parse_tree], which looks for the closer
    matching the first opener; it returns [current_position] and [done]. *)
Fixpoint find_closer (fuel : nat) (tail : str)
    (level_opener lazy_opener level_closer : str) (overall_position : Z)
    (stack : list str) (current_position : Z) (done : bool) : M (Z * bool) :=
  match fuel with
  | O => out_of_fuel
  | S fuel' =>
      let next_opener := find tail level_opener current_position in
      let next_lazy_opener := find tail lazy_opener current_position in
      let next_closer := find tail level_closer current_position in
      let lazy_first := valid_comp next_lazy_opener next_opener <? 0 in
      let next_opener := if lazy_first then next_lazy_opener else next_opener in
      let next_opener_symbol := if lazy_first then lazy_opener else level_opener in
      let terminal := next_closer =? -1 in
      if valid_comp next_opener next_closer <? 0 then
        find_closer fuel' tail level_opener lazy_opener level_closer overall_position
          (next_opener_symbol :: stack) (next_opener + len next_opener_symbol) done
      else
        let stack := remove_trailing_lazy_openers lazy_opener stack in
        let* stack := if negb terminal then pop stack else ret stack in
        let* closing :=
          if terminal || (next_closer + len level_closer =? len tail) then
            let stack := remove_trailing_lazy_openers lazy_opener stack in
            if 0 <? len stack
            then raise (ParseError (overall_position + len tail) ExpectedClosers)
            else ret (stack, true)
          else ret (stack, done) in
        let stack := fst closing in
        let done := snd closing in
        if len stack =? 0 then
          if terminal then ret (len tail, true) else ret (next_closer, done)
        else
          find_closer fuel' tail level_opener lazy_opener level_closer overall_position
            stack (next_closer + len level_closer) done
  end.

(** [parse_tree]; the outer [while True] loop is [parse_level], [fuel] bounds
    the iterations of the loops and the depth of the recursion. *)
Fixpoint parse_tree (fuel : nat) (tree : str) (level_type_converters : list converter)
    (level_opener lazy_opener level_closer level_delimiter : str)
    (listing_delimiter range_delimiter : str)
    (index_specifier random_specifier all_specifier : str)
    (overall_position : Z) : M container :=
  match fuel with
  | O => out_of_fuel
  | S fuel' =>
      match level_type_converters with
      | [leaf] =>
          unravel tree leaf listing_delimiter range_delimiter index_specifier
            random_specifier all_specifier overall_position
      | _ =>
          let* result := empty_VariableDict in
          parse_level fuel' tree level_type_converters level_opener lazy_opener
            level_closer level_delimiter listing_delimiter range_delimiter
            index_specifier random_specifier all_specifier overall_position result
      end
  end
with parse_level (fuel : nat) (tree : str) (level_type_converters : list converter)
    (level_opener lazy_opener level_closer level_delimiter : str)
    (listing_delimiter range_delimiter : str)
    (index_specifier random_specifier all_specifier : str)
    (overall_position : Z) (result : container) : M container :=
  match fuel with
  | O => out_of_fuel
  | S fuel' =>
      let first_opener := find tree level_opener 0 in
      let first_lazy_opener := find tree lazy_opener 0 in
      let* opening :=
        if valid_comp first_lazy_opener first_opener <? 0 then
          let* pieces := of_option (split1 tree lazy_opener) ValueError in
          match pieces with
          | [next_roots; tail] => ret (next_roots, tail, lazy_opener)
          | _ => raise ValueError
          end
        else if -1 <? first_opener then
          let* pieces := of_option (split1 tree level_opener) ValueError in
          match pieces with
          | [next_roots; tail] => ret (next_roots, tail, level_opener)
          | _ => raise ValueError
          end
        else
          let next_closer := valid_min (find tree level_closer 0) [len tree] in
          raise (ParseError (overall_position + next_closer) MoreLevelsRequired) in
      let '(next_roots, tail, first_opener_symbol) := opening in
      let* closing :=
        find_closer fuel' tail level_opener lazy_opener level_closer overall_position
          [first_opener_symbol] 0 false in
      let current_position := fst closing in
      let done := snd closing in
      let sub_trees := slice_to tail current_position in
      let* sub_trees_processed :=
        parse_tree fuel' sub_trees (List.tl level_type_converters) level_opener
          lazy_opener level_closer level_delimiter listing_delimiter range_delimiter
          index_specifier random_specifier all_specifier
          (overall_position + len next_roots + len first_opener_symbol) in
      let* root_converter := of_option (head level_type_converters) IndexError in
      let* roots_unraveled :=
        unravel next_roots root_converter listing_delimiter range_delimiter
          index_specifier random_specifier all_specifier overall_position in
      let* level :=
        match roots_unraveled with
        | VariableSet _ _ fixed_parts _ variable_parts =>
            let* fixed_at := alloc in
            let* variable_at := alloc in
            new_VariableDict
              (fixed_at, fromkeys Z.eqb (elements fixed_parts) sub_trees_processed)
              (variable_at, fromkeys var_eq variable_parts sub_trees_processed)
        | VariableDict _ _ _ _ _ => raise TypeError
        end in
      let* result := merge fuel' result level in
      if done then ret result
      else
        let shift := current_position + len level_closer + len level_delimiter in
        parse_level fuel' (slice_from tail shift) level_type_converters level_opener
          lazy_opener level_closer level_delimiter listing_delimiter range_delimiter
          index_specifier random_specifier all_specifier
          (overall_position + first_lazy_opener + len first_opener_symbol + shift)
          result
  end.

(** The functions with the defaults of their keyword arguments. *)
Definition classify (value : str) (level_type_converter : converter)
    (overall_position : Z) : M (varobj + Z) :=
  convert value level_type_converter _default_index_specifier
    _default_random_specifier _default_all_specifier overall_position.

Definition resolve_listing (listing : str) (level_type_converter : converter)
    (overall_position : Z) : M container :=
  unravel listing level_type_converter _default_listing_delimiter
    _default_range_delimiter _default_index_specifier _default_random_specifier
    _default_all_specifier overall_position.

Definition parse_tree_default (fuel : nat) (tree : str)
    (level_type_converters : list converter) (overall_position : Z) : M container :=
  parse_tree fuel tree level_type_converters _default_level_opener
    _default_lazy_opener _default_level_closer _default_level_delimiter
    _default_listing_delimiter _default_range_delimiter _default_index_specifier
    _default_random_specifier _default_all_specifier overall_position.

(** ** Views used in the statements *)

(** A container without the addresses of its objects. *)
Inductive shape : Type :=
  | SetShape (fixed : gset Z) (deferred : list variable)
  | DictShape (fixed : list (Z * shape)) (deferred : list (variable * shape)).

Fixpoint shape_of (c : container) : shape :=
  match c with
  | VariableSet _ _ fixed _ deferred => SetShape fixed (var <$> deferred)
  | VariableDict _ _ fixed _ deferred =>
      DictShape ((fun kv => (fst kv, shape_of (snd kv))) <$> fixed)
                ((fun kv => (var (fst kv), shape_of (snd kv))) <$> deferred)
  end.

Definition run {A} (c : M A) (s : state) : outcome A :=
  match c s with
  | Ok (a, _) => Ok a
  | Raise e => Raise e
  | OutOfFuel => OutOfFuel
  end.


(** The objects a container consists of: the object itself, its two
    partitions, and those of the subtrees it holds. *)
Fixpoint addresses (c : container) : list addr :=
  match c with
  | VariableSet self fixed_at _ variable_at _ => [self; fixed_at; variable_at]
  | VariableDict self fixed_at fixed variable_at deferred =>
      self :: fixed_at :: variable_at ::
      concat ((fun kv => addresses (snd kv)) <$> fixed) ++
      concat ((fun kv => addresses (snd kv)) <$> deferred)
  end.

(** A mutation of the object at address [p]: every node of the unfolding
    that is this object, or has it as a partition, is changed by [f]. *)
Fixpoint mutate (p : addr) (f : container -> container) (c : container) : container :=
  match c with
  | VariableSet self fixed_at _ variable_at _ =>
      if bool_decide (p ∈ [self; fixed_at; variable_at]) then f c else c
  | VariableDict self fixed_at fixed variable_at deferred =>
      let c' :=
        VariableDict self fixed_at
          ((fun kv => (fst kv, mutate p f (snd kv))) <$> fixed) variable_at
          ((fun kv => (fst kv, mutate p f (snd kv))) <$> deferred) in
      if bool_decide (p ∈ [self; fixed_at; variable_at]) then f c' else c'
  end.

(** The addresses of the placeholder objects a container holds, as elements
    of a value set or as deferred keys. *)
Fixpoint var_addresses (c : container) : list addr :=
  match c with
  | VariableSet _ _ _ _ deferred => addr_of <$> deferred
  | VariableDict _ _ fixed _ deferred =>
      concat ((fun kv => [] ++ var_addresses (snd kv)) <$> fixed) ++
      concat ((fun kv => [addr_of (fst kv)] ++ var_addresses (snd kv)) <$> deferred)
  end.

(** Containers of depth [d]: value sets at depth 0, keyed trees of subtrees
    of depth [d] at depth [d + 1] (what [merge] assumes of its arguments). *)
Fixpoint uniform (d : nat) (c : container) : Prop :=
  match d, c with
  | O, VariableSet _ _ _ _ _ => True
  | S d', VariableDict _ _ fixed _ deferred =>
      Forall (fun kv => uniform d' (snd kv)) fixed /\
      Forall (fun kv => uniform d' (snd kv)) deferred
  | _, _ => False
  end.

Definition within (lo hi : addr) (l : list addr) : Prop :=
  Forall (fun a => (lo <= a < hi)%N) l.

(** All objects of [c] have an address from [lo] on, below [hi]. *)
Definition in_range (lo hi : addr) (c : container) : Prop :=
  within lo hi (addresses c).

(** What a deep copy [c'] of [c] made with the addresses from [lo] on and
    below [hi] satisfies. *)
Definition copied (lo hi : addr) (c c' : container) : Prop :=
  shape_of c' = shape_of c /\
  in_range lo hi c' /\
  within lo hi (var_addresses c') /\
  NoDup (var_addresses c') /\
  forall d, uniform d c -> uniform d c'.

Definition copies (c : container) : Prop :=
  forall s, exists c' s',
    deepcopy c s = Ok (c', s') /\
    (next_addr s <= next_addr s')%N /\ random s' = random s /\
    copied (next_addr s) (next_addr s') c c'.

(** ** The deep merge as the specification words it

    On containers without addresses: value sets are united partition by
    partition; of two keyed trees, an entry whose key only one side has is
    carried over, and the subtrees of a key both sides have are merged
    recursively.  Deferred keys and deferred elements are compared the way
    that survives cloning: sample (or random) placeholders with the same
    identifier are equal, nothing else is. *)

Definition same_sample (a b : variable) : bool :=
  match a, b with
  | SampleVariable _ _ i, SampleVariable _ _ j => i =? j
  | RandomVariable _ i, RandomVariable _ j => i =? j
  | _, _ => false
  end.

Definition merge_entries {K} (eqb : K -> K -> bool)
    (rec : shape -> shape -> option shape)
  : list (K * shape) -> list (K * shape) -> option (list (K * shape)) :=
  fix entries (mine theirs : list (K * shape)) {struct theirs} :=
    match theirs with
    | [] => Some mine
    | (k, y) :: rest =>
        match dict_get eqb mine k with
        | None => entries (dict_set eqb mine k y) rest
        | Some x =>
            match rec x y with
            | Some r => entries (dict_set eqb mine k r) rest
            | None => None
            end
        end
    end.

Fixpoint merge_shape (a b : shape) {struct b} : option shape :=
  match a, b with
  | SetShape fixed1 deferred1, SetShape fixed2 deferred2 =>
      Some (SetShape (fixed1 ∪ fixed2) (set_union same_sample deferred1 deferred2))
  | DictShape fixed1 deferred1, DictShape fixed2 deferred2 =>
      match merge_entries Z.eqb merge_shape fixed1 fixed2,
            merge_entries same_sample merge_shape deferred1 deferred2 with
      | Some fixed, Some deferred => Some (DictShape fixed deferred)
      | _, _ => None
      end
  | _, _ => None
  end.

(** No two keys of a list are equal for [eqb]. *)
Fixpoint distinct {K} (eqb : K -> K -> bool) (l : list K) : Prop :=
  match l with
  | [] => True
  | k :: l' => Forall (fun k' => eqb k' k = false) l' /\ distinct eqb l'
  end.

Definition All {A} (P : A -> Prop) : list A -> Prop :=
  fix all (l : list A) : Prop :=
    match l with
    | [] => True
    | x :: l' => P x /\ all l'
    end.

(** The keys of every dict of a keyed tree are pairwise different. *)
Fixpoint distinct_keys (b : shape) : Prop :=
  match b with
  | SetShape _ _ => True
  | DictShape fixed deferred =>
      distinct Z.eqb (fst <$> fixed) /\ distinct same_sample (fst <$> deferred) /\
      All (fun kv => distinct_keys (snd kv)) fixed /\
      All (fun kv => distinct_keys (snd kv)) deferred
  end.

(** The partitions of a value set and of a keyed tree. *)
Definition set_fixed (c : container) : gset Z :=
  match c with
  | VariableSet _ _ fixed _ _ => fixed
  | VariableDict _ _ _ _ _ => ∅
  end.

Definition set_deferred (c : container) : list varobj :=
  match c with
  | VariableSet _ _ _ _ deferred => deferred
  | VariableDict _ _ _ _ _ => []
  end.

Definition shape_fixed (t : shape) : list (Z * shape) :=
  match t with
  | DictShape fixed _ => fixed
  | SetShape _ _ => []
  end.

Definition shape_deferred (t : shape) : list (variable * shape) :=
  match t with
  | DictShape _ deferred => deferred
  | SetShape _ _ => []
  end.

(** An entry of a dict without addresses, [phi] being what is kept of the
    key. *)
Definition erase {K K'} (phi : K -> K') (kv : K * container) : K' * shape :=
  (phi (fst kv), shape_of (snd kv)).

(** The deferred entries of a keyed tree. *)
Definition dict_deferred (c : container) : list (varobj * container) :=
  match c with
  | VariableDict _ _ _ _ deferred => deferred
  | VariableSet _ _ _ _ _ => []
  end.

(** What the specification says of the entry at a key of a merged dict:
    [x] and [y] are the entries of the two sides, [rec] merges subtrees. *)
Definition merged_entry (rec : shape -> shape -> option shape)
    (x y : option shape) : option shape :=
  match x, y with
  | Some x, Some y => rec x y
  | Some x, None => Some x
  | None, Some y => Some y
  | None, None => None
  end.

(** ** Listings and trees as texts *)

(** [sep.join(pieces)] *)
Definition join (sep : str) (pieces : list str) : str :=
  match pieces with
  | [] => []
  | x :: rest => x ++ concat ((fun y => sep ++ y) <$> rest)
  end.

(** A segment of a literal-only listing: a single literal, or a range between
    two literals. *)
Inductive segment : Type :=
  | Single (token : str)
  | Span (first last : str).

Definition segment_text (g : segment) : str :=
  match g with
  | Single token => token
  | Span first last => first ++ _default_range_delimiter ++ last
  end.

(** The segment is made of literals the converter accepts. *)
Definition literal (conv : converter) (g : segment) : Prop :=
  match g with
  | Single token => is_Some (conv token)
  | Span first last => is_Some (conv first) /\ is_Some (conv last)
  end.

(** The values a literal segment describes: the value of the literal, or
    every integer from the first limit to the last one, both included. *)
Definition describes (conv : converter) (g : segment) (z : Z) : Prop :=
  match g with
  | Single token => conv token = Some z
  | Span first last =>
      exists a b, conv first = Some a /\ conv last = Some b /\ a <= z <= b
  end.

(** The values of a literal segment, as a set. *)
Definition values (conv : converter) (g : segment) : gset Z :=
  match g with
  | Single token =>
      match conv token with
      | Some z => {[ z ]}
      | None => ∅
      end
  | Span first last =>
      match conv first, conv last with
      | Some a, Some b => list_to_set (range a (b + 1))
      | _, _ => ∅
      end
  end.

(** How far the position of the listing resolver moves over segments: the
    length of each segment plus the width of one delimiter. *)
Definition advance (listing_delimiter : str) (segments : list str) : Z :=
  foldr (fun x rest => len x + len listing_delimiter + rest) 0 segments.

(** No default placeholder marker matches the token. *)
Definition unmarked (token : str) : Prop :=
  startswith token _default_index_specifier = false /\
  startswith token _default_random_specifier = false /\
  token <> _default_all_specifier.

(** The characters of what [int] accepts. *)
Definition int_char (c : ascii) : bool :=
  is_space c || bool_decide (is_Some (digit_of c))
  || Ascii.eqb c "+" || Ascii.eqb c "-" || Ascii.eqb c "_".

(** What the resolver needs of the text of a literal segment: no delimiter
    inside a literal, no marker in front of it. *)
Definition well_delimited (g : segment) : Prop :=
  match g with
  | Single t => (("," : ascii) ∉ t) /\ (("~" : ascii) ∉ t) /\ unmarked t
  | Span a b =>
      ((("," : ascii) ∉ a) /\ (("~" : ascii) ∉ a) /\ unmarked a) /\
      ((("," : ascii) ∉ b) /\ (("~" : ascii) ∉ b) /\ unmarked b)
  end.

(** The text of pieces each followed by the delimiter, and of pieces each
    preceded by it: what stands before and after a piece of a joined text. *)
Definition followed (sep : str) (pieces : list str) : str :=
  concat ((fun x => x ++ sep) <$> pieces).

Definition preceded (sep : str) (pieces : list str) : str :=
  concat ((fun y => sep ++ y) <$> pieces).

(** The listing resolver gets through the segments, whatever the sets, the
    position and the state it starts from. *)
Definition accepted (conv : converter) (segments : list str) : Prop :=
  forall (f : gset Z) (v : list varobj) (p : Z) (s : state),
  exists parts s',
    unravel_loop segments conv _default_listing_delimiter _default_range_delimiter
      _default_index_specifier _default_random_specifier _default_all_specifier
      f v p s = Ok (parts, s').

(** A text without any character of the level symbols. *)
Definition plain (x : str) : Prop :=
  ((":" : ascii) ∉ x) /\ (("[" : ascii) ∉ x) /\ (("]" : ascii) ∉ x).

(** The listing resolver gets through the whole listing, whatever the
    position and the state it starts from. *)
Definition resolves (conv : converter) (listing : str) : Prop :=
  forall (p : Z) (s : state),
  exists r s',
    unravel listing conv _default_listing_delimiter _default_range_delimiter
      _default_index_specifier _default_random_specifier _default_all_specifier
      p s = Ok (r, s').

(** A level group written with the strict opener and closer, followed by the
    level delimiter: [roots:[body],]. *)
Definition group_text (g : str * str) : str :=
  fst g ++ _default_level_opener ++ snd g ++ _default_level_closer
  ++ _default_level_delimiter.

(** ** Values of range limits *)

(** The value of a range limit on a value space, for a limit that is a
    literal or one of the placeholders of a single value that do not draw:
    an index, the size, a constant. *)
Definition limit_value (container : list Z) (x : Z + variable) : option Z :=
  match x with
  | inl z => Some z
  | inr (IndexVariable i) => Py.index container i
  | inr SizeVariable => Some (len container)
  | inr (ConstantVariable z) => Some z
  | inr _ => None
  end.

(** ** Placeholders that sample without the original value *)

(** The placeholder is a sample or a random placeholder that excludes the
    original value, or a range with such a limit. *)
Fixpoint excludes (v : variable) : bool :=
  match v with
  | SampleVariable _ exclude_original _ => exclude_original
  | RandomVariable exclude_original _ => exclude_original
  | RangeVariable first last =>
      match first with inr w => excludes w | inl _ => false end
      || match last with inr w => excludes w | inl _ => false end
  | _ => false
  end.

(** ** Two-level trees of literal listings *)

(** The text of a listing of literal segments, and the values it
    describes. *)
Definition listing_text (items : list segment) : str :=
  join _default_listing_delimiter (segment_text <$> items).

Definition listing_values (conv : converter) (items : list segment) : gset Z :=
  ⋃ (values conv <$> items).

(** The text of a level group of two listings, [roots:[body],]. *)
Definition level_text (g : list segment * list segment) : str :=
  group_text (listing_text (fst g), listing_text (snd g)).

(** The values of the roots and of the body of a group. *)
Definition level_values (c1 c2 : converter) (g : list segment * list segment)
  : gset Z * gset Z :=
  (listing_values c1 (fst g), listing_values c2 (snd g)).

(** What a keyed tree of depth 1 without deferred parts binds, [groups]
    being pairs of a set of roots and a set of values: the keys of its
    entries are pairwise different, a key is bound exactly when the roots
    of some group hold it, and then to the value set of the values of all
    the groups whose roots hold it. *)
Definition binds (groups : list (gset Z * gset Z)) (t : shape) : Prop :=
  exists fixed,
    t = DictShape fixed [] /\
    NoDup (fst <$> fixed) /\
    forall k,
      match dict_get Z.eqb fixed k with
      | Some sub =>
          Exists (fun g => k ∈ fst g) groups /\
          exists S, sub = SetShape S [] /\
                    forall z, z ∈ S <-> Exists (fun g => k ∈ fst g /\ z ∈ snd g) groups
      | None => Forall (fun g => k ∉ fst g) groups
      end.

(** ** Nested level groups *)

(** The structure of a text between an opener and its closer: a text
    without level symbols, followed by nothing ([Plain]), by a strict group
    and what stands behind its closer ([Group]), or by a lazy level, which
    runs up to the closer of the enclosing strict group ([Lazy]). *)
Inductive nest : Type :=
  | Plain (x : str)
  | Group (x : str) (inner behind : nest)
  | Lazy (x : str) (inner : nest).

Fixpoint nest_text (b : nest) : str :=
  match b with
  | Plain x => x
  | Group x inner behind =>
      x ++ _default_level_opener ++ nest_text inner ++ _default_level_closer
      ++ nest_text behind
  | Lazy x inner => x ++ _default_lazy_opener ++ nest_text inner
  end.

(** The texts between the symbols hold no level symbol. *)
Fixpoint nest_plain (b : nest) : Prop :=
  match b with
  | Plain x => plain x
  | Group x inner behind => plain x /\ nest_plain inner /\ nest_plain behind
  | Lazy x inner => plain x /\ nest_plain inner
  end.

(** The number of symbols: the rounds the search for a closer takes over the
    text. *)
Fixpoint nest_steps (b : nest) : nat :=
  match b with
  | Plain _ => 0
  | Group _ inner behind => S (nest_steps inner + S (nest_steps behind))
  | Lazy _ inner => S (nest_steps inner)
  end.

(** The lazy levels still open at the end of the text. *)
Fixpoint nest_lazies (b : nest) : nat :=
  match b with
  | Plain _ => 0
  | Group _ _ behind => nest_lazies behind
  | Lazy _ inner => S (nest_lazies inner)
  end.

(** ** Trees without deferred parts, and their paths *)

(** A tree of depth [d] without deferred parts whose dicts have pairwise
    different keys: a value set at depth 0, a keyed tree of such trees of
    depth [d] at depth [d + 1]. *)
Fixpoint flat (d : nat) (t : shape) : Prop :=
  match d, t with
  | O, SetShape _ deferred => deferred = []
  | S d', DictShape fixed deferred =>
      deferred = [] /\ NoDup (fst <$> fixed) /\ All (fun kv => flat d' (snd kv)) fixed
  | _, _ => False
  end.

(** The fixed paths of a tree: the keys from the root down to a value set,
    followed by one of its fixed elements. *)
Fixpoint paths (path : list Z) (t : shape) : Prop :=
  match path with
  | [] => False
  | k :: rest =>
      match t with
      | SetShape fixed _ => rest = [] /\ k ∈ fixed
      | DictShape fixed _ =>
          match dict_get Z.eqb fixed k with
          | Some sub => paths rest sub
          | None => False
          end
      end
  end.

(** ** Trees of literal listings of any depth *)

(** A text of nested strict level groups: a listing of literals, or level
    groups [roots:[subtree]] separated by the level delimiter (the groups
    before the last one, and the last one). *)
Inductive level_tree : Type :=
  | Leaf (items : list segment)
  | Node (groups : list (list segment * level_tree)) (last : list segment * level_tree).

Fixpoint tree_text (t : level_tree) : str :=
  match t with
  | Leaf items => listing_text items
  | Node groups last =>
      concat ((fun g => group_text (listing_text (fst g), tree_text (snd g))) <$> groups)
      ++ listing_text (fst last) ++ _default_level_opener ++ tree_text (snd last)
      ++ _default_level_closer
  end.

(** The tree has depth [d] and its listings are made of [int] literals. *)
Fixpoint levels (d : nat) (t : level_tree) : Prop :=
  match d, t with
  | O, Leaf items => Forall (literal Py.int) items
  | S d', Node groups last =>
      All (fun g => Forall (literal Py.int) (fst g) /\ levels d' (snd g)) (groups ++ [last])
  | _, _ => False
  end.

(** The paths a tree of listings describes: a value of the roots of a group
    followed by a path of its subtree; at a leaf, a value of the listing. *)
Fixpoint tree_paths (path : list Z) (t : level_tree) : Prop :=
  match path with
  | [] => False
  | k :: rest =>
      match t with
      | Leaf items => rest = [] /\ k ∈ listing_values Py.int items
      | Node groups last =>
          Exists (fun g => k ∈ listing_values Py.int (fst g) /\ tree_paths rest (snd g))
                 (groups ++ [last])
      end
  end.

(** The nesting of the text of a tree: the groups of a level one behind the
    other, the level delimiter standing before the roots of the next group;
    [nest_of] gives the nesting of the subtrees. *)
Definition chain_nest (nest_of : level_tree -> nest) (last : list segment * level_tree)
  : str -> list (list segment * level_tree) -> nest :=
  fix chain (sep : str) (l : list (list segment * level_tree)) : nest :=
    match l with
    | [] => Group (sep ++ listing_text (fst last)) (nest_of (snd last)) (Plain [])
    | g :: l' =>
        Group (sep ++ listing_text (fst g)) (nest_of (snd g))
              (chain _default_level_delimiter l')
    end.

Fixpoint to_nest (t : level_tree) : nest :=
  match t with
  | Leaf items => Plain (listing_text items)
  | Node groups last => chain_nest to_nest last [] groups
  end.

(** Fuel that suffices to parse the text of a tree. *)
Fixpoint tree_fuel (t : level_tree) : nat :=
  match t with
  | Leaf _ => 1
  | Node groups last =>
      S (list_sum ((fun g => 3 + nest_steps (to_nest (snd g)) + tree_fuel (snd g))%nat
                     <$> groups)
         + (3 + nest_steps (to_nest (snd last)) + tree_fuel (snd last)))%nat
  end.

(** ** Listings with placeholders that do not draw *)

(** What a token of a listing stands for: an integer literal or, by its
    marker, an index placeholder, the size placeholder (whatever follows the
    doubled index marker) or the placeholder of all values. *)
Definition token_of (t : str) (x : Z + variable) : Prop :=
  match x with
  | inl z => Py.int t = Some z
  | inr (IndexVariable i) =>
      exists r, t = _default_index_specifier ++ r /\ Py.int r = Some i
  | inr SizeVariable =>
      exists r, t = repeat_str _default_index_specifier 2 ++ r /\
                (("," : ascii) ∉ r) /\ (("~" : ascii) ∉ r)
  | inr AllVariable => t = _default_all_specifier
  | inr _ => False
  end.

(** An entry of a listing: one token, or a range between two tokens, each
    with what it stands for. *)
Inductive entry : Type :=
  | One (t : str) (x : Z + variable)
  | FromTo (a b : str) (xa xb : Z + variable).

Definition entry_text (e : entry) : str :=
  match e with
  | One t _ => t
  | FromTo a b _ _ => a ++ _default_range_delimiter ++ b
  end.

Definition entry_ok (e : entry) : Prop :=
  match e with
  | One t x => token_of t x
  | FromTo a b xa xb => token_of a xa /\ token_of b xb
  end.

(** The values a token and an entry stand for on a value space: the value
    of the literal, the element at the index, the size, all the elements;
    for a range, every integer between the values of its limits, both
    included.  [None] when an index is out of range (or a limit is not a
    single value). *)
Definition token_values (container : list Z) (x : Z + variable) : option (gset Z) :=
  match x with
  | inr AllVariable => Some (list_to_set container)
  | _ => (fun z => {[ z ]}) <$> limit_value container x
  end.

Definition entry_values (container : list Z) (e : entry) : option (gset Z) :=
  match e with
  | One _ x => token_values container x
  | FromTo _ _ xa xb =>
      match limit_value container xa, limit_value container xb with
      | Some a, Some b => Some (list_to_set (range a (b + 1)))
      | _, _ => None
      end
  end.

(** What an entry adds to the fixed part of the value set, and the
    placeholder it adds to the deferred part. *)
Definition entry_fixed (e : entry) : gset Z :=
  match e with
  | One _ (inl z) => {[ z ]}
  | FromTo _ _ (inl a) (inl b) => list_to_set (range a (b + 1))
  | _ => ∅
  end.

Definition entry_deferred (e : entry) : option variable :=
  match e with
  | One _ (inr v) => Some v
  | One _ (inl _) => None
  | FromTo _ _ (inl _) (inl _) => None
  | FromTo _ _ xa xb => Some (RangeVariable xa xb)
  end.

(** ** Segments with a malformed token *)







(** ** Containers used as examples *)

(** [{1: {1, 2}}] and [{1: {2, 3}, 5: {9}}], objects at addresses 0 to 17. *)
Definition tree_first : container :=
  VariableDict 0 1 [(1, VariableSet 3 4 {[ 1; 2 ]} 5 [])] 2 [].

Definition tree_second : container :=
  VariableDict 6 7 [(1, VariableSet 9 10 {[ 2; 3 ]} 11 []);
                    (5, VariableSet 12 13 {[ 9 ]} 14 [])] 8 [].

(** Two keyed trees whose only key is one and the same index placeholder,
    the object at address 20. *)
Definition shared_key : varobj := VarObj 20 (IndexVariable 0).

Definition deferred_first : container :=
  VariableDict 0 1 [] 2 [(shared_key, VariableSet 3 4 {[ 1 ]} 5 [])].

Definition deferred_second : container :=
  VariableDict 6 7 [] 8 [(shared_key, VariableSet 9 10 {[ 2 ]} 11 [])].

(* ===================================================================== *)
(** * Part II. Properties                                                *)
(* ===================================================================== *)

(** ** The token classifier *)

(** C1.  With the default markers, whatever the converter, the position and
    the state: ["##"] is classified as a size placeholder, ["#2"] as the
    index placeholder of index 2 and ["?"] as a random placeholder that does
    not exclude the original, the index marker being tested first.  On
    ["??3"] (and on ["??"]) the doubled random marker is recognised but only
    one marker is cut off before [int] is applied, so [convert] raises
    [ValueError] instead of returning the sample placeholder of size 3 that
    excludes the original. *)
Theorem classify_default_tokens (conv : converter) (p : Z) (s : state) :
  (exists o, run (classify "##" conv p) s = Ok (inl o) /\ var o = SizeVariable) /\
  (exists o, run (classify "#2" conv p) s = Ok (inl o) /\ var o = IndexVariable 2) /\
  (exists o i, run (classify "?" conv p) s = Ok (inl o) /\ var o = RandomVariable false i) /\
  run (classify "??3" conv p) s = Raise ValueError /\
  run (classify "??" conv p) s = Raise ValueError.
Proof.
  destruct s as [n r]. repeat split.
  - eexists. split; reflexivity.
  - eexists. split; reflexivity.
  - eexists _, _. split; reflexivity.
Qed.

(** C10, the statement as written fails: ["?"] begins with the random marker
    and what follows the marker is not an integer, and so does ["##x"] with
    the index marker, yet neither raises: the exact random marker and the
    doubled index marker are tested before [int] is reached. *)
Lemma classify_marker_without_integer :
  (startswith "?" _default_random_specifier = true /\
   Py.int (slice_from (str_of "?") (len _default_random_specifier)) = None /\
   run (classify "?" Py.int 0) (State 0 []) = Ok (inl (VarObj 0 (RandomVariable false 0)))) /\
  (startswith "##x" _default_index_specifier = true /\
   Py.int (slice_from (str_of "##x") (len _default_index_specifier)) = None /\
   run (classify "##x" Py.int 0) (State 0 []) = Ok (inl (VarObj 0 SizeVariable))).
Proof. repeat split. Qed.

(** C10, amended.  A token that begins with the index marker but not with the
    doubled one, or that begins with the random marker (and not with the
    index marker) without being the random marker itself, and whose
    remainder after that one marker [int] rejects, makes [convert] raise the
    plain [ValueError] of [int]: no [ParseError], no position.  A
    [ParseError] is raised exactly when no marker matches and the converter
    rejects the token, and then it carries the position passed in. *)
Theorem convert_marker_value_error (value : str) (conv : converter)
    (idx rnd all : str) (p : Z) (s : state) :
  (startswith value idx = true /\ startswith value (repeat_str idx 2) = false /\
   Py.int (slice_from value (len idx)) = None) \/
  (startswith value idx = false /\ startswith value rnd = true /\ value <> rnd /\
   Py.int (slice_from value (len rnd)) = None) ->
  convert value conv idx rnd all p s = Raise ValueError /\
  forall value' p' s' q m,
    convert value' conv idx rnd all p' s' = Raise (ParseError q m) <->
    startswith value' idx = false /\ startswith value' rnd = false /\
    value' <> all /\ conv value' = None /\ q = p' /\ m = CannotConvert value'.
Proof.
  intros H. split.
  - unfold convert. destruct H as [(H1 & H2 & H3) | (H1 & H2 & H3 & H4)].
    + rewrite H1, H2, H3. reflexivity.
    + rewrite H1, H2, H4. rewrite bool_decide_eq_false_2 by assumption. reflexivity.
  - clear. intros value p s q m. unfold convert.
    destruct (startswith value idx) eqn:E1.
    { split; [|intros (? & _); discriminate].
      destruct (startswith value (repeat_str idx 2)); [discriminate|].
      destruct (Py.int _); discriminate. }
    destruct (startswith value rnd) eqn:E2.
    { split; [|intros (_ & ? & _); discriminate].
      destruct (bool_decide _); [discriminate|].
      destruct (Py.int _); discriminate. }
    destruct (bool_decide (value = all)) eqn:E3.
    { apply bool_decide_eq_true_1 in E3.
      split; [discriminate|]. intros (_ & _ & ? & _). contradiction. }
    apply bool_decide_eq_false_1 in E3.
    destruct (conv value) eqn:E4.
    { split; [discriminate|]. intros (_ & _ & _ & ? & _). discriminate. }
    split.
    + unfold raise. intros [= <- <-]. repeat split; auto.
    + intros (_ & _ & _ & _ & -> & ->). reflexivity.
Qed.

Lemma convert_marker_value_error_witness :
  convert "#x" Py.int "#" "?" "*" 7 (State 0 []) = Raise ValueError /\
  forall value' p' s' q m,
    convert value' Py.int "#" "?" "*" p' s' = Raise (ParseError q m) <->
    startswith value' "#" = false /\ startswith value' "?" = false /\
    value' <> str_of "*" /\ Py.int value' = None /\ q = p' /\ m = CannotConvert value'.
Proof.
  apply (convert_marker_value_error "#x" Py.int "#" "?" "*" 7 (State 0 [])).
  left. repeat split.
Defined.

(** ** Placeholder resolution *)

Lemma set_pop_spec (S : gset Z) (s : state) :
  S <> ∅ ->
  exists x, x ∈ S /\
    set_pop S s = Ok ((x, S ∖ {[ x ]}), State (next_addr s) (tl (random s))).
Proof.
  intros HS. unfold set_pop.
  destruct (elements S) as [|y l] eqn:E.
  { apply elements_empty_inv in E. apply leibniz_equiv in E. contradiction. }
  rewrite <- E. unfold bind, randbelow. cbn beta iota.
  set (j := hd 0 (random s) mod len (elements S)).
  assert (Hj : 0 <= j < len (elements S)).
  { apply Z.mod_pos_bound. unfold len. rewrite E. cbn. lia. }
  destruct (elements S !! Z.to_nat j) as [x|] eqn:Ex.
  - exists x. split; [|reflexivity].
    apply elem_of_elements. eapply list_elem_of_lookup_2. exact Ex.
  - apply lookup_ge_None in Ex. unfold len in Hj. lia.
Qed.

Lemma submseteq_NoDup {A} (l k : list A) : l ⊆+ k -> NoDup k -> NoDup l.
Proof.
  intros [k' Hk]%submseteq_Permutation Hnd. rewrite Hk in Hnd.
  apply NoDup_app in Hnd as [? _]. assumption.
Qed.

Lemma sample_go_spec (k : nat) : forall (pool : list Z) (s : state),
  (k <= length pool)%nat ->
  exists l s', sample_go pool k s = Ok (l, s') /\ length l = k /\ l ⊆+ pool.
Proof.
  induction k as [|k IH]; intros pool s Hk.
  - exists [], s. split; [reflexivity|]. split; [reflexivity|]. apply submseteq_nil_l.
  - cbn [sample_go]. unfold bind at 1. unfold randbelow at 1. cbn beta iota.
    set (j := hd 0 (random s) mod len pool).
    assert (Hj : 0 <= j < len pool).
    { apply Z.mod_pos_bound. unfold len. lia. }
    destruct (pool !! Z.to_nat j) as [x|] eqn:Ex.
    2:{ apply lookup_ge_None in Ex. unfold len in Hj. lia. }
    set (s1 := State _ _).
    destruct (IH (delete (Z.to_nat j) pool) s1) as (l & s' & Hl & Hlen & Hsub).
    { rewrite length_delete by (eexists; exact Ex). lia. }
    exists (x :: l), s'. unfold bind. rewrite Hl. split; [reflexivity|].
    split; [cbn; lia|].
    rewrite (delete_Permutation pool _ x Ex). apply submseteq_skip. exact Hsub.
Qed.

(** C3, the statement as written fails on a value space that repeats an
    element (the draw is turned into a set, which collapses the repetition,
    with and without exclusion) and on a negative sample size (the size
    test passes and [random.sample] raises [ValueError] or, with exclusion
    and [n = -1], [pop] on the empty draw raises [KeyError]). *)
Lemma sample_of_repeated_or_negative :
  run (evaluate (SampleVariable 2 false 0) [1; 1; 1] None) (State 0 []) = Ok {[ 1 ]} /\
  size ({[ 1 ]} : gset Z) = 1%nat /\
  run (evaluate (SampleVariable (-1) false 0) [1; 2; 3] None) (State 0 []) = Raise ValueError /\
  run (evaluate (SampleVariable 1 true 0) [1; 1; 1] (Some 5)) (State 0 []) = Ok ∅ /\
  run (evaluate (SampleVariable (-1) true 0) [1; 2; 3] (Some 5)) (State 0 [])
  = Raise KeyError.
Proof. repeat split; vm_compute; reflexivity. Qed.

Lemma size_list_to_set_le (l : list Z) : (size (list_to_set l : gset Z) <= length l)%nat.
Proof.
  induction l as [|x l IH]; cbn [list_to_set length].
  - rewrite size_empty. lia.
  - rewrite size_union_alt, size_singleton.
    pose proof (subseteq_size (list_to_set l ∖ {[ x ]}) (list_to_set l : gset Z)
                  ltac:(set_solver)).
    lia.
Qed.

(** C3, amended.  The three failures hold for every sample size [n] and
    every value space: without exclusion, resolution raises [ResolveError]
    when the space has fewer than [n] elements; with exclusion and an
    original value, it raises [ResolveError] when the space has fewer than
    [n + 1] elements; with exclusion and no original value it raises
    [ResolveError].  For a sample size [n >= 0]: without exclusion and on a
    space of at least [n] elements, resolution returns a set of elements of
    the space; with exclusion, an original value and a space of at least
    [n + 1] elements, it returns a set of elements of the space that never
    holds the original.  In both cases the set has exactly [n] elements
    when the elements of the space are pairwise distinct, and at most [n]
    otherwise. *)
Theorem SampleVariable_evaluate_spec (n id : Z) (container : list Z) (s : state) :
  (forall orig, 0 <= n <= len container ->
     exists (S : gset Z) s',
       evaluate (SampleVariable n false id) container orig s = Ok (S, s') /\
       (S ⊆ list_to_set container) /\ Z.of_nat (size S) <= n /\
       (NoDup container -> Z.of_nat (size S) = n)) /\
  (forall orig, len container < n ->
     evaluate (SampleVariable n false id) container orig s = Raise ResolveError) /\
  (forall x, 0 <= n -> n + 1 <= len container ->
     exists (S : gset Z) s',
       evaluate (SampleVariable n true id) container (Some x) s = Ok (S, s') /\
       (x ∉ S) /\ (S ⊆ list_to_set container) /\ Z.of_nat (size S) <= n /\
       (NoDup container -> Z.of_nat (size S) = n)) /\
  (forall x, len container < n + 1 ->
     evaluate (SampleVariable n true id) container (Some x) s = Raise ResolveError) /\
  evaluate (SampleVariable n true id) container None s = Raise ResolveError.
Proof.
  cbn [evaluate]. unfold SampleVariable_evaluate. cbn [negb].
  assert (Hdraw : forall k, 0 <= k <= len container ->
            exists l s', sample container k s = Ok (l, s') /\
                         Z.of_nat (length l) = k /\ (NoDup container -> NoDup l) /\
                         (list_to_set l : gset Z) ⊆ list_to_set container).
  { intros k Hk. unfold sample.
    replace ((0 <=? k) && (k <=? len container)) with true
      by (symmetry; apply andb_true_intro; split; apply Z.leb_le; lia).
    destruct (sample_go_spec (Z.to_nat k) container s) as (l & s' & Hl & Hlen & Hsub).
    { unfold len in Hk. lia. }
    exists l, s'. split; [exact Hl|]. split; [lia|]. split.
    - intros Hnd. eapply submseteq_NoDup; eassumption.
    - intros y. rewrite !elem_of_list_to_set. intros Hy.
      eapply elem_of_submseteq; eassumption. }
  split; [|split; [|split; [|split]]].
  - intros _ Hle. replace (len container <? n) with false by (symmetry; apply Z.ltb_ge; lia).
    destruct (Hdraw n Hle) as (l & s' & Hl & Hlen & Hndl & Hsub).
    exists (list_to_set l), s'. unfold bind. rewrite Hl. split; [reflexivity|].
    split; [exact Hsub|]. pose proof (size_list_to_set_le l). split; [lia|].
    intros Hnd. rewrite size_list_to_set by (apply Hndl; exact Hnd). exact Hlen.
  - intros _ Hlt. replace (len container <? n) with true by (symmetry; apply Z.ltb_lt; lia).
    reflexivity.
  - intros x Hn Hle.
    replace (len container <? n + 1) with false by (symmetry; apply Z.ltb_ge; lia).
    destruct (Hdraw (n + 1)) as (l & s' & Hl & Hlen & Hndl & Hsub); [lia|].
    unfold bind at 1. rewrite Hl.
    pose proof (size_list_to_set_le l) as Hle'.
    assert (Hne : (list_to_set l : gset Z) <> ∅).
    { destruct l as [|y l]; [cbn in Hlen; lia|]. cbn [list_to_set]. set_solver. }
    assert (Hexact : NoDup container -> Z.of_nat (size (list_to_set l : gset Z)) = n + 1).
    { intros Hnd. rewrite size_list_to_set by (apply Hndl; exact Hnd). exact Hlen. }
    assert (Hdrop : forall y, y ∈ (list_to_set l : gset Z) ->
              Z.of_nat (size (list_to_set l ∖ {[ y ]} : gset Z))
              = Z.of_nat (size (list_to_set l : gset Z)) - 1).
    { intros y Hy. pose proof (size_difference (list_to_set l : gset Z) {[ y ]}) as Hd.
      rewrite size_singleton in Hd. rewrite Hd by set_solver.
      assert (size (list_to_set l : gset Z) <> 0%nat).
      { intros H0. apply size_empty_inv in H0. apply leibniz_equiv in H0. contradiction. }
      lia. }
    destruct (bool_decide (x ∈ (list_to_set l : gset Z))) eqn:Hin.
    + apply bool_decide_eq_true_1 in Hin.
      exists (list_to_set l ∖ {[ x ]}), s'. split; [reflexivity|].
      split; [set_solver|]. split; [set_solver|]. rewrite (Hdrop x Hin).
      split; [lia|]. intros Hnd. rewrite (Hexact Hnd). lia.
    + apply bool_decide_eq_false_1 in Hin.
      destruct (set_pop_spec (list_to_set l) s' Hne) as (y & Hy & Hpop).
      exists (list_to_set l ∖ {[ y ]}), (State (next_addr s') (tl (random s'))).
      unfold bind. rewrite Hpop. split; [reflexivity|].
      split; [set_solver|]. split; [set_solver|]. rewrite (Hdrop y Hy).
      split; [lia|]. intros Hnd. rewrite (Hexact Hnd). lia.
  - intros x Hlt.
    replace (len container <? n + 1) with true by (symmetry; apply Z.ltb_lt; lia).
    reflexivity.
  - reflexivity.
Qed.

Lemma SampleVariable_evaluate_spec_witness :
  (exists (S : gset Z) s',
     evaluate (SampleVariable 2 false 0) [5; 1; 9] None (State 0 [4; 7]) = Ok (S, s') /\
     (S ⊆ list_to_set [5; 1; 9]) /\ Z.of_nat (size S) <= 2 /\
     (NoDup [5; 1; 9] -> Z.of_nat (size S) = 2)) /\
  (exists (S : gset Z) s',
     evaluate (SampleVariable 2 true 0) [5; 1; 9] (Some 1) (State 0 [4; 7]) = Ok (S, s') /\
     (1 ∉ S) /\ (S ⊆ list_to_set [5; 1; 9]) /\ Z.of_nat (size S) <= 2 /\
     (NoDup [5; 1; 9] -> Z.of_nat (size S) = 2)) /\
  evaluate (SampleVariable 4 false 0) [5; 1; 9] None (State 0 [4; 7]) = Raise ResolveError /\
  evaluate (SampleVariable 3 true 0) [5; 1; 9] (Some 1) (State 0 [4; 7])
  = Raise ResolveError.
Proof.
  destruct (SampleVariable_evaluate_spec 2 0 [5; 1; 9] (State 0 [4; 7]))
    as (H1 & _ & H3 & _).
  destruct (SampleVariable_evaluate_spec 4 0 [5; 1; 9] (State 0 [4; 7]))
    as (_ & H2 & _).
  destruct (SampleVariable_evaluate_spec 3 0 [5; 1; 9] (State 0 [4; 7]))
    as (_ & _ & _ & H4 & _).
  split; [apply H1; unfold len; simpl length; lia|].
  split; [apply H3; unfold len; simpl length; lia|].
  split; [apply H2; unfold len; simpl length; lia|apply H4; unfold len; simpl length; lia].
Defined.

Lemma evaluate_RangeVariable (first last : Z + variable) (container : list Z)
    (orig : option Z) :
  evaluate (RangeVariable first last) container orig =
  (let* first := resolve_endpoint (fun w => evaluate w container None) first in
   let* last := resolve_endpoint (fun w => evaluate w container None) last in
   match first, last with
   | inl a, inl b => ret (list_to_set (range a (b + 1)))
   | _, _ => raise TypeError
   end).
Proof. reflexivity. Qed.

(** A placeholder limit of a range is resolved and one element of the
    resolved set is popped.  When a limit of a range is a placeholder whose
    resolution yields a non-empty set [S], resolving the range takes one
    element [x] of [S] as that limit and does not fail on account of the
    size of [S]: [x] is the value itself when [S] has exactly one element,
    and one of the resolved values otherwise.  This holds for a placeholder
    first limit with a literal last one, for a literal first limit with a
    placeholder last one, and for two placeholder limits. *)
Theorem RangeVariable_evaluate_endpoint (v : variable) (container : list Z)
    (s s1 : state) (S : gset Z) :
  evaluate v container None s = Ok (S, s1) -> S <> ∅ ->
  exists x s2,
    x ∈ S /\ (forall x0, S = {[ x0 ]} -> x = x0) /\
    (forall b orig,
       evaluate (RangeVariable (inr v) (inl b)) container orig s
       = Ok (list_to_set (range x (b + 1)), s2)) /\
    (forall a orig,
       evaluate (RangeVariable (inl a) (inr v)) container orig s
       = Ok (list_to_set (range a (x + 1)), s2)) /\
    (forall w S' s3 orig,
       evaluate w container None s2 = Ok (S', s3) -> S' <> ∅ ->
       exists y s4,
         y ∈ S' /\
         evaluate (RangeVariable (inr v) (inr w)) container orig s
         = Ok (list_to_set (range x (y + 1)), s4)).
Proof.
  intros Hv HS.
  destruct (set_pop_spec S s1 HS) as (x & Hx & Hpop).
  set (s2 := State (next_addr s1) (tl (random s1))) in *.
  assert (Hres : resolve_endpoint (fun w => evaluate w container None) (inr v) s
                 = Ok (inl x, s2)).
  { cbn [resolve_endpoint]. unfold bind. rewrite Hv, Hpop. reflexivity. }
  exists x, s2. split; [exact Hx|]. split; [|split; [|split]].
  - intros x0 ->. apply elem_of_singleton in Hx. exact Hx.
  - intros b orig. rewrite evaluate_RangeVariable. unfold bind at 1.
    rewrite Hres. reflexivity.
  - intros a orig. rewrite evaluate_RangeVariable. unfold bind at 1.
    change (resolve_endpoint (fun w => evaluate w container None) (inl a) s)
      with (Ok (inl a : Z + variable, s)).
    cbn beta iota. unfold bind at 1. rewrite Hres. reflexivity.
  - intros w S' s3 orig Hw HS'.
    destruct (set_pop_spec S' s3 HS') as (y & Hy & Hpop').
    exists y, (State (next_addr s3) (tl (random s3))). split; [exact Hy|].
    rewrite evaluate_RangeVariable. unfold bind at 1. rewrite Hres.
    unfold bind at 1. cbn [resolve_endpoint]. unfold bind.
    rewrite Hw, Hpop'. reflexivity.
Qed.

Lemma RangeVariable_evaluate_endpoint_witness :
  exists x s2,
    x ∈ ({[ 1; 2 ]} : gset Z) /\ (forall x0, ({[ 1; 2 ]} : gset Z) = {[ x0 ]} -> x = x0) /\
    (forall b orig,
       evaluate (RangeVariable (inr AllVariable) (inl b)) [1; 2] orig (State 0 [1])
       = Ok (list_to_set (range x (b + 1)), s2)) /\
    (forall a orig,
       evaluate (RangeVariable (inl a) (inr AllVariable)) [1; 2] orig (State 0 [1])
       = Ok (list_to_set (range a (x + 1)), s2)) /\
    (forall w S' s3 orig,
       evaluate w [1; 2] None s2 = Ok (S', s3) -> S' <> ∅ ->
       exists y s4,
         y ∈ S' /\
         evaluate (RangeVariable (inr AllVariable) (inr w)) [1; 2] orig (State 0 [1])
         = Ok (list_to_set (range x (y + 1)), s4)).
Proof.
  apply (RangeVariable_evaluate_endpoint AllVariable [1; 2] (State 0 [1]) (State 0 [1])).
  - reflexivity.
  - apply (bool_decide_unpack _). vm_compute. exact I.
Defined.

(** C2.  The code on a range whose first limit stands for all values.
    From the text ["*~3"] [unravel] builds, at every position and from
    every state, a value set whose only deferred element is a range with
    the placeholder of all values as first limit; neither [unravel] nor the
    constructor of [RangeVariable], which documents its limits as leaf
    variables or fixed indices, refuses it.  On the space [[1; 2]] that
    limit resolves to both values, and resolving the range raises no
    error, from every state and whatever the original value: it returns
    the integers from one of the two values, the one [pop] takes, up to 3.
    Both outcomes occur. *)
Theorem RangeVariable_evaluate_all_endpoint (p : Z) (s : state) (orig : option Z) :
  (exists r s',
     resolve_listing "*~3" Py.int p s = Ok (r, s') /\
     set_fixed r = ∅ /\
     var <$> set_deferred r = [RangeVariable (inr AllVariable) (inl 3)]) /\
  evaluate AllVariable [1; 2] None s = Ok (list_to_set [1; 2], s) /\
  (exists x s',
     (x = 1 \/ x = 2) /\
     evaluate (RangeVariable (inr AllVariable) (inl 3)) [1; 2] orig s
     = Ok (list_to_set (range x (3 + 1)), s')) /\
  run (evaluate (RangeVariable (inr AllVariable) (inl 3)) [1; 2] None) (State 0 [0])
  = Ok {[ 2; 3 ]} /\
  run (evaluate (RangeVariable (inr AllVariable) (inl 3)) [1; 2] None) (State 0 [1])
  = Ok {[ 1; 2; 3 ]}.
Proof.
  split; [|split; [|split; [|split]]].
  - eexists _, _. split; [reflexivity|]. split; reflexivity.
  - reflexivity.
  - destruct (set_pop_spec (list_to_set [1; 2]) s) as (x & Hx & Hpop).
    { intros He. assert (H : 1 ∈ (∅ : gset Z)) by (rewrite <- He; set_solver).
      set_solver. }
    exists x, (State (next_addr s) (tl (random s))). split; [set_solver|].
    rewrite evaluate_RangeVariable. cbn [resolve_endpoint evaluate].
    unfold bind, ret. rewrite Hpop. reflexivity.
  - vm_compute. reflexivity.
  - vm_compute. reflexivity.
Qed.

(** ** The tree parser on the examples *)

(** C4.  With the default symbols and two [int] converters, from any state
    and with any fuel from 3 on, [parse_tree] on ["0,1:[2,3]"] returns a
    keyed tree without deferred keys whose fixed keys are exactly 0 and 1,
    each bound to the value set of fixed part [{2, 3}] and empty deferred
    part; on the lazy form ["0,1:2,3"] it returns the same structure. *)
Theorem parse_tree_strict_and_lazy (n : nat) (s : state) :
  exists strict lazy,
    run (parse_tree_default (3 + n) "0,1:[2,3]" [Py.int; Py.int] 0) s = Ok strict /\
    run (parse_tree_default (3 + n) "0,1:2,3" [Py.int; Py.int] 0) s = Ok lazy /\
    shape_of lazy = shape_of strict /\
    exists fixed,
      shape_of strict = DictShape fixed [] /\
      fst <$> fixed ≡ₚ [0; 1] /\
      forall k, k ∈ [0; 1] -> dict_get Z.eqb fixed k = Some (SetShape {[ 2; 3 ]} []).
Proof.
  destruct s as [a r].
  eexists _, _. split; [vm_compute; reflexivity|].
  split; [vm_compute; reflexivity|].
  split; [reflexivity|].
  eexists. split; [vm_compute; reflexivity|].
  split.
  - cbn. apply Permutation_swap.
  - intros k Hk. repeat (apply elem_of_cons in Hk as [->|Hk]); [reflexivity..|].
    apply elem_of_nil in Hk. contradiction.
Qed.

(** C5.  On ["0:[1"], where the strict opener is never closed, [parse_tree]
    raises the error that asks for level closers, but at the position of the
    level plus the length of what follows the opener (here 1), not at the
    end of the input (here 4). *)
Theorem parse_tree_unclosed_position (n : nat) (p : Z) (s : state) :
  run (parse_tree_default (3 + n) "0:[1" [Py.int; Py.int] p) s
  = Raise (ParseError (p + 1) ExpectedClosers) /\
  p + 1 <> p + len (str_of "0:[1").
Proof.
  destruct s as [a r]. split; [reflexivity|].
  change (len (str_of "0:[1")) with 4. lia.
Qed.

(** ** The deep merge: allocation and independence *)

Lemma container_ind' (P : container -> Prop) :
  (forall self fa fixed va deferred, P (VariableSet self fa fixed va deferred)) ->
  (forall self fa fixed va deferred,
     Forall (fun kv => P (snd kv)) fixed ->
     Forall (fun kv => P (snd kv)) deferred ->
     P (VariableDict self fa fixed va deferred)) ->
  forall c, P c.
Proof.
  intros HS HD. fix IH 1. intros [self fa fixed va deferred | self fa fixed va deferred].
  - apply HS.
  - apply HD.
    + induction fixed as [|[k sub] l IHl]; constructor; [apply IH | exact IHl].
    + induction deferred as [|[k sub] l IHl]; constructor; [apply IH | exact IHl].
Qed.

Lemma bind_ok {A B} (c : M A) (k : A -> M B) (s s1 : state) (a : A) :
  c s = Ok (a, s1) -> bind c k s = k a s1.
Proof. intros H. unfold bind. rewrite H. reflexivity. Qed.

Lemma alloc_ok (s : state) :
  alloc s = Ok (next_addr s, State (N.succ (next_addr s)) (random s)).
Proof. reflexivity. Qed.

Lemma within_mono (lo hi lo' hi' : addr) (l : list addr) :
  within lo hi l -> (lo' <= lo)%N -> (hi <= hi')%N -> within lo' hi' l.
Proof.
  unfold within. intros H ? ?. eapply Forall_impl; [exact H|].
  cbn. intros a Ha. lia.
Qed.

Lemma within_app (lo hi : addr) (l k : list addr) :
  within lo hi (l ++ k) <-> within lo hi l /\ within lo hi k.
Proof. apply Forall_app. Qed.

Lemma within_disjoint_NoDup (lo mid hi : addr) (l k : list addr) :
  within lo mid l -> within mid hi k -> NoDup l -> NoDup k -> NoDup (l ++ k).
Proof.
  intros Hl Hk ? ?. apply NoDup_app. split; [assumption|]. split; [|assumption].
  intros a Ha Ha'. unfold within in *. rewrite Forall_forall in Hl, Hk.
  specialize (Hl a Ha). specialize (Hk a Ha'). lia.
Qed.

Lemma in_range_mono (lo hi lo' hi' : addr) (c : container) :
  in_range lo hi c -> (lo' <= lo)%N -> (hi <= hi')%N -> in_range lo' hi' c.
Proof. apply within_mono. Qed.

Lemma mapM_deepcopy_var_spec (l : list varobj) : forall s,
  exists l' s',
    mapM deepcopy_var l s = Ok (l', s') /\
    (next_addr s <= next_addr s')%N /\ random s' = random s /\
    var <$> l' = var <$> l /\
    within (next_addr s) (next_addr s') (addr_of <$> l') /\
    NoDup (addr_of <$> l').
Proof.
  induction l as [|v l IH]; intros s.
  - exists [], s. repeat split; try reflexivity; try constructor; lia.
  - cbn [mapM]. unfold deepcopy_var at 1.
    rewrite (bind_ok _ _ s _ _ (bind_ok _ _ s _ _ (alloc_ok s))).
    set (s1 := State (N.succ (next_addr s)) (random s)).
    destruct (IH s1) as (l' & s' & Hl & Hle & Hr & Hv & Hw & Hnd).
    exists (VarObj (next_addr s) (var v) :: l'), s'.
    rewrite (bind_ok _ _ _ _ _ Hl). cbn in Hle.
    split; [reflexivity|]. split; [lia|]. split; [exact Hr|].
    split; [cbn; f_equal; exact Hv|]. split.
    + constructor; [cbn; lia|]. eapply within_mono; [exact Hw|cbn; lia|lia].
    + cbn. constructor; [|exact Hnd]. intros Hin.
      unfold within in Hw. rewrite Forall_forall in Hw.
      specialize (Hw _ Hin). cbn in Hw. lia.
Qed.

Lemma copy_items_spec {K} (copy_key : K -> M K) (kaddr : K -> list addr)
    (krel : K -> K -> Prop) :
  (forall k s, exists k' s',
      copy_key k s = Ok (k', s') /\
      (next_addr s <= next_addr s')%N /\ random s' = random s /\
      krel k k' /\ within (next_addr s) (next_addr s') (kaddr k') /\ NoDup (kaddr k')) ->
  forall l : list (K * container),
    Forall (fun kv => copies (snd kv)) l ->
    forall s, exists l' s',
      copy_items copy_key deepcopy l s = Ok (l', s') /\
      (next_addr s <= next_addr s')%N /\ random s' = random s /\
      Forall2 (fun kv kv' => krel (fst kv) (fst kv') /\
                             shape_of (snd kv') = shape_of (snd kv) /\
                             forall d, uniform d (snd kv) -> uniform d (snd kv')) l l' /\
      within (next_addr s) (next_addr s')
             (concat ((fun kv => addresses (snd kv)) <$> l')) /\
      within (next_addr s) (next_addr s')
             (concat ((fun kv => kaddr (fst kv) ++ var_addresses (snd kv)) <$> l')) /\
      NoDup (concat ((fun kv => kaddr (fst kv) ++ var_addresses (snd kv)) <$> l')).
Proof.
  intros Hkey l Hl. induction Hl as [|[k sub] l Hsub _ IH]; intros s.
  - exists [], s. repeat split; try reflexivity; try constructor; lia.
  - cbn [copy_items].
    destruct (Hkey k s) as (k' & s1 & Hk & Hle1 & Hr1 & Hrel & Hkw & Hknd).
    rewrite (bind_ok _ _ _ _ _ Hk).
    destruct (Hsub s1) as (sub' & s2 & Hc & Hle2 & Hr2 & Hsh & Hin & Hvw & Hvnd & Hun).
    cbn [snd] in Hc. rewrite (bind_ok _ _ _ _ _ Hc).
    destruct (IH s2) as (l' & s3 & Hi & Hle3 & Hr3 & Hf2 & Haw & Hlw & Hlnd).
    fold (copy_items copy_key deepcopy). rewrite (bind_ok _ _ _ _ _ Hi).
    exists ((k', sub') :: l'), s3.
    split; [reflexivity|]. split; [lia|]. split; [congruence|].
    split; [constructor; [split; [exact Hrel|split; [exact Hsh|exact Hun]]|exact Hf2]|].
    cbn [fmap list_fmap concat fst snd].
    split; [|split].
    + apply within_app. split.
      * eapply within_mono; [exact Hin|lia|lia].
      * eapply within_mono; [exact Haw|lia|lia].
    + apply within_app. split; [apply within_app; split|].
      * eapply within_mono; [exact Hkw|lia|lia].
      * eapply within_mono; [exact Hvw|lia|lia].
      * eapply within_mono; [exact Hlw|lia|lia].
    + eapply (within_disjoint_NoDup (next_addr s) (next_addr s2) (next_addr s3)).
      * apply within_app. split.
        -- eapply within_mono; [exact Hkw|lia|lia].
        -- eapply within_mono; [exact Hvw|lia|lia].
      * exact Hlw.
      * eapply (within_disjoint_NoDup (next_addr s) (next_addr s1) (next_addr s2));
          eassumption || (eapply within_mono; [eassumption|lia|lia]).
      * exact Hlnd.
Qed.

Lemma Forall2_fmap_eq {A B C} (g : B -> C) (h : A -> C) (l : list A) (l' : list B) :
  Forall2 (fun x y => g y = h x) l l' -> g <$> l' = h <$> l.
Proof. induction 1; cbn; [reflexivity|]. f_equal; assumption. Qed.

Lemma Forall2_Forall_transfer {A B} (R : A -> B -> Prop) (P : A -> Prop)
    (Q : B -> Prop) (l : list A) (l' : list B) :
  (forall x y, R x y -> P x -> Q y) -> Forall2 R l l' -> Forall P l -> Forall Q l'.
Proof.
  intros HR H. induction H; intros HP; [constructor|].
  apply Forall_cons in HP as [? ?]. constructor; eauto.
Qed.

Lemma deepcopy_copies (c : container) : copies c.
Proof.
  induction c as [self fa fixed va deferred | self fa fixed va deferred IHf IHd]
    using container_ind'; intros s.
  - cbn [deepcopy]. rewrite (bind_ok _ _ _ _ _ (alloc_ok s)).
    set (s1 := State (N.succ (next_addr s)) (random s)).
    destruct (mapM_deepcopy_var_spec deferred s1) as (l' & s2 & Hl & Hle & Hr & Hv & Hw & Hnd).
    rewrite (bind_ok _ _ _ _ _ Hl). rewrite (bind_ok _ _ _ _ _ (alloc_ok s2)).
    unfold new_VariableSet. rewrite (bind_ok _ _ _ _ _ (alloc_ok _)).
    cbn [next_addr random fst snd]. cbn in Hle.
    eexists _, _. split; [reflexivity|]. cbn [next_addr random].
    split; [lia|]. split; [exact Hr|]. unfold copied, in_range.
    cbn [shape_of addresses var_addresses].
    split; [rewrite Hv; reflexivity|]. split; [|split; [|split]].
    + repeat constructor; lia.
    + eapply within_mono; [exact Hw|cbn; lia|lia].
    + exact Hnd.
    + intros [|d]; cbn; auto.
  - cbn [deepcopy]. rewrite (bind_ok _ _ _ _ _ (alloc_ok s)).
    set (s1 := State (N.succ (next_addr s)) (random s)).
    destruct (copy_items_spec ret (fun _ : Z => []) eq) with (l := fixed) (s := s1)
      as (f' & s2 & Hf & Hle2 & Hr2 & Hf2 & Hfa & Hfv & Hfnd).
    { intros k s0. exists k, s0. repeat split; try reflexivity; try constructor; lia. }
    { exact IHf. }
    rewrite (bind_ok _ _ _ _ _ Hf). rewrite (bind_ok _ _ _ _ _ (alloc_ok s2)).
    set (s3 := State (N.succ (next_addr s2)) (random s2)).
    destruct (copy_items_spec deepcopy_var (fun k : varobj => [addr_of k])
                (fun k k' => var k' = var k)) with (l := deferred) (s := s3)
      as (d' & s4 & Hd & Hle4 & Hr4 & Hd2 & Hda & Hdv & Hdnd).
    { intros k s0. eexists _, _. split; [reflexivity|]. cbn.
      repeat split; try lia; repeat constructor; try lia. apply not_elem_of_nil. }
    { exact IHd. }
    rewrite (bind_ok _ _ _ _ _ Hd). unfold new_VariableDict.
    rewrite (bind_ok _ _ _ _ _ (alloc_ok _)).
    cbn [next_addr random fst snd]. cbn in Hle2, Hle4.
    eexists _, _. split; [reflexivity|]. cbn [next_addr random].
    split; [lia|]. split; [cbn in Hr2, Hr4; congruence|]. unfold copied, in_range.
    cbn [shape_of addresses var_addresses].
    split; [|split; [|split; [|split]]].
    + f_equal.
      * apply Forall2_fmap_eq. eapply Forall2_impl; [exact Hf2|].
        cbn. intros [k x] [k' x'] (-> & -> & _). reflexivity.
      * apply Forall2_fmap_eq. eapply Forall2_impl; [exact Hd2|].
        cbn. intros [k x] [k' x'] (-> & -> & _). reflexivity.
    + repeat (apply Forall_cons; split; [lia|]). apply within_app. split.
      * eapply within_mono; [exact Hfa|cbn; lia|lia].
      * eapply within_mono; [exact Hda|cbn; lia|lia].
    + apply within_app. split.
      * eapply within_mono; [exact Hfv|cbn; lia|lia].
      * eapply within_mono; [exact Hdv|cbn; lia|lia].
    + eapply (within_disjoint_NoDup (next_addr s1) (next_addr s3) (next_addr s4)).
      * eapply within_mono; [exact Hfv|lia|cbn; lia].
      * exact Hdv.
      * exact Hfnd.
      * exact Hdnd.
    + intros [|d]; cbn [uniform]; [tauto|]. intros [Hu1 Hu2]. split.
      * eapply Forall2_Forall_transfer; [|exact Hf2|exact Hu1].
        cbn. intros x y (_ & _ & H) ?. apply H. assumption.
      * eapply Forall2_Forall_transfer; [|exact Hd2|exact Hu2].
        cbn. intros x y (_ & _ & H) ?. apply H. assumption.
Qed.

Lemma Forall_dict_get {K V} (eqb : K -> K -> bool) (P : V -> Prop)
    (d : list (K * V)) (k : K) (v : V) :
  Forall (fun kv => P (snd kv)) d -> dict_get eqb d k = Some v -> P v.
Proof.
  induction 1 as [|[k' v'] d HP _ IH]; cbn; [discriminate|].
  destruct (eqb k k'); [intros [= <-]; exact HP | exact IH].
Qed.

Lemma Forall_dict_set {K V} (eqb : K -> K -> bool) (P : V -> Prop)
    (d : list (K * V)) (k : K) (v : V) :
  Forall (fun kv => P (snd kv)) d -> P v ->
  Forall (fun kv => P (snd kv)) (dict_set eqb d k v).
Proof.
  intros Hd Hv. induction Hd as [|[k' v'] d HP Hd IH]; cbn.
  - constructor; [exact Hv|constructor].
  - destruct (eqb k k'); constructor; assumption.
Qed.

Lemma dict_get_keys {K V} (eqb : K -> K -> bool) (P : V -> Prop) (d : list (K * V)) :
  (forall k, eqb k k = true) ->
  Forall (fun kv => P (snd kv)) d ->
  Forall (fun k => exists v, dict_get eqb d k = Some v /\ P v) (fst <$> d).
Proof.
  intros Hrefl Hd. apply Forall_forall. intros k Hk.
  apply list_elem_of_fmap in Hk as ([k' v'] & -> & Hin). cbn [fst].
  induction Hd as [|[k1 v1] d HP Hd IH]; [apply elem_of_nil in Hin; contradiction|].
  cbn [dict_get]. destruct (eqb k' k1) eqn:E.
  - exists v1. split; [reflexivity|exact HP].
  - apply elem_of_cons in Hin as [[= -> ->]|Hin]; [|exact (IH Hin)].
    rewrite Hrefl in E. discriminate.
Qed.

Lemma var_eq_refl (v : varobj) : var_eq v v = true.
Proof.
  unfold var_eq. destruct (var v); try apply N.eqb_refl; apply Z.eqb_refl.
Qed.

Lemma within_concat_addresses {K} (lo hi : addr) (l : list (K * container)) :
  within lo hi (concat ((fun kv => addresses (snd kv)) <$> l)) <->
  Forall (fun kv => in_range lo hi (snd kv)) l.
Proof.
  induction l as [|kv l IH]; cbn.
  - split; constructor.
  - rewrite within_app, Forall_cons, IH. reflexivity.
Qed.

(** What [merge] guarantees of its result on containers of depth [d]. *)
Lemma merge_loop_range {K} (eqb : K -> K -> bool)
    (rec : container -> container -> M container) (item : K -> M container)
    (d : nat) (lo : addr) :
  (forall x y s, uniform d x -> uniform d y ->
     exists r s', rec x y s = Ok (r, s') /\ (next_addr s <= next_addr s')%N /\
                  uniform d r /\ in_range (next_addr s) (next_addr s') r) ->
  forall elements parts s,
    (lo <= next_addr s)%N ->
    Forall (fun k => exists v, (forall s0, item k s0 = Ok (v, s0)) /\
                               uniform d v /\ in_range lo (next_addr s) v) elements ->
    Forall (fun kv => uniform d (snd kv) /\ in_range lo (next_addr s) (snd kv)) parts ->
    exists parts' s',
      merge_loop eqb rec item parts elements s = Ok (parts', s') /\
      (next_addr s <= next_addr s')%N /\
      Forall (fun kv => uniform d (snd kv) /\ in_range lo (next_addr s') (snd kv)) parts'.
Proof.
  intros Hrec elements. induction elements as [|k elements IH]; intros parts s Hlo He Hp.
  - exists parts, s. split; [reflexivity|]. split; [lia|exact Hp].
  - apply Forall_cons in He as [(v & Hitem & Hvu & Hvr) He]. cbn [merge_loop].
    destruct (dict_get eqb parts k) as [mine|] eqn:Eg.
    + pose proof (Forall_dict_get eqb (fun c => uniform d c /\ in_range lo (next_addr s) c)
                    _ _ _ Hp Eg) as [Hmu Hmr].
      destruct (Hrec mine v s Hmu Hvu) as (r & s1 & Hr & Hle & Hru & Hrr).
      rewrite (bind_ok _ _ s s1 (dict_set eqb parts k r)).
      2:{ rewrite (bind_ok _ _ _ _ _ (Hitem s)). rewrite (bind_ok _ _ _ _ _ Hr). reflexivity. }
      destruct (IH (dict_set eqb parts k r) s1) as (parts' & s' & Hl & Hle' & Hp').
      * lia.
      * eapply Forall_impl; [exact He|]. cbn. intros k0 (v0 & ? & ? & ?).
        exists v0. repeat split; try assumption. eapply in_range_mono; [eassumption|lia|lia].
      * apply (Forall_dict_set eqb (fun c => uniform d c /\ in_range lo (next_addr s1) c)).
        -- eapply Forall_impl; [exact Hp|]. cbn. intros kv [? ?]. split; [assumption|].
           eapply in_range_mono; [eassumption|lia|lia].
        -- split; [exact Hru|]. eapply in_range_mono; [exact Hrr|lia|lia].
      * exists parts', s'. split; [exact Hl|]. split; [lia|exact Hp'].
    + rewrite (bind_ok _ _ s s (dict_set eqb parts k v)).
      2:{ rewrite (bind_ok _ _ _ _ _ (Hitem s)). reflexivity. }
      destruct (IH (dict_set eqb parts k v) s) as (parts' & s' & Hl & Hle' & Hp').
      * lia.
      * exact He.
      * apply (Forall_dict_set eqb (fun c => uniform d c /\ in_range lo (next_addr s) c));
          [exact Hp|split; assumption].
      * exists parts', s'. split; [exact Hl|]. split; [lia|exact Hp'].
Qed.

Lemma merge_range (fuel : nat) : forall d x y s,
  (d < fuel)%nat -> uniform d x -> uniform d y ->
  exists r s',
    merge fuel x y s = Ok (r, s') /\ (next_addr s <= next_addr s')%N /\
    uniform d r /\ in_range (next_addr s) (next_addr s') r.
Proof.
  induction fuel as [|fuel IH]; intros d x y s Hd Hx Hy; [lia|].
  destruct d as [|d].
  - destruct x as [s1 fa1 f1 va1 d1|]; [|contradiction].
    destruct y as [s2 fa2 f2 va2 d2|]; [|contradiction].
    cbn [merge]. rewrite (bind_ok _ _ _ _ _ (alloc_ok s)).
    rewrite (bind_ok _ _ _ _ _ (alloc_ok _)). unfold new_VariableSet.
    rewrite (bind_ok _ _ _ _ _ (alloc_ok _)). cbn [next_addr random fst snd].
    eexists _, _. split; [reflexivity|]. cbn [next_addr]. split; [lia|].
    split; [exact I|]. unfold in_range. cbn [addresses]. repeat constructor; lia.
  - destruct x as [|s1 fa1 f1 va1 d1]; [contradiction|].
    destruct y as [|s2 fa2 f2 va2 d2]; [contradiction|].
    cbn [merge].
    destruct (deepcopy_copies (VariableDict s1 fa1 f1 va1 d1) s)
      as (nf & t1 & Hc1 & Hle1 & _ & _ & Hr1 & _ & _ & Hu1).
    destruct (deepcopy_copies (VariableDict s2 fa2 f2 va2 d2) t1)
      as (ns & t2 & Hc2 & Hle2 & _ & _ & Hr2 & _ & _ & Hu2).
    rewrite (bind_ok _ _ _ _ _ Hc1), (bind_ok _ _ _ _ _ Hc2).
    specialize (Hu1 _ Hx). specialize (Hu2 _ Hy).
    destruct nf as [|n1 nfa nff nva nfd]; [contradiction|].
    destruct ns as [|n2 nsa nsf nsva nsd]; [contradiction|].
    destruct Hu1 as [Hu1f Hu1d]. destruct Hu2 as [Hu2f Hu2d].
    unfold in_range in Hr1, Hr2. cbn [addresses] in Hr1, Hr2.
    apply Forall_cons in Hr1 as [Hn1 Hr1]. apply Forall_cons in Hr1 as [Hnfa Hr1].
    apply Forall_cons in Hr1 as [Hnva Hr1]. apply within_app in Hr1 as [Hr1f Hr1d].
    do 3 apply Forall_cons in Hr2 as [_ Hr2]. apply within_app in Hr2 as [Hr2f Hr2d].
    apply within_concat_addresses in Hr1f, Hr1d, Hr2f, Hr2d.
    assert (Hrec : forall x y s, uniform d x -> uniform d y ->
              exists r s', merge fuel x y s = Ok (r, s') /\
                (next_addr s <= next_addr s')%N /\ uniform d r /\
                in_range (next_addr s) (next_addr s') r).
    { intros. apply IH; [lia|assumption|assumption]. }
    assert (Hmix : forall {K} (l : list (K * container)) lo hi,
              (next_addr s <= lo)%N -> (hi <= next_addr t2)%N ->
              Forall (fun kv => uniform d (snd kv)) l ->
              Forall (fun kv => in_range lo hi (snd kv)) l ->
              Forall (fun kv => (fun c => uniform d c /\
                        in_range (next_addr s) (next_addr t2) c) (snd kv)) l).
    { intros K l lo hi ? ? H1 H2. apply Forall_forall. intros kv Hkv.
      rewrite Forall_forall in H1, H2. split; [auto|].
      eapply in_range_mono; [apply H2; exact Hkv|lia|lia]. }
    destruct (merge_loop_range Z.eqb (merge fuel)
                (fun element => getitem (VariableDict n2 nsa nsf nsva nsd) (inl element))
                d (next_addr s) Hrec (fst <$> nsf) nff t2)
      as (fixed' & t3 & Hl1 & Hle3 & Hf').
    { lia. }
    { eapply Forall_impl;
        [apply (dict_get_keys Z.eqb _ nsf Z.eqb_refl (Hmix _ nsf _ _ Hle1 (N.le_refl _) Hu2f Hr2f))|].
      cbn. intros k (v & Hg & Hv1 & Hv2). exists v. split; [|split; assumption].
      intros s0. unfold getitem. rewrite Hg. reflexivity. }
    { apply (Hmix _ nff _ _ (N.le_refl _) Hle2 Hu1f Hr1f). }
    rewrite (bind_ok _ _ _ _ _ Hl1).
    destruct (merge_loop_range var_eq (merge fuel)
                (fun element => getitem (VariableDict n2 nsa nsf nsva nsd) (inr element))
                d (next_addr s) Hrec (fst <$> nsd) nfd t3)
      as (deferred' & t4 & Hl2 & Hle4 & Hd').
    { lia. }
    { eapply Forall_impl;
        [apply (dict_get_keys var_eq _ nsd var_eq_refl (Hmix _ nsd _ _ Hle1 (N.le_refl _) Hu2d Hr2d))|].
      cbn. intros k (v & Hg & Hv1 & Hv2). exists v. split; [|split].
      - intros s0. unfold getitem. rewrite Hg. reflexivity.
      - assumption.
      - eapply in_range_mono; [exact Hv2|lia|lia]. }
    { eapply Forall_impl; [apply (Hmix _ nfd _ _ (N.le_refl _) Hle2 Hu1d Hr1d)|].
      cbn. intros kv [? ?]. split; [assumption|]. eapply in_range_mono; [eassumption|lia|lia]. }
    rewrite (bind_ok _ _ _ _ _ Hl2). unfold new_VariableDict.
    rewrite (bind_ok _ _ _ _ _ (alloc_ok _)). cbn [fst snd next_addr random].
    eexists _, _. split; [reflexivity|]. cbn [next_addr]. split; [lia|]. split.
    + cbn [uniform]. split.
      * eapply Forall_impl; [exact Hf'|]. cbn. tauto.
      * eapply Forall_impl; [exact Hd'|]. cbn. tauto.
    + unfold in_range. cbn [addresses].
      repeat (apply Forall_cons; split; [lia|]). apply within_app.
      split; apply within_concat_addresses.
      * eapply Forall_impl; [exact Hf'|]. cbn. intros kv [_ ?].
        eapply in_range_mono; [eassumption|lia|lia].
      * eapply Forall_impl; [exact Hd'|]. cbn. intros kv [_ ?].
        eapply in_range_mono; [eassumption|lia|lia].
Qed.

Lemma mutate_untouched (p : addr) (f : container -> container) (c : container) :
  p ∉ addresses c -> mutate p f c = c.
Proof.
  induction c as [self fa fixed va deferred | self fa fixed va deferred IHf IHd]
    using container_ind'; cbn [addresses mutate]; intros Hp.
  - rewrite bool_decide_eq_false_2; [reflexivity|exact Hp].
  - rewrite bool_decide_eq_false_2.
    2:{ intros Hin. apply Hp. rewrite !elem_of_cons, elem_of_nil in Hin.
        rewrite !elem_of_cons. tauto. }
    assert (Hsub : forall {K} (l : list (K * container)),
              Forall (fun kv => p ∉ addresses (snd kv) -> mutate p f (snd kv) = snd kv) l ->
              p ∉ concat ((fun kv => addresses (snd kv)) <$> l) ->
              (fun kv => (fst kv, mutate p f (snd kv))) <$> l = l).
    { intros K l Hl. induction Hl as [|[k sub] l H _ IH]; cbn; [reflexivity|].
      intros Hn. rewrite elem_of_app in Hn. f_equal.
      - f_equal. apply H. tauto.
      - apply IH. tauto. }
    rewrite !elem_of_cons, elem_of_app in Hp.
    rewrite (Hsub _ fixed IHf), (Hsub _ deferred IHd) by tauto. reflexivity.
Qed.

(** C8.  For two containers of the same kind and depth [d] whose objects
    exist in the state [s] (their addresses are below the next address to be
    allocated), [merge] with fuel above [d] returns a container of depth [d]
    all of whose objects (the container, its partitions and those of every
    subtree reachable from it) are new: none is an object of [a] or of
    [b].  Hence a mutation of any object of the result leaves [a] and [b] as
    they are. *)
Theorem merge_result_independent (fuel d : nat) (a b : container) (s : state) :
  (d < fuel)%nat -> uniform d a -> uniform d b ->
  in_range 0 (next_addr s) a -> in_range 0 (next_addr s) b ->
  exists r s',
    merge fuel a b s = Ok (r, s') /\ uniform d r /\
    (forall p, p ∈ addresses r -> (p ∉ addresses a) /\ (p ∉ addresses b)) /\
    (forall p f, p ∈ addresses r -> mutate p f a = a /\ mutate p f b = b).
Proof.
  intros Hd Ha Hb Hra Hrb.
  destruct (merge_range fuel d a b s Hd Ha Hb) as (r & s' & Hm & _ & Hu & Hr).
  exists r, s'. split; [exact Hm|]. split; [exact Hu|].
  assert (Hnew : forall p, p ∈ addresses r -> (p ∉ addresses a) /\ (p ∉ addresses b)).
  { intros p Hp. unfold in_range, within in *. rewrite Forall_forall in Hr, Hra, Hrb.
    specialize (Hr p Hp). split; intros Hin.
    - specialize (Hra p Hin). lia.
    - specialize (Hrb p Hin). lia. }
  split; [exact Hnew|]. intros p f Hp. destruct (Hnew p Hp).
  split; apply mutate_untouched; assumption.
Qed.

Lemma merge_result_independent_witness :
  exists r s',
    merge 2
      (VariableDict 0 1 [(1, VariableSet 3 4 {[ 1 ]} 5 [])] 2 [])
      (VariableDict 6 7 [(1, VariableSet 9 10 {[ 2 ]} 11 [])] 8 [])
      (State 12 []) = Ok (r, s') /\ uniform 1 r /\
    (forall p, p ∈ addresses r ->
       (p ∉ addresses (VariableDict 0 1 [(1, VariableSet 3 4 {[ 1 ]} 5 [])] 2 [])) /\
       (p ∉ addresses (VariableDict 6 7 [(1, VariableSet 9 10 {[ 2 ]} 11 [])] 8 []))) /\
    (forall p f, p ∈ addresses r ->
       mutate p f (VariableDict 0 1 [(1, VariableSet 3 4 {[ 1 ]} 5 [])] 2 [])
       = VariableDict 0 1 [(1, VariableSet 3 4 {[ 1 ]} 5 [])] 2 [] /\
       mutate p f (VariableDict 6 7 [(1, VariableSet 9 10 {[ 2 ]} 11 [])] 8 [])
       = VariableDict 6 7 [(1, VariableSet 9 10 {[ 2 ]} 11 [])] 8 []).
Proof.
  apply (merge_result_independent 2 1).
  - lia.
  - simpl. repeat constructor.
  - simpl. repeat constructor.
  - unfold in_range, within. simpl. repeat constructor; lia.
  - unfold in_range, within. simpl. repeat constructor; lia.
Defined.

(** ** The deep merge against its specification *)

Section Dicts.
Context {K V : Type} (eqb : K -> K -> bool).
Hypothesis eqb_sym : forall a b, eqb a b = eqb b a.
Hypothesis eqb_trans : forall a b c, eqb a b = true -> eqb b c = true -> eqb a c = true.

Lemma eqb_congr (a b c : K) : eqb a b = true -> eqb a c = eqb b c.
Proof.
  intros Hab. destruct (eqb b c) eqn:Ebc.
  - eapply eqb_trans; eassumption.
  - destruct (eqb a c) eqn:Eac; [|reflexivity].
    rewrite <- Ebc. symmetry. eapply eqb_trans; [|exact Eac].
    rewrite eqb_sym. exact Hab.
Qed.

Lemma dict_get_congr (d : list (K * V)) (a b : K) :
  eqb a b = true -> dict_get eqb d a = dict_get eqb d b.
Proof.
  intros Hab. induction d as [|[p v] d IH]; cbn; [reflexivity|].
  rewrite (eqb_congr a b p Hab), IH. reflexivity.
Qed.

Lemma dict_get_set_eq (d : list (K * V)) (k k' : K) (v : V) :
  eqb k' k = true -> dict_get eqb (dict_set eqb d k v) k' = Some v.
Proof.
  intros Hk. induction d as [|[p w] d IH]; cbn.
  - rewrite Hk. reflexivity.
  - destruct (eqb k p) eqn:E; cbn.
    + rewrite (eqb_congr k' k p Hk), E. reflexivity.
    + rewrite (eqb_congr k' k p Hk), E. exact IH.
Qed.

Lemma dict_get_set_ne (d : list (K * V)) (k k' : K) (v : V) :
  eqb k' k = false -> dict_get eqb (dict_set eqb d k v) k' = dict_get eqb d k'.
Proof.
  intros Hk. induction d as [|[p w] d IH]; cbn.
  - rewrite Hk. reflexivity.
  - destruct (eqb k p) eqn:E; cbn.
    + destruct (eqb k' p) eqn:E'; [|reflexivity].
      rewrite eqb_sym in E. rewrite (eqb_trans k' p k E' E) in Hk. discriminate.
    + destruct (eqb k' p); [reflexivity|exact IH].
Qed.

Lemma dict_get_elem (d : list (K * V)) (k : K) (v : V) :
  dict_get eqb d k = Some v -> exists p, (p, v) ∈ d /\ eqb k p = true.
Proof.
  induction d as [|[p w] d IH]; cbn; [discriminate|].
  destruct (eqb k p) eqn:E.
  - intros [= ->]. exists p. split; [left|exact E].
  - intros H. destruct (IH H) as (q & Hq & Hk). exists q. split; [right; exact Hq|exact Hk].
Qed.

Lemma dict_get_None (d : list (K * V)) (k : K) :
  dict_get eqb d k = None <-> Forall (fun p => eqb k p = false) (fst <$> d).
Proof.
  induction d as [|[p w] d IH]; cbn.
  - split; [constructor|reflexivity].
  - rewrite Forall_cons. destruct (eqb k p); [|rewrite IH; tauto].
    split; [discriminate|]. intros [? _]. discriminate.
Qed.

Lemma dict_get_own (d : list (K * V)) (k : K) (v : V) :
  (forall a, a ∈ fst <$> d -> eqb a a = true) ->
  distinct eqb (fst <$> d) -> (k, v) ∈ d -> dict_get eqb d k = Some v.
Proof.
  intros Hrefl. induction d as [|[p w] d IH]; cbn; intros Hd Hin.
  - apply elem_of_nil in Hin. contradiction.
  - destruct Hd as [Hp Hd]. apply elem_of_cons in Hin as [[= -> ->]|Hin].
    + rewrite Hrefl; [reflexivity|left].
    + rewrite Forall_forall in Hp.
      rewrite (Hp k) by (apply list_elem_of_fmap; exists (k, v); split; [reflexivity|exact Hin]).
      apply IH; [|exact Hd|exact Hin]. intros a Ha. apply Hrefl. right. exact Ha.
Qed.

Lemma dict_set_keys (d : list (K * V)) (k : K) (v : V) (p : K) :
  p ∈ fst <$> dict_set eqb d k v -> p ∈ fst <$> d \/ p = k.
Proof.
  induction d as [|[q w] d IH]; cbn.
  - intros H. apply elem_of_cons in H as [->|H]; [right; reflexivity|].
    apply elem_of_nil in H. contradiction.
  - destruct (eqb k q); cbn; intros H; apply elem_of_cons in H as [->|H].
    + left. left.
    + left. right. exact H.
    + left. left.
    + destruct (IH H) as [?| ->]; [left; right; assumption|right; reflexivity].
Qed.
End Dicts.

Section Entries.
Context {K : Type} (eqb : K -> K -> bool).
Hypothesis eqb_sym : forall a b, eqb a b = eqb b a.
Hypothesis eqb_trans : forall a b c, eqb a b = true -> eqb b c = true -> eqb a c = true.
Variable rec : shape -> shape -> option shape.

(** The entry of the merged dict at any key, from those of the two sides. *)
Lemma merge_entries_lookup (theirs : list (K * shape)) :
  forall mine res,
    distinct eqb (fst <$> theirs) ->
    merge_entries eqb rec mine theirs = Some res ->
    forall k, dict_get eqb res k
              = merged_entry rec (dict_get eqb mine k) (dict_get eqb theirs k).
Proof.
  induction theirs as [|[k0 y0] rest IH]; intros mine res Hd Hm k.
  - cbn in Hm. injection Hm as <-. cbn. destruct (dict_get eqb mine k); reflexivity.
  - cbn in Hd. destruct Hd as [Hk0 Hd]. cbn [merge_entries] in Hm.
    assert (Hstep : forall v,
              merge_entries eqb rec (dict_set eqb mine k0 v) rest = Some res ->
              merged_entry rec (dict_get eqb mine k0) (Some y0) = Some v ->
              dict_get eqb res k
              = merged_entry rec (dict_get eqb mine k) (dict_get eqb ((k0, y0) :: rest) k)).
    { intros v Hv Hentry. rewrite (IH _ _ Hd Hv k). cbn [dict_get].
      destruct (eqb k k0) eqn:E.
      - rewrite (dict_get_set_eq eqb eqb_sym eqb_trans _ _ _ _ E).
        rewrite (dict_get_congr eqb eqb_sym eqb_trans mine k k0 E), Hentry.
        replace (dict_get eqb rest k) with (@None shape); [reflexivity|].
        symmetry. apply dict_get_None. eapply Forall_impl; [exact Hk0|].
        cbn. intros k' Hk'. destruct (eqb k k') eqn:E'; [|reflexivity].
        rewrite <- Hk'. symmetry. rewrite eqb_sym in E'.
        eapply eqb_trans; eassumption.
      - rewrite (dict_get_set_ne eqb eqb_sym eqb_trans _ _ _ _ E). reflexivity. }
    destruct (dict_get eqb mine k0) as [x0|] eqn:Eg.
    + destruct (rec x0 y0) as [r0|] eqn:Er; [|discriminate].
      apply (Hstep r0 Hm). exact Er.
    + apply (Hstep y0 Hm). reflexivity.
Qed.
End Entries.

Section Erasure.
Context {K K' : Type} (eqb : K -> K -> bool) (eqb' : K' -> K' -> bool) (phi : K -> K').

Local Abbreviation erase := (erase phi).

Lemma dict_get_erase (d : list (K * container)) (k : K) :
  Forall (fun p => eqb k p = eqb' (phi k) (phi p)) (fst <$> d) ->
  dict_get eqb' (erase <$> d) (phi k) = shape_of <$> dict_get eqb d k.
Proof.
  induction d as [|[p v] d IH]; cbn; [reflexivity|].
  intros H. apply Forall_cons in H as [<- H]. destruct (eqb k p); [reflexivity|auto].
Qed.

Lemma dict_set_erase (d : list (K * container)) (k : K) (v : container) :
  Forall (fun p => eqb k p = eqb' (phi k) (phi p)) (fst <$> d) ->
  dict_set eqb' (erase <$> d) (phi k) (shape_of v) = erase <$> dict_set eqb d k v.
Proof.
  induction d as [|[p w] d IH]; cbn; [reflexivity|].
  intros H. apply Forall_cons in H as [<- H].
  destruct (eqb k p); cbn; [reflexivity|]. f_equal. auto.
Qed.

Hypothesis eqb_sym : forall a b, eqb a b = eqb b a.
Hypothesis eqb_trans : forall a b c, eqb a b = true -> eqb b c = true -> eqb a c = true.

(** One loop of [merge] against [merge_entries]: [good x y] is what the
    recursive call needs of the two subtrees it is given. *)
Lemma merge_loop_refines (rec : container -> container -> M container)
    (item : K -> M container) (good : container -> container -> Prop) :
  (forall x y s, good x y ->
     exists r s', rec x y s = Ok (r, s') /\
                  merge_shape (shape_of x) (shape_of y) = Some (shape_of r)) ->
  forall theirs parts s,
    Forall (fun kv => forall s0, item (fst kv) s0 = Ok (snd kv, s0)) theirs ->
    distinct eqb (fst <$> theirs) ->
    distinct eqb' (phi <$> (fst <$> theirs)) ->
    Forall (fun k => Forall (fun p => eqb k p = eqb' (phi k) (phi p)) (fst <$> parts))
           (fst <$> theirs) ->
    Forall (fun kv => forall x, dict_get eqb parts (fst kv) = Some x -> good x (snd kv))
           theirs ->
    exists parts' s',
      merge_loop eqb rec item parts (fst <$> theirs) s = Ok (parts', s') /\
      merge_entries eqb' merge_shape (erase <$> parts) (erase <$> theirs)
      = Some (erase <$> parts').
Proof.
  intros Hrec theirs. induction theirs as [|[k y] rest IH];
    intros parts s Hitem Hd Hd' Hagree Hgood.
  - exists parts, s. split; reflexivity.
  - apply Forall_cons in Hitem as [Hik Hitem]. cbn in Hd, Hd'.
    destruct Hd as [Hk Hd]. destruct Hd' as [Hk' Hd'].
    cbn [fmap list_fmap fst] in Hagree.
    apply Forall_cons in Hagree as [Hak Hagree].
    apply Forall_cons in Hgood as [Hgk Hgood]. cbn [fst snd] in *.
    assert (Hnext : forall v s1,
              exists parts' s',
                merge_loop eqb rec item (dict_set eqb parts k v) (fst <$> rest) s1
                = Ok (parts', s') /\
                merge_entries eqb' merge_shape (erase <$> dict_set eqb parts k v)
                  (erase <$> rest) = Some (erase <$> parts')).
    { intros v s1. apply IH; try assumption.
      - apply Forall_forall. intros k1 Hk1. apply Forall_forall. intros p Hp.
        apply dict_set_keys in Hp as [Hp| ->].
        + rewrite Forall_forall in Hagree. specialize (Hagree k1 Hk1).
          rewrite Forall_forall in Hagree. apply Hagree. exact Hp.
        + rewrite Forall_forall in Hk. rewrite Forall_forall in Hk'. rewrite (Hk k1 Hk1).
          symmetry. apply Hk'. apply list_elem_of_fmap. exists k1. split; [reflexivity|exact Hk1].
      - apply Forall_forall. intros [k1 y1] Hin x Hx. cbn [fst snd] in *.
        rewrite Forall_forall in Hgood. apply (Hgood (k1, y1) Hin). cbn [fst].
        rewrite <- Hx. symmetry. apply dict_get_set_ne; try assumption.
        rewrite Forall_forall in Hk. apply Hk.
        apply list_elem_of_fmap. exists (k1, y1). split; [reflexivity|exact Hin]. }
    cbn [fmap list_fmap fst merge_loop merge_entries erase snd].
    change (list_fmap _ _ ?f ?l) with (f <$> l).
    rewrite (dict_get_erase parts k Hak).
    destruct (dict_get eqb parts k) as [x|] eqn:Eg; cbn [fmap option_fmap option_map].
    + destruct (Hrec x y s (Hgk x eq_refl)) as (r & s1 & Hr & Hsh).
      rewrite Hsh. destruct (Hnext r s1) as (parts' & s' & Hl & He).
      exists parts', s'. split.
      * rewrite (bind_ok _ _ s s1 (dict_set eqb parts k r)); [exact Hl|].
        rewrite (bind_ok _ _ _ _ _ (Hik s)). rewrite (bind_ok _ _ _ _ _ Hr). reflexivity.
      * change (phi k, shape_of y) with (erase (k, y)).
        rewrite (dict_set_erase parts k r Hak). exact He.
    + destruct (Hnext y s) as (parts' & s' & Hl & He).
      exists parts', s'. split.
      * rewrite (bind_ok _ _ s s (dict_set eqb parts k y)); [exact Hl|].
        rewrite (bind_ok _ _ _ _ _ (Hik s)). reflexivity.
      * rewrite (dict_set_erase parts k y Hak). exact He.
Qed.
End Erasure.

Lemma var_eq_sym (a b : varobj) : var_eq a b = var_eq b a.
Proof.
  unfold var_eq. destruct (var a), (var b); try reflexivity;
    try apply N.eqb_sym; apply Z.eqb_sym.
Qed.

Lemma var_eq_trans (a b c : varobj) :
  var_eq a b = true -> var_eq b c = true -> var_eq a c = true.
Proof.
  unfold var_eq. destruct (var a), (var b); try discriminate;
    destruct (var c); try discriminate;
    rewrite ?N.eqb_eq, ?Z.eqb_eq; congruence.
Qed.

Lemma same_sample_sym (a b : variable) : same_sample a b = same_sample b a.
Proof. destruct a, b; try reflexivity; apply Z.eqb_sym. Qed.

Lemma same_sample_trans (a b c : variable) :
  same_sample a b = true -> same_sample b c = true -> same_sample a c = true.
Proof.
  destruct a, b; try discriminate; destruct c; try discriminate;
    cbn; rewrite ?Z.eqb_eq; congruence.
Qed.

(** On two different objects, [==] is what survives cloning. *)
Lemma var_eq_same_sample (a b : varobj) :
  addr_of a <> addr_of b -> var_eq a b = same_sample (var a) (var b).
Proof.
  intros H. apply N.eqb_neq in H. unfold var_eq.
  destruct (var a), (var b); try reflexivity; exact H.
Qed.

Section Sets.
Context {K : Type} (eqb : K -> K -> bool).
Hypothesis eqb_sym : forall a b, eqb a b = eqb b a.
Hypothesis eqb_trans : forall a b c, eqb a b = true -> eqb b c = true -> eqb a c = true.

Lemma set_in_app (s t : list K) (x : K) :
  set_in eqb (s ++ t) x = set_in eqb s x || set_in eqb t x.
Proof. unfold set_in. apply existsb_app. Qed.

Lemma set_in_congr (s : list K) (a b : K) :
  eqb a b = true -> set_in eqb s a = set_in eqb s b.
Proof.
  intros Hab. unfold set_in. induction s as [|p s IH]; cbn; [reflexivity|].
  rewrite (eqb_congr eqb eqb_sym eqb_trans a b p Hab), IH. reflexivity.
Qed.

Lemma set_add_in (s : list K) (k x : K) :
  set_in eqb (set_add eqb s k) x = set_in eqb s x || eqb x k.
Proof.
  unfold set_add. destruct (set_in eqb s k) eqn:E.
  - destruct (eqb x k) eqn:Ex; [|rewrite orb_false_r; reflexivity].
    rewrite (set_in_congr s x k Ex), E. reflexivity.
  - rewrite set_in_app. cbn. rewrite orb_false_r. reflexivity.
Qed.

Lemma set_union_cons (s t : list K) (k : K) :
  set_union eqb s (k :: t) = set_union eqb (set_add eqb s k) t.
Proof. reflexivity. Qed.

Lemma set_union_in (t : list K) : forall (s : list K) (x : K),
  set_in eqb (set_union eqb s t) x = set_in eqb s x || set_in eqb t x.
Proof.
  induction t as [|k t IH]; intros s x.
  - cbn. rewrite orb_false_r. reflexivity.
  - rewrite set_union_cons, IH, set_add_in, <- orb_assoc. reflexivity.
Qed.

Lemma set_union_elem (t : list K) : forall (s : list K) (x : K),
  x ∈ set_union eqb s t -> x ∈ s \/ x ∈ t.
Proof.
  induction t as [|k t IH]; intros s x; [cbn; tauto|].
  rewrite set_union_cons. intros H. destruct (IH _ _ H) as [Hs|Ht].
  - unfold set_add in Hs. destruct (set_in eqb s k); [left; exact Hs|].
    apply elem_of_app in Hs as [?|Hk]; [left; assumption|].
    apply list_elem_of_singleton in Hk as ->. right. left.
  - right. right. exact Ht.
Qed.

Lemma set_union_prefix (t : list K) : forall (s : list K),
  exists added, set_union eqb s t = s ++ added.
Proof.
  induction t as [|k t IH]; intros s.
  - exists []. cbn. rewrite app_nil_r. reflexivity.
  - rewrite set_union_cons. destruct (IH (set_add eqb s k)) as (added & ->).
    unfold set_add. destruct (set_in eqb s k).
    + exists added. reflexivity.
    + exists (k :: added). rewrite <- app_assoc. reflexivity.
Qed.
End Sets.

Lemma set_union_erase (t : list varobj) : forall (s : list varobj),
  (forall p q, p ∈ s -> q ∈ t -> addr_of p <> addr_of q) ->
  NoDup (addr_of <$> t) ->
  var <$> set_union var_eq s t = set_union same_sample (var <$> s) (var <$> t).
Proof.
  induction t as [|k t IH]; intros s Hst Ht; [reflexivity|].
  rewrite fmap_cons, !set_union_cons.
  cbn in Ht. apply NoDup_cons in Ht as [Hk Ht].
  assert (Hadd : var <$> set_add var_eq s k = set_add same_sample (var <$> s) (var k)).
  { unfold set_add, set_in.
    assert (Hex : existsb (var_eq k) s = existsb (same_sample (var k)) (var <$> s)).
    { clear IH. induction s as [|p s IHs]; cbn; [reflexivity|]. f_equal.
      - apply var_eq_same_sample. intros E. apply (Hst p k); [left|left|]. symmetry. exact E.
      - apply IHs. intros p' q Hp' Hq. apply Hst; [right; exact Hp'|exact Hq]. }
    rewrite <- Hex. destruct (existsb (var_eq k) s); [reflexivity|].
    rewrite fmap_app. reflexivity. }
  rewrite <- Hadd. apply IH; [|exact Ht].
  intros p q Hp Hq. unfold set_add in Hp. destruct (set_in var_eq s k).
  - apply Hst; [exact Hp|right; exact Hq].
  - apply elem_of_app in Hp as [Hp|Hp]; [apply Hst; [exact Hp|right; exact Hq]|].
    apply list_elem_of_singleton in Hp as ->. intros E. apply Hk.
    apply list_elem_of_fmap. exists q. split; [exact E|exact Hq].
Qed.

Lemma var_addresses_item {K} (ka : K -> list addr) (l : list (K * container))
    (k : K) (x : container) :
  (k, x) ∈ l ->
  var_addresses x `sublist_of`
    concat ((fun kv => ka (fst kv) ++ var_addresses (snd kv)) <$> l).
Proof.
  induction l as [|[k' x'] l IH]; intros Hin.
  - apply elem_of_nil in Hin. contradiction.
  - cbn. apply elem_of_cons in Hin as [[= -> ->]|Hin].
    + apply sublist_inserts_r. apply sublist_inserts_l. reflexivity.
    + apply sublist_inserts_l. exact (IH Hin).
Qed.

Lemma var_addresses_keys (l : list (varobj * container)) :
  addr_of <$> (fst <$> l) `sublist_of`
    concat ((fun kv => [addr_of (fst kv)] ++ var_addresses (snd kv)) <$> l).
Proof.
  induction l as [|[k x] l IH]; cbn; [constructor|].
  apply sublist_skip. apply sublist_inserts_l. exact IH.
Qed.

Lemma distinct_var_eq (l : list varobj) :
  NoDup (addr_of <$> l) -> distinct same_sample (var <$> l) -> distinct var_eq l.
Proof.
  induction l as [|k l IH]; cbn; [tauto|].
  intros Hnd [Hk Hd]. apply NoDup_cons in Hnd as [Hn Hnd]. split; [|auto].
  apply Forall_forall. intros k' Hk'. rewrite var_eq_same_sample.
  - rewrite Forall_forall in Hk. apply Hk. apply list_elem_of_fmap. exists k'. auto.
  - intros E. apply Hn. apply list_elem_of_fmap. exists k'. auto.
Qed.

Lemma All_Forall {A} (P : A -> Prop) (l : list A) : All P l <-> Forall P l.
Proof.
  induction l as [|x l IH]; cbn; [split; constructor|].
  rewrite Forall_cons, IH. reflexivity.
Qed.

Lemma erase_keys {K K'} (phi : K -> K') (l : list (K * container)) :
  fst <$> (erase phi <$> l) = phi <$> (fst <$> l).
Proof. induction l as [|kv l IH]; cbn; [reflexivity|]. f_equal. exact IH. Qed.

Lemma NoDup_sublists {A} (l1 l2 k1 k2 : list A) :
  l1 `sublist_of` k1 -> l2 `sublist_of` k2 -> NoDup (k1 ++ k2) -> NoDup (l1 ++ l2).
Proof.
  intros H1 H2 Hnd. eapply sublist_NoDup; [exact Hnd|]. apply sublist_app; assumption.
Qed.

(** What the recursive call of [merge] needs of two subtrees of depth [d]. *)
Lemma merge_refines (fuel : nat) : forall d x y s,
  (d < fuel)%nat -> uniform d x -> uniform d y -> distinct_keys (shape_of y) ->
  (d = 0%nat -> NoDup (var_addresses x ++ var_addresses y)) ->
  exists r s',
    merge fuel x y s = Ok (r, s') /\
    merge_shape (shape_of x) (shape_of y) = Some (shape_of r).
Proof.
  induction fuel as [|fuel IH]; intros d x y s Hd Hx Hy Hdk Hnd; [lia|].
  destruct d as [|d].
  - destruct x as [s1 fa1 f1 va1 d1|]; [|contradiction].
    destruct y as [s2 fa2 f2 va2 d2|]; [|contradiction].
    cbn [merge]. rewrite (bind_ok _ _ _ _ _ (alloc_ok s)).
    rewrite (bind_ok _ _ _ _ _ (alloc_ok _)). unfold new_VariableSet.
    rewrite (bind_ok _ _ _ _ _ (alloc_ok _)). cbn [fst snd].
    eexists _, _. split; [reflexivity|]. cbn [shape_of merge_shape]. do 2 f_equal.
    specialize (Hnd eq_refl). cbn [var_addresses] in Hnd.
    apply NoDup_app in Hnd as (_ & Hdisj & Hnd2). symmetry.
    apply set_union_erase; [|exact Hnd2].
    intros p q Hp Hq E. apply (Hdisj (addr_of p)).
    + apply list_elem_of_fmap. exists p. auto.
    + apply list_elem_of_fmap. exists q. auto.
  - destruct x as [|s1 fa1 f1 va1 d1]; [contradiction|].
    destruct y as [|s2 fa2 f2 va2 d2]; [contradiction|].
    clear Hnd. cbn [merge].
    destruct (deepcopy_copies (VariableDict s1 fa1 f1 va1 d1) s)
      as (nf & t1 & Hc1 & Hle1 & _ & Hsh1 & _ & Hw1 & Hnd1 & Hu1).
    destruct (deepcopy_copies (VariableDict s2 fa2 f2 va2 d2) t1)
      as (ns & t2 & Hc2 & Hle2 & _ & Hsh2 & _ & Hw2 & Hnd2 & Hu2).
    rewrite (bind_ok _ _ _ _ _ Hc1), (bind_ok _ _ _ _ _ Hc2).
    specialize (Hu1 _ Hx). specialize (Hu2 _ Hy).
    assert (HND : NoDup (var_addresses nf ++ var_addresses ns)).
    { eapply within_disjoint_NoDup; eassumption. }
    rewrite <- Hsh1, <- Hsh2. rewrite <- Hsh2 in Hdk. clear Hsh1 Hsh2 Hc1 Hc2 Hw1 Hw2.
    destruct nf as [|n1 nfa nff nva nfd]; [contradiction|].
    destruct ns as [|n2 nsa nsf nsva nsd]; [contradiction|].
    destruct Hu1 as [Hu1f Hu1d]. destruct Hu2 as [Hu2f Hu2d].
    cbn [shape_of distinct_keys] in Hdk.
    change (fun kv : Z * container => (fst kv, shape_of (snd kv)))
      with (erase (fun k : Z => k)) in Hdk |- *.
    change (fun kv : varobj * container => (var (fst kv), shape_of (snd kv)))
      with (erase var) in Hdk |- *.
    destruct Hdk as (Hdk1 & Hdk2 & Hall1 & Hall2).
    rewrite erase_keys in Hdk1. rewrite erase_keys in Hdk2.
    apply All_Forall in Hall1. apply All_Forall in Hall2.
    rewrite Forall_fmap in Hall1. rewrite Forall_fmap in Hall2.
    cbn [var_addresses] in HND, Hnd2.
    set (good := fun x' y' : container =>
                   uniform d x' /\ uniform d y' /\ distinct_keys (shape_of y') /\
                   NoDup (var_addresses x' ++ var_addresses y')).
    assert (Hrec : forall x' y' s0, good x' y' ->
              exists r s', merge fuel x' y' s0 = Ok (r, s') /\
                           merge_shape (shape_of x') (shape_of y') = Some (shape_of r)).
    { intros x' y' s0 (? & ? & ? & ?). apply (IH d); auto. lia. }
    assert (Hgood : forall {K1 K2} (ka1 : K1 -> list addr) (ka2 : K2 -> list addr)
              (l1 : list (K1 * container)) (l2 : list (K2 * container))
              (eqb1 : K1 -> K1 -> bool) (k1 : K1) (x' : container) (kv : K2 * container),
              Forall (fun kv => uniform d (snd kv)) l1 ->
              Forall (fun kv => uniform d (snd kv)) l2 ->
              Forall (fun kv => distinct_keys (shape_of (snd kv))) l2 ->
              NoDup (concat ((fun kv => ka1 (fst kv) ++ var_addresses (snd kv)) <$> l1) ++
                     concat ((fun kv => ka2 (fst kv) ++ var_addresses (snd kv)) <$> l2)) ->
              kv ∈ l2 -> dict_get eqb1 l1 k1 = Some x' -> good x' (snd kv)).
    { intros K1 K2 ka1 ka2 l1 l2 eqb1 k1 x' [k2 y'] H1 H2 H3 H4 Hin Hget.
      apply dict_get_elem in Hget as (p & Hp & _).
      rewrite Forall_forall in H1. rewrite Forall_forall in H2.
      rewrite Forall_forall in H3. cbn [snd]. split; [|split; [|split]].
      - apply (H1 (p, x') Hp).
      - apply (H2 (k2, y') Hin).
      - apply (H3 (k2, y') Hin).
      - eapply NoDup_sublists; [| |exact H4].
        + apply (var_addresses_item ka1 l1 p x' Hp).
        + apply (var_addresses_item ka2 l2 k2 y' Hin). }
    destruct (merge_loop_refines Z.eqb Z.eqb (fun k : Z => k) Z.eqb_sym) with
      (rec := merge fuel)
      (item := fun element => getitem (VariableDict n2 nsa nsf nsva nsd) (inl element))
      (good := good) (theirs := nsf) (parts := nff) (s := t2)
      as (fixed' & t3 & Hl1 & He1).
    { intros a b c. rewrite !Z.eqb_eq. congruence. }
    { exact Hrec. }
    { apply Forall_forall. intros [k y'] Hin s0. cbn [fst snd getitem].
      rewrite (dict_get_own Z.eqb nsf k y'); [reflexivity| |idtac|exact Hin].
      - intros a _. apply Z.eqb_refl.
      - rewrite list_fmap_id in Hdk1. exact Hdk1. }
    { rewrite list_fmap_id in Hdk1. exact Hdk1. }
    { exact Hdk1. }
    { apply Forall_forall. intros k _. apply Forall_forall. reflexivity. }
    { apply Forall_forall. intros kv Hin x' Hget.
      eapply (Hgood _ _ (fun _ => []) (fun _ => []) nff nsf); try eassumption.
      eapply NoDup_sublists; [| |exact HND].
      - apply sublist_inserts_r. reflexivity.
      - apply sublist_inserts_r. reflexivity. }
    rewrite (bind_ok _ _ _ _ _ Hl1).
    assert (Hkeys2 : NoDup (addr_of <$> (fst <$> nsd))).
    { eapply sublist_NoDup; [exact Hnd2|].
      apply sublist_inserts_l. apply var_addresses_keys. }
    assert (Hdv : distinct var_eq (fst <$> nsd)).
    { apply distinct_var_eq; assumption. }
    destruct (merge_loop_refines var_eq same_sample var var_eq_sym var_eq_trans) with
      (rec := merge fuel)
      (item := fun element => getitem (VariableDict n2 nsa nsf nsva nsd) (inr element))
      (good := good) (theirs := nsd) (parts := nfd) (s := t3)
      as (deferred' & t4 & Hl2 & He2).
    { exact Hrec. }
    { apply Forall_forall. intros [k y'] Hin s0. cbn [fst snd getitem].
      rewrite (dict_get_own var_eq nsd k y'); [reflexivity| |exact Hdv|exact Hin].
      intros a _. apply var_eq_refl. }
    { exact Hdv. }
    { exact Hdk2. }
    { apply Forall_forall. intros k Hk. apply Forall_forall. intros p Hp.
      apply var_eq_same_sample. intros E.
      apply NoDup_app in HND as (_ & Hdisj & _). apply (Hdisj (addr_of p)).
      - apply elem_of_app. right.
        eapply elem_of_sublist; [|apply var_addresses_keys].
        apply list_elem_of_fmap. exists p. auto.
      - apply elem_of_app. right.
        eapply elem_of_sublist; [|apply var_addresses_keys].
        rewrite <- E. apply list_elem_of_fmap. exists k. auto. }
    { apply Forall_forall. intros kv Hin x' Hget.
      eapply (Hgood _ _ (fun k => [addr_of k]) (fun k => [addr_of k]) nfd nsd);
        try eassumption.
      eapply NoDup_sublists; [| |exact HND].
      - apply sublist_inserts_l. reflexivity.
      - apply sublist_inserts_l. reflexivity. }
    rewrite (bind_ok _ _ _ _ _ Hl2). unfold new_VariableDict.
    rewrite (bind_ok _ _ _ _ _ (alloc_ok _)). cbn [fst snd].
    eexists _, _. split; [reflexivity|].
    cbn [shape_of merge_shape].
    change (fun kv : Z * container => (fst kv, shape_of (snd kv)))
      with (erase (fun k : Z => k)).
    change (fun kv : varobj * container => (var (fst kv), shape_of (snd kv)))
      with (erase var).
    rewrite He1, He2. reflexivity.
Qed.

Section Kept.
Context {K : Type} (eqb : K -> K -> bool).
Hypothesis eqb_sym : forall a b, eqb a b = eqb b a.
Hypothesis eqb_trans : forall a b c, eqb a b = true -> eqb b c = true -> eqb a c = true.
Variable rec : shape -> shape -> option shape.

Lemma unrelated (k p : K) : eqb k k = false -> eqb p k = false.
Proof.
  intros Hk. destruct (eqb p k) eqn:E; [|reflexivity].
  rewrite <- Hk. symmetry. eapply eqb_trans; [|exact E]. rewrite eqb_sym. exact E.
Qed.

Lemma dict_set_keeps {V} (d : list (K * V)) (k k0 : K) (x v : V) :
  (k, x) ∈ d -> eqb k0 k = false -> (k, x) ∈ dict_set eqb d k0 v.
Proof.
  intros Hin Hk. induction d as [|[p w] d IH]; [apply elem_of_nil in Hin; contradiction|].
  cbn. apply elem_of_cons in Hin as [[= <- <-]|Hin].
  - rewrite Hk. left.
  - destruct (eqb k0 p); right; auto.
Qed.

Lemma dict_set_adds {V} (d : list (K * V)) (k : K) (v : V) :
  dict_get eqb d k = None -> (k, v) ∈ dict_set eqb d k v.
Proof.
  induction d as [|[p w] d IH]; cbn; [intros _; left|].
  destruct (eqb k p); [discriminate|]. intros H. right. auto.
Qed.

(** An entry whose key equals no key, not even itself, is carried over
    from either side. *)
Lemma merge_entries_keeps (theirs : list (K * shape)) :
  forall mine res k x,
    merge_entries eqb rec mine theirs = Some res ->
    eqb k k = false -> (k, x) ∈ mine ++ theirs -> (k, x) ∈ res.
Proof.
  induction theirs as [|[k0 y0] rest IH]; intros mine res k x Hm Hk Hin.
  - cbn in Hm. injection Hm as <-. rewrite app_nil_r in Hin. exact Hin.
  - cbn [merge_entries] in Hm.
    assert (Hstep : forall v, (dict_get eqb mine k0 = None -> v = y0) ->
              merge_entries eqb rec (dict_set eqb mine k0 v) rest = Some res ->
              (k, x) ∈ res).
    { intros v Hv Hres. apply (IH _ _ _ _ Hres Hk).
      rewrite elem_of_app in Hin. rewrite elem_of_app.
      destruct Hin as [Hin|Hin].
      - left. apply dict_set_keeps; [exact Hin|]. apply unrelated. exact Hk.
      - apply elem_of_cons in Hin as [[= -> ->]|Hin]; [|right; exact Hin].
        left. assert (Hnone : dict_get eqb mine k0 = None).
        { apply dict_get_None. apply Forall_forall. intros p _.
          rewrite eqb_sym. apply unrelated. exact Hk. }
        rewrite (Hv Hnone). apply dict_set_adds. exact Hnone. }
    destruct (dict_get eqb mine k0) as [x0|] eqn:Eg.
    + destruct (rec x0 y0) as [r0|]; [|discriminate].
      apply (Hstep r0); [discriminate|exact Hm].
    + apply (Hstep y0); [reflexivity|exact Hm].
Qed.
End Kept.

(** C7, the statement as written fails on a deferred key both sides have:
    the index placeholder at address 20 is the only key of both trees, but
    each side is cloned, the two clones are different objects, and the
    result holds two entries, one with the subtree of each side; the two
    subtrees are not merged. *)
Lemma merge_shared_deferred_key :
  fst <$> dict_deferred deferred_first = [shared_key] /\
  fst <$> dict_deferred deferred_second = [shared_key] /\
  exists r,
    run (merge 2 deferred_first deferred_second) (State 30 []) = Ok r /\
    shape_of r = DictShape [] [(IndexVariable 0, SetShape {[ 1 ]} []);
                               (IndexVariable 0, SetShape {[ 2 ]} [])].
Proof.
  split; [reflexivity|]. split; [reflexivity|].
  eexists. split; [vm_compute; reflexivity|]. reflexivity.
Qed.

(** C7, amended.  For two containers of the same kind and depth [d], the
    keys of every dict of the second pairwise different, [merge] with fuel
    above [d] returns a container of depth [d].

    For value sets, its fixed partition is the union of the two fixed
    partitions, and its deferred partition is the union of the two deferred
    partitions for Python's [==] on placeholders (identifier for sample and
    random placeholders, identity of the object otherwise): it holds
    placeholders of the two sides only, and a placeholder is in it exactly
    when it is in one of the two.

    For keyed trees, the result is, addresses apart, the merge of the
    specification taken on clones: the entry at a fixed key is the entry of
    the side that has the key when only one has it, and the recursive merge
    of the two subtrees when both have it; a deferred key of the second
    operand is merged that way into a deferred key of the first only when
    the two are sample (or random) placeholders with the same identifier,
    and every other deferred entry of either side is carried over under a
    key of its own. *)
Theorem merge_against_specification (fuel d : nat) (a b : container) (s : state) :
  (d < fuel)%nat -> uniform d a -> uniform d b -> distinct_keys (shape_of b) ->
  exists r s',
    merge fuel a b s = Ok (r, s') /\ uniform d r /\
    (d = 0%nat ->
       set_fixed r = set_fixed a ∪ set_fixed b /\
       (forall v, set_in var_eq (set_deferred r) v
                  = set_in var_eq (set_deferred a) v || set_in var_eq (set_deferred b) v) /\
       (forall v, v ∈ set_deferred r -> v ∈ set_deferred a \/ v ∈ set_deferred b)) /\
    (d <> 0%nat ->
       merge_shape (shape_of a) (shape_of b) = Some (shape_of r) /\
       (forall k, dict_get Z.eqb (shape_fixed (shape_of r)) k
                  = merged_entry merge_shape
                      (dict_get Z.eqb (shape_fixed (shape_of a)) k)
                      (dict_get Z.eqb (shape_fixed (shape_of b)) k)) /\
       (forall v, dict_get same_sample (shape_deferred (shape_of r)) v
                  = merged_entry merge_shape
                      (dict_get same_sample (shape_deferred (shape_of a)) v)
                      (dict_get same_sample (shape_deferred (shape_of b)) v)) /\
       (forall v x, same_sample v v = false ->
                    (v, x) ∈ shape_deferred (shape_of a) ++ shape_deferred (shape_of b) ->
                    (v, x) ∈ shape_deferred (shape_of r))).
Proof.
  intros Hd Ha Hb Hdk.
  destruct (merge_range fuel d a b s Hd Ha Hb) as (r & s' & Hm & _ & Hu & _).
  exists r, s'. split; [exact Hm|]. split; [exact Hu|]. split.
  - intros ->. destruct fuel as [|fuel]; [lia|].
    destruct a as [s1 fa1 f1 va1 d1|]; [|contradiction].
    destruct b as [s2 fa2 f2 va2 d2|]; [|contradiction].
    cbn [merge] in Hm. rewrite (bind_ok _ _ _ _ _ (alloc_ok s)) in Hm.
    rewrite (bind_ok _ _ _ _ _ (alloc_ok _)) in Hm. unfold new_VariableSet in Hm.
    rewrite (bind_ok _ _ _ _ _ (alloc_ok _)) in Hm. cbn [fst snd] in Hm.
    injection Hm as <- _. cbn [set_fixed set_deferred].
    split; [reflexivity|]. split.
    + intros v. apply set_union_in; [apply var_eq_sym|apply var_eq_trans].
    + intros v. apply set_union_elem.
  - intros Hd0.
    destruct (merge_refines fuel d a b s Hd Ha Hb Hdk) as (r' & s'' & Hm' & Hsh).
    { intros ->. contradiction. }
    rewrite Hm in Hm'. injection Hm' as <- <-.
    split; [exact Hsh|].
    destruct d as [|d]; [contradiction|].
    destruct a as [|s1 fa1 f1 va1 d1]; [contradiction|].
    destruct b as [|s2 fa2 f2 va2 d2]; [contradiction|].
    destruct r as [|s3 fa3 f3 va3 d3]; [contradiction|].
    cbn [shape_of merge_shape distinct_keys] in Hsh, Hdk |- *.
    destruct Hdk as (Hdk1 & Hdk2 & _).
    destruct (merge_entries Z.eqb merge_shape _ _) as [fx|] eqn:E1; [|discriminate].
    destruct (merge_entries same_sample merge_shape _ _) as [df|] eqn:E2; [|discriminate].
    injection Hsh as <- <-. cbn [shape_fixed shape_deferred].
    split; [|split].
    + intros k. eapply merge_entries_lookup; [apply Z.eqb_sym| |exact Hdk1|exact E1].
      intros x y z. rewrite !Z.eqb_eq. congruence.
    + intros v. eapply merge_entries_lookup;
        [apply same_sample_sym|apply same_sample_trans|exact Hdk2|exact E2].
    + intros v x Hv Hin. eapply merge_entries_keeps;
        [apply same_sample_sym|apply same_sample_trans|exact E2|exact Hv|exact Hin].
Qed.

Lemma merge_against_specification_witness :
  exists r s',
    merge 2 tree_first tree_second (State 18 []) = Ok (r, s') /\ uniform 1 r /\
    (1%nat = 0%nat ->
       set_fixed r = set_fixed tree_first ∪ set_fixed tree_second /\
       (forall v, set_in var_eq (set_deferred r) v
                  = set_in var_eq (set_deferred tree_first) v
                    || set_in var_eq (set_deferred tree_second) v) /\
       (forall v, v ∈ set_deferred r ->
                  v ∈ set_deferred tree_first \/ v ∈ set_deferred tree_second)) /\
    (1%nat <> 0%nat ->
       merge_shape (shape_of tree_first) (shape_of tree_second) = Some (shape_of r) /\
       (forall k, dict_get Z.eqb (shape_fixed (shape_of r)) k
                  = merged_entry merge_shape
                      (dict_get Z.eqb (shape_fixed (shape_of tree_first)) k)
                      (dict_get Z.eqb (shape_fixed (shape_of tree_second)) k)) /\
       (forall v, dict_get same_sample (shape_deferred (shape_of r)) v
                  = merged_entry merge_shape
                      (dict_get same_sample (shape_deferred (shape_of tree_first)) v)
                      (dict_get same_sample (shape_deferred (shape_of tree_second)) v)) /\
       (forall v x, same_sample v v = false ->
                    (v, x) ∈ shape_deferred (shape_of tree_first)
                             ++ shape_deferred (shape_of tree_second) ->
                    (v, x) ∈ shape_deferred (shape_of r))).
Proof.
  apply (merge_against_specification 2 1 tree_first tree_second (State 18 [])).
  - lia.
  - simpl. repeat constructor.
  - simpl. repeat constructor.
  - simpl. repeat constructor.
Defined.

(** The examples of the specification: [{1, 2}] merged with [{2, 3}] is
    [{1, 2, 3}], and the trees [{1: {1, 2}}] and [{1: {2, 3}, 5: {9}}] merge
    into [{1: {1, 2, 3}, 5: {9}}]. *)
Lemma merge_examples :
  (exists r, run (merge 1 (VariableSet 0 1 {[ 1; 2 ]} 2 []) (VariableSet 3 4 {[ 2; 3 ]} 5 []))
                 (State 6 []) = Ok r /\
             shape_of r = SetShape {[ 1; 2; 3 ]} []) /\
  (exists r, run (merge 2 tree_first tree_second) (State 18 []) = Ok r /\
             shape_of r = DictShape [(1, SetShape {[ 1; 2; 3 ]} []); (5, SetShape {[ 9 ]} [])] []).
Proof.
  split; eexists; (split; [vm_compute; reflexivity|]); vm_compute; reflexivity.
Qed.

(** ** Strings *)

Lemma len_app {A} (l k : list A) : len (l ++ k) = len l + len k.
Proof. unfold len. rewrite length_app. lia. Qed.

Lemma len_nonneg {A} (l : list A) : 0 <= len l.
Proof. unfold len. lia. Qed.

Lemma startswith_app (x y : str) : startswith (x ++ y) x = true.
Proof.
  induction x as [|c x IH]; [destruct y; reflexivity|].
  cbn. rewrite Ascii.eqb_refl. exact IH.
Qed.

Lemma startswith_head (c x : ascii) (sub s : str) :
  c <> x -> startswith (x :: s) (c :: sub) = false.
Proof. intros H. cbn. apply Ascii.eqb_neq in H. rewrite H. reflexivity. Qed.

Lemma find_at_notin (c : ascii) (sub s : str) (i : Z) :
  c ∉ s -> find_at s (c :: sub) i = -1.
Proof.
  revert i. induction s as [|x s IH]; intros i Hc; [reflexivity|].
  cbn [find_at]. rewrite startswith_head.
  - apply IH. intros H. apply Hc. right. exact H.
  - intros ->. apply Hc. left.
Qed.

Lemma find_at_here (s sub : str) (i : Z) :
  startswith s sub = true -> find_at s sub i = i.
Proof. intros H. destruct s; cbn [find_at]; rewrite H; reflexivity. Qed.

Lemma find_at_first (c : ascii) (sub pre post : str) (i : Z) :
  c ∉ pre -> find_at (pre ++ (c :: sub) ++ post) (c :: sub) i = i + len pre.
Proof.
  revert i. induction pre as [|x pre IH]; intros i Hc.
  - cbn [app]. rewrite find_at_here by apply (startswith_app (c :: sub)).
    unfold len. cbn. lia.
  - cbn [app find_at]. rewrite startswith_head.
    + rewrite IH.
      * unfold len. cbn [length]. lia.
      * intros H. apply Hc. right. exact H.
    + intros ->. apply Hc. left.
Qed.

(** An occurrence found behind a prefix without the first character of what
    is looked for lies behind that prefix. *)
Lemma find_at_behind (c : ascii) (sub pre post : str) (i : Z) :
  c ∉ pre ->
  find_at (pre ++ post) (c :: sub) i = -1 \/
  i + len pre <= find_at (pre ++ post) (c :: sub) i.
Proof.
  revert i. induction pre as [|x pre IH]; intros i Hc.
  - cbn [app]. revert i. induction post as [|y post IHp]; intros i.
    + left. reflexivity.
    + cbn [find_at]. destruct (startswith (y :: post) (c :: sub)).
      * right. unfold len. cbn. lia.
      * destruct (IHp (i + 1)) as [H|H]; [left; exact H|right].
        unfold len in *. cbn in *. lia.
  - cbn [app find_at]. rewrite startswith_head.
    + destruct (IH (i + 1)) as [H|H].
      * intros H'. apply Hc. right. exact H'.
      * left. exact H.
      * right. unfold len in *. cbn [length] in *. lia.
    + intros ->. apply Hc. left.
Qed.

Lemma find_0 (s sub : str) : find s sub 0 = find_at s sub 0.
Proof.
  unfold find. cbn [Z.ltb Z.compare].
  replace (len s <? 0) with false by (symmetry; apply Z.ltb_ge; apply len_nonneg).
  reflexivity.
Qed.

Lemma contains_notin (c : ascii) (s : str) : c ∉ s -> contains s [c] = false.
Proof. intros H. unfold contains. rewrite find_0, find_at_notin by exact H. reflexivity. Qed.

Lemma contains_in (c : ascii) (pre post : str) :
  c ∉ pre -> contains (pre ++ [c] ++ post) [c] = true.
Proof.
  intros H. unfold contains. rewrite find_0, (find_at_first c [] pre post 0 H).
  pose proof (len_nonneg pre). destruct (0 + len pre =? -1) eqn:E; [|reflexivity].
  apply Z.eqb_eq in E. lia.
Qed.

Lemma clip_inside (n i : Z) : 0 <= i <= n -> clip n i = Z.to_nat i.
Proof.
  intros H. unfold clip. replace (i <? 0) with false by (symmetry; apply Z.ltb_ge; lia).
  rewrite Z.min_r by lia. reflexivity.
Qed.

Lemma slice_to_app {A} (a b : list A) : slice_to (a ++ b) (len a) = a.
Proof.
  unfold slice_to. rewrite clip_inside.
  - unfold len. rewrite Nat2Z.id. apply take_app_length.
  - rewrite len_app. pose proof (len_nonneg a). pose proof (len_nonneg b). lia.
Qed.

Lemma slice_from_app {A} (a b : list A) : slice_from (a ++ b) (len a) = b.
Proof.
  unfold slice_from. rewrite clip_inside.
  - unfold len. rewrite Nat2Z.id. apply drop_app_length.
  - rewrite len_app. pose proof (len_nonneg a). pose proof (len_nonneg b). lia.
Qed.

Lemma split_go_notin (c : ascii) (seg rest acc : str) :
  c ∉ seg -> split_go (seg ++ rest) [c] 0 acc = split_go rest [c] 0 (rev seg ++ acc).
Proof.
  revert acc. induction seg as [|x seg IH]; intros acc Hc; [reflexivity|].
  cbn [app split_go]. rewrite startswith_head.
  - rewrite IH.
    + cbn [rev]. rewrite <- app_assoc. reflexivity.
    + intros H. apply Hc. right. exact H.
  - intros ->. apply Hc. left.
Qed.

Lemma split_go_sep (c : ascii) (rest acc : str) :
  split_go (c :: rest) [c] 0 acc = rev acc :: split_go rest [c] 0 [].
Proof.
  pose proof (startswith_app [c] rest) as H. cbn [app] in H.
  cbn [split_go]. rewrite H. reflexivity.
Qed.

Lemma split_go_join (c : ascii) (rest : list str) : forall (x acc : str),
  c ∉ x -> Forall (fun y => c ∉ y) rest ->
  split_go (x ++ concat ((fun y => [c] ++ y) <$> rest)) [c] 0 acc
  = (rev acc ++ x) :: rest.
Proof.
  induction rest as [|y rest IH]; intros x acc Hx Hrest.
  - cbn [fmap list_fmap concat]. rewrite split_go_notin by exact Hx.
    cbn [split_go]. rewrite rev_app_distr, rev_involutive. reflexivity.
  - apply Forall_cons in Hrest as [Hy Hrest].
    cbn [fmap list_fmap concat]. rewrite split_go_notin by exact Hx.
    rewrite <- app_assoc. cbn [app]. rewrite split_go_sep.
    rewrite rev_app_distr, rev_involutive. f_equal.
    change (list_fmap _ _ ?f ?l) with (f <$> l). rewrite IH by assumption.
    reflexivity.
Qed.

(** Splitting what [join] made, on a one-character separator that no piece
    contains, gives the pieces back. *)
Lemma split_join (c : ascii) (pieces : list str) :
  pieces <> [] -> Forall (fun y => c ∉ y) pieces ->
  split (join [c] pieces) [c] = Some pieces.
Proof.
  intros Hne Hp. destruct pieces as [|x rest]; [contradiction|].
  apply Forall_cons in Hp as [Hx Hrest]. unfold split, join.
  rewrite split_go_join by assumption. reflexivity.
Qed.

(** ** What [int] accepts *)

Lemma digits_chars (s : str) : forall acc after_digit z,
  digits s acc after_digit = Some z -> Forall (fun c => int_char c = true) s.
Proof.
  induction s as [|c s IH]; intros acc b z H; [constructor|].
  cbn [digits] in H. constructor.
  - unfold int_char. destruct (digit_of c) eqn:E.
    + rewrite bool_decide_eq_true_2 by (eexists; reflexivity).
      rewrite orb_true_r. reflexivity.
    + destruct (Ascii.eqb c "_"); [|discriminate]. apply orb_true_r.
  - destruct (digit_of c); [exact (IH _ _ _ H)|].
    destruct (Ascii.eqb c "_" && b); [exact (IH _ _ _ H)|discriminate].
Qed.

Lemma lstrip_split (s : str) :
  exists sp, s = sp ++ lstrip s /\ Forall (fun c => int_char c = true) sp.
Proof.
  induction s as [|c s (sp & Hs & Hsp)]; [exists []; split; [reflexivity|constructor]|].
  cbn [lstrip]. destruct (is_space c) eqn:E.
  - exists (c :: sp). split; [cbn; f_equal; exact Hs|].
    constructor; [|exact Hsp]. unfold int_char. rewrite E. reflexivity.
  - exists []. split; [reflexivity|constructor].
Qed.

Lemma int_chars (s : str) (z : Z) :
  Py.int s = Some z -> s <> [] /\ Forall (fun c => int_char c = true) s.
Proof.
  intros H. unfold Py.int in H.
  assert (Hstrip : Forall (fun c => int_char c = true) (strip s) /\ strip s <> []).
  { destruct (strip s) as [|c r]; [discriminate|]. split; [|discriminate].
    destruct (Ascii.eqb c "+") eqn:E1.
    { constructor; [unfold int_char; rewrite E1; rewrite orb_true_r; reflexivity|].
      eapply digits_chars. exact H. }
    destruct (Ascii.eqb c "-") eqn:E2.
    { constructor; [unfold int_char; rewrite E2; rewrite orb_true_r; reflexivity|].
      destruct (digits r 0 false) eqn:Ed; [|discriminate].
      eapply digits_chars. exact Ed. }
    eapply digits_chars. exact H. }
  destruct Hstrip as [Hall Hne]. unfold strip in *.
  destruct (lstrip_split s) as (sp1 & Hs1 & Hsp1).
  destruct (lstrip_split (rev (lstrip s))) as (sp2 & Hs2 & Hsp2).
  assert (Hmid : lstrip s = rev (lstrip (rev (lstrip s))) ++ rev sp2).
  { rewrite <- rev_app_distr, <- Hs2, rev_involutive. reflexivity. }
  split.
  - intros ->. cbn in Hne. contradiction.
  - rewrite Hs1, Hmid. rewrite !Forall_app. split; [exact Hsp1|]. split; [exact Hall|].
    apply Forall_rev. exact Hsp2.
Qed.

(** A token [int] accepts contains no delimiter and matches no marker. *)
Lemma int_token (s : str) (z : Z) :
  Py.int s = Some z ->
  (("," : ascii) ∉ s) /\ (("~" : ascii) ∉ s) /\ unmarked s.
Proof.
  intros H. destruct (int_chars s z H) as [Hne Hall].
  rewrite Forall_forall in Hall.
  assert (Hnot : forall c, int_char c = false -> c ∉ s).
  { intros c Hc Hin. rewrite (Hall c Hin) in Hc. discriminate. }
  split; [apply Hnot; reflexivity|]. split; [apply Hnot; reflexivity|].
  destruct s as [|x s]; [contradiction|].
  assert (Hx : int_char x = true) by (apply Hall; left).
  unfold unmarked. split; [|split].
  - apply startswith_head. intros <-. discriminate.
  - apply startswith_head. intros <-. discriminate.
  - intros [= -> _]. discriminate.
Qed.

(** ** The listing resolver *)

Lemma convert_literal (value : str) (conv : converter) (p z : Z) (s : state) :
  unmarked value -> conv value = Some z ->
  convert value conv _default_index_specifier _default_random_specifier
          _default_all_specifier p s = Ok (inr z, s).
Proof.
  intros (H1 & H2 & H3) Hc. unfold convert. rewrite H1, H2.
  rewrite bool_decide_eq_false_2 by exact H3. rewrite Hc. reflexivity.
Qed.

Lemma convert_malformed (value : str) (conv : converter) (p : Z) (s : state) :
  unmarked value -> conv value = None ->
  convert value conv _default_index_specifier _default_random_specifier
          _default_all_specifier p s = Raise (ParseError p (CannotConvert value)).
Proof.
  intros (H1 & H2 & H3) Hc. unfold convert. rewrite H1, H2.
  rewrite bool_decide_eq_false_2 by exact H3. rewrite Hc. reflexivity.
Qed.

(** The loop over segments put end to end: the second run starts where the
    first one has moved the position, by [advance]. *)
Lemma unravel_loop_app (segs1 segs2 : list str) (conv : converter)
    (ld rd idx rnd all : str) : forall (f : gset Z) (v : list varobj) (p : Z) (s : state),
  unravel_loop (segs1 ++ segs2) conv ld rd idx rnd all f v p s =
  match unravel_loop segs1 conv ld rd idx rnd all f v p s with
  | Ok (parts, s') =>
      unravel_loop segs2 conv ld rd idx rnd all (fst parts) (snd parts)
        (p + advance ld segs1) s'
  | Raise e => Raise e
  | OutOfFuel => OutOfFuel
  end.
Proof.
  induction segs1 as [|x segs1 IH]; intros f v p s.
  - cbn. rewrite Z.add_0_r. reflexivity.
  - cbn [app unravel_loop advance foldr]. unfold bind.
    destruct (unravel_segment x conv rd idx rnd all f v p s) as [[parts s1]| |];
      [|reflexivity|reflexivity].
    rewrite IH. fold (advance ld segs1).
    replace (p + len x + len ld + advance ld segs1)
      with (p + (len x + len ld + advance ld segs1)) by lia.
    reflexivity.
Qed.

Lemma elem_of_range (a b z : Z) : z ∈ range a b <-> a <= z < b.
Proof.
  unfold range. rewrite list_elem_of_fmap. split.
  - intros (i & -> & Hi). apply elem_of_seq in Hi. lia.
  - intros H. exists (Z.to_nat (z - a)). split; [lia|]. apply elem_of_seq. lia.
Qed.

Lemma unravel_segment_literal (conv : converter) (g : segment)
    (f : gset Z) (v : list varobj) (p : Z) (s : state) :
  literal conv g ->
  match g with
  | Single t => (("~" : ascii) ∉ t) /\ unmarked t
  | Span a b => (("~" : ascii) ∉ a) /\ unmarked a /\ (("~" : ascii) ∉ b) /\ unmarked b
  end ->
  unravel_segment (segment_text g) conv _default_range_delimiter
    _default_index_specifier _default_random_specifier _default_all_specifier f v p s
  = Ok ((f ∪ values conv g, v), s).
Proof.
  destruct g as [t|a b]; cbn [literal segment_text values].
  - intros [z Hz] [Ht Hu]. unfold unravel_segment.
    change _default_range_delimiter with ["~"%char].
    rewrite (contains_notin _ _ Ht).
    rewrite (bind_ok _ _ _ _ _ (convert_literal t conv p z s Hu Hz)).
    rewrite Hz. reflexivity.
  - intros [[x Hx] [y Hy]] (Ha & Hua & Hb & Hub). unfold unravel_segment.
    change _default_range_delimiter with ["~"%char].
    rewrite (contains_in _ _ _ Ha).
    assert (Hsplit : split (a ++ ["~"%char] ++ b) ["~"%char] = Some [a; b]).
    { rewrite <- (split_join "~" [a; b]); [|discriminate|repeat constructor; assumption].
      unfold join. cbn [fmap list_fmap concat]. rewrite app_nil_r. reflexivity. }
    rewrite Hsplit. cbn [of_option]. unfold ret at 1. unfold bind at 1.
    rewrite (bind_ok _ _ _ _ _ (convert_literal a conv p x s Hua Hx)).
    rewrite (bind_ok _ _ _ _ _ (convert_literal b conv _ y s Hub Hy)).
    rewrite Hx, Hy. reflexivity.
Qed.

Lemma unravel_loop_literals (conv : converter) (items : list segment) :
  forall (f : gset Z) (v : list varobj) (p : Z) (s : state),
    Forall (literal conv) items -> Forall well_delimited items ->
    unravel_loop (segment_text <$> items) conv _default_listing_delimiter
      _default_range_delimiter _default_index_specifier _default_random_specifier
      _default_all_specifier f v p s
    = Ok ((f ∪ ⋃ (values conv <$> items), v), s).
Proof.
  induction items as [|g items IH]; intros f v p s Hl Hw.
  - cbn. rewrite (right_id_L ∅ (∪)). reflexivity.
  - apply Forall_cons in Hl as [Hg Hl]. apply Forall_cons in Hw as [Hwg Hw].
    cbn [fmap list_fmap unravel_loop].
    rewrite (bind_ok _ _ s s (f ∪ values conv g, v)).
    + cbn [fst snd]. change (list_fmap _ _ ?h ?l) with (h <$> l).
      rewrite IH by assumption. cbn [union_list foldr].
      rewrite (assoc_L (∪)). reflexivity.
    + apply unravel_segment_literal; [exact Hg|].
      destruct g; cbn in Hwg; tauto.
Qed.

Lemma values_describes (conv : converter) (g : segment) (z : Z) :
  literal conv g -> z ∈ values conv g <-> describes conv g z.
Proof.
  destruct g as [t|a b]; cbn [literal values describes].
  - intros [z0 ->]. rewrite elem_of_singleton. split; congruence.
  - intros [[x ->] [y ->]]. rewrite elem_of_list_to_set, elem_of_range. split.
    + intros H. exists x, y. repeat split; lia.
    + intros (x' & y' & [= <-] & [= <-] & H). lia.
Qed.

Lemma int_literal_delimited (g : segment) : literal Py.int g -> well_delimited g.
Proof.
  destruct g as [t|a b]; cbn [literal well_delimited].
  - intros [z Hz]. exact (int_token t z Hz).
  - intros [[x Hx] [y Hy]]. split; [exact (int_token a x Hx)|exact (int_token b y Hy)].
Qed.

Lemma segment_text_delimited (g : segment) :
  well_delimited g -> (("," : ascii) ∉ segment_text g).
Proof.
  destruct g as [t|a b]; cbn [well_delimited segment_text].
  - tauto.
  - intros [(Ha & _) (Hb & _)]. change _default_range_delimiter with ["~"%char].
    rewrite !elem_of_app, list_elem_of_singleton. intros [?|[?|?]]; try tauto. discriminate.
Qed.

(** The listing resolver on the empty text and on literal-only listings.
    The empty text gives a value set with no fixed and no deferred element.
    A listing made of one or more segments, each a literal [int] accepts or
    a range [a~b] between two such literals, joined by the listing
    delimiter, gives a value set without deferred element whose fixed
    elements are exactly the values described: the literal of a single
    segment, every integer from [a] to [b] inclusive for a range (none when
    [b < a]).  The state is only advanced by the allocation of the result. *)
Theorem resolve_listing_literals (items : list segment) (p : Z) (s : state) :
  items <> [] -> Forall (literal Py.int) items ->
  (exists r s', resolve_listing [] Py.int p s = Ok (r, s') /\
                set_fixed r = ∅ /\ set_deferred r = []) /\
  exists r s',
    resolve_listing (join _default_listing_delimiter (segment_text <$> items)) Py.int p s
    = Ok (r, s') /\
    random s' = random s /\ set_deferred r = [] /\
    forall z, z ∈ set_fixed r <-> Exists (fun g => describes Py.int g z) items.
Proof.
  intros Hne Hl. split.
  { eexists _, _. split; [reflexivity|]. split; reflexivity. }
  assert (Hw : Forall well_delimited items).
  { eapply Forall_impl; [exact Hl|]. apply int_literal_delimited. }
  unfold resolve_listing, unravel.
  rewrite (bind_ok _ _ _ _ _ (alloc_ok s)). rewrite (bind_ok _ _ _ _ _ (alloc_ok _)).
  set (s2 := State _ _).
  assert (Hpos : (0 <? len (join _default_listing_delimiter (segment_text <$> items))) = true).
  { destruct items as [|g items]; [contradiction|]. apply Forall_cons in Hl as [Hg _].
    apply Z.ltb_lt. cbn [fmap list_fmap join]. rewrite len_app.
    pose proof (len_nonneg (concat ((fun y => _default_listing_delimiter ++ y)
                                      <$> (segment_text <$> items)))).
    assert (0 < len (segment_text g)); [|change (list_fmap _ _ ?h ?l) with (h <$> l); lia].
    destruct g as [t|a b]; cbn [segment_text].
    - destruct Hg as [z Hz]. destruct (int_chars t z Hz) as [Ht _].
      destruct t; [contradiction|]. unfold len. cbn. lia.
    - rewrite !len_app. pose proof (len_nonneg a). pose proof (len_nonneg b).
      change (len _default_range_delimiter) with 1. lia. }
  rewrite Hpos.
  change _default_listing_delimiter with [","%char].
  rewrite split_join.
  2:{ destruct items; [contradiction|discriminate]. }
  2:{ rewrite Forall_fmap. eapply Forall_impl; [exact Hw|]. apply segment_text_delimited. }
  set (s3 := State (N.succ (next_addr s2)) (random s2)).
  rewrite (bind_ok _ _ s3 s3 (∅ ∪ ⋃ (values Py.int <$> items), [])).
  2:{ rewrite (bind_ok _ _ s3 s3 (segment_text <$> items)) by reflexivity.
      change [","%char] with _default_listing_delimiter.
      apply unravel_loop_literals; assumption. }
  unfold new_VariableSet. rewrite (bind_ok _ _ _ _ _ (alloc_ok _)).
  eexists _, _. split; [reflexivity|]. cbn [fst snd set_fixed set_deferred random].
  split; [reflexivity|]. split; [reflexivity|].
  intros z. rewrite (left_id_L ∅ (∪)), elem_of_union_list, list.Exists_exists. split.
  - intros (X & HX & Hz). apply list_elem_of_fmap in HX as (g & -> & Hg).
    exists g. split; [exact Hg|].
    rewrite Forall_forall in Hl. apply values_describes; auto.
  - intros (g & Hg & Hz). exists (values Py.int g). split.
    + apply list_elem_of_fmap. exists g. auto.
    + rewrite Forall_forall in Hl. apply values_describes; auto.
Qed.

Lemma resolve_listing_literals_witness :
  (exists r s', resolve_listing [] Py.int 0 (State 0 []) = Ok (r, s') /\
                set_fixed r = ∅ /\ set_deferred r = []) /\
  exists r s',
    resolve_listing
      (join _default_listing_delimiter
         (segment_text <$> [Single (str_of "1"); Span (str_of "3") (str_of "5");
                            Single (str_of "7")])) Py.int 0 (State 0 [])
    = Ok (r, s') /\
    random s' = random (State 0 []) /\ set_deferred r = [] /\
    forall z, z ∈ set_fixed r <->
              Exists (fun g => describes Py.int g z)
                     [Single (str_of "1"); Span (str_of "3") (str_of "5");
                      Single (str_of "7")].
Proof.
  apply (resolve_listing_literals
           [Single (str_of "1"); Span (str_of "3") (str_of "5"); Single (str_of "7")]
           0 (State 0 [])).
  - discriminate.
  - repeat constructor; simpl; eexists; reflexivity.
Defined.

Lemma bind_raise {A B} (c : M A) (k : A -> M B) (s : state) (e : exn) :
  c s = Raise e -> bind c k s = Raise e.
Proof. intros H. unfold bind. rewrite H. reflexivity. Qed.

Lemma join_around (sep : str) (before : list str) (t : str) (after : list str) :
  join sep (before ++ t :: after) = followed sep before ++ t ++ preceded sep after.
Proof.
  unfold followed, preceded. induction before as [|x before IH].
  - reflexivity.
  - cbn [app fmap list_fmap concat]. change (list_fmap _ _ ?h ?l) with (h <$> l).
    rewrite <- !app_assoc, <- IH. unfold join.
    destruct (before ++ t :: after) as [|y l] eqn:E.
    + destruct before; discriminate.
    + cbn [fmap list_fmap concat]. rewrite <- app_assoc. reflexivity.
Qed.

Lemma len_followed (sep : str) (before : list str) :
  len (followed sep before) = advance sep before.
Proof.
  unfold followed, advance. induction before as [|x before IH]; [reflexivity|].
  cbn [fmap list_fmap concat foldr]. rewrite !len_app.
  change (list_fmap _ _ ?h ?l) with (h <$> l). rewrite IH. lia.
Qed.

Lemma unravel_split (conv : converter) (segments : list str) (p : Z) (s : state) :
  segments <> [] -> join _default_listing_delimiter segments <> [] ->
  Forall (fun x => ("," : ascii) ∉ x) segments ->
  unravel (join _default_listing_delimiter segments) conv _default_listing_delimiter
    _default_range_delimiter _default_index_specifier _default_random_specifier
    _default_all_specifier p s
  = (let* parts :=
       unravel_loop segments conv _default_listing_delimiter _default_range_delimiter
         _default_index_specifier _default_random_specifier _default_all_specifier
         ∅ [] p in
     new_VariableSet (next_addr s, fst parts) (N.succ (next_addr s), snd parts))
      (State (N.succ (N.succ (next_addr s))) (random s)).
Proof.
  intros Hne Htext Hsep. unfold unravel.
  rewrite (bind_ok _ _ _ _ _ (alloc_ok s)). rewrite (bind_ok _ _ _ _ _ (alloc_ok _)).
  cbn [next_addr random].
  replace (0 <? len (join _default_listing_delimiter segments)) with true.
  2:{ symmetry. apply Z.ltb_lt. destruct (join _ segments); [contradiction|].
      unfold len. cbn. lia. }
  change _default_listing_delimiter with [","%char].
  rewrite (split_join _ _ Hne Hsep). unfold bind. reflexivity.
Qed.

Lemma unravel_malformed (conv : converter)
    (before : list str) (t : str) (after : list str) (p : Z) (s : state) :
  Forall (fun x => ("," : ascii) ∉ x) (before ++ after) -> ("," : ascii) ∉ t ->
  accepted conv before ->
  ("~" : ascii) ∉ t -> unmarked t -> conv t = None ->
  (join _default_listing_delimiter (before ++ t :: after) <> [] ->
   resolve_listing (followed _default_listing_delimiter before ++ t
                    ++ preceded _default_listing_delimiter after) conv p s
   = Raise (ParseError (p + len (followed _default_listing_delimiter before))
                       (CannotConvert t))) /\
  (forall a z, ("," : ascii) ∉ a -> ("~" : ascii) ∉ a -> unmarked a -> conv a = Some z ->
     resolve_listing (followed _default_listing_delimiter before
                      ++ (a ++ _default_range_delimiter ++ t)
                      ++ preceded _default_listing_delimiter after) conv p s
     = Raise (ParseError
                (p + len (followed _default_listing_delimiter before
                          ++ a ++ _default_range_delimiter))
                (CannotConvert t))).
Proof.
  intros Hsep Ht Hacc Htilde Hun Hconv.
  apply Forall_app in Hsep as [Hb Ha].
  assert (Hrun : forall seg e q,
            ("," : ascii) ∉ seg -> join _default_listing_delimiter (before ++ seg :: after) <> [] ->
            (forall f v s0, unravel_segment seg conv _default_range_delimiter
                       _default_index_specifier _default_random_specifier
                       _default_all_specifier f v (p + advance _default_listing_delimiter before) s0
                     = Raise e) ->
            q = e ->
            resolve_listing (followed _default_listing_delimiter before ++ seg
                             ++ preceded _default_listing_delimiter after) conv p s
            = Raise q).
  { intros seg e q Hseg Hne Hfail ->. rewrite <- join_around. unfold resolve_listing.
    rewrite unravel_split.
    - apply bind_raise. rewrite unravel_loop_app.
      destruct (Hacc ∅ [] p (State (N.succ (N.succ (next_addr s))) (random s)))
        as (parts & s' & ->).
      cbn [unravel_loop]. apply bind_raise. apply Hfail.
    - destruct before; discriminate.
    - exact Hne.
    - apply Forall_app. split; [exact Hb|]. constructor; assumption. }
  split.
  - intros Hne.
    apply (Hrun t (ParseError (p + advance _default_listing_delimiter before)
                              (CannotConvert t)) _ Ht Hne);
      [|rewrite len_followed; reflexivity].
    intros f v s0. unfold unravel_segment.
    change _default_range_delimiter with ["~"%char].
    rewrite (contains_notin _ _ Htilde). apply bind_raise.
    apply convert_malformed; assumption.
  - intros a z Hac Hat Hau Haz.
    apply (Hrun (a ++ _default_range_delimiter ++ t)
             (ParseError (p + advance _default_listing_delimiter before + len a
                          + len _default_range_delimiter) (CannotConvert t)) _).
    + change _default_range_delimiter with ["~"%char].
      rewrite !elem_of_app, list_elem_of_singleton. intros [?|[?|?]]; try tauto. discriminate.
    + rewrite join_around. destruct a as [|c a].
      * destruct (followed _ before); discriminate.
      * intros H. apply app_eq_nil in H as [_ H]. discriminate.
    + intros f v s0. unfold unravel_segment.
      change _default_range_delimiter with ["~"%char].
      rewrite (contains_in _ _ _ Hat).
      assert (Hsplit : split (a ++ ["~"%char] ++ t) ["~"%char] = Some [a; t]).
      { rewrite <- (split_join "~" [a; t]); [|discriminate|repeat constructor; assumption].
        unfold join. cbn [fmap list_fmap concat]. rewrite app_nil_r. reflexivity. }
      rewrite Hsplit. cbn [of_option]. unfold ret at 1. unfold bind at 1.
      rewrite (bind_ok _ _ _ _ _ (convert_literal a conv _ z s0 Hau Haz)).
      apply bind_raise. apply convert_malformed; assumption.
    + rewrite !len_app, len_followed. f_equal. lia.
Qed.

(** The listing resolver on a malformed token.  In a non-empty listing whose
    segments before the token are accepted, a token without range delimiter
    that no marker matches and the converter rejects makes the resolver
    raise a [ParseError] that names the token and carries the position of
    the listing plus the length of the text before the token: the resolver
    has advanced by the length of each segment plus one delimiter.  When the
    token is the last limit of a range whose first limit is an accepted
    literal, the position is moved further by the length of that literal
    and of the range delimiter. *)
Theorem resolve_listing_malformed_position (conv : converter)
    (before : list str) (t : str) (after : list str) (p : Z) (s : state) :
  Forall (fun x => ("," : ascii) ∉ x) (before ++ after) -> ("," : ascii) ∉ t ->
  accepted conv before ->
  ("~" : ascii) ∉ t -> unmarked t -> conv t = None ->
  (join _default_listing_delimiter (before ++ t :: after) <> [] ->
   resolve_listing (followed _default_listing_delimiter before ++ t
                    ++ preceded _default_listing_delimiter after) conv p s
   = Raise (ParseError (p + len (followed _default_listing_delimiter before))
                       (CannotConvert t))) /\
  (forall a z, ("," : ascii) ∉ a -> ("~" : ascii) ∉ a -> unmarked a -> conv a = Some z ->
     resolve_listing (followed _default_listing_delimiter before
                      ++ (a ++ _default_range_delimiter ++ t)
                      ++ preceded _default_listing_delimiter after) conv p s
     = Raise (ParseError
                (p + len (followed _default_listing_delimiter before
                          ++ a ++ _default_range_delimiter))
                (CannotConvert t))).
Proof. apply unravel_malformed. Qed.

Ltac decide_it := apply (bool_decide_unpack _); vm_compute; exact I.

Lemma resolve_listing_malformed_position_witness :
  (join _default_listing_delimiter ([str_of "1"; str_of "#0"] ++ str_of "x" :: [str_of "2"])
   <> [] ->
   resolve_listing (followed _default_listing_delimiter [str_of "1"; str_of "#0"]
                    ++ str_of "x" ++ preceded _default_listing_delimiter [str_of "2"])
                   Py.int 10 (State 0 [])
   = Raise (ParseError (10 + len (followed _default_listing_delimiter
                                    [str_of "1"; str_of "#0"]))
                       (CannotConvert (str_of "x")))) /\
  (forall a z, ("," : ascii) ∉ a -> ("~" : ascii) ∉ a -> unmarked a -> Py.int a = Some z ->
     resolve_listing (followed _default_listing_delimiter [str_of "1"; str_of "#0"]
                      ++ (a ++ _default_range_delimiter ++ str_of "x")
                      ++ preceded _default_listing_delimiter [str_of "2"])
                     Py.int 10 (State 0 [])
     = Raise (ParseError
                (10 + len (followed _default_listing_delimiter [str_of "1"; str_of "#0"]
                           ++ a ++ _default_range_delimiter))
                (CannotConvert (str_of "x")))).
Proof.
  apply (resolve_listing_malformed_position Py.int [str_of "1"; str_of "#0"]
           (str_of "x") [str_of "2"] 10 (State 0 [])).
  - decide_it.
  - decide_it.
  - intros f v q [n r]. eexists _, _. reflexivity.
  - decide_it.
  - repeat split; try reflexivity. discriminate.
  - reflexivity.
Defined.

(** ** The tree parser *)

Lemma find_at_skip (c : ascii) (sub pre x : str) (i : Z) :
  c ∉ pre -> find_at (pre ++ x) (c :: sub) i = find_at x (c :: sub) (i + len pre).
Proof.
  revert i. induction pre as [|y pre IH]; intros i Hc.
  - cbn [app]. f_equal. unfold len. cbn. lia.
  - cbn [app find_at]. rewrite startswith_head.
    + rewrite IH.
      * f_equal. unfold len. cbn [length]. lia.
      * intros H. apply Hc. right. exact H.
    + intros ->. apply Hc. left.
Qed.

Lemma valid_comp_not_before (a b : Z) :
  0 <= b -> a = -1 \/ b <= a -> (valid_comp a b <? 0) = false.
Proof.
  intros Hb Ha. unfold valid_comp.
  destruct (a =? b) eqn:E; [reflexivity|]. apply Z.eqb_neq in E.
  replace (b =? -1) with false by (symmetry; apply Z.eqb_neq; lia).
  destruct Ha as [->|Ha]; [reflexivity|].
  replace (a <? b) with false by (symmetry; apply Z.ltb_ge; lia).
  rewrite andb_false_r. reflexivity.
Qed.

Lemma valid_comp_found_missing (a : Z) : 0 <= a -> (valid_comp a (-1) <? 0) = true.
Proof.
  intros Ha. unfold valid_comp.
  replace (a =? -1) with false by (symmetry; apply Z.eqb_neq; lia).
  rewrite orb_true_r. reflexivity.
Qed.

(** What [find] gives for a symbol that starts with [c], from 0, in a text
    that begins with a part [c] does not occur in. *)
Lemma find_behind (c : ascii) (sub pre post : str) :
  c ∉ pre ->
  find (pre ++ post) (c :: sub) 0 = -1 \/ len pre <= find (pre ++ post) (c :: sub) 0.
Proof.
  intros H. rewrite find_0. destruct (find_at_behind c sub pre post 0 H) as [->|?].
  - left. reflexivity.
  - right. lia.
Qed.

(** The search for the closer of a strict opener whose body holds no level
    symbol ends at the first closer; [done] tells whether the text ends
    there. *)
Lemma find_closer_strict (n : nat) (body rest : str) (p : Z) (s : state) :
  plain body ->
  find_closer (S n) (body ++ _default_level_closer ++ rest) _default_level_opener
    _default_lazy_opener _default_level_closer p [_default_level_opener] 0 false s
  = Ok ((len body, len body + 1 =? len (body ++ _default_level_closer ++ rest)), s).
Proof.
  intros (Hc & _ & Hb). cbn [find_closer].
  set (tail := body ++ _default_level_closer ++ rest).
  assert (Hclose : find tail _default_level_closer 0 = len body).
  { unfold tail. rewrite find_0. change _default_level_closer with ("]"%char :: []).
    rewrite find_at_first by exact Hb. lia. }
  assert (Hopen : forall sub, find tail (":"%char :: sub) 0 = -1 \/
                              len body <= find tail (":"%char :: sub) 0).
  { intros sub. apply find_behind. exact Hc. }
  rewrite Hclose.
  change _default_level_opener with (":"%char :: ["["%char]).
  change _default_lazy_opener with (":"%char :: []).
  pose proof (len_nonneg body) as Hlen.
  set (lazy_first := valid_comp (find tail [":"%char] 0) (find tail [":"%char; "["%char] 0) <? 0).
  replace (valid_comp (if lazy_first then find tail [":"%char] 0
                       else find tail [":"%char; "["%char] 0) (len body) <? 0)
    with false.
  2:{ symmetry. apply valid_comp_not_before; [exact Hlen|]. destruct lazy_first; apply Hopen. }
  replace (len body =? -1) with false by (symmetry; apply Z.eqb_neq; lia).
  cbn [remove_trailing_lazy_openers negb orb].
  rewrite bool_decide_eq_false_2 by discriminate.
  cbn [pop]. unfold ret at 1. unfold bind at 1.
  change (len _default_level_closer) with 1.
  destruct (len body + 1 =? len tail) eqn:E; reflexivity.
Qed.

(** The search for the end of a lazy level whose body holds no level symbol
    ends at the end of the text. *)
Lemma find_closer_lazy (n : nat) (body : str) (p : Z) (s : state) :
  plain body ->
  find_closer (S n) body _default_level_opener _default_lazy_opener
    _default_level_closer p [_default_lazy_opener] 0 false s
  = Ok ((len body, true), s).
Proof.
  intros (Hc & _ & Hb). cbn [find_closer].
  change _default_level_opener with (":"%char :: ["["%char]).
  change _default_lazy_opener with (":"%char :: []).
  change _default_level_closer with ("]"%char :: []).
  rewrite !find_0, !find_at_notin by assumption.
  cbn [valid_comp Z.eqb Z.ltb Z.compare Pos.eqb Pos.compare negb andb orb
       remove_trailing_lazy_openers].
  rewrite bool_decide_eq_true_2 by reflexivity. reflexivity.
Qed.

Lemma split1_at (a sub b : str) :
  sub <> [] -> find (a ++ sub ++ b) sub 0 = len a ->
  split1 (a ++ sub ++ b) sub = Some [a; b].
Proof.
  intros Hsub Hfind. unfold split1. destruct sub as [|c sub]; [contradiction|].
  rewrite Hfind. pose proof (len_nonneg a).
  replace (len a =? -1) with false by (symmetry; apply Z.eqb_neq; lia).
  rewrite slice_to_app.
  replace (len a + len (c :: sub)) with (len (a ++ c :: sub)) by apply len_app.
  rewrite app_assoc, slice_from_app. reflexivity.
Qed.

Lemma find_opener_strict (roots tail : str) :
  (":" : ascii) ∉ roots ->
  find (roots ++ _default_level_opener ++ tail) _default_level_opener 0 = len roots /\
  find (roots ++ _default_level_opener ++ tail) _default_lazy_opener 0 = len roots /\
  split1 (roots ++ _default_level_opener ++ tail) _default_level_opener
  = Some [roots; tail].
Proof.
  intros H.
  assert (H1 : find (roots ++ _default_level_opener ++ tail) _default_level_opener 0
               = len roots).
  { rewrite find_0. change _default_level_opener with (":"%char :: ["["%char]).
    rewrite find_at_first by exact H. lia. }
  split; [exact H1|]. split.
  - rewrite find_0. change _default_lazy_opener with (":"%char :: []).
    change (_default_level_opener ++ tail) with ([":"%char] ++ "["%char :: tail).
    rewrite find_at_first by exact H. lia.
  - apply split1_at; [discriminate|exact H1].
Qed.

Lemma find_opener_lazy (roots body : str) :
  (":" : ascii) ∉ roots -> plain body ->
  find (roots ++ _default_lazy_opener ++ body) _default_level_opener 0 = -1 /\
  find (roots ++ _default_lazy_opener ++ body) _default_lazy_opener 0 = len roots /\
  split1 (roots ++ _default_lazy_opener ++ body) _default_lazy_opener
  = Some [roots; body].
Proof.
  intros H (Hc & Hb & _).
  assert (H1 : find (roots ++ _default_lazy_opener ++ body) _default_lazy_opener 0
               = len roots).
  { rewrite find_0. change _default_lazy_opener with (":"%char :: []).
    rewrite find_at_first by exact H. lia. }
  split; [|split; [exact H1|]].
  - rewrite find_0. change _default_level_opener with (":"%char :: ["["%char]).
    rewrite find_at_skip by exact H. change _default_lazy_opener with [":"%char].
    cbn [app find_at startswith]. rewrite Ascii.eqb_refl.
    assert (Hs : startswith body ["["%char] = false).
    { destruct body as [|x body]; [reflexivity|]. apply startswith_head.
      intros <-. apply Hb. left. }
    rewrite Hs. cbn [andb]. apply find_at_notin. exact Hc.
  - apply split1_at; [discriminate|exact H1].
Qed.

Lemma slice_to_all {A} (l : list A) : slice_to l (len l) = l.
Proof.
  unfold slice_to. rewrite clip_inside by (pose proof (len_nonneg l); lia).
  unfold len. rewrite Nat2Z.id. apply take_ge. lia.
Qed.

Lemma valid_comp_same (a : Z) : (valid_comp a a <? 0) = false.
Proof. unfold valid_comp. rewrite Z.eqb_refl. reflexivity. Qed.

(** One round of the loop of [parse_tree] on a strict group whose roots and
    body hold no level symbol, when the body fails to parse: the failure is
    that of the body, parsed at the position behind the roots and the
    opener. *)
Lemma parse_level_strict_raises (f : nat) (roots body rest : str)
    (convs : list converter) (p : Z) (result : container) (s : state) (e : exn) :
  (":" : ascii) ∉ roots -> plain body ->
  parse_tree (S f) body (List.tl convs) _default_level_opener _default_lazy_opener
    _default_level_closer _default_level_delimiter _default_listing_delimiter
    _default_range_delimiter _default_index_specifier _default_random_specifier
    _default_all_specifier (p + len roots + len _default_level_opener) s = Raise e ->
  parse_level (S (S f))
    (roots ++ _default_level_opener ++ body ++ _default_level_closer ++ rest) convs
    _default_level_opener _default_lazy_opener _default_level_closer
    _default_level_delimiter _default_listing_delimiter _default_range_delimiter
    _default_index_specifier _default_random_specifier _default_all_specifier
    p result s = Raise e.
Proof.
  intros Hr Hb Hsub.
  destruct (find_opener_strict roots (body ++ _default_level_closer ++ rest) Hr)
    as (H1 & H2 & H3).
  cbn [parse_level]. rewrite H1, H2, H3, valid_comp_same.
  pose proof (len_nonneg roots).
  replace (-1 <? len roots) with true by (symmetry; apply Z.ltb_lt; lia).
  cbn [of_option]. unfold ret at 1. unfold bind at 1. unfold ret at 1. unfold bind at 1.
  rewrite (bind_ok _ _ _ _ _ (find_closer_strict f body rest p s Hb)).
  cbn [fst snd]. rewrite slice_to_app. apply bind_raise. exact Hsub.
Qed.

Lemma parse_level_lazy_raises (f : nat) (roots body : str)
    (convs : list converter) (p : Z) (result : container) (s : state) (e : exn) :
  (":" : ascii) ∉ roots -> plain body ->
  parse_tree (S f) body (List.tl convs) _default_level_opener _default_lazy_opener
    _default_level_closer _default_level_delimiter _default_listing_delimiter
    _default_range_delimiter _default_index_specifier _default_random_specifier
    _default_all_specifier (p + len roots + len _default_lazy_opener) s = Raise e ->
  parse_level (S (S f)) (roots ++ _default_lazy_opener ++ body) convs
    _default_level_opener _default_lazy_opener _default_level_closer
    _default_level_delimiter _default_listing_delimiter _default_range_delimiter
    _default_index_specifier _default_random_specifier _default_all_specifier
    p result s = Raise e.
Proof.
  intros Hr Hb Hsub.
  destruct (find_opener_lazy roots body Hr Hb) as (H1 & H2 & H3).
  cbn [parse_level]. rewrite H1, H2, H3.
  pose proof (len_nonneg roots).
  rewrite valid_comp_found_missing by lia.
  cbn [of_option]. unfold ret at 1. unfold bind at 1. unfold ret at 1. unfold bind at 1.
  rewrite (bind_ok _ _ _ _ _ (find_closer_lazy f body p s Hb)).
  cbn [fst snd].
  rewrite slice_to_all. apply bind_raise. exact Hsub.
Qed.

Lemma unravel_is_set (listing : str) (conv : converter) (ld rd idx rnd all : str)
    (p : Z) (s s' : state) (r : container) :
  unravel listing conv ld rd idx rnd all p s = Ok (r, s') -> uniform 0 r.
Proof.
  unfold unravel. rewrite (bind_ok _ _ _ _ _ (alloc_ok s)).
  rewrite (bind_ok _ _ _ _ _ (alloc_ok _)). unfold bind at 1.
  match goal with |- context [match ?c ?st with _ => _ end] => destruct (c st) as [[parts s1]| |] end;
    try discriminate.
  unfold new_VariableSet. rewrite (bind_ok _ _ _ _ _ (alloc_ok _)).
  intros [= <- _]. exact I.
Qed.

Lemma fromkeys_values {K V} (eqb : K -> K -> bool) (P : V -> Prop) (keys : list K) (v : V) :
  P v -> Forall (fun kv => P (snd kv)) (fromkeys eqb keys v).
Proof.
  intros Hv. unfold fromkeys.
  assert (H : forall d, Forall (fun kv => P (snd kv)) d ->
                        Forall (fun kv => P (snd kv))
                               (foldl (fun d k => dict_set eqb d k v) d keys)).
  { induction keys as [|k keys IH]; intros d Hd; [exact Hd|].
    cbn [foldl]. apply IH. apply Forall_dict_set; assumption. }
  apply H. constructor.
Qed.

(** One round of the loop of [parse_tree] on a strict group that the listing
    resolver accepts, followed by the level delimiter: the loop goes on with
    the text behind the delimiter, at the position moved by the length of
    the group, with a keyed tree of depth 1 as accumulated result. *)
Lemma parse_level_group_step (f : nat) (roots body rest : str) (c1 c2 : converter)
    (p : Z) (result : container) (s : state) :
  (":" : ascii) ∉ roots -> plain body -> resolves c1 roots -> resolves c2 body ->
  uniform 1 result ->
  exists result' s',
    uniform 1 result' /\
    parse_level (S (S (S f))) (group_text (roots, body) ++ rest) [c1; c2]
      _default_level_opener _default_lazy_opener _default_level_closer
      _default_level_delimiter _default_listing_delimiter _default_range_delimiter
      _default_index_specifier _default_random_specifier _default_all_specifier
      p result s
    = parse_level (S (S f)) rest [c1; c2]
        _default_level_opener _default_lazy_opener _default_level_closer
        _default_level_delimiter _default_listing_delimiter _default_range_delimiter
        _default_index_specifier _default_random_specifier _default_all_specifier
        (p + len (group_text (roots, body))) result' s'.
Proof.
  intros Hr Hb Hc1 Hc2 Hres. unfold group_text. cbn [fst snd].
  rewrite <- !app_assoc.
  set (tail := body ++ _default_level_closer ++ _default_level_delimiter ++ rest).
  destruct (find_opener_strict roots tail Hr) as (H1 & H2 & H3).
  remember (S (S f)) as g eqn:Hg.
  assert (Hfc : find_closer g tail _default_level_opener _default_lazy_opener
                  _default_level_closer p [_default_level_opener] 0 false s
                = Ok ((len body, len body + 1 =? len tail), s)).
  { rewrite Hg. apply find_closer_strict. exact Hb. }
  destruct (Hc2 (p + len roots + len _default_level_opener) s) as (sub & s1 & Hsub).
  pose proof (unravel_is_set _ _ _ _ _ _ _ _ _ _ _ Hsub) as Husub.
  assert (Hpt : parse_tree g body [c2] _default_level_opener _default_lazy_opener
                  _default_level_closer _default_level_delimiter
                  _default_listing_delimiter _default_range_delimiter
                  _default_index_specifier _default_random_specifier
                  _default_all_specifier (p + len roots + len _default_level_opener) s
                = Ok (sub, s1)).
  { rewrite Hg. exact Hsub. }
  destruct (Hc1 p s1) as (rts & s2 & Hrts).
  pose proof (unravel_is_set _ _ _ _ _ _ _ _ _ _ _ Hrts) as Hurts.
  destruct rts as [rs rfa rfixed rva rvars|]; [|contradiction].
  set (level := VariableDict (N.succ (N.succ (next_addr s2))) (next_addr s2)
                  (fromkeys Z.eqb (elements rfixed) sub) (N.succ (next_addr s2))
                  (fromkeys var_eq rvars sub)).
  assert (Hlevel : uniform 1 level).
  { change (Forall (fun kv => uniform 0 (snd kv)) (fromkeys Z.eqb (elements rfixed) sub) /\
            Forall (fun kv => uniform 0 (snd kv)) (fromkeys var_eq rvars sub)).
    split; apply (fromkeys_values _ (uniform 0)); exact Husub. }
  destruct (merge_range g 1 result level
              (State (N.succ (N.succ (N.succ (next_addr s2)))) (random s2)))
    as (result' & s3 & Hm & _ & Hu' & _); [lia|exact Hres|exact Hlevel|].
  exists result', s3. split; [exact Hu'|].
  cbn [parse_level]. rewrite H1, H2, H3, valid_comp_same.
  pose proof (len_nonneg roots). pose proof (len_nonneg body). pose proof (len_nonneg rest).
  replace (-1 <? len roots) with true by (symmetry; apply Z.ltb_lt; lia).
  cbn [of_option]. unfold ret at 1. unfold bind at 1. unfold ret at 1. unfold bind at 1.
  rewrite (bind_ok _ _ _ _ _ Hfc). cbn [fst snd].
  assert (Hlen : len tail = len body + 2 + len rest).
  { unfold tail. rewrite !len_app.
    change (len _default_level_closer) with 1.
    change (len _default_level_delimiter) with 1. lia. }
  replace (len body + 1 =? len tail) with false by (symmetry; apply Z.eqb_neq; lia).
  unfold tail at 1. rewrite slice_to_app.
  cbn [List.tl]. rewrite (bind_ok _ _ _ _ _ Hpt).
  cbn [head of_option]. unfold ret at 1. unfold bind at 1.
  rewrite (bind_ok _ _ _ _ _ Hrts).
  rewrite (bind_ok _ _ s2 (State (N.succ (N.succ (N.succ (next_addr s2)))) (random s2))
             level).
  2:{ rewrite (bind_ok _ _ _ _ _ (alloc_ok s2)). rewrite (bind_ok _ _ _ _ _ (alloc_ok _)).
      unfold new_VariableDict. rewrite (bind_ok _ _ _ _ _ (alloc_ok _)). reflexivity. }
  rewrite (bind_ok _ _ _ _ _ Hm).
  replace (slice_from tail (len body + len _default_level_closer
                            + len _default_level_delimiter)) with rest.
  2:{ unfold tail. rewrite !app_assoc. rewrite <- app_assoc. symmetry.
      replace (len body + len _default_level_closer + len _default_level_delimiter)
        with (len (body ++ _default_level_closer ++ _default_level_delimiter)).
      - rewrite <- app_assoc. rewrite (app_assoc body), (app_assoc (body ++ _)).
        rewrite <- (app_assoc body). apply slice_from_app.
      - rewrite !len_app. lia. }
  f_equal. rewrite !len_app. lia.
Qed.

Lemma plain_app (x y : str) : plain x -> plain y -> plain (x ++ y).
Proof.
  unfold plain. rewrite !elem_of_app. tauto.
Qed.

Lemma plain_listing (before : list str) (t : str) (after : list str) :
  Forall plain (before ++ t :: after) ->
  plain (followed _default_listing_delimiter before ++ t
         ++ preceded _default_listing_delimiter after).
Proof.
  intros H. apply Forall_app in H as [Hb H]. apply Forall_cons in H as [Ht Ha].
  assert (Hsep : plain _default_listing_delimiter).
  { unfold plain. repeat split; decide_it. }
  assert (Hnil : plain []).
  { unfold plain. repeat split; apply not_elem_of_nil. }
  apply plain_app; [|apply plain_app; [exact Ht|]].
  - unfold followed. induction Hb as [|x l Hx _ IH]; [exact Hnil|].
    cbn [fmap list_fmap concat]. apply plain_app; [apply plain_app; assumption|exact IH].
  - unfold preceded. induction Ha as [|x l Hx _ IH]; [exact Hnil|].
    cbn [fmap list_fmap concat]. apply plain_app; [apply plain_app; assumption|exact IH].
Qed.

(** The loop of [parse_tree] over accepted strict groups, up to a group the
    body of which holds a malformed token.  [lazy] tells whether that group
    is written with the lazy opener (and then ends the text) or with the
    strict one (and then anything may follow its closer). *)
Lemma parse_level_malformed (c1 c2 : converter) (roots : str) (before : list str)
    (t : str) (after : list str) (rest : str) (lazy : bool) (n : nat) :
  (":" : ascii) ∉ roots ->
  Forall plain (before ++ t :: after) ->
  Forall (fun x => ("," : ascii) ∉ x) (before ++ t :: after) ->
  accepted c2 before -> ("~" : ascii) ∉ t -> unmarked t -> c2 t = None ->
  join _default_listing_delimiter (before ++ t :: after) <> [] ->
  forall (groups : list (str * str)) (p : Z) (result : container) (s : state),
    Forall (fun g => ((":" : ascii) ∉ fst g) /\ plain (snd g) /\
                     resolves c1 (fst g) /\ resolves c2 (snd g)) groups ->
    uniform 1 result ->
    parse_level (S (S (length groups + n)))
      (concat (group_text <$> groups) ++ roots
       ++ (if lazy then _default_lazy_opener else _default_level_opener)
       ++ (followed _default_listing_delimiter before ++ t
           ++ preceded _default_listing_delimiter after)
       ++ (if lazy then [] else _default_level_closer ++ rest))
      [c1; c2] _default_level_opener _default_lazy_opener _default_level_closer
      _default_level_delimiter _default_listing_delimiter _default_range_delimiter
      _default_index_specifier _default_random_specifier _default_all_specifier
      p result s
    = Raise (ParseError
               (p + len (concat (group_text <$> groups) ++ roots
                         ++ (if lazy then _default_lazy_opener else _default_level_opener)
                         ++ followed _default_listing_delimiter before))
               (CannotConvert t)).
Proof.
  intros Hr Hplain Hsep Hacc Htilde Hun Hconv Hne groups.
  pose proof (plain_listing before t after Hplain) as Hbody.
  assert (Hsep' : Forall (fun x => ("," : ascii) ∉ x) (before ++ after) /\ ("," : ascii) ∉ t).
  { apply Forall_app in Hsep as [? H]. apply Forall_cons in H as [? ?].
    split; [apply Forall_app; split; assumption|assumption]. }
  destruct Hsep' as [Hsep1 Hsep2].
  induction groups as [|[r0 b0] groups IH]; intros p result s Hg Hres.
  - cbn [length Nat.add fmap list_fmap concat app].
    assert (Hlisting : forall q s0,
              parse_tree (S (0 + n))
                (followed _default_listing_delimiter before ++ t
                 ++ preceded _default_listing_delimiter after)
                (List.tl [c1; c2]) _default_level_opener _default_lazy_opener
                _default_level_closer _default_level_delimiter
                _default_listing_delimiter _default_range_delimiter
                _default_index_specifier _default_random_specifier
                _default_all_specifier q s0
              = Raise (ParseError (q + len (followed _default_listing_delimiter before))
                                  (CannotConvert t))).
    { intros q s0.
      destruct (unravel_malformed c2 before t after q s0
                  Hsep1 Hsep2 Hacc Htilde Hun Hconv) as [H _].
      exact (H Hne). }
    destruct lazy.
    + rewrite app_nil_r.
      rewrite (parse_level_lazy_raises n roots _ [c1; c2] p result s _ Hr Hbody
                 (Hlisting _ s)).
      do 2 f_equal. rewrite !len_app. lia.
    + rewrite (parse_level_strict_raises n roots _ rest [c1; c2] p result s _ Hr Hbody
                 (Hlisting _ s)).
      do 2 f_equal. rewrite !len_app. lia.
  - apply Forall_cons in Hg as [(Hr0 & Hb0 & Hc1 & Hc2) Hg]. cbn [fst snd] in *.
    cbn [length Nat.add fmap list_fmap concat].
    change (list_fmap _ _ ?h ?l) with (h <$> l).
    rewrite <- !(app_assoc (group_text (r0, b0))).
    destruct (parse_level_group_step (length groups + n) r0 b0
                (concat (group_text <$> groups) ++ roots
                 ++ (if lazy then _default_lazy_opener else _default_level_opener)
                 ++ (followed _default_listing_delimiter before ++ t
                     ++ preceded _default_listing_delimiter after)
                 ++ (if lazy then [] else _default_level_closer ++ rest))
                c1 c2 p result s Hr0 Hb0 Hc1 Hc2 Hres)
      as (result' & s' & Hu' & Hstep).
    rewrite Hstep. rewrite (IH _ result' s' Hg Hu').
    do 2 f_equal. rewrite !len_app. lia.
Qed.

(** The tree parser on a malformed token of a second-level listing.  The
    text is any number of strict groups [roots:[body],] that the listing
    resolver accepts, then a group whose roots hold no lazy opener and whose
    body is a listing with a malformed token [t] (no range delimiter, no
    marker, rejected by the second converter) behind accepted segments; the
    group is written with the strict opener and closer, anything following,
    or with the lazy opener up to the end of the text.  With two converters
    and enough fuel, [parse_tree] raises the [ParseError] that names [t]
    and carries the start position plus the length of everything that
    stands before [t] in the text: the absolute offset of the token. *)
Theorem parse_tree_malformed_position (c1 c2 : converter) (groups : list (str * str))
    (roots : str) (before : list str) (t : str) (after : list str) (rest : str)
    (n : nat) (p : Z) (s : state) :
  Forall (fun g => ((":" : ascii) ∉ fst g) /\ plain (snd g) /\
                   resolves c1 (fst g) /\ resolves c2 (snd g)) groups ->
  (":" : ascii) ∉ roots ->
  Forall plain (before ++ t :: after) ->
  Forall (fun x => ("," : ascii) ∉ x) (before ++ t :: after) ->
  accepted c2 before -> ("~" : ascii) ∉ t -> unmarked t -> c2 t = None ->
  join _default_listing_delimiter (before ++ t :: after) <> [] ->
  parse_tree_default (S (S (S (length groups + n))))
    (concat (group_text <$> groups) ++ roots ++ _default_level_opener
     ++ (followed _default_listing_delimiter before ++ t
         ++ preceded _default_listing_delimiter after)
     ++ _default_level_closer ++ rest) [c1; c2] p s
  = Raise (ParseError
             (p + len (concat (group_text <$> groups) ++ roots ++ _default_level_opener
                       ++ followed _default_listing_delimiter before))
             (CannotConvert t)) /\
  parse_tree_default (S (S (S (length groups + n))))
    (concat (group_text <$> groups) ++ roots ++ _default_lazy_opener
     ++ (followed _default_listing_delimiter before ++ t
         ++ preceded _default_listing_delimiter after)) [c1; c2] p s
  = Raise (ParseError
             (p + len (concat (group_text <$> groups) ++ roots ++ _default_lazy_opener
                       ++ followed _default_listing_delimiter before))
             (CannotConvert t)).
Proof.
  intros Hg Hr Hplain Hsep Hacc Htilde Hun Hconv Hne.
  assert (Hempty : forall s0, exists d s1, empty_VariableDict s0 = Ok (d, s1) /\ uniform 1 d).
  { intros s0. unfold empty_VariableDict.
    rewrite (bind_ok _ _ _ _ _ (alloc_ok s0)). rewrite (bind_ok _ _ _ _ _ (alloc_ok _)).
    unfold new_VariableDict. rewrite (bind_ok _ _ _ _ _ (alloc_ok _)).
    eexists _, _. split; [reflexivity|]. split; constructor. }
  destruct (Hempty s) as (d & s1 & Hd & Hud).
  unfold parse_tree_default. cbn [parse_tree]. rewrite !(bind_ok _ _ _ _ _ Hd). split.
  - apply (parse_level_malformed c1 c2 roots before t after rest false n); assumption.
  - pose proof (parse_level_malformed c1 c2 roots before t after rest true n
                  Hr Hplain Hsep Hacc Htilde Hun Hconv Hne groups p d s1 Hg Hud) as H.
    rewrite app_nil_r in H. exact H.
Qed.

Lemma parse_tree_malformed_position_witness :
  parse_tree_default (S (S (S (length [(str_of "0", str_of "1")] + 0))))
    (concat (group_text <$> [(str_of "0", str_of "1")]) ++ str_of "2"
     ++ _default_level_opener
     ++ (followed _default_listing_delimiter [str_of "3"] ++ str_of "x"
         ++ preceded _default_listing_delimiter [])
     ++ _default_level_closer ++ []) [Py.int; Py.int] 0 (State 0 [])
  = Raise (ParseError
             (0 + len (concat (group_text <$> [(str_of "0", str_of "1")]) ++ str_of "2"
                       ++ _default_level_opener
                       ++ followed _default_listing_delimiter [str_of "3"]))
             (CannotConvert (str_of "x"))) /\
  parse_tree_default (S (S (S (length [(str_of "0", str_of "1")] + 0))))
    (concat (group_text <$> [(str_of "0", str_of "1")]) ++ str_of "2"
     ++ _default_lazy_opener
     ++ (followed _default_listing_delimiter [str_of "3"] ++ str_of "x"
         ++ preceded _default_listing_delimiter [])) [Py.int; Py.int] 0 (State 0 [])
  = Raise (ParseError
             (0 + len (concat (group_text <$> [(str_of "0", str_of "1")]) ++ str_of "2"
                       ++ _default_lazy_opener
                       ++ followed _default_listing_delimiter [str_of "3"]))
             (CannotConvert (str_of "x"))).
Proof.
  apply (parse_tree_malformed_position Py.int Py.int [(str_of "0", str_of "1")]
           (str_of "2") [str_of "3"] (str_of "x") [] [] 0 0 (State 0 [])).
  - constructor; [|constructor]. split; [decide_it|]. split.
    + repeat split; decide_it.
    + split; intros q [a r]; eexists _, _; reflexivity.
  - decide_it.
  - repeat constructor; decide_it.
  - decide_it.
  - intros f v q [a r]. eexists _, _. reflexivity.
  - decide_it.
  - repeat split; try reflexivity. discriminate.
  - reflexivity.
  - discriminate.
Defined.

Lemma find_at_lower (s sub : str) (i : Z) :
  find_at s sub i = -1 \/ i <= find_at s sub i.
Proof.
  revert i. induction s as [|x s IH]; intros i; cbn [find_at].
  - destruct (startswith [] sub); [right; lia|left; reflexivity].
  - destruct (startswith (x :: s) sub); [right; lia|].
    destruct (IH (i + 1)) as [H|H]; [left; exact H|right; lia].
Qed.

Lemma empty_VariableDict_ok (s : state) :
  exists d s1, empty_VariableDict s = Ok (d, s1) /\ uniform 1 d.
Proof.
  unfold empty_VariableDict.
  rewrite (bind_ok _ _ _ _ _ (alloc_ok s)). rewrite (bind_ok _ _ _ _ _ (alloc_ok _)).
  unfold new_VariableDict. rewrite (bind_ok _ _ _ _ _ (alloc_ok _)).
  eexists _, _. split; [reflexivity|]. split; constructor.
Qed.

Lemma parse_tree_no_opener (tree : str) (convs : list converter)
    (n : nat) (p : Z) (s : state) :
  length convs <> 1%nat -> (":" : ascii) ∉ tree ->
  (("]" : ascii) ∉ tree ->
   parse_tree_default (S (S n)) tree convs p s
   = Raise (ParseError (p + len tree) MoreLevelsRequired)) /\
  (forall a b, tree = a ++ _default_level_closer ++ b -> ("]" : ascii) ∉ a ->
   parse_tree_default (S (S n)) tree convs p s
   = Raise (ParseError (p + len a) MoreLevelsRequired)).
Proof.
  intros Hconvs Hc.
  assert (Hgen : forall k, valid_min (find tree _default_level_closer 0) [len tree] = k ->
            parse_tree_default (S (S n)) tree convs p s
            = Raise (ParseError (p + k) MoreLevelsRequired)).
  { intros k Hk. unfold parse_tree_default.
    destruct (empty_VariableDict_ok s) as (d & s1 & Hd & _).
    assert (Hlevel : parse_level (S n) tree convs _default_level_opener
                       _default_lazy_opener _default_level_closer
                       _default_level_delimiter _default_listing_delimiter
                       _default_range_delimiter _default_index_specifier
                       _default_random_specifier _default_all_specifier p d s1
                     = Raise (ParseError (p + k) MoreLevelsRequired)).
    { cbn [parse_level]. rewrite !find_0.
      change _default_level_opener with (":"%char :: ["["%char]).
      change _default_lazy_opener with (":"%char :: []).
      rewrite !find_at_notin by exact Hc.
      cbn [valid_comp Z.eqb Z.ltb Z.compare Pos.eqb Pos.compare negb andb orb].
      apply bind_raise. rewrite <- find_0, Hk. reflexivity. }
    destruct convs as [|c1 [|c2 cs]]; [|contradiction|];
      cbn [parse_tree]; rewrite (bind_ok _ _ _ _ _ Hd); exact Hlevel. }
  pose proof (len_nonneg tree) as Hlen. split.
  - intros Hb. apply Hgen. rewrite find_0.
    change _default_level_closer with ("]"%char :: []).
    rewrite find_at_notin by exact Hb. cbn [valid_min]. unfold valid_comp.
    replace (-1 =? len tree) with false by (symmetry; apply Z.eqb_neq; lia).
    replace (len tree =? -1) with false by (symmetry; apply Z.eqb_neq; lia).
    reflexivity.
  - intros a b -> Ha. apply Hgen. rewrite find_0.
    change _default_level_closer with ("]"%char :: []).
    rewrite find_at_first by exact Ha. cbn [valid_min]. unfold valid_comp.
    pose proof (len_nonneg a). pose proof (len_nonneg b).
    rewrite !len_app in *. change (len ["]"%char]) with 1 in *.
    replace (0 + len a =? len a + (1 + len b)) with false by (symmetry; apply Z.eqb_neq; lia).
    replace (0 + len a =? -1) with false by (symmetry; apply Z.eqb_neq; lia).
    replace (0 + len a <? len a + (1 + len b)) with true by (symmetry; apply Z.ltb_lt; lia).
    cbn. lia.
Qed.

(** The tree parser when a level is missing.  With no converter or with two
    or more of them, a text without the character of the openers makes
    [parse_tree] raise the [ParseError] that asks for one more level, at the
    start position plus the offset of the first level closer of the text
    or, when the text holds no closer, plus the length of the text (so at
    the start position itself for the empty text). *)
Theorem parse_tree_level_missing (tree : str) (convs : list converter)
    (n : nat) (p : Z) (s : state) :
  length convs <> 1%nat -> (":" : ascii) ∉ tree ->
  (("]" : ascii) ∉ tree ->
   parse_tree_default (S (S n)) tree convs p s
   = Raise (ParseError (p + len tree) MoreLevelsRequired)) /\
  (forall a b, tree = a ++ _default_level_closer ++ b -> ("]" : ascii) ∉ a ->
   parse_tree_default (S (S n)) tree convs p s
   = Raise (ParseError (p + len a) MoreLevelsRequired)).
Proof. apply parse_tree_no_opener. Qed.

Lemma parse_tree_level_missing_witness :
  (("]" : ascii) ∉ str_of "1,2]" ->
   parse_tree_default (S (S 0)) (str_of "1,2]") [Py.int; Py.int] 5 (State 0 [])
   = Raise (ParseError (5 + len (str_of "1,2]")) MoreLevelsRequired)) /\
  (forall a b, str_of "1,2]" = a ++ _default_level_closer ++ b -> ("]" : ascii) ∉ a ->
   parse_tree_default (S (S 0)) (str_of "1,2]") [Py.int; Py.int] 5 (State 0 [])
   = Raise (ParseError (5 + len a) MoreLevelsRequired)).
Proof.
  apply (parse_tree_level_missing (str_of "1,2]") [Py.int; Py.int] 0 5 (State 0 [])).
  - simpl. lia.
  - decide_it.
Defined.

(** The tree parser on a closer behind a lazy level.  When the first opener
    of the text is the lazy one and the body behind it, free of level
    symbols, is followed by a level closer, the closer finds only the lazy
    opener on the stack: the lazy opener is dropped, the stack is empty, and
    the [pop] for the closer raises [IndexError]; no [ParseError] is
    raised and no position is reported. *)
Theorem parse_tree_closer_after_lazy (roots body rest : str) (convs : list converter)
    (n : nat) (p : Z) (s : state) :
  length convs <> 1%nat -> (":" : ascii) ∉ roots -> plain body ->
  parse_tree_default (S (S (S n)))
    (roots ++ _default_lazy_opener ++ body ++ _default_level_closer ++ rest) convs p s
  = Raise IndexError.
Proof.
  intros Hconvs Hr (Hc & Hb & Hcl).
  set (tail := body ++ _default_level_closer ++ rest).
  pose proof (len_nonneg roots) as Hlr. pose proof (len_nonneg body) as Hlb.
  assert (H2 : find (roots ++ _default_lazy_opener ++ tail) _default_lazy_opener 0
               = len roots).
  { rewrite find_0. change _default_lazy_opener with (":"%char :: []).
    rewrite find_at_first by exact Hr. lia. }
  assert (H1 : find (roots ++ _default_lazy_opener ++ tail) _default_level_opener 0 = -1 \/
               len roots < find (roots ++ _default_lazy_opener ++ tail)
                                _default_level_opener 0).
  { rewrite find_0. change _default_level_opener with (":"%char :: ["["%char]).
    rewrite find_at_skip by exact Hr. change _default_lazy_opener with [":"%char].
    cbn [app find_at startswith]. rewrite Ascii.eqb_refl.
    assert (Hs : startswith tail ["["%char] = false).
    { unfold tail. destruct body as [|x body]; [reflexivity|]. apply startswith_head.
      intros <-. apply Hb. left. }
    rewrite Hs. cbn [andb].
    destruct (find_at_lower tail [":"%char; "["%char] (0 + len roots + 1)) as [->|H];
      [left; reflexivity|right; lia]. }
  assert (Hlazy : (valid_comp (find (roots ++ _default_lazy_opener ++ tail)
                                    _default_lazy_opener 0)
                              (find (roots ++ _default_lazy_opener ++ tail)
                                    _default_level_opener 0) <? 0) = true).
  { rewrite H2. destruct H1 as [->|H1]; [apply valid_comp_found_missing; lia|].
    unfold valid_comp.
    replace (len roots =? _) with false by (symmetry; apply Z.eqb_neq; lia).
    replace (len roots =? -1) with false by (symmetry; apply Z.eqb_neq; lia).
    replace (len roots <? _) with true by (symmetry; apply Z.ltb_lt; lia).
    reflexivity. }
  assert (Hfc : forall s0, find_closer (S n) tail _default_level_opener _default_lazy_opener
                  _default_level_closer p [_default_lazy_opener] 0 false s0
                = Raise IndexError).
  { intros s0. cbn [find_closer].
    assert (Hclose : find tail _default_level_closer 0 = len body).
    { unfold tail. rewrite find_0. change _default_level_closer with ("]"%char :: []).
      rewrite find_at_first by exact Hcl. lia. }
    assert (Hopen : forall sub, find tail (":"%char :: sub) 0 = -1 \/
                                len body <= find tail (":"%char :: sub) 0).
    { intros sub. apply find_behind. exact Hc. }
    rewrite Hclose.
    change _default_level_opener with (":"%char :: ["["%char]).
    change _default_lazy_opener with (":"%char :: []).
    set (lazy_first := valid_comp (find tail [":"%char] 0)
                                  (find tail [":"%char; "["%char] 0) <? 0).
    replace (valid_comp (if lazy_first then find tail [":"%char] 0
                         else find tail [":"%char; "["%char] 0) (len body) <? 0)
      with false.
    2:{ symmetry. apply valid_comp_not_before; [exact Hlb|].
        destruct lazy_first; apply Hopen. }
    replace (len body =? -1) with false by (symmetry; apply Z.eqb_neq; lia).
    cbn [remove_trailing_lazy_openers negb].
    rewrite bool_decide_eq_true_2 by reflexivity. reflexivity. }
  assert (Hlevel : forall d s0,
            parse_level (S (S n)) (roots ++ _default_lazy_opener ++ tail) convs
              _default_level_opener _default_lazy_opener _default_level_closer
              _default_level_delimiter _default_listing_delimiter
              _default_range_delimiter _default_index_specifier
              _default_random_specifier _default_all_specifier p d s0
            = Raise IndexError).
  { intros d s0. cbn [parse_level]. rewrite Hlazy.
    rewrite (split1_at roots _default_lazy_opener tail); [|discriminate|exact H2].
    cbn [of_option]. unfold ret at 1. unfold bind at 1. unfold ret at 1. unfold bind at 1.
    apply bind_raise. apply Hfc. }
  unfold parse_tree_default. destruct (empty_VariableDict_ok s) as (d & s1 & Hd & _).
  destruct convs as [|c1 [|c2 cs]]; [|contradiction|];
    cbn [parse_tree]; rewrite (bind_ok _ _ _ _ _ Hd); apply Hlevel.
Qed.

Lemma parse_tree_closer_after_lazy_witness :
  parse_tree_default (S (S (S 0)))
    (str_of "0" ++ _default_lazy_opener ++ str_of "1" ++ _default_level_closer ++ [])
    [Py.int; Py.int] 0 (State 0 [])
  = Raise IndexError.
Proof.
  apply (parse_tree_closer_after_lazy (str_of "0") (str_of "1") [] [Py.int; Py.int]
           0 0 (State 0 [])).
  - simpl. lia.
  - decide_it.
  - repeat split; decide_it.
Defined.

(** ** util.py: comparing positions that may be missing *)

Ltac case_comparisons :=
  repeat (match goal with
          | |- context [?x =? ?y] => destruct (Z.eqb_spec x y)
          | |- context [?x <? ?y] =>
              lazymatch x with
              | context [if _ then _ else _] => fail
              | _ => destruct (Z.ltb_spec x y)
              end
          end; cbn [negb andb orb]).

(** [valid_comp] is the three-way comparison of a total order on the
    integers in which -1, the answer of a search that found nothing, comes
    after every other value: it is 0 exactly on equal arguments, swapping the
    arguments negates it, "less" is transitive, every value other than -1 is
    less than -1, and on two values other than -1 it agrees with the usual
    order. *)
Theorem valid_comp_order (a b c : Z) :
  (valid_comp a b = -1 \/ valid_comp a b = 0 \/ valid_comp a b = 1) /\
  (valid_comp a b = 0 <-> a = b) /\
  valid_comp b a = - valid_comp a b /\
  (valid_comp a b < 0 -> valid_comp b c < 0 -> valid_comp a c < 0) /\
  (a <> -1 -> valid_comp a (-1) = -1 /\ valid_comp (-1) a = 1) /\
  (a <> -1 -> b <> -1 -> (valid_comp a b < 0 <-> a < b)).
Proof.
  unfold valid_comp. repeat split; case_comparisons; try lia.
Qed.

Lemma valid_comp_order_witness :
  (valid_comp 4 (-1) = -1 \/ valid_comp 4 (-1) = 0 \/ valid_comp 4 (-1) = 1) /\
  (valid_comp 4 (-1) = 0 <-> 4 = -1) /\
  valid_comp (-1) 4 = - valid_comp 4 (-1) /\
  (valid_comp 4 (-1) < 0 -> valid_comp (-1) 7 < 0 -> valid_comp 4 7 < 0) /\
  (4 <> -1 -> valid_comp 4 (-1) = -1 /\ valid_comp (-1) 4 = 1) /\
  (4 <> -1 -> -1 <> -1 -> (valid_comp 4 (-1) < 0 <-> 4 < -1)).
Proof. exact (valid_comp_order 4 (-1) 7). Defined.

Lemma valid_min_elem (first : Z) (rest : list Z) : valid_min first rest ∈ first :: rest.
Proof.
  revert first. induction rest as [|x rest IH]; intros first; cbn [valid_min].
  - left.
  - destruct (valid_comp first (valid_min x rest) <? 0); [left|right; apply IH].
Qed.

(** [valid_min] on positions, each a non-negative offset or -1 for "not
    found": the result is one of the arguments, it is -1 only when every
    argument is -1, and otherwise it is the smallest of the non-negative
    arguments. *)
Theorem valid_min_smallest (first : Z) (rest : list Z) :
  Forall (fun x => -1 <= x) (first :: rest) ->
  valid_min first rest ∈ first :: rest /\
  (valid_min first rest = -1 <-> Forall (fun x => x = -1) (first :: rest)) /\
  (forall x, x ∈ first :: rest -> 0 <= x -> 0 <= valid_min first rest <= x).
Proof.
  intros H. split; [apply valid_min_elem|].
  revert first H. induction rest as [|y rest IH]; intros first H.
  - cbn [valid_min]. apply Forall_cons_1 in H as [H _]. split.
    + split; [intros ->; repeat constructor|intros HF; apply Forall_cons_1 in HF as [? _]; assumption].
    + intros x Hx Hx0. apply list_elem_of_singleton in Hx as ->. lia.
  - apply Forall_cons_1 in H as [Hf H]. destruct (IH y H) as [IH1 IH2].
    pose proof (valid_min_elem y rest) as Hm.
    assert (Hm1 : -1 <= valid_min y rest).
    { rewrite Forall_forall in H. apply H. exact Hm. }
    cbn [valid_min]. set (m := valid_min y rest) in *. unfold valid_comp.
    split.
    + rewrite Forall_cons. rewrite <- IH1. case_comparisons; lia.
    + intros x Hx Hx0. apply elem_of_cons in Hx as [->|Hx].
      * case_comparisons; try lia.
        all: try (destruct (decide (m = -1)); lia).
      * specialize (IH2 x Hx Hx0). case_comparisons; lia.
Qed.

Lemma valid_min_smallest_witness :
  valid_min 7 [-1; 3; 5] ∈ [7; -1; 3; 5] /\
  (valid_min 7 [-1; 3; 5] = -1 <-> Forall (fun x => x = -1) [7; -1; 3; 5]) /\
  (forall x, x ∈ [7; -1; 3; 5] -> 0 <= x -> 0 <= valid_min 7 [-1; 3; 5] <= x).
Proof.
  apply (valid_min_smallest 7 [-1; 3; 5]).
  repeat constructor; lia.
Defined.

(** ** The tree parser: openers that are not closed *)

Lemma parse_tree_unclosed (roots body : str) (convs : list converter)
    (n : nat) (p : Z) (s : state) :
  length convs <> 1%nat -> (":" : ascii) ∉ roots -> plain body ->
  parse_tree_default (S (S (S n))) (roots ++ _default_level_opener ++ body) convs p s
  = Raise (ParseError (p + len body) ExpectedClosers) /\
  p + len body + len roots + 2 = p + len (roots ++ _default_level_opener ++ body).
Proof.
  intros Hconvs Hr (Hc & Hb & Hcl). split.
  2:{ rewrite !len_app. change (len _default_level_opener) with 2. lia. }
  destruct (find_opener_strict roots body Hr) as (H1 & H2 & H3).
  pose proof (len_nonneg roots) as Hlr. pose proof (len_nonneg body) as Hlb.
  assert (Hfc : forall s0, find_closer (S n) body _default_level_opener _default_lazy_opener
                  _default_level_closer p [_default_level_opener] 0 false s0
                = Raise (ParseError (p + len body) ExpectedClosers)).
  { intros s0. cbn [find_closer].
    change _default_level_opener with (":"%char :: ["["%char]).
    change _default_lazy_opener with (":"%char :: []).
    change _default_level_closer with ("]"%char :: []).
    rewrite !find_0, !find_at_notin by assumption.
    cbn [valid_comp Z.eqb Z.ltb Z.compare Pos.eqb Pos.compare negb andb orb
         remove_trailing_lazy_openers].
    rewrite bool_decide_eq_false_2 by discriminate.
    unfold ret at 1. unfold bind at 1. cbn [remove_trailing_lazy_openers].
    rewrite bool_decide_eq_false_2 by discriminate.
    change (len [[":"%char; "["%char]]) with 1. reflexivity. }
  assert (Hlevel : forall d s0,
            parse_level (S (S n)) (roots ++ _default_level_opener ++ body) convs
              _default_level_opener _default_lazy_opener _default_level_closer
              _default_level_delimiter _default_listing_delimiter
              _default_range_delimiter _default_index_specifier
              _default_random_specifier _default_all_specifier p d s0
            = Raise (ParseError (p + len body) ExpectedClosers)).
  { intros d s0. cbn [parse_level]. rewrite H1, H2, H3, valid_comp_same.
    replace (-1 <? len roots) with true by (symmetry; apply Z.ltb_lt; lia).
    cbn [of_option]. unfold ret at 1. unfold bind at 1. unfold ret at 1. unfold bind at 1.
    apply bind_raise. apply Hfc. }
  unfold parse_tree_default. destruct (empty_VariableDict_ok s) as (d & s1 & Hd & _).
  destruct convs as [|c1 [|c2 cs]]; [|contradiction|];
    cbn [parse_tree]; rewrite (bind_ok _ _ _ _ _ Hd); apply Hlevel.
Qed.

(** The tree parser on a strict opener that is never closed.  With no
    converter or with two or more of them, whatever they are: when the first
    opener of the text is the strict one and what follows it holds no level
    symbol, [parse_tree] raises the [ParseError] that asks for level
    closers, at the start position plus the length of what follows the
    opener; this is before the end of the input, which lies further by
    the length of the roots and of the opener. *)
Theorem parse_tree_unclosed_strict (roots body : str) (convs : list converter)
    (n : nat) (p : Z) (s : state) :
  length convs <> 1%nat -> (":" : ascii) ∉ roots -> plain body ->
  parse_tree_default (S (S (S n))) (roots ++ _default_level_opener ++ body) convs p s
  = Raise (ParseError (p + len body) ExpectedClosers) /\
  p + len body + len roots + 2 = p + len (roots ++ _default_level_opener ++ body).
Proof. apply parse_tree_unclosed. Qed.

Lemma parse_tree_unclosed_strict_witness :
  parse_tree_default (S (S (S 0))) (str_of "0,1" ++ _default_level_opener ++ str_of "2,3")
    [Py.int; Py.int] 0 (State 0 [])
  = Raise (ParseError (0 + len (str_of "2,3")) ExpectedClosers) /\
  0 + len (str_of "2,3") + len (str_of "0,1") + 2
  = 0 + len (str_of "0,1" ++ _default_level_opener ++ str_of "2,3").
Proof.
  apply (parse_tree_unclosed_strict (str_of "0,1") (str_of "2,3") [Py.int; Py.int]
           0 0 (State 0 [])).
  - simpl. lia.
  - decide_it.
  - repeat split; decide_it.
Defined.

(** ** The markers of sampling without the original value *)

Lemma lstrip_snoc (c : ascii) (s : str) :
  is_space c = false -> exists l, lstrip (s ++ [c]) = l ++ [c].
Proof.
  intros Hc. induction s as [|x s IH]; cbn [app lstrip].
  - rewrite Hc. exists []. reflexivity.
  - destruct (is_space x); [exact IH|]. exists (x :: s). reflexivity.
Qed.

Lemma strip_head (c : ascii) (s : str) :
  is_space c = false -> exists r, strip (c :: s) = c :: r.
Proof.
  intros Hc. unfold strip. cbn [lstrip]. rewrite Hc.
  change (rev (c :: s)) with (rev s ++ [c]).
  destruct (lstrip_snoc c (rev s) Hc) as (l & ->).
  rewrite rev_app_distr. exists (rev l). reflexivity.
Qed.

(** [int] rejects every text that begins with the random marker. *)
Lemma int_random_marker (t : str) : Py.int (_default_random_specifier ++ t) = None.
Proof.
  unfold Py.int. change (_default_random_specifier ++ t) with ("?"%char :: t).
  destruct (strip_head "?"%char t) as (r & ->); reflexivity.
Qed.

Lemma startswith_inv (value prefix : str) :
  startswith value prefix = true -> exists t, value = prefix ++ t.
Proof.
  revert value. induction prefix as [|c prefix IH]; intros value H.
  - exists value. reflexivity.
  - destruct value as [|x value]; [discriminate|]. cbn [startswith] in H.
    apply andb_prop in H as [Hx H]. apply Ascii.eqb_eq in Hx as ->.
    destruct (IH value H) as (t & ->). exists t. reflexivity.
Qed.

Lemma classify_excludes (value : str) (conv : converter) (p : Z) (s s' : state) (o : varobj) :
  classify value conv p s = Ok (inl o, s') -> excludes (var o) = false.
Proof.
  unfold classify, convert.
  destruct (startswith value _default_index_specifier).
  { destruct (startswith value _); [intros [= <- _]; reflexivity|].
    destruct (Py.int _); [intros [= <- _]; reflexivity|discriminate]. }
  destruct (startswith value _default_random_specifier) eqn:E1.
  2:{ destruct (bool_decide _); [intros [= <- _]; reflexivity|].
      destruct (conv value); discriminate. }
  destruct (bool_decide (value = _default_random_specifier)) eqn:E2.
  { apply bool_decide_eq_true_1 in E2. subst value. intros [= <- _]. reflexivity. }
  destruct (startswith value (repeat_str _default_random_specifier 2)) eqn:E3.
  - apply startswith_inv in E3 as (t & ->).
    change (repeat_str _default_random_specifier 2 ++ t)
      with (_default_random_specifier ++ _default_random_specifier ++ t).
    rewrite slice_from_app, int_random_marker. discriminate.
  - destruct (Py.int _); [intros [= <- _]; reflexivity|discriminate].
Qed.

Lemma bind_inv {A B} (c : M A) (k : A -> M B) (s s' : state) (b : B) :
  bind c k s = Ok (b, s') -> exists a s1, c s = Ok (a, s1) /\ k a s1 = Ok (b, s').
Proof.
  unfold bind. destruct (c s) as [[a s1]| |]; [|discriminate..].
  intros H. exists a, s1. split; [reflexivity|exact H].
Qed.

Lemma set_add_Forall {K} (eqb : K -> K -> bool) (P : K -> Prop) (l : list K) (k : K) :
  Forall P l -> P k -> Forall P (set_add eqb l k).
Proof.
  intros Hl Hk. unfold set_add. destruct (set_in eqb l k); [exact Hl|].
  apply Forall_app. split; [exact Hl|]. constructor; [exact Hk|constructor].
Qed.

Lemma limit_excludes (value : str) (conv : converter) (p : Z) (s s' : state)
    (x : varobj + Z) :
  classify value conv p s = Ok (x, s') ->
  match limit x with inr w => excludes w | inl _ => false end = false.
Proof.
  destruct x as [o|z]; [|reflexivity]. apply classify_excludes.
Qed.

Lemma unravel_segment_excludes (range_element : str) (conv : converter)
    (f : gset Z) (v : list varobj) (p : Z) (s s' : state) (parts : gset Z * list varobj) :
  Forall (fun o => excludes (var o) = false) v ->
  unravel_segment range_element conv _default_range_delimiter _default_index_specifier
    _default_random_specifier _default_all_specifier f v p s = Ok (parts, s') ->
  Forall (fun o => excludes (var o) = false) (snd parts).
Proof.
  intros Hv. unfold unravel_segment.
  destruct (contains range_element _default_range_delimiter).
  - intros (pieces & s1 & Hp & H)%bind_inv.
    destruct pieces as [|a [|b [|? ?]]]; try discriminate.
    apply bind_inv in H as (first & s2 & Hfirst & H).
    apply bind_inv in H as (last & s3 & Hlast & H).
    apply limit_excludes in Hfirst, Hlast.
    assert (Hrange : forall a0, excludes (var (VarObj a0 (RangeVariable (limit first)
                                                           (limit last)))) = false).
    { intros a0. cbn [var excludes]. rewrite Hfirst, Hlast. reflexivity. }
    destruct first as [o1|z1], last as [o2|z2];
      try (apply bind_inv in H as (o & s4 & [= <- <-] & [= <- _]);
           apply set_add_Forall; [exact Hv|apply Hrange]).
    injection H as <- _. exact Hv.
  - intros (element & s1 & He & H)%bind_inv.
    destruct element as [o|z]; injection H as <- _; [|exact Hv].
    apply set_add_Forall; [exact Hv|]. eapply classify_excludes. exact He.
Qed.

Lemma unravel_loop_excludes (conv : converter) (segments : list str) :
  forall (f : gset Z) (v : list varobj) (p : Z) (s s' : state)
         (parts : gset Z * list varobj),
    Forall (fun o => excludes (var o) = false) v ->
    unravel_loop segments conv _default_listing_delimiter _default_range_delimiter
      _default_index_specifier _default_random_specifier _default_all_specifier
      f v p s = Ok (parts, s') ->
    Forall (fun o => excludes (var o) = false) (snd parts).
Proof.
  induction segments as [|x segments IH]; intros f v p s s' parts Hv; cbn [unravel_loop].
  - intros [= <- _]. exact Hv.
  - intros (parts1 & s1 & H1 & H)%bind_inv.
    eapply IH; [|exact H]. eapply unravel_segment_excludes; eassumption.
Qed.

(** The listing resolver never produces a placeholder that samples without
    the original value.  Whatever the text, the converter, the position and
    the state: when [unravel] with the default symbols returns, no deferred
    element of the value set is a sample or a random placeholder that
    excludes the original, and none is a range with such a limit (a token
    that begins with the doubled random marker never gets past [int]). *)
Theorem resolve_listing_never_excludes (listing : str) (conv : converter)
    (p : Z) (s s' : state) (r : container) :
  resolve_listing listing conv p s = Ok (r, s') ->
  Forall (fun o => excludes (var o) = false) (set_deferred r).
Proof.
  unfold resolve_listing, unravel.
  intros (fixed_at & s1 & _ & H)%bind_inv.
  apply bind_inv in H as (variable_at & s2 & _ & H).
  apply bind_inv in H as (parts & s3 & Hparts & H).
  apply bind_inv in H as (self & s4 & _ & [= <- _]).
  cbn [set_deferred snd].
  destruct (0 <? len listing).
  - apply bind_inv in Hparts as (segments & s5 & _ & Hloop).
    eapply unravel_loop_excludes; [|exact Hloop]. constructor.
  - injection Hparts as <- _. constructor.
Qed.

Lemma resolve_listing_never_excludes_witness :
  Forall (fun o => excludes (var o) = false)
    (set_deferred
       (VariableSet 7 0 ∅ 1
          [VarObj 2 (RandomVariable false 11); VarObj 3 (SampleVariable 2 false 12);
           VarObj 6 (RangeVariable (inr (IndexVariable 1)) (inr SizeVariable))])).
Proof.
  apply (resolve_listing_never_excludes (str_of "?,?2,#1~##") Py.int 0
           (State 0 [11; 12]) (State 8 [])).
  vm_compute. reflexivity.
Defined.

(** ** Placeholder resolution: what can be raised *)

Lemma sample_go_cases (k : nat) : forall (pool : list Z) (s : state),
  match sample_go pool k s with
  | Ok _ => True
  | Raise e => e = ValueError
  | OutOfFuel => False
  end.
Proof.
  induction k as [|k IH]; intros pool s; cbn [sample_go].
  - exact I.
  - unfold bind at 1. unfold randbelow at 1. cbn beta iota.
    destruct (pool !! _) as [x|]; [|reflexivity].
    unfold bind. specialize (IH (delete (Z.to_nat (hd 0 (random s) mod len pool)) pool)
                                (State (next_addr s) (tl (random s)))).
    destruct (sample_go _ k _) as [[l s']|e|]; [exact I|exact IH|exact IH].
Qed.

Lemma sample_cases (population : list Z) (k : Z) (s : state) :
  match sample population k s with
  | Ok _ => True
  | Raise e => e = ValueError
  | OutOfFuel => False
  end.
Proof.
  unfold sample. destruct (_ && _); [apply sample_go_cases|reflexivity].
Qed.

Lemma set_pop_cases (S : gset Z) (s : state) :
  match set_pop S s with
  | Ok _ => True
  | Raise e => e = KeyError
  | OutOfFuel => False
  end.
Proof.
  destruct (decide (S = ∅)) as [->|HS].
  - reflexivity.
  - destruct (set_pop_spec S s HS) as (x & _ & ->). exact I.
Qed.

Lemma resolve_endpoint_cases (eval : variable -> M (gset Z)) (x : Z + variable) (s : state) :
  (forall w, x = inr w ->
     match eval w s with
     | Ok _ => True
     | Raise e => e ∈ [IndexError; ResolveError; ValueError; KeyError]
     | OutOfFuel => False
     end) ->
  match resolve_endpoint eval x s with
  | Ok (inl _, _) => True
  | Ok (inr _, _) => False
  | Raise e => e ∈ [IndexError; ResolveError; ValueError; KeyError]
  | OutOfFuel => False
  end.
Proof.
  intros H. destruct x as [z|w]; cbn [resolve_endpoint]; [exact I|].
  unfold bind. specialize (H w eq_refl).
  destruct (eval w s) as [[S s']|e|]; [| |exact H].
  - pose proof (set_pop_cases S s') as Hp.
    destruct (set_pop S s') as [[x s2]|e|]; [exact I| |exact Hp].
    subst e. set_solver.
  - destruct e; try exact H. exfalso. set_solver.
Qed.

Lemma SampleVariable_evaluate_cases (n : Z) (ex : bool) (container : list Z)
    (orig : option Z) (s : state) :
  match SampleVariable_evaluate n ex container orig s with
  | Ok _ => True
  | Raise e => e ∈ [IndexError; ResolveError; ValueError; KeyError]
  | OutOfFuel => False
  end.
Proof.
  unfold SampleVariable_evaluate. destruct ex; cbn [negb].
  - destruct orig as [o|]; [|cbn; set_solver].
    destruct (len container <? n + 1); [cbn; set_solver|].
    unfold bind at 1. pose proof (sample_cases container (n + 1) s) as Hs.
    destruct (sample container (n + 1) s) as [[l s']|e|]; [|subst e; set_solver|exact Hs].
    destruct (bool_decide _); [exact I|].
    unfold bind. pose proof (set_pop_cases (list_to_set l) s') as Hp.
    destruct (set_pop (list_to_set l) s') as [[x s2]|e|]; [exact I|subst e; set_solver|exact Hp].
  - destruct (len container <? n); [cbn; set_solver|].
    unfold bind. pose proof (sample_cases container n s) as Hs.
    destruct (sample container n s) as [[l s']|e|]; [exact I|subst e; set_solver|exact Hs].
Qed.

Lemma evaluate_cases : forall (v : variable) (container : list Z) (orig : option Z)
    (s : state),
  match evaluate v container orig s with
  | Ok _ => True
  | Raise e => e ∈ [IndexError; ResolveError; ValueError; KeyError]
  | OutOfFuel => False
  end.
Proof.
  fix IH 1. intros v container orig s. destruct v as [i| |x| |first last|n ex id|ex id].
  - cbn [evaluate]. unfold bind. destruct (Py.index container i) as [x|]; cbn [of_option].
    + exact I.
    + cbn. set_solver.
  - exact I.
  - exact I.
  - exact I.
  - rewrite evaluate_RangeVariable. unfold bind at 1.
    pose proof (resolve_endpoint_cases (fun w => evaluate w container None) first s) as H1.
    destruct (resolve_endpoint _ first s) as [[[a|w] s1]|e|].
    2:{ exfalso. apply H1. destruct first as [z|w']; [discriminate|].
        intros w'' [= <-]. apply IH. }
    2:{ apply H1. destruct first as [z|w']; [discriminate|].
        intros w'' [= <-]. apply IH. }
    2:{ apply H1. destruct first as [z|w']; [discriminate|].
        intros w'' [= <-]. apply IH. }
    unfold bind at 1.
    pose proof (resolve_endpoint_cases (fun w => evaluate w container None) last s1) as H2.
    destruct (resolve_endpoint _ last s1) as [[[b|w] s2]|e|].
    2:{ exfalso. apply H2. destruct last as [z|w']; [discriminate|].
        intros w'' [= <-]. apply IH. }
    2:{ apply H2. destruct last as [z|w']; [discriminate|].
        intros w'' [= <-]. apply IH. }
    2:{ apply H2. destruct last as [z|w']; [discriminate|].
        intros w'' [= <-]. apply IH. }
    exact I.
  - apply SampleVariable_evaluate_cases.
  - apply SampleVariable_evaluate_cases.
Qed.

(** ** Placeholders of a single value *)

Lemma index_spec {A} (container : list A) (i : Z) (d : A) :
  Py.index container i =
  if bool_decide (- len container <= i < len container)
  then Some (nth (Z.to_nat (i mod len container)) container d)
  else None.
Proof.
  unfold Py.index. pose proof (len_nonneg container) as Hn.
  assert (Hnth : forall k, (k < length container)%nat ->
            container !! k = Some (nth k container d)).
  { intros k Hk. destruct (nth_lookup_or_length container k d) as [H|H]; [exact H|lia]. }
  destruct (Z.leb_spec 0 i), (Z.ltb_spec i (len container)); cbn [andb].
  - rewrite bool_decide_eq_true_2 by lia. rewrite Z.mod_small by lia.
    apply Hnth. unfold len in *. lia.
  - destruct (Z.leb_spec (- len container) i), (Z.ltb_spec i 0); cbn [andb]; try lia;
      rewrite bool_decide_eq_false_2 by lia; reflexivity.
  - destruct (Z.leb_spec (- len container) i), (Z.ltb_spec i 0); cbn [andb]; try lia.
    + rewrite bool_decide_eq_true_2 by lia.
      replace (i mod len container) with (len container + i).
      * apply Hnth. unfold len in *. lia.
      * apply Z.mod_unique with (q := -1); lia.
    + rewrite bool_decide_eq_false_2 by lia. reflexivity.
  - lia.
Qed.

(** An index placeholder resolves like Python indexing.  For every index
    and value space: when the index lies from minus the size of the space
    up to the size less one, resolution returns the single element at that
    position, a negative index counting from the end, without touching the
    state and whatever the original value; outside of these bounds, and so
    on every index for the empty space, it raises [IndexError] (not a
    resolution error). *)
Theorem IndexVariable_evaluate (i : Z) (container : list Z) (orig : option Z) (s : state) :
  evaluate (IndexVariable i) container orig s =
  if bool_decide (- len container <= i < len container)
  then Ok ({[ nth (Z.to_nat (i mod len container)) container 0 ]}, s)
  else Raise IndexError.
Proof.
  cbn [evaluate]. unfold bind. rewrite (index_spec container i 0).
  destruct (bool_decide _); reflexivity.
Qed.

(** ** Ranges between limits *)

Lemma resolve_endpoint_limit (container : list Z) (x : Z + variable) (a : Z) (s : state) :
  limit_value container x = Some a ->
  exists s', resolve_endpoint (fun w => evaluate w container None) x s = Ok (inl a, s').
Proof.
  assert (Hpop : forall s0, exists s', (let* popped := set_pop {[ a ]} in
                                         ret (inl (fst popped) : Z + variable)) s0
                                       = Ok (inl a, s')).
  { intros s0. destruct (set_pop_spec {[ a ]} s0) as (x0 & Hx0 & Hpop).
    { intros He. assert (a ∈ (∅ : gset Z)) by (rewrite <- He; set_solver). set_solver. }
    apply elem_of_singleton in Hx0 as ->. eexists. unfold bind. rewrite Hpop. reflexivity. }
  destruct x as [z|[i| |z| | | |]]; cbn [limit_value]; try discriminate.
  - intros [= ->]. eexists. reflexivity.
  - intros Hi. cbn [resolve_endpoint evaluate]. unfold bind at 2. rewrite Hi.
    cbn [of_option]. destruct (Hpop s) as (s' & Hs'). exists s'.
    unfold bind in *. cbn in *. rewrite Hs'. reflexivity.
  - intros [= <-]. cbn [resolve_endpoint evaluate]. destruct (Hpop s) as (s' & Hs').
    exists s'. unfold bind in *. cbn in *. rewrite Hs'. reflexivity.
  - intros [= ->]. cbn [resolve_endpoint evaluate]. destruct (Hpop s) as (s' & Hs').
    exists s'. unfold bind in *. cbn in *. rewrite Hs'. reflexivity.
Qed.

(** A range between two limits holds both limits.  When each limit is an
    integer literal or a placeholder of a single value that does not draw
    (an index within the space, the size, a constant), resolving the range
    returns, whatever the original value, exactly the integers from the
    value of the first limit to the value of the last one, both included;
    the set is empty when the last value is below the first. *)
Theorem RangeVariable_evaluate_inclusive (first last : Z + variable)
    (container : list Z) (orig : option Z) (s : state) (a b : Z) :
  limit_value container first = Some a -> limit_value container last = Some b ->
  exists r s',
    evaluate (RangeVariable first last) container orig s = Ok (r, s') /\
    (forall z, z ∈ r <-> a <= z <= b) /\
    (b < a -> r = ∅).
Proof.
  intros Ha Hb.
  destruct (resolve_endpoint_limit container first a s Ha) as (s1 & H1).
  destruct (resolve_endpoint_limit container last b s1 Hb) as (s2 & H2).
  exists (list_to_set (range a (b + 1))), s2.
  rewrite evaluate_RangeVariable. unfold bind at 1. rewrite H1.
  unfold bind at 1. rewrite H2. split; [reflexivity|].
  assert (Hz : forall z, z ∈ (list_to_set (range a (b + 1)) : gset Z) <-> a <= z <= b).
  { intros z. rewrite elem_of_list_to_set, elem_of_range. lia. }
  split; [exact Hz|]. intros Hlt. apply set_eq. intros z. rewrite Hz. set_solver by lia.
Qed.

Lemma RangeVariable_evaluate_inclusive_witness :
  exists r s',
    evaluate (RangeVariable (inr (IndexVariable (-1))) (inr SizeVariable)) [7; 1; 2]
      (Some 9) (State 0 [5]) = Ok (r, s') /\
    (forall z, z ∈ r <-> 2 <= z <= 3) /\
    (3 < 2 -> r = ∅).
Proof.
  apply (RangeVariable_evaluate_inclusive (inr (IndexVariable (-1))) (inr SizeVariable)
           [7; 1; 2] (Some 9) (State 0 [5]) 2 3); reflexivity.
Defined.

Lemma resolve_endpoint_raises (eval : variable -> M (gset Z)) (v : variable)
    (s : state) (e : exn) :
  eval v s = Raise e -> e <> AttributeError ->
  resolve_endpoint eval (inr v) s = Raise e.
Proof.
  intros H He. cbn [resolve_endpoint]. unfold bind. rewrite H.
  destruct e; try reflexivity. contradiction.
Qed.

Lemma evaluate_AttributeError (v : variable) (container : list Z) (orig : option Z)
    (s : state) (e : exn) :
  evaluate v container orig s = Raise e -> e <> AttributeError.
Proof.
  intros H. pose proof (evaluate_cases v container orig s) as Hc. rewrite H in Hc.
  intros ->. set_solver.
Qed.

(** A range whose limit cannot be resolved.  The limits are resolved
    without the original value and one value is popped from each resolved
    set, so: an error of the resolution of a limit is the error of the
    range (first limit, or last limit behind a literal first one); a limit
    that resolves to the empty set makes the range raise [KeyError]; and a
    limit that samples without the original value makes the range raise
    a resolution error even when the range is given an original value. *)
Theorem RangeVariable_evaluate_limit_fails (v : variable) (other : Z + variable)
    (container : list Z) (orig : option Z) (s : state) (a : Z) (e : exn) :
  evaluate v container None s = Raise e \/
  (e = KeyError /\ exists s1, evaluate v container None s = Ok (∅, s1)) ->
  (evaluate (RangeVariable (inr v) other) container orig s = Raise e /\
   evaluate (RangeVariable (inl a) (inr v)) container orig s = Raise e) /\
  (forall n id,
     evaluate (RangeVariable (inr (SampleVariable n true id)) other) container orig s
     = Raise ResolveError /\
     evaluate (RangeVariable (inl a) (inr (RandomVariable true id))) container orig s
     = Raise ResolveError).
Proof.
  assert (Hfail : forall w e0,
            resolve_endpoint (fun w => evaluate w container None) (inr w) s = Raise e0 ->
            evaluate (RangeVariable (inr w) other) container orig s = Raise e0 /\
            evaluate (RangeVariable (inl a) (inr w)) container orig s = Raise e0).
  { intros w e0 H. rewrite !evaluate_RangeVariable. split.
    - apply bind_raise. exact H.
    - unfold bind at 1. cbn [resolve_endpoint]. unfold ret at 1. cbn beta iota.
      apply bind_raise. exact H. }
  intros H. split.
  - apply Hfail. destruct H as [He|(-> & s1 & H)].
    + apply resolve_endpoint_raises; [exact He|]. eapply evaluate_AttributeError. exact He.
    + cbn [resolve_endpoint]. unfold bind. rewrite H. reflexivity.
  - intros n id. split.
    + apply (Hfail (SampleVariable n true id)). reflexivity.
    + apply (Hfail (RandomVariable true id)). reflexivity.
Qed.

Lemma RangeVariable_evaluate_limit_fails_witness :
  (evaluate (RangeVariable (inr AllVariable) (inl 9)) [] (Some 1) (State 0 [])
   = Raise KeyError /\
   evaluate (RangeVariable (inl 0) (inr AllVariable)) [] (Some 1) (State 0 [])
   = Raise KeyError) /\
  (forall n id,
     evaluate (RangeVariable (inr (SampleVariable n true id)) (inl 9)) [] (Some 1)
       (State 0 []) = Raise ResolveError /\
     evaluate (RangeVariable (inl 0) (inr (RandomVariable true id))) [] (Some 1)
       (State 0 []) = Raise ResolveError).
Proof.
  apply (RangeVariable_evaluate_limit_fails AllVariable (inl 9) [] (Some 1)
           (State 0 []) 0 KeyError).
  right. split; [reflexivity|]. exists (State 0 []). reflexivity.
Defined.

(** ** Samples *)

(** A random placeholder that keeps the original resolves to one element of
    the space.  On a non-empty value space, whatever its elements (they
    may repeat) and whatever the original value, resolution returns a set
    of exactly one value, an element of the space; on the empty space it
    raises a resolution error.  A random placeholder that excludes the
    original raises a resolution error when no original value is given and
    when the space has fewer than two elements. *)
Theorem RandomVariable_evaluate (id : Z) (container : list Z) (orig : option Z) (s : state) :
  match container with
  | [] => evaluate (RandomVariable false id) container orig s = Raise ResolveError
  | _ => exists x s', x ∈ container /\
                      evaluate (RandomVariable false id) container orig s = Ok ({[ x ]}, s')
  end /\
  evaluate (RandomVariable true id) container None s = Raise ResolveError /\
  match container with
  | [] | [_] => evaluate (RandomVariable true id) container orig s = Raise ResolveError
  | _ => True
  end.
Proof.
  split; [|split].
  - destruct container as [|c0 container]; [reflexivity|].
    cbn [evaluate]. unfold SampleVariable_evaluate. cbn [negb].
    set (space := c0 :: container).
    replace (len space <? 1) with false
      by (symmetry; apply Z.ltb_ge; unfold len, space; cbn [length]; lia).
    unfold sample.
    replace ((0 <=? 1) && (1 <=? len space)) with true
      by (symmetry; apply andb_true_intro; split; apply Z.leb_le;
          unfold len, space; cbn [length]; lia).
    destruct (sample_go_spec (Z.to_nat 1) space s) as (l & s' & Hl & Hlen & Hsub).
    { unfold space. cbn [length]. lia. }
    destruct l as [|x [|? ?]]; try discriminate.
    exists x, s'. split.
    + eapply elem_of_submseteq; [|exact Hsub]. left.
    + unfold bind. rewrite Hl. unfold ret. f_equal. f_equal. cbn. set_solver.
  - reflexivity.
  - destruct container as [|c0 [|c1 container]]; [| |exact I].
    + destruct orig; reflexivity.
    + destruct orig; reflexivity.
Qed.

Lemma list_to_set_constant (l : list Z) (x : Z) :
  l <> [] -> Forall (fun y => y = x) l -> (list_to_set l : gset Z) = {[ x ]}.
Proof.
  intros Hl H. apply set_eq. intros y. rewrite elem_of_list_to_set, elem_of_singleton.
  rewrite Forall_forall in H. split; [apply H|].
  intros ->. destruct l as [|z l]; [contradiction|].
  rewrite (H z) by left. left.
Qed.

Lemma sample_replicate (m : nat) (x k : Z) (s : state) :
  1 <= k <= Z.of_nat m ->
  exists l s', sample (replicate m x) k s = Ok (l, s') /\
               (list_to_set l : gset Z) = {[ x ]}.
Proof.
  intros Hk. unfold sample.
  replace ((0 <=? k) && (k <=? len (replicate m x))) with true
    by (symmetry; apply andb_true_intro; split; apply Z.leb_le;
        unfold len; rewrite ?length_replicate; lia).
  destruct (sample_go_spec (Z.to_nat k) (replicate m x) s) as (l & s' & Hl & Hlen & Hsub).
  { rewrite length_replicate. lia. }
  exists l, s'. split; [exact Hl|]. apply list_to_set_constant.
  - intros ->. cbn in Hlen. lia.
  - apply Forall_forall. intros y Hy.
    eapply elem_of_submseteq in Hy; [|exact Hsub].
    apply elem_of_replicate in Hy as [-> _]. reflexivity.
Qed.

(** Sampling from a space that repeats one value.  The draw is made by
    position and then turned into a set, so on a space that holds the same
    value [m] times the repetitions collapse: a sample of size [n] with
    [1 <= n <= m] that keeps the original is the set of that one value,
    and a sample that excludes the original, for [0 <= n < m] and whatever
    the original value, is the empty set; so is the result of a random
    placeholder that excludes the original when [m >= 2]. *)
Theorem SampleVariable_evaluate_repeated (n id x : Z) (m : nat) (orig : option Z)
    (o : Z) (s : state) :
  (1 <= n <= Z.of_nat m ->
   exists s', evaluate (SampleVariable n false id) (replicate m x) orig s
              = Ok ({[ x ]}, s')) /\
  (0 <= n < Z.of_nat m ->
   exists s', evaluate (SampleVariable n true id) (replicate m x) (Some o) s = Ok (∅, s')) /\
  (2 <= Z.of_nat m ->
   exists s', evaluate (RandomVariable true id) (replicate m x) (Some o) s = Ok (∅, s')).
Proof.
  assert (Hex : forall k, 0 <= k < Z.of_nat m ->
            exists s', SampleVariable_evaluate k true (replicate m x) (Some o) s
                       = Ok (∅, s')).
  { intros k Hk. unfold SampleVariable_evaluate. cbn [negb].
    replace (len (replicate m x) <? k + 1) with false
      by (symmetry; apply Z.ltb_ge; unfold len; rewrite length_replicate; lia).
    destruct (sample_replicate m x (k + 1) s) as (l & s' & Hl & Hset); [lia|].
    unfold bind at 1. rewrite Hl, Hset.
    destruct (bool_decide (o ∈ ({[ x ]} : gset Z))) eqn:Hin.
    - apply bool_decide_eq_true_1 in Hin. exists s'. unfold ret. f_equal. f_equal.
      set_solver.
    - destruct (set_pop_spec {[ x ]} s') as (y & Hy & Hpop).
      { intros He. assert (x ∈ (∅ : gset Z)) by (rewrite <- He; set_solver). set_solver. }
      eexists. unfold bind. rewrite Hpop. unfold ret. cbn [snd]. f_equal. f_equal.
      set_solver. }
  split; [|split].
  - intros Hn. cbn [evaluate]. unfold SampleVariable_evaluate. cbn [negb].
    replace (len (replicate m x) <? n) with false
      by (symmetry; apply Z.ltb_ge; unfold len; rewrite length_replicate; lia).
    destruct (sample_replicate m x n s) as (l & s' & Hl & Hset); [lia|].
    exists s'. unfold bind. rewrite Hl, Hset. reflexivity.
  - intros Hn. apply Hex. exact Hn.
  - intros Hm. apply Hex. lia.
Qed.

Lemma SampleVariable_evaluate_repeated_witness :
  (exists s', evaluate (SampleVariable 3 false 0) (replicate 3 7) None (State 0 [])
              = Ok ({[ 7 ]}, s')) /\
  (exists s', evaluate (SampleVariable 2 true 0) (replicate 3 7) (Some 7) (State 0 [])
              = Ok (∅, s')) /\
  (exists s', evaluate (RandomVariable true 0) (replicate 3 7) (Some 7) (State 0 [])
              = Ok (∅, s')).
Proof.
  destruct (SampleVariable_evaluate_repeated 3 0 7 3 None 7 (State 0 [])) as (H1 & _ & _).
  destruct (SampleVariable_evaluate_repeated 2 0 7 3 None 7 (State 0 [])) as (_ & H2 & H3).
  split; [apply H1; lia|]. split; [apply H2; lia|apply H3; lia].
Defined.

(** ** Evaluation of value sets *)

Lemma evaluate_elements_spec (container : list Z) (deferred : list varobj) :
  forall (own : gset Z) (s : state),
    match evaluate_elements deferred container own s with
    | Ok (r, _) =>
        exists values,
          Forall2 (fun o S => exists s0 s1,
                     evaluate (var o) container None s0 = Ok (S, s1)) deferred values /\
          r = own ∪ ⋃ values
    | Raise e =>
        Exists (fun o => exists s0, evaluate (var o) container None s0 = Raise e) deferred
    | OutOfFuel => False
    end.
Proof.
  induction deferred as [|o deferred IH]; intros own s; cbn [evaluate_elements].
  - exists []. split; [constructor|]. cbn. set_solver.
  - unfold bind. pose proof (evaluate_cases (var o) container None s) as Hc.
    destruct (evaluate (var o) container None s) as [[S s1]|e|] eqn:E.
    + specialize (IH (own ∪ S) s1).
      destruct (evaluate_elements deferred container (own ∪ S) s1) as [[r s2]|e|].
      * destruct IH as (values & HF & ->). exists (S :: values). split.
        -- constructor; [eexists _, _; exact E|exact HF].
        -- cbn. set_solver.
      * apply Exists_cons_tl. exact IH.
      * exact IH.
    + apply Exists_cons_hd. exists s. exact E.
    + exact Hc.
Qed.

(** [VariableSet.evaluate] unites the fixed part with the resolved deferred
    elements.  Whatever the two partitions, the value space and the state:
    when the call returns, the set object holds exactly the fixed elements
    and, for each deferred element, the values one resolution of it
    without original value returns; when it raises, the error is that of
    the resolution of one of the deferred elements. *)
Theorem VariableSet_evaluate_union (fixed : gset Z) (deferred : list varobj)
    (container : list Z) (s : state) :
  match VariableSet_evaluate fixed deferred container s with
  | Ok (r, _) =>
      exists values,
        Forall2 (fun o S => exists s0 s1,
                   evaluate (var o) container None s0 = Ok (S, s1)) deferred values /\
        r = fixed ∪ ⋃ values
  | Raise e =>
      Exists (fun o => exists s0, evaluate (var o) container None s0 = Raise e) deferred
  | OutOfFuel => False
  end.
Proof. apply evaluate_elements_spec. Qed.

Lemma evaluate_excludes : forall (v : variable) (container : list Z) (s : state),
  excludes v = true -> exists e, evaluate v container None s = Raise e.
Proof.
  fix IH 1. intros v container s.
  destruct v as [i| |x| |first last|n ex id|ex id]; cbn [excludes]; try discriminate.
  - intros H. rewrite evaluate_RangeVariable. unfold bind at 1.
    assert (Hlimit : forall (x : Z + variable) s0,
              match x with inr w => excludes w | inl _ => false end = true ->
              (forall w, x = inr w -> excludes w = true ->
                 exists e, evaluate w container None s0 = Raise e) ->
              exists e, resolve_endpoint (fun w => evaluate w container None) x s0
                        = Raise e).
    { intros [z|w] s0 Hx Hw; [discriminate|].
      destruct (Hw w eq_refl Hx) as (e & He). exists e.
      apply resolve_endpoint_raises; [exact He|].
      eapply evaluate_AttributeError. exact He. }
    destruct (match first with inr w => excludes w | inl _ => false end) eqn:Hf.
    + destruct (Hlimit first s Hf) as (e & ->).
      * destruct first as [z|w]; [discriminate|]. intros w' [= <-] Hw. apply IH. exact Hw.
      * exists e. reflexivity.
    + cbn [orb] in H.
      pose proof (resolve_endpoint_cases (fun w => evaluate w container None) first s) as H1.
      destruct (resolve_endpoint _ first s) as [[[a|w] s1]|e|].
      2:{ exfalso. apply H1. intros w' _. apply evaluate_cases. }
      2:{ exists e. reflexivity. }
      2:{ exfalso. apply H1. intros w' _. apply evaluate_cases. }
      destruct (Hlimit last s1 H) as (e & He).
      * destruct last as [z|w]; [discriminate|]. intros w' [= <-] Hw. apply IH. exact Hw.
      * exists e. apply bind_raise. exact He.
  - intros ->. exists ResolveError. reflexivity.
  - intros ->. exists ResolveError. reflexivity.
Qed.

Lemma evaluate_elements_excludes (container : list Z) (deferred : list varobj) :
  Exists (fun o => excludes (var o) = true) deferred ->
  forall (own : gset Z) (s : state),
    exists e, evaluate_elements deferred container own s = Raise e.
Proof.
  induction 1 as [o deferred Ho|o deferred _ IH]; intros own s; cbn [evaluate_elements].
  - destruct (evaluate_excludes (var o) container s Ho) as (e & He).
    exists e. apply bind_raise. exact He.
  - unfold bind. pose proof (evaluate_cases (var o) container None s) as Hc.
    destruct (evaluate (var o) container None s) as [[S s1]|e|].
    + apply IH.
    + exists e. reflexivity.
    + contradiction.
Qed.

(** ** Evaluation of keyed trees *)

Lemma Z_eqb_trans (a b c : Z) : (a =? b) = true -> (b =? c) = true -> (a =? c) = true.
Proof. rewrite !Z.eqb_eq. congruence. Qed.

Lemma dict_get_set_same {V} (d : list (Z * V)) (k : Z) (v : V) :
  dict_get Z.eqb (dict_set Z.eqb d k v) k = Some v.
Proof. apply (dict_get_set_eq Z.eqb Z.eqb_sym Z_eqb_trans). apply Z.eqb_refl. Qed.

Lemma dict_get_set_other {V} (d : list (Z * V)) (k k' : Z) (v : V) :
  k' <> k -> dict_get Z.eqb (dict_set Z.eqb d k v) k' = dict_get Z.eqb d k'.
Proof.
  intros H. apply (dict_get_set_ne Z.eqb Z.eqb_sym Z_eqb_trans). apply Z.eqb_neq. exact H.
Qed.

Lemma evaluate_keys_spec (fuel d : nat) (value : container) :
  (d < fuel)%nat -> uniform d value ->
  forall (keys : list Z) (own : list (Z * container)) (s : state),
    NoDup keys ->
    Forall (fun kv => uniform d (snd kv)) own ->
    exists own' s',
      evaluate_keys fuel keys value own s = Ok (own', s') /\
      Forall (fun kv => uniform d (snd kv)) own' /\
      (forall k, k ∉ keys -> dict_get Z.eqb own' k = dict_get Z.eqb own k) /\
      (forall k, k ∈ keys -> dict_get Z.eqb own k = None ->
                 dict_get Z.eqb own' k = Some value) /\
      (forall k mine, k ∈ keys -> dict_get Z.eqb own k = Some mine ->
         exists merged s1 s2,
           merge fuel mine value s1 = Ok (merged, s2) /\
           dict_get Z.eqb own' k = Some merged).
Proof.
  intros Hfuel Hvalue. induction keys as [|k0 keys IH]; intros own s Hnd Hown.
  - exists own, s. split; [reflexivity|]. split; [exact Hown|].
    split; [reflexivity|]. split; intros k; [|intros mine]; intros Hk; inversion Hk.
  - apply NoDup_cons in Hnd as [Hk0 Hnd]. cbn [evaluate_keys].
    assert (Hstep : exists own1 s1,
              (match dict_get Z.eqb own k0 with
               | None => ret (dict_set Z.eqb own k0 value)
               | Some mine =>
                   let* merged := merge fuel mine value in
                   ret (dict_set Z.eqb own k0 merged)
               end) s = Ok (own1, s1) /\
              Forall (fun kv => uniform d (snd kv)) own1 /\
              (forall k, k <> k0 -> dict_get Z.eqb own1 k = dict_get Z.eqb own k) /\
              (dict_get Z.eqb own k0 = None -> dict_get Z.eqb own1 k0 = Some value) /\
              (forall mine, dict_get Z.eqb own k0 = Some mine ->
                 exists merged s1 s2,
                   merge fuel mine value s1 = Ok (merged, s2) /\
                   dict_get Z.eqb own1 k0 = Some merged)).
    { destruct (dict_get Z.eqb own k0) as [mine|] eqn:E.
      - assert (Hmine : uniform d mine).
        { exact (Forall_dict_get Z.eqb (uniform d) own k0 mine Hown E). }
        destruct (merge_range fuel d mine value s Hfuel Hmine Hvalue)
          as (merged & s1 & Hm & _ & Hu & _).
        exists (dict_set Z.eqb own k0 merged), s1. unfold bind. rewrite Hm.
        split; [reflexivity|]. split.
        { exact (Forall_dict_set Z.eqb (uniform d) own k0 merged Hown Hu). }
        split; [intros k Hk; apply dict_get_set_other; exact Hk|].
        split; [discriminate|]. intros mine' [= <-].
        exists merged, s, s1. split; [exact Hm|apply dict_get_set_same].
      - exists (dict_set Z.eqb own k0 value), s. split; [reflexivity|]. split.
        { exact (Forall_dict_set Z.eqb (uniform d) own k0 value Hown Hvalue). }
        split; [intros k Hk; apply dict_get_set_other; exact Hk|].
        split; [intros _; apply dict_get_set_same|discriminate]. }
    destruct Hstep as (own1 & s1 & Hstep & Hown1 & Hother & Hnew & Hmerged).
    rewrite (bind_ok _ _ _ _ _ Hstep).
    destruct (IH own1 s1 Hnd Hown1) as (own' & s' & Hrun & Hown' & Hkeep & Hfresh & Hcoll).
    exists own', s'. split; [exact Hrun|]. split; [exact Hown'|].
    split; [|split].
    + intros k Hk. apply not_elem_of_cons in Hk as [Hne Hk].
      rewrite (Hkeep k Hk). apply Hother. exact Hne.
    + intros k Hk Hnone. apply elem_of_cons in Hk as [->|Hk].
      * rewrite (Hkeep k0 Hk0). apply Hnew. exact Hnone.
      * apply Hfresh; [exact Hk|]. rewrite Hother; [exact Hnone|].
        intros ->. contradiction.
    + intros k mine Hk Hsome. apply elem_of_cons in Hk as [->|Hk].
      * rewrite (Hkeep k0 Hk0). apply Hmerged. exact Hsome.
      * apply Hcoll; [exact Hk|]. rewrite Hother; [exact Hsome|].
        intros ->. contradiction.
Qed.

Lemma evaluate_items_spec (fuel d : nat) (space : list Z) :
  (d < fuel)%nat ->
  forall (items : list (varobj * container)) (own : list (Z * container)) (s : state),
    Forall (fun kv => uniform d (snd kv)) items ->
    Forall (fun kv => uniform d (snd kv)) own ->
    match evaluate_items fuel items space own s with
    | Ok (own', _) =>
        exists keys : list (gset Z),
          Forall2 (fun it S => exists s0 s1,
                     evaluate (var (fst it)) space None s0 = Ok (S, s1)) items keys /\
          Forall (fun kv => uniform d (snd kv)) own' /\
          (forall k, is_Some (dict_get Z.eqb own' k) <->
                     is_Some (dict_get Z.eqb own k) \/ Exists (fun S => k ∈ S) keys) /\
          (forall k, Forall (fun S => k ∉ S) keys ->
                     dict_get Z.eqb own' k = dict_get Z.eqb own k) /\
          (forall k before it after kb S ka,
             items = before ++ it :: after -> keys = kb ++ S :: ka ->
             length kb = length before ->
             k ∈ S -> Forall (fun S' => k ∉ S') (kb ++ ka) ->
             match dict_get Z.eqb own k with
             | None => dict_get Z.eqb own' k = Some (snd it)
             | Some mine =>
                 exists merged s1 s2,
                   merge fuel mine (snd it) s1 = Ok (merged, s2) /\
                   dict_get Z.eqb own' k = Some merged
             end)
    | Raise e =>
        Exists (fun it => exists s0, evaluate (var (fst it)) space None s0 = Raise e) items
    | OutOfFuel => False
    end.
Proof.
  intros Hfuel. induction items as [|[o value] items IH]; intros own s Hitems Hown.
  - cbn [evaluate_items ret]. exists []. split; [constructor|]. split; [exact Hown|].
    split; [|split].
    + intros k. split; [intros H; left; exact H|].
      intros [H|H]; [exact H|inversion H].
    + reflexivity.
    + intros k before it after kb S ka Hb. destruct before; discriminate.
  - apply Forall_cons_1 in Hitems as [Hvalue Hitems]. cbn [snd] in Hvalue.
    cbn [evaluate_items]. unfold bind at 1.
    pose proof (evaluate_cases (var o) space None s) as Hc.
    destruct (evaluate (var o) space None s) as [[S s1]|e|] eqn:E; [| |exact Hc].
    2:{ apply Exists_cons_hd. exists s. exact E. }
    destruct (evaluate_keys_spec fuel d value Hfuel Hvalue (elements S) own s1
                (NoDup_elements S) Hown)
      as (own1 & s2 & Hrun & Hown1 & Hkeep & Hfresh & Hcoll).
    rewrite (bind_ok _ _ _ _ _ Hrun). specialize (IH own1 s2 Hitems Hown1).
    destruct (evaluate_items fuel items space own1 s2) as [[own' s3]|e|];
      [|apply Exists_cons_tl; exact IH|exact IH].
    destruct IH as (keys & HF & Hown' & Hsome & Hsame & Halias).
    assert (Hsome1 : forall k, is_Some (dict_get Z.eqb own1 k) <->
                               is_Some (dict_get Z.eqb own k) \/ k ∈ S).
    { intros k. destruct (decide (k ∈ S)) as [Hk|Hk].
      - split; [intros _; right; exact Hk|]. intros _.
        apply elem_of_elements in Hk.
        destruct (dict_get Z.eqb own k) as [mine|] eqn:Ek.
        + destruct (Hcoll k mine Hk Ek) as (merged & _ & _ & _ & ->). eexists. reflexivity.
        + rewrite (Hfresh k Hk Ek). eexists. reflexivity.
      - rewrite Hkeep by (rewrite elem_of_elements; exact Hk).
        split; [intros H; left; exact H|]. intros [H|H]; [exact H|contradiction]. }
    exists (S :: keys). split; [|split; [exact Hown'|split; [|split]]].
    + constructor; [cbn [fst]; eexists _, _; exact E|exact HF].
    + intros k. rewrite Hsome, Hsome1, Exists_cons. tauto.
    + intros k Hk. apply Forall_cons_1 in Hk as [HkS Hk].
      rewrite (Hsame k Hk). apply Hkeep. rewrite elem_of_elements. exact HkS.
    + intros k before it after kb S0 ka Hb Hkb Hlen Hk Hnot.
      destruct before as [|b before], kb as [|S1 kb]; try discriminate.
      * cbn [app] in Hb, Hkb, Hnot. injection Hb as <- <-. injection Hkb as <- <-.
        rewrite (Hsame k Hnot). apply elem_of_elements in Hk. cbn [snd].
        destruct (dict_get Z.eqb own k) as [mine|] eqn:Ek.
        -- apply (Hcoll k mine Hk Ek).
        -- apply (Hfresh k Hk Ek).
      * cbn [app] in Hb, Hkb, Hnot. injection Hb as <- ->. injection Hkb as <- ->.
        apply Forall_cons_1 in Hnot as [HkS Hnot]. cbn [length] in Hlen.
        specialize (Halias k before it after kb S0 ka eq_refl eq_refl
                      ltac:(lia) Hk Hnot).
        rewrite Hkeep in Halias by (rewrite elem_of_elements; exact HkS).
        exact Halias.
Qed.

(** [VariableDict.evaluate] binds the resolved keys.  On a keyed tree
    whose subtrees have depth [d], with fuel above [d], the merges of the
    call do not fail: it returns, or raises the error of the resolution of
    one of the deferred keys.  When it returns, with [keys] the sets the
    deferred keys resolved to (without original value): every subtree the
    dict object holds has depth [d]; the dict object holds a key exactly
    when the fixed part does or one of the resolved sets holds it; a key
    that no resolved set holds keeps the binding of the fixed part; and a
    key that exactly one resolved set holds is bound, when the fixed part
    does not hold it, to the very subtree stored under that deferred key
    (the object itself, shared by all the keys of that set and not copied)
    and, when the fixed part holds it, to the merge of the fixed binding
    with that subtree. *)
Theorem VariableDict_evaluate_keys (fuel d : nat) (fixed : list (Z * container))
    (deferred : list (varobj * container)) (space : list Z) (s : state) :
  (d < fuel)%nat ->
  Forall (fun kv => uniform d (snd kv)) fixed ->
  Forall (fun kv => uniform d (snd kv)) deferred ->
  match VariableDict_evaluate fuel fixed deferred space s with
  | Ok (own, _) =>
      exists keys : list (gset Z),
        Forall2 (fun it S => exists s0 s1,
                   evaluate (var (fst it)) space None s0 = Ok (S, s1)) deferred keys /\
        Forall (fun kv => uniform d (snd kv)) own /\
        (forall k, is_Some (dict_get Z.eqb own k) <->
                   is_Some (dict_get Z.eqb fixed k) \/ Exists (fun S => k ∈ S) keys) /\
        (forall k, Forall (fun S => k ∉ S) keys ->
                   dict_get Z.eqb own k = dict_get Z.eqb fixed k) /\
        (forall k before it after kb S ka,
           deferred = before ++ it :: after -> keys = kb ++ S :: ka ->
           length kb = length before ->
           k ∈ S -> Forall (fun S' => k ∉ S') (kb ++ ka) ->
           match dict_get Z.eqb fixed k with
           | None => dict_get Z.eqb own k = Some (snd it)
           | Some mine =>
               exists merged s1 s2,
                 merge fuel mine (snd it) s1 = Ok (merged, s2) /\
                 dict_get Z.eqb own k = Some merged
           end)
  | Raise e =>
      Exists (fun it => exists s0, evaluate (var (fst it)) space None s0 = Raise e) deferred
  | OutOfFuel => False
  end.
Proof.
  intros Hfuel Hfixed Hdeferred. unfold VariableDict_evaluate.
  apply (evaluate_items_spec fuel d space Hfuel deferred fixed s Hdeferred Hfixed).
Qed.

Lemma VariableDict_evaluate_keys_witness :
  match VariableDict_evaluate 1 [(1, VariableSet 3 4 {[ 10 ]} 5 [])]
          [(VarObj 20 AllVariable, VariableSet 6 7 {[ 20 ]} 8 [])] [1; 2] (State 30 []) with
  | Ok (own, _) =>
      exists keys : list (gset Z),
        Forall2 (fun it S => exists s0 s1,
                   evaluate (var (fst it)) [1; 2] None s0 = Ok (S, s1))
                [(VarObj 20 AllVariable, VariableSet 6 7 {[ 20 ]} 8 [])] keys /\
        Forall (fun kv => uniform 0 (snd kv)) own /\
        (forall k, is_Some (dict_get Z.eqb own k) <->
                   is_Some (dict_get Z.eqb [(1, VariableSet 3 4 {[ 10 ]} 5 [])] k) \/
                   Exists (fun S => k ∈ S) keys) /\
        (forall k, Forall (fun S => k ∉ S) keys ->
                   dict_get Z.eqb own k
                   = dict_get Z.eqb [(1, VariableSet 3 4 {[ 10 ]} 5 [])] k) /\
        (forall k before it after kb S ka,
           [(VarObj 20 AllVariable, VariableSet 6 7 {[ 20 ]} 8 [])] = before ++ it :: after ->
           keys = kb ++ S :: ka ->
           length kb = length before ->
           k ∈ S -> Forall (fun S' => k ∉ S') (kb ++ ka) ->
           match dict_get Z.eqb [(1, VariableSet 3 4 {[ 10 ]} 5 [])] k with
           | None => dict_get Z.eqb own k = Some (snd it)
           | Some mine =>
               exists merged s1 s2,
                 merge 1 mine (snd it) s1 = Ok (merged, s2) /\
                 dict_get Z.eqb own k = Some merged
           end)
  | Raise e =>
      Exists (fun it => exists s0, evaluate (var (fst it)) [1; 2] None s0 = Raise e)
             [(VarObj 20 AllVariable, VariableSet 6 7 {[ 20 ]} 8 [])]
  | OutOfFuel => False
  end.
Proof.
  apply (VariableDict_evaluate_keys 1 0 [(1, VariableSet 3 4 {[ 10 ]} 5 [])]
           [(VarObj 20 AllVariable, VariableSet 6 7 {[ 20 ]} 8 [])] [1; 2] (State 30 [])).
  - lia.
  - repeat constructor.
  - repeat constructor.
Defined.

Lemma evaluate_items_excludes (fuel : nat) (space : list Z)
    (items : list (varobj * container)) :
  Exists (fun it => excludes (var (fst it)) = true) items ->
  forall (own : list (Z * container)) (s : state) r,
    evaluate_items fuel items space own s <> Ok r.
Proof.
  induction 1 as [[o value] items Ho|[o value] items _ IH]; intros own s r;
    cbn [evaluate_items].
  - destruct (evaluate_excludes (var o) space s Ho) as (e & He).
    rewrite (bind_raise _ _ _ _ He). discriminate.
  - unfold bind. destruct (evaluate (var o) space None s) as [[S s1]|e|]; [|discriminate..].
    destruct (evaluate_keys fuel (elements S) value own s1) as [[own1 s2]|e|];
      [|discriminate..].
    apply IH.
Qed.

(** The containers never hand an original value to their placeholders.  A
    value set with a deferred element that samples without the original
    (a sample or a random placeholder that excludes it, or a range with
    such a limit) cannot be evaluated: whatever the value space and the
    state, [VariableSet.evaluate] raises an error. *)
Theorem VariableSet_evaluate_excluding (fixed : gset Z) (deferred : list varobj)
    (container : list Z) (s : state) :
  Exists (fun o => excludes (var o) = true) deferred ->
  exists e, VariableSet_evaluate fixed deferred container s = Raise e.
Proof. intros H. apply evaluate_elements_excludes. exact H. Qed.

Lemma VariableSet_evaluate_excluding_witness :
  exists e,
    VariableSet_evaluate {[ 1 ]} [VarObj 0 SizeVariable; VarObj 1 (RandomVariable true 5)]
      [1; 2; 3] (State 2 [0]) = Raise e.
Proof.
  apply (VariableSet_evaluate_excluding {[ 1 ]}
           [VarObj 0 SizeVariable; VarObj 1 (RandomVariable true 5)] [1; 2; 3] (State 2 [0])).
  apply Exists_cons_tl. apply Exists_cons_hd. reflexivity.
Defined.

(** The same for a keyed tree: with a deferred key that samples without
    the original, [VariableDict.evaluate] never returns, whatever the
    value space, the state and the fuel. *)
Theorem VariableDict_evaluate_excluding (fuel : nat) (fixed : list (Z * container))
    (deferred : list (varobj * container)) (space : list Z) (s : state) :
  Exists (fun it => excludes (var (fst it)) = true) deferred ->
  match VariableDict_evaluate fuel fixed deferred space s with
  | Ok _ => False
  | Raise _ | OutOfFuel => True
  end.
Proof.
  intros H. pose proof (evaluate_items_excludes fuel space deferred H fixed s) as Hr.
  unfold VariableDict_evaluate.
  destruct (evaluate_items fuel deferred space fixed s) as [r| |]; [|exact I..].
  exact (Hr r eq_refl).
Qed.

Lemma VariableDict_evaluate_excluding_witness :
  match VariableDict_evaluate 1 []
          [(VarObj 0 (SampleVariable 1 true 5), VariableSet 1 2 ∅ 3 [])]
          [1; 2; 3] (State 4 [0]) with
  | Ok _ => False
  | Raise _ | OutOfFuel => True
  end.
Proof.
  apply (VariableDict_evaluate_excluding 1 []
           [(VarObj 0 (SampleVariable 1 true 5), VariableSet 1 2 ∅ 3 [])] [1; 2; 3]
           (State 4 [0])).
  apply Exists_cons_hd. reflexivity.
Defined.

(** ** The tree parser on two levels of literal listings *)

Lemma dict_set_fresh {K V} (eqb : K -> K -> bool) (d : list (K * V)) (k : K) (v : V) :
  dict_get eqb d k = None -> dict_set eqb d k v = d ++ [(k, v)].
Proof.
  induction d as [|[k' v'] d IH]; cbn [dict_get dict_set app]; [reflexivity|].
  destruct (eqb k k'); [discriminate|]. intros H. rewrite (IH H). reflexivity.
Qed.

Lemma dict_get_notin {V} (d : list (Z * V)) (k : Z) :
  dict_get Z.eqb d k = None <-> k ∉ fst <$> d.
Proof.
  induction d as [|[k' v] d IH]; cbn [dict_get fmap list_fmap fst].
  - split; [intros _; apply not_elem_of_nil|reflexivity].
  - change (list_fmap _ _ ?h ?l) with (h <$> l). rewrite not_elem_of_cons.
    destruct (Z.eqb_spec k k') as [->|Hne].
    + split; [discriminate|]. intros [? _]. contradiction.
    + rewrite IH. tauto.
Qed.

Lemma dict_set_keys_same {V} (d : list (Z * V)) (k : Z) (x v : V) :
  dict_get Z.eqb d k = Some x -> fst <$> dict_set Z.eqb d k v = fst <$> d.
Proof.
  induction d as [|[k' v'] d IH]; cbn [dict_get dict_set]; [discriminate|].
  destruct (Z.eqb_spec k k') as [->|Hne]; [reflexivity|].
  intros H. cbn [fmap list_fmap fst]. f_equal. apply IH. exact H.
Qed.

Lemma merge_entries_NoDup (rec : shape -> shape -> option shape)
    (theirs : list (Z * shape)) :
  forall mine res,
    NoDup (fst <$> mine) -> merge_entries Z.eqb rec mine theirs = Some res ->
    NoDup (fst <$> res).
Proof.
  induction theirs as [|[k y] theirs IH]; intros mine res Hnd; cbn [merge_entries].
  - intros [= <-]. exact Hnd.
  - assert (Hset : forall v, NoDup (fst <$> dict_set Z.eqb mine k v)).
    { intros v. destruct (dict_get Z.eqb mine k) as [x|] eqn:E.
      - rewrite (dict_set_keys_same mine k x v E). exact Hnd.
      - rewrite dict_set_fresh by exact E. rewrite fmap_app. cbn [fmap list_fmap fst].
        apply NoDup_app. split; [exact Hnd|]. split; [|apply NoDup_singleton].
        intros k' Hk' Hk. apply list_elem_of_singleton in Hk as ->.
        apply dict_get_notin in E. contradiction. }
    destruct (dict_get Z.eqb mine k) as [x|].
    + destruct (rec x y) as [r|]; [|discriminate]. apply IH, Hset.
    + apply IH, Hset.
Qed.

Lemma dict_get_pairs {V} (keys : list Z) (v : V) (k : Z) :
  dict_get Z.eqb ((fun x => (x, v)) <$> keys) k
  = if bool_decide (k ∈ keys) then Some v else None.
Proof.
  induction keys as [|x keys IH]; cbn [fmap list_fmap dict_get].
  - rewrite bool_decide_eq_false_2 by apply not_elem_of_nil. reflexivity.
  - change (list_fmap _ _ ?h ?l) with (h <$> l).
    destruct (Z.eqb_spec k x) as [->|Hne].
    + rewrite bool_decide_eq_true_2 by left. reflexivity.
    + rewrite IH. destruct (decide (k ∈ keys)) as [Hk|Hk].
      * rewrite !bool_decide_eq_true_2; [reflexivity|right; exact Hk|exact Hk].
      * rewrite !bool_decide_eq_false_2; [reflexivity| |exact Hk].
        intros [?|?]%elem_of_cons; contradiction.
Qed.

Lemma fromkeys_pairs {V} (keys : list Z) (v : V) :
  NoDup keys -> fromkeys Z.eqb keys v = (fun x => (x, v)) <$> keys.
Proof.
  intros Hnd. unfold fromkeys.
  assert (H : forall d : list Z,
            NoDup (d ++ keys) ->
            foldl (fun acc x => dict_set Z.eqb acc x v) ((fun x => (x, v)) <$> d) keys
            = (fun x => (x, v)) <$> (d ++ keys)).
  { clear Hnd. induction keys as [|x keys IH]; intros d Hd; cbn [foldl].
    - rewrite app_nil_r. reflexivity.
    - rewrite dict_set_fresh.
      + replace (((fun x0 => (x0, v)) <$> d) ++ [(x, v)])
          with ((fun x0 => (x0, v)) <$> (d ++ [x])) by (rewrite fmap_app; reflexivity).
        rewrite IH; rewrite <- app_assoc; [reflexivity|exact Hd].
      + rewrite dict_get_pairs. rewrite bool_decide_eq_false_2; [reflexivity|].
        apply NoDup_app in Hd as (_ & Hd & _). intros Hx. apply (Hd x Hx). left. }
  apply (H []). exact Hnd.
Qed.

Lemma distinct_NoDup (keys : list Z) : NoDup keys -> distinct Z.eqb keys.
Proof.
  induction 1 as [|x keys Hx _ IH]; cbn [distinct]; [exact I|]. split; [|exact IH].
  apply Forall_forall. intros y Hy. apply Z.eqb_neq. intros ->. contradiction.
Qed.

Lemma unravel_literals (items : list segment) (p : Z) (s : state) :
  Forall (literal Py.int) items ->
  unravel (listing_text items) Py.int _default_listing_delimiter _default_range_delimiter
    _default_index_specifier _default_random_specifier _default_all_specifier p s
  = Ok (VariableSet (N.succ (N.succ (next_addr s))) (next_addr s)
          (listing_values Py.int items) (N.succ (next_addr s)) [],
        State (N.succ (N.succ (N.succ (next_addr s)))) (random s)).
Proof.
  intros Hl. unfold listing_text, listing_values.
  destruct items as [|g items].
  { reflexivity. }
  assert (Hw : Forall well_delimited (g :: items)).
  { eapply Forall_impl; [exact Hl|]. apply int_literal_delimited. }
  rewrite unravel_split.
  - rewrite (bind_ok _ _ _ _ _ (unravel_loop_literals Py.int (g :: items) ∅ [] p _ Hl Hw)).
    unfold new_VariableSet. rewrite (bind_ok _ _ _ _ _ (alloc_ok _)).
    cbn [fst snd next_addr random ret]. rewrite (left_id_L ∅ (∪)). reflexivity.
  - discriminate.
  - apply Forall_cons in Hl as [Hg _]. cbn [fmap list_fmap join].
    destruct g as [t|a b]; cbn [segment_text].
    + destruct Hg as [z Hz]. destruct (int_chars t z Hz) as [Ht _].
      destruct t; [contradiction|discriminate].
    + destruct a; discriminate.
  - rewrite Forall_fmap. eapply Forall_impl; [exact Hw|]. apply segment_text_delimited.
Qed.

Lemma int_char_level (c : ascii) :
  int_char c = true \/ c = "~"%char \/ c = ","%char ->
  c <> ":"%char /\ c <> "["%char /\ c <> "]"%char.
Proof.
  intros [H|[->| ->]]; [|repeat split; discriminate..].
  repeat split; intros ->; discriminate.
Qed.

Lemma listing_text_chars (items : list segment) :
  Forall (literal Py.int) items ->
  Forall (fun c => int_char c = true \/ c = "~"%char \/ c = ","%char) (listing_text items).
Proof.
  intros Hl.
  assert (Hseg : forall g, literal Py.int g ->
            Forall (fun c => int_char c = true \/ c = "~"%char \/ c = ","%char)
                   (segment_text g)).
  { intros [t|a b]; cbn [literal segment_text].
    - intros [z Hz]. destruct (int_chars t z Hz) as [_ H].
      eapply Forall_impl; [exact H|]. cbn. auto.
    - intros [[z Hz] [z' Hz']].
      destruct (int_chars a z Hz) as [_ Ha]. destruct (int_chars b z' Hz') as [_ Hb].
      apply Forall_app. split; [eapply Forall_impl; [exact Ha|]; cbn; auto|].
      constructor; [auto|]. eapply Forall_impl; [exact Hb|]. cbn. auto. }
  unfold listing_text. destruct Hl as [|g items Hg Hl]; [constructor|].
  cbn [fmap list_fmap join]. apply Forall_app. split; [apply Hseg; exact Hg|].
  change (list_fmap _ _ ?h ?l) with (h <$> l).
  induction Hl as [|g' items Hg' Hl IH]; [constructor|].
  cbn [fmap list_fmap concat]. apply Forall_app. split; [|exact IH].
  constructor; [auto|]. apply Hseg. exact Hg'.
Qed.

Lemma listing_text_plain (items : list segment) :
  Forall (literal Py.int) items -> plain (listing_text items).
Proof.
  intros Hl. pose proof (listing_text_chars items Hl) as H.
  rewrite Forall_forall in H.
  repeat split; intros Hc; destruct (int_char_level _ (H _ Hc)) as (? & ? & ?);
    contradiction.
Qed.

Lemma All_pairs (x : shape) (keys : list Z) :
  distinct_keys x -> All (fun kv => distinct_keys (snd kv)) ((fun k => (k, x)) <$> keys).
Proof.
  intros Hx. induction keys as [|k keys IH]; cbn; [exact I|]. split; [exact Hx|exact IH].
Qed.

(** The merge of the tree built so far with the keyed tree of one level
    group of literal listings. *)
Lemma merge_level (fuel : nat) (result : container) (done : list (gset Z * gset Z))
    (self fa va sself sfa sva : addr) (vr vb : gset Z) (s : state) :
  (1 < fuel)%nat -> uniform 1 result -> binds done (shape_of result) ->
  exists result' s',
    merge fuel result
      (VariableDict self fa
         (fromkeys Z.eqb (elements vr) (VariableSet sself sfa vb sva [])) va
         (fromkeys var_eq [] (VariableSet sself sfa vb sva []))) s
    = Ok (result', s') /\
    uniform 1 result' /\ binds (done ++ [(vr, vb)]) (shape_of result').
Proof.
  intros Hfuel Hres (fixedR & HshapeR & HndR & HbindR).
  set (sub := VariableSet sself sfa vb sva []).
  set (level := VariableDict self fa (fromkeys Z.eqb (elements vr) sub) va
                  (fromkeys var_eq [] sub)).
  assert (Hlevel : uniform 1 level).
  { change (Forall (fun kv => uniform 0 (snd kv)) (fromkeys Z.eqb (elements vr) sub) /\
            Forall (fun kv => uniform 0 (snd kv)) (fromkeys var_eq [] sub)).
    split; apply (fromkeys_values _ (uniform 0)); exact I. }
  assert (HshapeL : shape_of level
                    = DictShape ((fun k => (k, SetShape vb [])) <$> elements vr) []).
  { unfold level. cbn [shape_of]. rewrite fromkeys_pairs by apply NoDup_elements.
    rewrite <- list_fmap_compose. reflexivity. }
  assert (Hkeys : fst <$> ((fun k => (k, SetShape vb [])) <$> elements vr) = elements vr).
  { rewrite <- list_fmap_compose. apply list_fmap_id. }
  assert (Hdist : distinct_keys (shape_of level)).
  { rewrite HshapeL. cbn [distinct_keys]. rewrite Hkeys.
    split; [apply distinct_NoDup, NoDup_elements|].
    split; [exact I|]. split; [|exact I]. apply All_pairs. exact I. }
  destruct (merge_refines fuel 1 result level s Hfuel Hres Hlevel Hdist)
    as (r & s' & Hm & Hshape); [discriminate|].
  destruct (merge_range fuel 1 result level s Hfuel Hres Hlevel)
    as (r2 & s2 & Hm2 & _ & Hu & _).
  rewrite Hm in Hm2. injection Hm2 as <- <-.
  exists r, s'. split; [exact Hm|]. split; [exact Hu|].
  rewrite HshapeR, HshapeL in Hshape. cbn [merge_shape] in Hshape.
  destruct (merge_entries Z.eqb merge_shape fixedR
              ((fun k => (k, SetShape vb [])) <$> elements vr)) as [f|] eqn:Ef;
    [|discriminate].
  cbn [merge_entries] in Hshape. injection Hshape as Hshape.
  exists f. split; [symmetry; exact Hshape|].
  split; [exact (merge_entries_NoDup merge_shape _ fixedR f HndR Ef)|]. intros k.
  rewrite (merge_entries_lookup Z.eqb Z.eqb_sym Z_eqb_trans merge_shape _ _ _
             ltac:(rewrite Hkeys; apply distinct_NoDup, NoDup_elements) Ef k).
  rewrite dict_get_pairs. specialize (HbindR k).
  destruct (dict_get Z.eqb fixedR k) as [x|]; cbn [merged_entry].
  - destruct HbindR as (Hbound & S & -> & HS).
    assert (Hbound' : Exists (fun g => k ∈ fst g) (done ++ [(vr, vb)])).
    { apply Exists_app. left. exact Hbound. }
    destruct (bool_decide (k ∈ elements vr)) eqn:Hk.
    + apply bool_decide_eq_true_1, elem_of_elements in Hk. cbn [merge_shape].
      split; [exact Hbound'|].
      exists (S ∪ vb). split; [reflexivity|]. intros z.
      rewrite elem_of_union, HS, Exists_app, Exists_cons, Exists_nil. cbn [fst snd]. tauto.
    + apply bool_decide_eq_false_1 in Hk. rewrite elem_of_elements in Hk.
      split; [exact Hbound'|].
      exists S. split; [reflexivity|]. intros z.
      rewrite HS, Exists_app, Exists_cons, Exists_nil. cbn [fst snd]. tauto.
  - destruct (bool_decide (k ∈ elements vr)) eqn:Hk.
    + apply bool_decide_eq_true_1, elem_of_elements in Hk.
      split; [apply Exists_app; right; apply Exists_cons; left; exact Hk|].
      exists vb. split; [reflexivity|]. intros z.
      rewrite Exists_app, Exists_cons, Exists_nil. cbn [fst snd].
      split; [intros Hz; right; left; split; assumption|].
      intros [H|[[_ Hz]|[]]]; [|exact Hz]. exfalso.
      apply list.Exists_exists in H as (g & Hg & Hkg & _).
      rewrite Forall_forall in HbindR. exact (HbindR g Hg Hkg).
    + apply bool_decide_eq_false_1 in Hk. rewrite elem_of_elements in Hk.
      apply Forall_app. split; [exact HbindR|]. constructor; [exact Hk|constructor].
Qed.

(** What one round of the loop of [parse_tree] does behind the search for
    the closer, on a group of two literal listings: the body and the roots
    are resolved, and the keyed tree of the level is merged into the tree
    built so far. *)
Lemma level_chain (g : nat) (roots body : list segment) (p q : Z)
    (result : container) (done : list (gset Z * gset Z)) (s : state) :
  Forall (literal Py.int) roots -> Forall (literal Py.int) body ->
  uniform 1 result -> binds done (shape_of result) ->
  exists result' s',
    uniform 1 result' /\
    binds (done ++ [level_values Py.int Py.int (roots, body)]) (shape_of result') /\
    forall k : container -> M container,
    (let* sub_trees_processed :=
       parse_tree (S (S g)) (listing_text body) (List.tl [Py.int; Py.int])
         _default_level_opener _default_lazy_opener _default_level_closer
         _default_level_delimiter _default_listing_delimiter _default_range_delimiter
         _default_index_specifier _default_random_specifier _default_all_specifier q in
     let* root_converter := of_option (head [Py.int; Py.int]) IndexError in
     let* roots_unraveled :=
       unravel (listing_text roots) root_converter _default_listing_delimiter
         _default_range_delimiter _default_index_specifier _default_random_specifier
         _default_all_specifier p in
     let* level :=
       match roots_unraveled with
       | VariableSet _ _ fixed_parts _ variable_parts =>
           let* fixed_at := alloc in
           let* variable_at := alloc in
           new_VariableDict
             (fixed_at, fromkeys Z.eqb (elements fixed_parts) sub_trees_processed)
             (variable_at, fromkeys var_eq variable_parts sub_trees_processed)
       | VariableDict _ _ _ _ _ => raise TypeError
       end in
     let* result := merge (S (S g)) result level in
     k result) s
    = k result' s'.
Proof.
  intros Hroots Hbody Hres Hbinds.
  pose proof (unravel_literals body q s Hbody) as Hsub.
  set (s1 := State (N.succ (N.succ (N.succ (next_addr s)))) (random s)) in Hsub.
  pose proof (unravel_literals roots p s1 Hroots) as Hrts.
  set (s2 := State (N.succ (N.succ (N.succ (next_addr s1)))) (random s1)) in Hrts.
  destruct (merge_level (S (S g)) result done
              (N.succ (N.succ (next_addr s2))) (next_addr s2) (N.succ (next_addr s2))
              (N.succ (N.succ (next_addr s))) (next_addr s) (N.succ (next_addr s))
              (listing_values Py.int roots) (listing_values Py.int body)
              (State (N.succ (N.succ (N.succ (next_addr s2)))) (random s2)))
    as (result' & s' & Hm & Hu & Hb); [lia|exact Hres|exact Hbinds|].
  exists result', s'. split; [exact Hu|]. split; [exact Hb|]. intros k.
  cbn [parse_tree List.tl]. rewrite (bind_ok _ _ _ _ _ Hsub).
  cbn [head of_option]. unfold ret at 1. unfold bind at 1.
  rewrite (bind_ok _ _ _ _ _ Hrts).
  rewrite (bind_ok _ _ s2 (State (N.succ (N.succ (N.succ (next_addr s2)))) (random s2))
             (VariableDict (N.succ (N.succ (next_addr s2))) (next_addr s2)
                (fromkeys Z.eqb (elements (listing_values Py.int roots))
                   (VariableSet (N.succ (N.succ (next_addr s))) (next_addr s)
                      (listing_values Py.int body) (N.succ (next_addr s)) []))
                (N.succ (next_addr s2))
                (fromkeys var_eq []
                   (VariableSet (N.succ (N.succ (next_addr s))) (next_addr s)
                      (listing_values Py.int body) (N.succ (next_addr s)) [])))).
  2:{ rewrite (bind_ok _ _ _ _ _ (alloc_ok s2)). rewrite (bind_ok _ _ _ _ _ (alloc_ok _)).
      unfold new_VariableDict. rewrite (bind_ok _ _ _ _ _ (alloc_ok _)). reflexivity. }
  rewrite (bind_ok _ _ _ _ _ Hm). reflexivity.
Qed.

Lemma parse_level_literal_step (f : nat) (roots body : list segment) (rest : str)
    (p : Z) (result : container) (done : list (gset Z * gset Z)) (s : state) :
  Forall (literal Py.int) roots -> Forall (literal Py.int) body ->
  uniform 1 result -> binds done (shape_of result) ->
  exists result' s',
    uniform 1 result' /\
    binds (done ++ [level_values Py.int Py.int (roots, body)]) (shape_of result') /\
    parse_level (S (S (S f))) (level_text (roots, body) ++ rest) [Py.int; Py.int]
      _default_level_opener _default_lazy_opener _default_level_closer
      _default_level_delimiter _default_listing_delimiter _default_range_delimiter
      _default_index_specifier _default_random_specifier _default_all_specifier
      p result s
    = parse_level (S (S f)) rest [Py.int; Py.int]
        _default_level_opener _default_lazy_opener _default_level_closer
        _default_level_delimiter _default_listing_delimiter _default_range_delimiter
        _default_index_specifier _default_random_specifier _default_all_specifier
        (p + len (level_text (roots, body))) result' s'.
Proof.
  intros Hroots Hbody Hres Hbinds.
  destruct (listing_text_plain roots Hroots) as (Hr & _ & _).
  pose proof (listing_text_plain body Hbody) as Hb.
  unfold level_text, group_text. cbn [fst snd].
  rewrite <- !app_assoc.
  set (tail := listing_text body ++ _default_level_closer ++ _default_level_delimiter
               ++ rest).
  destruct (find_opener_strict (listing_text roots) tail Hr) as (H1 & H2 & H3).
  destruct (level_chain f roots body p
              (p + len (listing_text roots) + len _default_level_opener) result done s
              Hroots Hbody Hres Hbinds) as (result' & s' & Hu & Hb' & Hchain).
  exists result', s'. split; [exact Hu|]. split; [exact Hb'|].
  remember (S (S f)) as g eqn:Hg.
  assert (Hfc : find_closer g tail _default_level_opener _default_lazy_opener
                  _default_level_closer p [_default_level_opener] 0 false s
                = Ok ((len (listing_text body), len (listing_text body) + 1 =? len tail), s)).
  { rewrite Hg. apply find_closer_strict. exact Hb. }
  cbn [parse_level]. rewrite H1, H2, H3, valid_comp_same.
  pose proof (len_nonneg (listing_text roots)). pose proof (len_nonneg (listing_text body)).
  pose proof (len_nonneg rest).
  replace (-1 <? len (listing_text roots)) with true by (symmetry; apply Z.ltb_lt; lia).
  cbn [of_option]. unfold ret at 1. unfold bind at 1. unfold ret at 1. unfold bind at 1.
  rewrite (bind_ok _ _ _ _ _ Hfc). cbn [fst snd].
  assert (Hlen : len tail = len (listing_text body) + 2 + len rest).
  { unfold tail. rewrite !len_app.
    change (len _default_level_closer) with 1.
    change (len _default_level_delimiter) with 1. lia. }
  replace (len (listing_text body) + 1 =? len tail) with false
    by (symmetry; apply Z.eqb_neq; lia).
  unfold tail at 1. rewrite slice_to_app. rewrite Hchain.
  replace (slice_from tail (len (listing_text body) + len _default_level_closer
                            + len _default_level_delimiter)) with rest.
  2:{ unfold tail. rewrite !app_assoc. rewrite <- app_assoc. symmetry.
      replace (len (listing_text body) + len _default_level_closer
               + len _default_level_delimiter)
        with (len (listing_text body ++ _default_level_closer ++ _default_level_delimiter)).
      - rewrite <- app_assoc. rewrite (app_assoc (listing_text body)),
          (app_assoc (listing_text body ++ _)).
        rewrite <- (app_assoc (listing_text body)). apply slice_from_app.
      - rewrite !len_app. lia. }
  f_equal. rewrite !len_app. lia.
Qed.

Lemma parse_level_literal_last (f : nat) (roots body : list segment) (lazy : bool)
    (p : Z) (result : container) (done : list (gset Z * gset Z)) (s : state) :
  Forall (literal Py.int) roots -> Forall (literal Py.int) body ->
  uniform 1 result -> binds done (shape_of result) ->
  exists result' s',
    uniform 1 result' /\
    binds (done ++ [level_values Py.int Py.int (roots, body)]) (shape_of result') /\
    parse_level (S (S (S f)))
      (listing_text roots
       ++ (if lazy then _default_lazy_opener ++ listing_text body
           else _default_level_opener ++ listing_text body ++ _default_level_closer))
      [Py.int; Py.int]
      _default_level_opener _default_lazy_opener _default_level_closer
      _default_level_delimiter _default_listing_delimiter _default_range_delimiter
      _default_index_specifier _default_random_specifier _default_all_specifier
      p result s
    = Ok (result', s').
Proof.
  intros Hroots Hbody Hres Hbinds.
  destruct (listing_text_plain roots Hroots) as (Hr & _ & _).
  pose proof (listing_text_plain body Hbody) as Hb.
  pose proof (len_nonneg (listing_text roots)). pose proof (len_nonneg (listing_text body)).
  destruct lazy.
  - destruct (find_opener_lazy (listing_text roots) (listing_text body) Hr Hb)
      as (H1 & H2 & H3).
    destruct (level_chain f roots body p
                (p + len (listing_text roots) + len _default_lazy_opener) result done s
                Hroots Hbody Hres Hbinds) as (result' & s' & Hu & Hb' & Hchain).
    exists result', s'. split; [exact Hu|]. split; [exact Hb'|].
    remember (S (S f)) as g eqn:Hg.
    assert (Hfc : find_closer g (listing_text body) _default_level_opener
                    _default_lazy_opener _default_level_closer p [_default_lazy_opener]
                    0 false s
                  = Ok ((len (listing_text body), true), s)).
    { rewrite Hg. apply find_closer_lazy. exact Hb. }
    cbn [parse_level]. rewrite H1, H2, H3.
    rewrite valid_comp_found_missing by lia.
    cbn [of_option]. unfold ret at 1. unfold bind at 1. unfold ret at 1. unfold bind at 1.
    rewrite (bind_ok _ _ _ _ _ Hfc). cbn [fst snd].
    rewrite slice_to_all. rewrite Hchain. reflexivity.
  - replace (_default_level_opener ++ listing_text body ++ _default_level_closer)
      with (_default_level_opener ++ listing_text body ++ _default_level_closer ++ [])
      by (rewrite app_nil_r; reflexivity).
    set (tail := listing_text body ++ _default_level_closer ++ []).
    destruct (find_opener_strict (listing_text roots) tail Hr) as (H1 & H2 & H3).
    destruct (level_chain f roots body p
                (p + len (listing_text roots) + len _default_level_opener) result done s
                Hroots Hbody Hres Hbinds) as (result' & s' & Hu & Hb' & Hchain).
    exists result', s'. split; [exact Hu|]. split; [exact Hb'|].
    remember (S (S f)) as g eqn:Hg.
    assert (Hfc : find_closer g tail _default_level_opener _default_lazy_opener
                    _default_level_closer p [_default_level_opener] 0 false s
                  = Ok ((len (listing_text body),
                         len (listing_text body) + 1 =? len tail), s)).
    { rewrite Hg. apply find_closer_strict. exact Hb. }
    cbn [parse_level]. rewrite H1, H2, H3, valid_comp_same.
    replace (-1 <? len (listing_text roots)) with true by (symmetry; apply Z.ltb_lt; lia).
    cbn [of_option]. unfold ret at 1. unfold bind at 1. unfold ret at 1. unfold bind at 1.
    rewrite (bind_ok _ _ _ _ _ Hfc). cbn [fst snd].
    assert (Hlen : len tail = len (listing_text body) + 1).
    { unfold tail. rewrite !len_app. change (len _default_level_closer) with 1.
      change (len (@nil ascii)) with 0. lia. }
    replace (len (listing_text body) + 1 =? len tail) with true
      by (symmetry; apply Z.eqb_eq; lia).
    unfold tail at 1. rewrite slice_to_app. rewrite Hchain. reflexivity.
Qed.

Lemma parse_level_literals (roots body : list segment) (lazy : bool) (n : nat)
    (groups : list (list segment * list segment)) :
  Forall (literal Py.int) roots -> Forall (literal Py.int) body ->
  forall (p : Z) (result : container) (done : list (gset Z * gset Z)) (s : state),
    Forall (fun g => Forall (literal Py.int) (fst g) /\ Forall (literal Py.int) (snd g))
           groups ->
    uniform 1 result -> binds done (shape_of result) ->
    exists result' s',
      binds (done ++ (level_values Py.int Py.int <$> groups ++ [(roots, body)]))
            (shape_of result') /\
      parse_level (S (S (S (length groups + n))))
        (concat (level_text <$> groups) ++ listing_text roots
         ++ (if lazy then _default_lazy_opener ++ listing_text body
             else _default_level_opener ++ listing_text body ++ _default_level_closer))
        [Py.int; Py.int]
        _default_level_opener _default_lazy_opener _default_level_closer
        _default_level_delimiter _default_listing_delimiter _default_range_delimiter
        _default_index_specifier _default_random_specifier _default_all_specifier
        p result s
      = Ok (result', s').
Proof.
  intros Hroots Hbody.
  induction groups as [|[r0 b0] groups IH]; intros p result done s Hg Hres Hbinds.
  - cbn [length Nat.add fmap list_fmap concat app].
    destruct (parse_level_literal_last n roots body lazy p result done s
                Hroots Hbody Hres Hbinds) as (result' & s' & _ & Hb & Hrun).
    exists result', s'. split; [exact Hb|exact Hrun].
  - apply Forall_cons in Hg as [[Hr0 Hb0] Hg]. cbn [fst snd] in *.
    cbn [length Nat.add fmap list_fmap concat app].
    change (list_fmap _ _ ?h ?l) with (h <$> l).
    rewrite <- !(app_assoc (level_text (r0, b0))).
    destruct (parse_level_literal_step (S (length groups + n)) r0 b0
                (concat (level_text <$> groups) ++ listing_text roots
                 ++ (if lazy then _default_lazy_opener ++ listing_text body
                     else _default_level_opener ++ listing_text body
                          ++ _default_level_closer))
                p result done s Hr0 Hb0 Hres Hbinds)
      as (result1 & s1 & Hu1 & Hb1 & Hstep).
    destruct (IH (p + len (level_text (r0, b0))) result1
                (done ++ [level_values Py.int Py.int (r0, b0)]) s1 Hg Hu1 Hb1)
      as (result' & s' & Hb & Hrun).
    exists result', s'. split.
    + rewrite <- app_assoc in Hb. exact Hb.
    + rewrite Hstep. exact Hrun.
Qed.

(** The tree parser on two levels of literal listings.  With the default
    symbols and two [int] converters: a text made of level groups
    [roots:[body]] separated by the level delimiter, whose roots and bodies
    are listings of integer literals and of ranges between integer
    literals, is parsed, with fuel above the number of groups plus three
    and from any position and state, into a keyed tree without deferred
    keys that binds a key exactly when the roots of some group describe it,
    and binds it to the value set, without deferred elements, of all the
    values that the bodies of the groups with that root describe.  The
    same holds when the last group is written lazily, [roots:body]: the
    lazy form binds what the strict form binds. *)
Theorem parse_tree_literals (groups : list (list segment * list segment))
    (roots body : list segment) (n : nat) (p : Z) (s : state) :
  Forall (fun g => Forall (literal Py.int) (fst g) /\ Forall (literal Py.int) (snd g))
         (groups ++ [(roots, body)]) ->
  exists strict lazy s1 s2,
    parse_tree_default (S (S (S (S (length groups + n)))))
      (concat (level_text <$> groups) ++ listing_text roots
       ++ _default_level_opener ++ listing_text body ++ _default_level_closer)
      [Py.int; Py.int] p s = Ok (strict, s1) /\
    parse_tree_default (S (S (S (S (length groups + n)))))
      (concat (level_text <$> groups) ++ listing_text roots
       ++ _default_lazy_opener ++ listing_text body)
      [Py.int; Py.int] p s = Ok (lazy, s2) /\
    binds (level_values Py.int Py.int <$> groups ++ [(roots, body)]) (shape_of strict) /\
    binds (level_values Py.int Py.int <$> groups ++ [(roots, body)]) (shape_of lazy).
Proof.
  intros H. apply Forall_app in H as [Hg H]. apply Forall_cons in H as [[Hroots Hbody] _].
  cbn [fst snd] in *.
  set (d := VariableDict (N.succ (N.succ (next_addr s))) (next_addr s) []
              (N.succ (next_addr s)) []).
  set (s0 := State (N.succ (N.succ (N.succ (next_addr s)))) (random s)).
  assert (Hd : empty_VariableDict s = Ok (d, s0)) by reflexivity.
  assert (Hu : uniform 1 d) by (split; constructor).
  assert (Hb : binds [] (shape_of d)).
  { exists []. split; [reflexivity|]. split; [constructor|]. intros k. constructor. }
  destruct (parse_level_literals roots body false n groups Hroots Hbody p d [] s0
              Hg Hu Hb) as (strict & s1 & Hb1 & Hrun1).
  destruct (parse_level_literals roots body true n groups Hroots Hbody p d [] s0
              Hg Hu Hb) as (lazy & s2 & Hb2 & Hrun2).
  exists strict, lazy, s1, s2. unfold parse_tree_default. cbn [parse_tree].
  rewrite !(bind_ok _ _ _ _ _ Hd). split; [exact Hrun1|]. split; [exact Hrun2|].
  split; [exact Hb1|exact Hb2].
Qed.

Lemma parse_tree_literals_witness :
  exists strict lazy s1 s2,
    parse_tree_default (S (S (S (S (length [([Single (str_of "0"); Single (str_of "1")],
                                             [Span (str_of "2") (str_of "3")])] + 0)))))
      (concat (level_text <$> [([Single (str_of "0"); Single (str_of "1")],
                                [Span (str_of "2") (str_of "3")])])
       ++ listing_text [Single (str_of "1")]
       ++ _default_level_opener ++ listing_text [Single (str_of "7")]
       ++ _default_level_closer)
      [Py.int; Py.int] 0 (State 0 []) = Ok (strict, s1) /\
    parse_tree_default (S (S (S (S (length [([Single (str_of "0"); Single (str_of "1")],
                                             [Span (str_of "2") (str_of "3")])] + 0)))))
      (concat (level_text <$> [([Single (str_of "0"); Single (str_of "1")],
                                [Span (str_of "2") (str_of "3")])])
       ++ listing_text [Single (str_of "1")]
       ++ _default_lazy_opener ++ listing_text [Single (str_of "7")])
      [Py.int; Py.int] 0 (State 0 []) = Ok (lazy, s2) /\
    binds (level_values Py.int Py.int
             <$> [([Single (str_of "0"); Single (str_of "1")],
                   [Span (str_of "2") (str_of "3")])]
                 ++ [([Single (str_of "1")], [Single (str_of "7")])])
          (shape_of strict) /\
    binds (level_values Py.int Py.int
             <$> [([Single (str_of "0"); Single (str_of "1")],
                   [Span (str_of "2") (str_of "3")])]
                 ++ [([Single (str_of "1")], [Single (str_of "7")])])
          (shape_of lazy).
Proof.
  apply (parse_tree_literals
           [([Single (str_of "0"); Single (str_of "1")], [Span (str_of "2") (str_of "3")])]
           [Single (str_of "1")] [Single (str_of "7")] 0 0 (State 0 [])).
  repeat constructor; cbn; eauto.
Defined.

(** ** The deep merge with an empty keyed tree *)

Lemma merge_entries_fresh {K} (eqb : K -> K -> bool)
    (rec : shape -> shape -> option shape) (theirs : list (K * shape)) :
  forall mine,
    distinct eqb (fst <$> theirs) ->
    Forall (fun k => dict_get eqb mine k = None) (fst <$> theirs) ->
    merge_entries eqb rec mine theirs = Some (mine ++ theirs).
Proof.
  induction theirs as [|[k y] theirs IH]; intros mine Hd Hnone; cbn [merge_entries].
  - rewrite app_nil_r. reflexivity.
  - cbn [fmap list_fmap fst distinct] in Hd, Hnone. destruct Hd as [Hk Hd].
    apply Forall_cons_1 in Hnone as [Hnone Hrest]. rewrite Hnone.
    rewrite dict_set_fresh by exact Hnone. rewrite IH.
    + rewrite <- app_assoc. reflexivity.
    + exact Hd.
    + rewrite Forall_forall in Hk, Hrest. apply Forall_forall. intros k' Hk'.
      specialize (Hk k' Hk'). specialize (Hrest k' Hk').
      clear -Hk Hrest. induction mine as [|[k0 v0] mine IHm]; cbn [app dict_get] in *.
      * rewrite Hk. reflexivity.
      * destruct (eqb k' k0); [discriminate|]. apply IHm. exact Hrest.
Qed.

(** The empty keyed tree is neutral for [merge], up to the identity of the
    objects.  For a keyed tree of depth [d + 1] whose dicts have pairwise
    different keys, with fuel above the depth: merging it with a keyed tree
    without entries, on either side, returns a tree with the same keys in
    the same order and the same subtrees, a deep copy of it. *)
Theorem merge_empty (fuel d : nat) (a : container) (self fa va : addr) (s : state) :
  (S d < fuel)%nat -> uniform (S d) a -> distinct_keys (shape_of a) ->
  (exists r s', merge fuel a (VariableDict self fa [] va []) s = Ok (r, s') /\
                shape_of r = shape_of a) /\
  (exists r s', merge fuel (VariableDict self fa [] va []) a s = Ok (r, s') /\
                shape_of r = shape_of a).
Proof.
  intros Hfuel Ha Hdist.
  assert (He : uniform (S d) (VariableDict self fa [] va [])) by (split; constructor).
  destruct a as [| aself afa fixed ava deferred]; [contradiction|].
  split.
  - destruct (merge_refines fuel (S d) _ _ s Hfuel Ha He) as (r & s' & Hm & Hshape).
    { cbn. repeat split; constructor. }
    { discriminate. }
    exists r, s'. split; [exact Hm|]. cbn [shape_of fmap list_fmap] in Hshape.
    cbn [merge_shape merge_entries] in Hshape. injection Hshape as <-. reflexivity.
  - destruct (merge_refines fuel (S d) _ _ s Hfuel He Ha Hdist) as (r & s' & Hm & Hshape).
    { discriminate. }
    exists r, s'. split; [exact Hm|]. cbn [shape_of fmap list_fmap] in Hshape.
    change (list_fmap _ _ ?h ?l) with (h <$> l) in Hshape.
    cbn [shape_of distinct_keys] in Hdist. destruct Hdist as (Hd1 & Hd2 & _).
    cbn [merge_shape] in Hshape.
    rewrite (merge_entries_fresh Z.eqb) in Hshape;
      [|exact Hd1|apply Forall_forall; reflexivity].
    rewrite (merge_entries_fresh same_sample) in Hshape;
      [|exact Hd2|apply Forall_forall; reflexivity].
    injection Hshape as <-. reflexivity.
Qed.

Lemma merge_empty_witness :
  (exists r s', merge 2 tree_second (VariableDict 20 21 [] 22 []) (State 30 []) = Ok (r, s') /\
                shape_of r = shape_of tree_second) /\
  (exists r s', merge 2 (VariableDict 20 21 [] 22 []) tree_second (State 30 []) = Ok (r, s') /\
                shape_of r = shape_of tree_second).
Proof.
  apply (merge_empty 2 0 tree_second 20 21 22 (State 30 [])).
  - lia.
  - simpl. repeat constructor.
  - simpl. repeat constructor; discriminate.
Defined.

(** ** The tree parser: nested levels *)

Lemma find_from (pre t sub : str) : find (pre ++ t) sub (len pre) = find_at t sub (len pre).
Proof.
  unfold find. pose proof (len_nonneg pre). pose proof (len_nonneg t).
  replace (len pre <? 0) with false by (symmetry; apply Z.ltb_ge; lia).
  rewrite len_app.
  replace (len pre + len t <? len pre) with false by (symmetry; apply Z.ltb_ge; lia).
  unfold len at 1. rewrite Nat2Z.id, drop_app_length. reflexivity.
Qed.

(** A lazy level whose body ends with a strict group.  With the default
    symbols and three converters or more (or none): when the first opener
    of the text is the lazy one and the body behind it is a text without
    level symbols followed by one strict group that ends the text, the
    search for the end of the lazy level stops at the closer of that group
    instead of behind it, so the body is handed on without its closer and
    [parse_tree] raises the [ParseError] that asks for level closers,
    although every opener of the text is closed. *)
Theorem parse_tree_lazy_then_strict (roots x y : str) (convs : list converter)
    (n : nat) (p : Z) (s : state) :
  length convs <> 1%nat -> length convs <> 2%nat ->
  (":" : ascii) ∉ roots -> plain x -> plain y ->
  parse_tree_default (S (S (S (S (S n)))))
    (roots ++ _default_lazy_opener ++ x ++ _default_level_opener ++ y
     ++ _default_level_closer) convs p s
  = Raise (ParseError (p + len roots + 1 + len y) ExpectedClosers).
Proof.
  intros Hc1 Hc2 Hr (Hxc & Hxo & Hxb) (Hyc & Hyo & Hyb).
  set (tail := x ++ _default_level_opener ++ y ++ _default_level_closer).
  pose proof (len_nonneg roots) as Hlr. pose proof (len_nonneg x) as Hlx.
  pose proof (len_nonneg y) as Hly.
  assert (Hlt : len tail = len x + 2 + len y + 1).
  { unfold tail. rewrite !len_app. change (len _default_level_opener) with 2.
    change (len _default_level_closer) with 1. lia. }
  (* the first opener is the lazy one *)
  assert (H2 : find (roots ++ _default_lazy_opener ++ tail) _default_lazy_opener 0
               = len roots).
  { rewrite find_0. change _default_lazy_opener with (":"%char :: []).
    rewrite find_at_first by exact Hr. lia. }
  assert (H1 : find (roots ++ _default_lazy_opener ++ tail) _default_level_opener 0
               = len roots + 1 + len x).
  { rewrite find_0. change _default_level_opener with (":"%char :: ["["%char]).
    rewrite find_at_skip by exact Hr. change _default_lazy_opener with [":"%char].
    cbn [app find_at startswith]. rewrite Ascii.eqb_refl.
    assert (Hs : startswith tail ["["%char] = false).
    { unfold tail. destruct x as [|c x']; [reflexivity|]. apply startswith_head.
      intros <-. apply Hxo. left. }
    rewrite Hs. cbn [andb]. unfold tail.
    change (":"%char :: ["["%char]) with ((":"%char :: ["["%char]) ++ []) at 1.
    rewrite (find_at_first ":"%char ["["%char] x (y ++ _default_level_closer))
      by exact Hxc. lia. }
  assert (Hlazy : (valid_comp (find (roots ++ _default_lazy_opener ++ tail)
                                    _default_lazy_opener 0)
                              (find (roots ++ _default_lazy_opener ++ tail)
                                    _default_level_opener 0) <? 0) = true).
  { rewrite H1, H2. unfold valid_comp. case_comparisons; lia. }
  (* the search for the closer *)
  assert (Hfc : forall k s0,
            find_closer (S (S k)) tail _default_level_opener _default_lazy_opener
              _default_level_closer p [_default_lazy_opener] 0 false s0
            = Ok ((len x + 2 + len y, true), s0)).
  { intros k s0.
    assert (Ho0 : find tail _default_level_opener 0 = len x).
    { rewrite find_0. unfold tail. change _default_level_opener with (":"%char :: ["["%char]).
      rewrite (find_at_first ":"%char ["["%char] x (y ++ _default_level_closer))
        by exact Hxc. lia. }
    assert (Hl0 : find tail _default_lazy_opener 0 = len x).
    { rewrite find_0. unfold tail. change _default_level_opener with ([":"%char] ++ ["["%char]).
      rewrite <- app_assoc. change _default_lazy_opener with (":"%char :: []).
      rewrite (find_at_first ":"%char [] x) by exact Hxc. lia. }
    assert (Hc0 : find tail _default_level_closer 0 = len x + 2 + len y).
    { rewrite find_0. unfold tail. change _default_level_closer with ("]"%char :: []).
      rewrite app_assoc, app_assoc.
      rewrite <- (app_nil_r ["]"%char]).
      rewrite (find_at_first "]"%char [] ((x ++ _default_level_opener) ++ y) []).
      - rewrite !len_app. change (len _default_level_opener) with 2. lia.
      - intros H. apply elem_of_app in H as [H|H]; [|contradiction].
        apply elem_of_app in H as [H|H]; [contradiction|].
        apply elem_of_cons in H as [H|H]; [discriminate|].
        apply list_elem_of_singleton in H. discriminate. }
    set (pre := x ++ _default_level_opener).
    assert (Hpre : len pre = len x + 2).
    { unfold pre. rewrite len_app. reflexivity. }
    assert (Htail : tail = pre ++ y ++ _default_level_closer).
    { unfold tail, pre. rewrite <- app_assoc. reflexivity. }
    assert (Ho1 : find tail _default_level_opener (len x + 2) = -1).
    { rewrite Htail, <- Hpre, find_from.
      change _default_level_opener with (":"%char :: ["["%char]).
      apply find_at_notin. intros H. apply elem_of_app in H as [H|H]; [contradiction|].
      apply list_elem_of_singleton in H. discriminate. }
    assert (Hl1 : find tail _default_lazy_opener (len x + 2) = -1).
    { rewrite Htail, <- Hpre, find_from.
      change _default_lazy_opener with (":"%char :: []).
      apply find_at_notin. intros H. apply elem_of_app in H as [H|H]; [contradiction|].
      apply list_elem_of_singleton in H. discriminate. }
    assert (Hc1' : find tail _default_level_closer (len x + 2) = len x + 2 + len y).
    { rewrite Htail, <- Hpre, find_from.
      change _default_level_closer with ("]"%char :: []).
      rewrite <- (app_nil_r ["]"%char]).
      rewrite (find_at_first "]"%char [] y []) by exact Hyb. reflexivity. }
    cbn [find_closer]. rewrite Ho0, Hl0, Hc0, valid_comp_same.
    replace (valid_comp (len x) (len x + 2 + len y) <? 0) with true
      by (unfold valid_comp; case_comparisons; lia).
    change (len _default_level_opener) with 2.
    rewrite Ho1, Hl1, Hc1'.
    cbn [valid_comp Z.eqb Z.ltb Z.compare Pos.eqb Pos.compare negb andb orb].
    replace (valid_comp (-1) (len x + 2 + len y) <? 0) with false
      by (unfold valid_comp; case_comparisons; lia).
    replace (len x + 2 + len y =? -1) with false by (symmetry; apply Z.eqb_neq; lia).
    cbn [remove_trailing_lazy_openers negb orb].
    rewrite bool_decide_eq_false_2 by discriminate.
    cbn [pop]. unfold ret at 1. unfold bind at 1.
    change (len _default_level_closer) with 1.
    replace (len x + 2 + len y + 1 =? len tail) with true
      by (symmetry; apply Z.eqb_eq; lia).
    cbn [remove_trailing_lazy_openers].
    rewrite bool_decide_eq_true_2 by reflexivity. reflexivity. }
  (* the body without its closer is not closed *)
  assert (Hsub : forall s0,
            parse_tree (S (S (S n))) (x ++ _default_level_opener ++ y) (List.tl convs)
              _default_level_opener _default_lazy_opener _default_level_closer
              _default_level_delimiter _default_listing_delimiter
              _default_range_delimiter _default_index_specifier
              _default_random_specifier _default_all_specifier
              (p + len roots + len _default_lazy_opener) s0
            = Raise (ParseError (p + len roots + 1 + len y) ExpectedClosers)).
  { intros s0.
    destruct (parse_tree_unclosed x y (List.tl convs) n
                (p + len roots + len _default_lazy_opener) s0) as [H _].
    - destruct convs as [|c1 [|c2 [|c3 cs]]]; cbn in *; lia.
    - exact Hxc.
    - repeat split; assumption.
    - exact H. }
  assert (Hlevel : forall d s0,
            parse_level (S (S (S (S n)))) (roots ++ _default_lazy_opener ++ tail) convs
              _default_level_opener _default_lazy_opener _default_level_closer
              _default_level_delimiter _default_listing_delimiter
              _default_range_delimiter _default_index_specifier
              _default_random_specifier _default_all_specifier p d s0
            = Raise (ParseError (p + len roots + 1 + len y) ExpectedClosers)).
  { intros d s0. remember (S (S (S n))) as g eqn:Hg.
    assert (Hfc' : find_closer g tail _default_level_opener _default_lazy_opener
                     _default_level_closer p [_default_lazy_opener] 0 false s0
                   = Ok ((len x + 2 + len y, true), s0)).
    { rewrite Hg. apply Hfc. }
    cbn [parse_level]. rewrite Hlazy.
    rewrite (split1_at roots _default_lazy_opener tail); [|discriminate|exact H2].
    cbn [of_option]. unfold ret at 1. unfold bind at 1. unfold ret at 1. unfold bind at 1.
    rewrite (bind_ok _ _ _ _ _ Hfc'). cbn [fst snd].
    replace (slice_to tail (len x + 2 + len y)) with (x ++ _default_level_opener ++ y).
    2:{ unfold tail. symmetry.
        replace (len x + 2 + len y) with (len (x ++ _default_level_opener ++ y))
          by (rewrite !len_app; change (len _default_level_opener) with 2; lia).
        rewrite (app_assoc x), (app_assoc (x ++ _)), <- (app_assoc x).
        apply slice_to_app. }
    apply bind_raise. apply Hsub. }
  unfold parse_tree_default. destruct (empty_VariableDict_ok s) as (d & s1 & Hd & _).
  destruct convs as [|c1 [|c2 cs]]; [|contradiction|];
    cbn [parse_tree]; rewrite (bind_ok _ _ _ _ _ Hd); apply Hlevel.
Qed.

Lemma parse_tree_lazy_then_strict_witness :
  parse_tree_default (S (S (S (S (S 0)))))
    (str_of "0" ++ _default_lazy_opener ++ str_of "1" ++ _default_level_opener
     ++ str_of "2" ++ _default_level_closer) [Py.int; Py.int; Py.int] 0 (State 0 [])
  = Raise (ParseError (0 + len (str_of "0") + 1 + len (str_of "2")) ExpectedClosers).
Proof.
  apply (parse_tree_lazy_then_strict (str_of "0") (str_of "1") (str_of "2")
           [Py.int; Py.int; Py.int] 0 0 (State 0 [])).
  - simpl. lia.
  - simpl. lia.
  - decide_it.
  - repeat split; decide_it.
  - repeat split; decide_it.
Defined.

Lemma find_at_in (c : ascii) (t : str) (i : Z) :
  0 <= i -> c ∈ t -> find_at t [c] i <> -1.
Proof.
  revert i. induction t as [|y t IH]; intros i Hi Hc.
  - inversion Hc.
  - cbn [find_at startswith]. destruct (Ascii.eqb_spec c y) as [->|Hne]; cbn [andb].
    + replace (startswith t []) with true by (destruct t; reflexivity). lia.
    + apply IH; [lia|]. apply elem_of_cons in Hc as [?|?]; [contradiction|assumption].
Qed.

Lemma find_at_nonneg (t sub : str) (i : Z) : 0 <= i -> find_at t sub i = -1 \/ 0 <= find_at t sub i.
Proof. intros Hi. destruct (find_at_lower t sub i) as [H|H]; [left; exact H|right; lia]. Qed.

(** The closer of a text that holds one is behind what holds none. *)
Lemma find_closer_position (pre x rest : str) :
  ("]" : ascii) ∉ x -> ("]" : ascii) ∈ rest ->
  len pre + len x <= find (pre ++ x ++ rest) _default_level_closer (len pre) /\
  find (pre ++ x ++ rest) _default_level_closer (len pre) <> -1.
Proof.
  intros Hx Hrest. rewrite find_from. change _default_level_closer with ["]"%char].
  assert (Hne : find_at (x ++ rest) ["]"%char] (len pre) <> -1).
  { apply find_at_in; [apply len_nonneg|]. apply elem_of_app. right. exact Hrest. }
  split; [|exact Hne].
  destruct (find_at_behind "]"%char [] x rest (len pre) Hx) as [H|H]; [contradiction|exact H].
Qed.

Lemma remove_trailing_lazy_openers_replicate (lz : nat) (st : list str) :
  remove_trailing_lazy_openers _default_lazy_opener
    (replicate lz _default_lazy_opener ++ _default_level_opener :: st)
  = _default_level_opener :: st.
Proof.
  induction lz as [|lz IH]; cbn [replicate app remove_trailing_lazy_openers].
  - rewrite bool_decide_eq_false_2 by discriminate. reflexivity.
  - rewrite bool_decide_eq_true_2 by reflexivity. exact IH.
Qed.

(** One round of the search for the closer, at a strict opener that stands
    before the next closer: the opener is put on the stack. *)
Lemma find_closer_push_strict (k : nat) (pre x rest : str) (st : list str)
    (done : bool) (p : Z) (s : state) :
  (":" : ascii) ∉ x -> ("]" : ascii) ∉ x -> ("]" : ascii) ∈ rest ->
  find_closer (S k) (pre ++ x ++ _default_level_opener ++ rest)
    _default_level_opener _default_lazy_opener _default_level_closer p
    st (len pre) done s
  = find_closer k (pre ++ x ++ _default_level_opener ++ rest)
      _default_level_opener _default_lazy_opener _default_level_closer p
      (_default_level_opener :: st) (len (pre ++ x ++ _default_level_opener)) done s.
Proof.
  intros Hc Hb Hrest. pose proof (len_nonneg pre). pose proof (len_nonneg x).
  set (tail := pre ++ x ++ _default_level_opener ++ rest).
  assert (Ho : find tail _default_level_opener (len pre) = len pre + len x).
  { unfold tail. rewrite find_from. change _default_level_opener with (":"%char :: ["["%char]).
    apply find_at_first. exact Hc. }
  assert (Hl : find tail _default_lazy_opener (len pre) = len pre + len x).
  { unfold tail. rewrite find_from.
    change _default_level_opener with ([":"%char] ++ ["["%char]). rewrite <- app_assoc.
    change _default_lazy_opener with (":"%char :: []).
    apply (find_at_first ":"%char [] x). exact Hc. }
  assert (Hcl : len pre + len x + 2 <= find tail _default_level_closer (len pre) /\
                find tail _default_level_closer (len pre) <> -1).
  { unfold tail. rewrite (app_assoc x).
    destruct (find_closer_position pre (x ++ _default_level_opener) rest) as [H1 H2].
    - intros H'. apply elem_of_app in H' as [H'|H']; [contradiction|].
      apply elem_of_cons in H' as [H'|H']; [discriminate|].
      apply list_elem_of_singleton in H'. discriminate.
    - exact Hrest.
    - split; [|exact H2]. rewrite len_app in H1.
      change (len _default_level_opener) with 2 in H1. lia. }
  cbn [find_closer]. rewrite Ho, Hl, valid_comp_same.
  replace (valid_comp (len pre + len x) (find tail _default_level_closer (len pre)) <? 0)
    with true by (unfold valid_comp; case_comparisons; lia).
  f_equal. rewrite !len_app. lia.
Qed.

(** The same at a lazy opener. *)
Lemma find_closer_push_lazy (k : nat) (pre x rest : str) (st : list str)
    (done : bool) (p : Z) (s : state) :
  (":" : ascii) ∉ x -> ("]" : ascii) ∉ x -> ("]" : ascii) ∈ rest ->
  startswith rest ["["%char] = false ->
  find_closer (S k) (pre ++ x ++ _default_lazy_opener ++ rest)
    _default_level_opener _default_lazy_opener _default_level_closer p
    st (len pre) done s
  = find_closer k (pre ++ x ++ _default_lazy_opener ++ rest)
      _default_level_opener _default_lazy_opener _default_level_closer p
      (_default_lazy_opener :: st) (len (pre ++ x ++ _default_lazy_opener)) done s.
Proof.
  intros Hc Hb Hrest Hhead. pose proof (len_nonneg pre). pose proof (len_nonneg x).
  set (tail := pre ++ x ++ _default_lazy_opener ++ rest).
  assert (Hl : find tail _default_lazy_opener (len pre) = len pre + len x).
  { unfold tail. rewrite find_from. change _default_lazy_opener with (":"%char :: []).
    apply (find_at_first ":"%char [] x). exact Hc. }
  assert (Ho : find tail _default_level_opener (len pre) = -1 \/
               len pre + len x < find tail _default_level_opener (len pre)).
  { unfold tail. rewrite find_from. change _default_level_opener with (":"%char :: ["["%char]).
    rewrite find_at_skip by exact Hc. change _default_lazy_opener with [":"%char].
    cbn [app find_at startswith]. rewrite Ascii.eqb_refl, Hhead. cbn [andb].
    destruct (find_at_lower rest [":"%char; "["%char] (len pre + len x + 1)) as [->|Hge];
      [left; reflexivity|right; lia]. }
  assert (Hcl : len pre + len x + 1 <= find tail _default_level_closer (len pre) /\
                find tail _default_level_closer (len pre) <> -1).
  { unfold tail. rewrite (app_assoc x).
    destruct (find_closer_position pre (x ++ _default_lazy_opener) rest) as [H1 H2].
    - intros H'. apply elem_of_app in H' as [H'|H']; [contradiction|].
      apply list_elem_of_singleton in H'. discriminate.
    - exact Hrest.
    - split; [|exact H2]. rewrite len_app in H1.
      change (len _default_lazy_opener) with 1 in H1. lia. }
  cbn [find_closer]. rewrite Hl.
  replace (valid_comp (len pre + len x) (find tail _default_level_opener (len pre)) <? 0)
    with true by (unfold valid_comp; destruct Ho as [-> |Ho]; case_comparisons; lia).
  replace (valid_comp (len pre + len x) (find tail _default_level_closer (len pre)) <? 0)
    with true by (unfold valid_comp; case_comparisons; lia).
  f_equal. rewrite !len_app. lia.
Qed.

Lemma find_skip (c : ascii) (sub pre x rest : str) :
  c ∉ x ->
  find (pre ++ x ++ rest) (c :: sub) (len pre)
  = find (pre ++ x ++ rest) (c :: sub) (len (pre ++ x)).
Proof.
  intros Hc. rewrite find_from, find_at_skip by exact Hc.
  rewrite (app_assoc pre), find_from, len_app. reflexivity.
Qed.

(** The search does not depend on where it starts inside a text without
    level symbols. *)
Lemma find_closer_skip (k : nat) (pre x rest : str) (st : list str)
    (done : bool) (p : Z) (s : state) :
  (":" : ascii) ∉ x -> ("]" : ascii) ∉ x ->
  find_closer k (pre ++ x ++ rest)
    _default_level_opener _default_lazy_opener _default_level_closer p
    st (len pre) done s
  = find_closer k (pre ++ x ++ rest)
      _default_level_opener _default_lazy_opener _default_level_closer p
      st (len (pre ++ x)) done s.
Proof.
  intros Hc Hb. destruct k as [|k]; [reflexivity|]. cbn [find_closer].
  change _default_level_opener with (":"%char :: ["["%char]).
  change _default_lazy_opener with (":"%char :: []).
  change _default_level_closer with ("]"%char :: []).
  rewrite !(find_skip ":"%char _ pre x rest Hc), (find_skip "]"%char _ pre x rest Hb).
  reflexivity.
Qed.

Lemma find_at_closer (pre rest : str) :
  find (pre ++ _default_level_closer ++ rest) _default_level_closer (len pre) = len pre /\
  (forall sub,
     find (pre ++ _default_level_closer ++ rest) (":"%char :: sub) (len pre) = -1 \/
     len pre + 1 <= find (pre ++ _default_level_closer ++ rest) (":"%char :: sub) (len pre)).
Proof.
  split.
  - rewrite find_from. apply find_at_here. apply startswith_app.
  - intros sub. rewrite find_from.
    destruct (find_at_behind ":"%char sub _default_level_closer rest (len pre)) as [H|H].
    + intros H. apply list_elem_of_singleton in H. discriminate.
    + left. exact H.
    + right. exact H.
Qed.

(** One round of the search at a closer that closes an inner group: the
    lazy openers on top of the stack and the strict opener below them are
    taken off, and the search goes on behind the closer. *)
Lemma find_closer_pop (k lz : nat) (pre rest : str) (st : list str)
    (done : bool) (p : Z) (s : state) :
  rest <> [] -> st <> [] ->
  find_closer (S k) (pre ++ _default_level_closer ++ rest)
    _default_level_opener _default_lazy_opener _default_level_closer p
    (replicate lz _default_lazy_opener ++ _default_level_opener :: st) (len pre) done s
  = find_closer k (pre ++ _default_level_closer ++ rest)
      _default_level_opener _default_lazy_opener _default_level_closer p
      st (len (pre ++ _default_level_closer)) done s.
Proof.
  intros Hrest Hst. pose proof (len_nonneg pre) as Hpre.
  destruct (find_at_closer pre rest) as [Hcl Hop].
  set (tail := pre ++ _default_level_closer ++ rest) in *.
  assert (Hlen : len tail = len pre + 1 + len rest).
  { unfold tail. rewrite !len_app. change (len _default_level_closer) with 1. lia. }
  assert (Hlr : 0 < len rest).
  { destruct rest; [contradiction|]. unfold len. cbn [length]. lia. }
  pose proof (Hop []) as Hl. pose proof (Hop ["["%char]) as Ho.
  change (find tail _default_lazy_opener (len pre) = -1 \/
          len pre + 1 <= find tail _default_lazy_opener (len pre)) in Hl.
  change (find tail _default_level_opener (len pre) = -1 \/
          len pre + 1 <= find tail _default_level_opener (len pre)) in Ho.
  cbn [find_closer]. rewrite Hcl.
  set (lazy_first := valid_comp (find tail _default_lazy_opener (len pre))
                                (find tail _default_level_opener (len pre)) <? 0).
  replace (valid_comp (if lazy_first then find tail _default_lazy_opener (len pre)
                       else find tail _default_level_opener (len pre)) (len pre) <? 0)
    with false.
  2:{ symmetry. apply valid_comp_not_before; [exact Hpre|].
      destruct lazy_first; destruct Hl as [Hl|Hl], Ho as [Ho|Ho];
        try (left; assumption); right; lia. }
  replace (len pre =? -1) with false by (symmetry; apply Z.eqb_neq; lia).
  rewrite remove_trailing_lazy_openers_replicate.
  cbn [negb orb pop]. unfold ret at 1. unfold bind at 1.
  change (len _default_level_closer) with 1.
  replace (len pre + 1 =? len tail) with false by (symmetry; apply Z.eqb_neq; lia).
  unfold ret at 1. unfold bind at 1. cbn [fst snd].
  replace (len st =? 0) with false.
  2:{ symmetry. apply Z.eqb_neq. destruct st; [contradiction|].
      unfold len. cbn [length]. lia. }
  f_equal. rewrite len_app. reflexivity.
Qed.

(** The last round, at the closer of the opener the search started from. *)
Lemma find_closer_last (k lz : nat) (pre rest : str) (p : Z) (s : state) :
  find_closer (S k) (pre ++ _default_level_closer ++ rest)
    _default_level_opener _default_lazy_opener _default_level_closer p
    (replicate lz _default_lazy_opener ++ [_default_level_opener]) (len pre) false s
  = Ok ((len pre, len pre + 1 =? len (pre ++ _default_level_closer ++ rest)), s).
Proof.
  pose proof (len_nonneg pre) as Hpre.
  destruct (find_at_closer pre rest) as [Hcl Hop].
  set (tail := pre ++ _default_level_closer ++ rest) in *.
  pose proof (Hop []) as Hl. pose proof (Hop ["["%char]) as Ho.
  change (find tail _default_lazy_opener (len pre) = -1 \/
          len pre + 1 <= find tail _default_lazy_opener (len pre)) in Hl.
  change (find tail _default_level_opener (len pre) = -1 \/
          len pre + 1 <= find tail _default_level_opener (len pre)) in Ho.
  cbn [find_closer]. rewrite Hcl.
  set (lazy_first := valid_comp (find tail _default_lazy_opener (len pre))
                                (find tail _default_level_opener (len pre)) <? 0).
  replace (valid_comp (if lazy_first then find tail _default_lazy_opener (len pre)
                       else find tail _default_level_opener (len pre)) (len pre) <? 0)
    with false.
  2:{ symmetry. apply valid_comp_not_before; [exact Hpre|].
      destruct lazy_first; destruct Hl as [Hl|Hl], Ho as [Ho|Ho];
        try (left; assumption); right; lia. }
  replace (len pre =? -1) with false by (symmetry; apply Z.eqb_neq; lia).
  rewrite remove_trailing_lazy_openers_replicate.
  cbn [negb orb pop]. unfold ret at 1. unfold bind at 1.
  change (len _default_level_closer) with 1.
  destruct (len pre + 1 =? len tail); reflexivity.
Qed.

Lemma nest_head (b : nest) (post : str) :
  nest_plain b ->
  startswith (nest_text b ++ _default_level_closer ++ post) ["["%char] = false.
Proof.
  assert (H : forall (x rest : str) (c : ascii),
            ("["%char : ascii) ∉ x -> c <> "["%char ->
            startswith (x ++ c :: rest) ["["%char] = false).
  { intros x rest c Hx Hc. destruct x as [|y x]; cbn [app].
    - apply startswith_head. congruence.
    - apply startswith_head. intros <-. apply Hx. left. }
  destruct b as [x|x inner behind|x inner]; cbn [nest_plain nest_text].
  - intros (_ & Ho & _). apply (H x post "]"%char Ho). discriminate.
  - intros ((_ & Ho & _) & _). rewrite <- !app_assoc.
    apply (H x _ ":"%char Ho). discriminate.
  - intros ((_ & Ho & _) & _). rewrite <- !app_assoc.
    apply (H x _ ":"%char Ho). discriminate.
Qed.

Lemma replicate_lazy (n : nat) (st : list str) :
  replicate (S n) _default_lazy_opener ++ st
  = replicate n _default_lazy_opener ++ _default_lazy_opener :: st.
Proof.
  induction n as [|n IH]; [reflexivity|].
  cbn [replicate app] in *. f_equal. exact IH.
Qed.

(** The search for the closer gets over a nested text: from its start to its
    end in as many rounds as it holds symbols, leaving on the stack the
    lazy openers that are still open. *)
Lemma find_closer_nest (b : nest) :
  forall (k : nat) (pre post : str) (st : list str) (done : bool) (p : Z) (s : state),
    nest_plain b -> st <> [] ->
    find_closer (nest_steps b + k) (pre ++ nest_text b ++ _default_level_closer ++ post)
      _default_level_opener _default_lazy_opener _default_level_closer p
      st (len pre) done s
    = find_closer k (pre ++ nest_text b ++ _default_level_closer ++ post)
        _default_level_opener _default_lazy_opener _default_level_closer p
        (replicate (nest_lazies b) _default_lazy_opener ++ st)
        (len (pre ++ nest_text b)) done s.
Proof.
  assert (Hclose : forall rest, ("]" : ascii) ∈ _default_level_closer ++ rest).
  { intros rest. left. }
  induction b as [x|x inner IHi behind IHb|x inner IHi];
    intros k pre post st done p s Hb Hst; cbn [nest_plain nest_text nest_steps nest_lazies] in *.
  - destruct Hb as (Hc & _ & Hcl). apply find_closer_skip; assumption.
  - destruct Hb as ((Hc & _ & Hcl) & Hinner & Hbehind).
    (* the opener *)
    rewrite <- !app_assoc. cbn [Nat.add].
    rewrite (find_closer_push_strict _ pre x _ st done p s Hc Hcl).
    2:{ apply elem_of_app. right. apply Hclose. }
    (* the inner text *)
    rewrite <- Nat.add_assoc.
    pose proof (IHi (S (nest_steps behind) + k)%nat (pre ++ x ++ _default_level_opener)
                  (nest_text behind ++ _default_level_closer ++ post)
                  (_default_level_opener :: st) done p s Hinner ltac:(discriminate)) as H1.
    rewrite <- !app_assoc in H1. rewrite H1. clear H1.
    (* its closer *)
    cbn [Nat.add].
    pose proof (find_closer_pop (nest_steps behind + k)%nat (nest_lazies inner)
                  (pre ++ x ++ _default_level_opener ++ nest_text inner)
                  (nest_text behind ++ _default_level_closer ++ post) st done p s) as H2.
    rewrite <- !app_assoc in H2. rewrite H2; [|destruct (nest_text behind); discriminate|exact Hst].
    clear H2.
    (* what stands behind *)
    pose proof (IHb k (pre ++ x ++ _default_level_opener ++ nest_text inner
                       ++ _default_level_closer) post st done p s Hbehind Hst) as H3.
    rewrite <- !app_assoc in H3. exact H3.
  - destruct Hb as ((Hc & _ & Hcl) & Hinner).
    rewrite <- !app_assoc. cbn [Nat.add].
    rewrite (find_closer_push_lazy _ pre x _ st done p s Hc Hcl).
    2:{ apply elem_of_app. right. apply Hclose. }
    2:{ apply nest_head. exact Hinner. }
    pose proof (IHi k (pre ++ x ++ _default_lazy_opener) post
                  (_default_lazy_opener :: st) done p s Hinner ltac:(discriminate)) as H1.
    rewrite <- !app_assoc in H1. rewrite H1. rewrite replicate_lazy. reflexivity.
Qed.

(** ** The deep merge as a union of paths *)

Lemma merge_entries_flat (d : nat) :
  (forall a b, flat d a -> flat d b ->
     exists r, merge_shape a b = Some r /\ flat d r) ->
  forall theirs mine,
    Forall (fun kv => flat d (snd kv)) theirs ->
    NoDup (fst <$> mine) -> Forall (fun kv => flat d (snd kv)) mine ->
    exists res,
      merge_entries Z.eqb merge_shape mine theirs = Some res /\
      NoDup (fst <$> res) /\ Forall (fun kv => flat d (snd kv)) res.
Proof.
  intros IH. induction theirs as [|[k y] theirs IHt]; intros mine Ht Hnd Hm;
    cbn [merge_entries].
  - exists mine. split; [reflexivity|]. split; assumption.
  - apply Forall_cons_1 in Ht as [Hy Ht]. cbn [snd] in Hy.
    destruct (dict_get Z.eqb mine k) as [x|] eqn:E.
    + assert (Hx : flat d x) by exact (Forall_dict_get Z.eqb (flat d) mine k x Hm E).
      destruct (IH x y Hx Hy) as (r & -> & Hr).
      apply IHt; [exact Ht| |].
      * rewrite (dict_set_keys_same mine k x r E). exact Hnd.
      * exact (Forall_dict_set Z.eqb (flat d) mine k r Hm Hr).
    + apply IHt; [exact Ht| |].
      * rewrite dict_set_fresh by exact E. rewrite fmap_app. cbn [fmap list_fmap fst].
        apply NoDup_app. split; [exact Hnd|]. split; [|apply NoDup_singleton].
        intros k' Hk' Hk. apply list_elem_of_singleton in Hk as ->.
        apply dict_get_notin in E. contradiction.
      * exact (Forall_dict_set Z.eqb (flat d) mine k y Hm Hy).
Qed.

Lemma flat_dict (d : nat) (fixed : list (Z * shape)) (deferred : list (variable * shape)) :
  flat (S d) (DictShape fixed deferred) <->
  deferred = [] /\ NoDup (fst <$> fixed) /\ Forall (fun kv => flat d (snd kv)) fixed.
Proof. cbn [flat]. rewrite All_Forall. reflexivity. Qed.

(** On trees without deferred parts, the spec-level merge is defined, keeps
    the depth, and the fixed paths of the result are those of either side. *)
Lemma merge_shape_flat (d : nat) : forall a b,
  flat d a -> flat d b ->
  exists r, merge_shape a b = Some r /\ flat d r /\
            forall path, paths path r <-> paths path a \/ paths path b.
Proof.
  induction d as [|d IH]; intros a b Ha Hb.
  - destruct a as [f1 d1|]; [|contradiction]. destruct b as [f2 d2|]; [|contradiction].
    cbn [flat] in Ha, Hb. subst d1 d2. cbn [merge_shape].
    exists (SetShape (f1 ∪ f2) []). split; [reflexivity|]. split; [reflexivity|].
    intros [|k rest]; cbn [paths]; [tauto|]. rewrite elem_of_union. tauto.
  - destruct a as [|f1 d1]; [contradiction|]. destruct b as [|f2 d2]; [contradiction|].
    apply flat_dict in Ha as (-> & Hnd1 & Hf1). apply flat_dict in Hb as (-> & Hnd2 & Hf2).
    destruct (merge_entries_flat d (fun a b Ha Hb =>
                match IH a b Ha Hb with
                | ex_intro _ r (conj H1 (conj H2 _)) => ex_intro _ r (conj H1 H2)
                end) f2 f1 Hf2 Hnd1 Hf1) as (f & Hf & Hnd & Hflat).
    cbn [merge_shape]. rewrite Hf. cbn [merge_entries].
    exists (DictShape f []). split; [reflexivity|].
    split; [apply flat_dict; repeat split; assumption|].
    pose proof (merge_entries_lookup Z.eqb Z.eqb_sym Z_eqb_trans merge_shape f2 f1 f
                  (distinct_NoDup _ Hnd2) Hf) as Hlook.
    intros [|k rest]; cbn [paths]; [tauto|]. rewrite (Hlook k).
    destruct (dict_get Z.eqb f1 k) as [x|] eqn:E1, (dict_get Z.eqb f2 k) as [y|] eqn:E2;
      cbn [merged_entry]; try tauto.
    assert (Hx : flat d x) by exact (Forall_dict_get Z.eqb (flat d) f1 k x Hf1 E1).
    assert (Hy : flat d y) by exact (Forall_dict_get Z.eqb (flat d) f2 k y Hf2 E2).
    destruct (IH x y Hx Hy) as (r & -> & _ & Hr). apply Hr.
Qed.

Lemma flat_uniform (d : nat) : forall c, flat d (shape_of c) -> uniform d c.
Proof.
  induction d as [|d IH]; intros [self fa fixed va deferred|self fa fixed va deferred];
    cbn [shape_of]; try contradiction.
  - intros _. exact I.
  - intros (Hd & _ & Hf)%flat_dict. cbn [uniform]. split.
    + rewrite Forall_fmap in Hf. eapply Forall_impl; [exact Hf|].
      intros kv Hkv. apply IH. exact Hkv.
    + destruct deferred; [constructor|discriminate].
Qed.

Lemma flat_distinct_keys (d : nat) : forall t, flat d t -> distinct_keys t.
Proof.
  induction d as [|d IH]; intros [f1 d1|f1 d1]; try contradiction.
  - intros _. exact I.
  - intros (-> & Hnd & Hf)%flat_dict. cbn [distinct_keys].
    split; [apply distinct_NoDup; exact Hnd|]. split; [exact I|]. split; [|exact I].
    apply All_Forall. eapply Forall_impl; [exact Hf|]. intros kv Hkv. apply IH. exact Hkv.
Qed.

Lemma merge_flat (fuel d : nat) (x y : container) (s : state) :
  (d < fuel)%nat -> flat d (shape_of x) -> flat d (shape_of y) ->
  exists r s',
    merge fuel x y s = Ok (r, s') /\ flat d (shape_of r) /\
    forall path, paths path (shape_of r) <-> paths path (shape_of x) \/ paths path (shape_of y).
Proof.
  intros Hfuel Hx Hy.
  destruct (merge_refines fuel d x y s Hfuel (flat_uniform d x Hx) (flat_uniform d y Hy)
              (flat_distinct_keys d _ Hy)) as (r & s' & Hm & Hshape).
  { intros ->. destruct x as [? ? ? ? dx|]; [|contradiction].
    destruct y as [? ? ? ? dy|]; [|contradiction].
    cbn [shape_of flat] in Hx, Hy. destruct dx; [|discriminate]. destruct dy; [|discriminate].
    constructor. }
  destruct (merge_shape_flat d _ _ Hx Hy) as (r0 & Hr0 & Hflat & Hpaths).
  rewrite Hshape in Hr0. injection Hr0 as <-.
  exists r, s'. split; [exact Hm|]. split; [exact Hflat|exact Hpaths].
Qed.

(** On trees without deferred parts, [merge] is the union of the paths.
    For two trees of the same depth [d] without deferred parts whose dicts
    have pairwise different keys, with fuel above [d] and from any state:
    [merge] returns a tree of depth [d] without deferred parts, again with
    pairwise different keys, and a sequence of keys followed by a value is
    a path of the result exactly when it is a path of the first or of the
    second tree. *)
Theorem merge_paths (fuel d : nat) (x y : container) (s : state) :
  (d < fuel)%nat -> flat d (shape_of x) -> flat d (shape_of y) ->
  exists r s',
    merge fuel x y s = Ok (r, s') /\ flat d (shape_of r) /\
    forall path, paths path (shape_of r) <-> paths path (shape_of x) \/ paths path (shape_of y).
Proof. apply merge_flat. Qed.

Lemma merge_paths_witness :
  exists r s',
    merge 2 tree_first tree_second (State 18 []) = Ok (r, s') /\ flat 1 (shape_of r) /\
    forall path, paths path (shape_of r) <->
                 paths path (shape_of tree_first) \/ paths path (shape_of tree_second).
Proof.
  apply (merge_paths 2 1 tree_first tree_second (State 18 [])).
  - lia.
  - simpl. repeat split; try reflexivity. apply (bool_decide_unpack _). vm_compute. exact I.
  - simpl. repeat split; try reflexivity. apply (bool_decide_unpack _). vm_compute. exact I.
Defined.

(** ** The tree parser: the matching closer *)

Lemma find_closer_matching (b : nest) (rest : str) (n : nat) (p : Z) (s : state) :
  nest_plain b ->
  find_closer (nest_steps b + S n) (nest_text b ++ _default_level_closer ++ rest)
    _default_level_opener _default_lazy_opener _default_level_closer p
    [_default_level_opener] 0 false s
  = Ok ((len (nest_text b),
         len (nest_text b) + 1 =? len (nest_text b ++ _default_level_closer ++ rest)), s).
Proof.
  intros Hb.
  pose proof (find_closer_nest b (S n) [] rest [_default_level_opener] false p s Hb
                ltac:(discriminate)) as H.
  cbn [app] in H. change (len (@nil ascii)) with 0 in H. rewrite H.
  apply find_closer_last.
Qed.

(** The search for the closer of a strict opener finds the matching one.
    Behind a strict opener, over a text of nested levels (texts without
    level symbols, strict groups with their closers, lazy levels that run up
    to the closer of the enclosing group) followed by a closer, the search
    returns, with fuel above the number of symbols of the text, the offset
    of that closer, whatever stands behind it; it reports the end of the
    input exactly when nothing stands behind the closer. *)
Theorem find_closer_nested (b : nest) (rest : str) (n : nat) (p : Z) (s : state) :
  nest_plain b ->
  find_closer (nest_steps b + S n) (nest_text b ++ _default_level_closer ++ rest)
    _default_level_opener _default_lazy_opener _default_level_closer p
    [_default_level_opener] 0 false s
  = Ok ((len (nest_text b), bool_decide (rest = [])), s).
Proof.
  intros Hb. rewrite find_closer_matching by exact Hb. do 3 f_equal.
  rewrite !len_app. change (len _default_level_closer) with 1.
  destruct rest as [|c rest].
  - rewrite bool_decide_eq_true_2 by reflexivity. apply Z.eqb_eq.
    change (len (@nil ascii)) with 0. lia.
  - rewrite bool_decide_eq_false_2 by discriminate. apply Z.eqb_neq.
    pose proof (len_nonneg rest). replace (len (c :: rest)) with (1 + len rest); [lia|].
    unfold len. cbn [length]. lia.
Qed.

Lemma find_closer_nested_witness :
  find_closer
    (nest_steps (Group (str_of "1") (Lazy (str_of "2") (Plain (str_of "3")))
                       (Plain (str_of ",4"))) + S 0)
    (nest_text (Group (str_of "1") (Lazy (str_of "2") (Plain (str_of "3")))
                      (Plain (str_of ",4")))
     ++ _default_level_closer ++ str_of ",5")
    _default_level_opener _default_lazy_opener _default_level_closer 0
    [_default_level_opener] 0 false (State 0 [])
  = Ok ((len (nest_text (Group (str_of "1") (Lazy (str_of "2") (Plain (str_of "3")))
                               (Plain (str_of ",4")))),
         bool_decide (str_of ",5" = [])), State 0 []).
Proof.
  apply (find_closer_nested
           (Group (str_of "1") (Lazy (str_of "2") (Plain (str_of "3"))) (Plain (str_of ",4")))
           (str_of ",5") 0 0 (State 0 [])).
  cbn [nest_plain]. repeat split; decide_it.
Defined.

(** ** The tree parser on strict trees of literal listings *)

Lemma plain_nil : plain [].
Proof. repeat split; apply not_elem_of_nil. Qed.

Lemma plain_delimiter : plain _default_level_delimiter.
Proof. repeat split; decide_it. Qed.

Lemma chain_nest_spec (nest_of : level_tree -> nest) (text_of : level_tree -> str)
    (last : list segment * level_tree) (l : list (list segment * level_tree)) :
  Forall (fun g => Forall (literal Py.int) (fst g) /\
                   nest_text (nest_of (snd g)) = text_of (snd g) /\
                   nest_plain (nest_of (snd g))) (l ++ [last]) ->
  forall sep, plain sep ->
    nest_text (chain_nest nest_of last sep l)
    = sep ++ concat ((fun g => group_text (listing_text (fst g), text_of (snd g))) <$> l)
      ++ listing_text (fst last) ++ _default_level_opener ++ text_of (snd last)
      ++ _default_level_closer /\
    nest_plain (chain_nest nest_of last sep l).
Proof.
  induction l as [|g l IH]; intros H sep Hsep; cbn [app] in H.
  - apply Forall_cons_1 in H as [(Hroots & Htext & Hplain) _].
    cbn [chain_nest nest_text nest_plain fmap list_fmap concat app].
    rewrite Htext, app_nil_r, <- !app_assoc. split; [reflexivity|].
    split; [|split; [exact Hplain|apply plain_nil]].
    apply plain_app; [exact Hsep|apply listing_text_plain; exact Hroots].
  - apply Forall_cons_1 in H as [(Hroots & Htext & Hplain) H].
    destruct (IH H _default_level_delimiter plain_delimiter) as [IH1 IH2].
    cbn [chain_nest nest_text nest_plain fmap list_fmap concat].
    change (list_fmap _ _ ?h ?k) with (h <$> k).
    rewrite Htext, IH1. unfold group_text at 2. cbn [fst snd].
    rewrite <- !app_assoc. split; [reflexivity|].
    split; [|split; [exact Hplain|exact IH2]].
    apply plain_app; [exact Hsep|apply listing_text_plain; exact Hroots].
Qed.

Lemma to_nest_spec (d : nat) : forall t,
  levels d t -> nest_text (to_nest t) = tree_text t /\ nest_plain (to_nest t).
Proof.
  induction d as [|d IH]; intros [items|groups last]; cbn [levels]; try contradiction.
  - intros Hl. cbn [to_nest nest_text nest_plain]. split; [reflexivity|].
    apply listing_text_plain. exact Hl.
  - intros H%All_Forall. cbn [to_nest tree_text].
    destruct (chain_nest_spec to_nest tree_text last groups) with (sep := @nil ascii)
      as [H1 H2].
    + eapply Forall_impl; [exact H|]. intros g [Hroots Hsub].
      split; [exact Hroots|]. apply IH. exact Hsub.
    + apply plain_nil.
    + split; [exact H1|exact H2].
Qed.

Lemma tree_fuel_depth (d : nat) : forall t, levels d t -> (d < tree_fuel t)%nat.
Proof.
  induction d as [|d IH]; intros [items|groups last]; cbn [levels]; try contradiction.
  - intros _. cbn. lia.
  - intros H%All_Forall. apply Forall_app in H as [_ H].
    apply Forall_cons_1 in H as [[_ H] _]. specialize (IH _ H).
    cbn [tree_fuel]. lia.
Qed.

Lemma tree_chain (g d : nat) (roots : list segment) (sub : level_tree) (p q : Z)
    (result : container) (P : list Z -> Prop) (s : state) :
  Forall (literal Py.int) roots -> (S d < g)%nat ->
  (forall s0, exists r s',
      parse_tree g (tree_text sub) (replicate (S d) Py.int)
        _default_level_opener _default_lazy_opener _default_level_closer
        _default_level_delimiter _default_listing_delimiter _default_range_delimiter
        _default_index_specifier _default_random_specifier _default_all_specifier q s0
      = Ok (r, s') /\
      flat d (shape_of r) /\
      forall path, paths path (shape_of r) <-> tree_paths path sub) ->
  flat (S d) (shape_of result) ->
  (forall path, paths path (shape_of result) <-> P path) ->
  exists result' s',
    flat (S d) (shape_of result') /\
    (forall path, paths path (shape_of result') <->
       P path \/
       match path with
       | k :: rest => k ∈ listing_values Py.int roots /\ tree_paths rest sub
       | [] => False
       end) /\
    forall k : container -> M container,
    (let* sub_trees_processed :=
       parse_tree g (tree_text sub) (List.tl (replicate (S (S d)) Py.int))
         _default_level_opener _default_lazy_opener _default_level_closer
         _default_level_delimiter _default_listing_delimiter _default_range_delimiter
         _default_index_specifier _default_random_specifier _default_all_specifier q in
     let* root_converter :=
       of_option (head (replicate (S (S d)) Py.int)) IndexError in
     let* roots_unraveled :=
       unravel (listing_text roots) root_converter _default_listing_delimiter
         _default_range_delimiter _default_index_specifier _default_random_specifier
         _default_all_specifier p in
     let* level :=
       match roots_unraveled with
       | VariableSet _ _ fixed_parts _ variable_parts =>
           let* fixed_at := alloc in
           let* variable_at := alloc in
           new_VariableDict
             (fixed_at, fromkeys Z.eqb (elements fixed_parts) sub_trees_processed)
             (variable_at, fromkeys var_eq variable_parts sub_trees_processed)
       | VariableDict _ _ _ _ _ => raise TypeError
       end in
     let* result := merge g result level in
     k result) s
    = k result' s'.
Proof.
  intros Hroots Hg Hsub Hres HP.
  destruct (Hsub s) as (subr & s1 & Hparse & Hflat & Hpaths).
  pose proof (unravel_literals roots p s1 Hroots) as Hrts.
  set (s2 := State (N.succ (N.succ (N.succ (next_addr s1)))) (random s1)) in Hrts.
  set (vr := listing_values Py.int roots) in *.
  set (level := VariableDict (N.succ (N.succ (next_addr s2))) (next_addr s2)
                  (fromkeys Z.eqb (elements vr) subr) (N.succ (next_addr s2))
                  (fromkeys var_eq [] subr)).
  assert (Hshape : shape_of level
                   = DictShape ((fun k => (k, shape_of subr)) <$> elements vr) []).
  { unfold level. cbn [shape_of]. rewrite fromkeys_pairs by apply NoDup_elements.
    rewrite <- list_fmap_compose. reflexivity. }
  assert (Hkeys : fst <$> ((fun k => (k, shape_of subr)) <$> elements vr) = elements vr).
  { rewrite <- list_fmap_compose. apply list_fmap_id. }
  assert (Hlevel : flat (S d) (shape_of level)).
  { rewrite Hshape. apply flat_dict. split; [reflexivity|].
    split; [rewrite Hkeys; apply NoDup_elements|].
    rewrite Forall_fmap. apply Forall_forall. intros k _. exact Hflat. }
  destruct (merge_flat g (S d) result level
              (State (N.succ (N.succ (N.succ (next_addr s2)))) (random s2))
              Hg Hres Hlevel) as (result' & s' & Hm & Hflat' & Hpaths').
  exists result', s'. split; [exact Hflat'|]. split.
  - intros path. rewrite Hpaths', HP, Hshape.
    destruct path as [|k rest]; cbn [paths]; [reflexivity|].
    rewrite dict_get_pairs.
    destruct (bool_decide (k ∈ elements vr)) eqn:Hk.
    + apply bool_decide_eq_true_1, elem_of_elements in Hk. rewrite Hpaths. tauto.
    + apply bool_decide_eq_false_1 in Hk. rewrite elem_of_elements in Hk. tauto.
  - intros k. cbn [replicate List.tl head of_option].
    rewrite (bind_ok _ _ _ _ _ Hparse). unfold ret at 1. unfold bind at 1.
    rewrite (bind_ok _ _ _ _ _ Hrts).
    rewrite (bind_ok _ _ s2 (State (N.succ (N.succ (N.succ (next_addr s2)))) (random s2))
               level).
    2:{ rewrite (bind_ok _ _ _ _ _ (alloc_ok s2)). rewrite (bind_ok _ _ _ _ _ (alloc_ok _)).
        unfold new_VariableDict. rewrite (bind_ok _ _ _ _ _ (alloc_ok _)). reflexivity. }
    rewrite (bind_ok _ _ _ _ _ Hm). reflexivity.
Qed.

Lemma parse_level_tree_round (m d : nat) (roots : list segment) (sub : level_tree)
    (rest : str) (p : Z) (result : container) (P : list Z -> Prop) (s : state) :
  Forall (literal Py.int) roots -> levels d sub ->
  (forall n q s0, exists r s',
      parse_tree (tree_fuel sub + n) (tree_text sub) (replicate (S d) Py.int)
        _default_level_opener _default_lazy_opener _default_level_closer
        _default_level_delimiter _default_listing_delimiter _default_range_delimiter
        _default_index_specifier _default_random_specifier _default_all_specifier q s0
      = Ok (r, s') /\
      flat d (shape_of r) /\
      forall path, paths path (shape_of r) <-> tree_paths path sub) ->
  flat (S d) (shape_of result) ->
  (forall path, paths path (shape_of result) <-> P path) ->
  exists result' s',
    flat (S d) (shape_of result') /\
    (forall path, paths path (shape_of result') <->
       P path \/
       match path with
       | k :: rest => k ∈ listing_values Py.int roots /\ tree_paths rest sub
       | [] => False
       end) /\
    parse_level (3 + nest_steps (to_nest sub) + tree_fuel sub + m)
      (listing_text roots ++ _default_level_opener ++ tree_text sub
       ++ _default_level_closer ++ rest)
      (replicate (S (S d)) Py.int)
      _default_level_opener _default_lazy_opener _default_level_closer
      _default_level_delimiter _default_listing_delimiter _default_range_delimiter
      _default_index_specifier _default_random_specifier _default_all_specifier
      p result s
    = match rest with
      | [] => Ok (result', s')
      | _ =>
          parse_level (2 + nest_steps (to_nest sub) + tree_fuel sub + m)
            (slice_from rest (len _default_level_delimiter))
            (replicate (S (S d)) Py.int)
            _default_level_opener _default_lazy_opener _default_level_closer
            _default_level_delimiter _default_listing_delimiter _default_range_delimiter
            _default_index_specifier _default_random_specifier _default_all_specifier
            (p + len (listing_text roots ++ _default_level_opener ++ tree_text sub
                      ++ _default_level_closer) + len _default_level_delimiter)
            result' s'
      end.
Proof.
  intros Hroots Hsub HQ Hres HP.
  destruct (listing_text_plain roots Hroots) as (Hr & _ & _).
  destruct (to_nest_spec d sub Hsub) as [Htext Hplain].
  pose proof (tree_fuel_depth d sub Hsub) as Hdepth.
  set (tail := tree_text sub ++ _default_level_closer ++ rest).
  destruct (find_opener_strict (listing_text roots) tail Hr) as (H1 & H2 & H3).
  replace (3 + nest_steps (to_nest sub) + tree_fuel sub + m)%nat
    with (S (2 + nest_steps (to_nest sub) + tree_fuel sub + m)) by lia.
  remember (2 + nest_steps (to_nest sub) + tree_fuel sub + m)%nat as g eqn:Hg.
  assert (Hfc : find_closer g tail _default_level_opener _default_lazy_opener
                  _default_level_closer p [_default_level_opener] 0 false s
                = Ok ((len (tree_text sub), len (tree_text sub) + 1 =? len tail), s)).
  { replace g with (nest_steps (to_nest sub) + S (1 + tree_fuel sub + m))%nat by lia.
    unfold tail. rewrite <- Htext. apply find_closer_matching. exact Hplain. }
  destruct (tree_chain g d roots sub p
              (p + len (listing_text roots) + len _default_level_opener) result P s
              Hroots ltac:(lia)) as (result' & s' & Hflat & Hpaths & Hchain);
    [|exact Hres|exact HP|].
  { intros s0. replace g with (tree_fuel sub + (2 + nest_steps (to_nest sub) + m))%nat by lia.
    apply HQ. }
  exists result', s'. split; [exact Hflat|]. split; [exact Hpaths|].
  cbn [parse_level]. rewrite H1, H2, H3, valid_comp_same.
  pose proof (len_nonneg (listing_text roots)). pose proof (len_nonneg (tree_text sub)).
  pose proof (len_nonneg rest).
  replace (-1 <? len (listing_text roots)) with true by (symmetry; apply Z.ltb_lt; lia).
  cbn [of_option]. unfold ret at 1. unfold bind at 1. unfold ret at 1. unfold bind at 1.
  rewrite (bind_ok _ _ _ _ _ Hfc). cbn [fst snd].
  assert (Hlen : len tail = len (tree_text sub) + 1 + len rest).
  { unfold tail. rewrite !len_app. change (len _default_level_closer) with 1. lia. }
  unfold tail at 1. rewrite slice_to_app. rewrite Hchain.
  destruct rest as [|c rest].
  - replace (len (tree_text sub) + 1 =? len tail) with true
      by (symmetry; apply Z.eqb_eq; rewrite Hlen; change (len (@nil ascii)) with 0; lia).
    reflexivity.
  - replace (len (tree_text sub) + 1 =? len tail) with false.
    2:{ symmetry. apply Z.eqb_neq. rewrite Hlen.
        replace (len (c :: rest)) with (1 + len rest) by (unfold len; cbn [length]; lia).
        pose proof (len_nonneg rest). lia. }
    replace (slice_from tail (len (tree_text sub) + len _default_level_closer
                              + len _default_level_delimiter))
      with (slice_from (c :: rest) (len _default_level_delimiter)).
    2:{ unfold tail. rewrite app_assoc.
        replace (len (tree_text sub) + len _default_level_closer
                 + len _default_level_delimiter)
          with (len (tree_text sub ++ _default_level_closer) + 1)
          by (rewrite len_app; reflexivity).
        change (len _default_level_delimiter) with 1.
        generalize (tree_text sub ++ _default_level_closer). intros pre.
        unfold slice_from, clip. rewrite len_app.
        pose proof (len_nonneg pre). pose proof (len_nonneg (c :: rest)).
        assert (Hc : 1 <= len (c :: rest)) by (unfold len; cbn [length]; lia).
        replace (len pre + 1 <? 0) with false by (symmetry; apply Z.ltb_ge; lia).
        cbn [Z.ltb Z.compare].
        rewrite !Z.min_r by lia.
        replace (Z.to_nat (len pre + 1)) with (length pre + 1)%nat by (unfold len; lia).
        rewrite <- drop_drop, drop_app_length. reflexivity. }
    f_equal. rewrite !len_app. lia.
Qed.

Lemma parse_level_tree (d : nat) (last : list segment * level_tree)
    (groups : list (list segment * level_tree)) :
  Forall (fun g =>
            Forall (literal Py.int) (fst g) /\ levels d (snd g) /\
            forall n q s0, exists r s',
              parse_tree (tree_fuel (snd g) + n) (tree_text (snd g))
                (replicate (S d) Py.int)
                _default_level_opener _default_lazy_opener _default_level_closer
                _default_level_delimiter _default_listing_delimiter
                _default_range_delimiter _default_index_specifier
                _default_random_specifier _default_all_specifier q s0
              = Ok (r, s') /\
              flat d (shape_of r) /\
              forall path, paths path (shape_of r) <-> tree_paths path (snd g))
         (groups ++ [last]) ->
  forall (n : nat) (p : Z) (result : container) (P : list Z -> Prop) (s : state),
    flat (S d) (shape_of result) ->
    (forall path, paths path (shape_of result) <-> P path) ->
    exists result' s',
      parse_level
        (list_sum ((fun g => 3 + nest_steps (to_nest (snd g)) + tree_fuel (snd g))%nat
                     <$> groups)
         + (3 + nest_steps (to_nest (snd last)) + tree_fuel (snd last)) + n)
        (concat ((fun g => group_text (listing_text (fst g), tree_text (snd g))) <$> groups)
         ++ listing_text (fst last) ++ _default_level_opener ++ tree_text (snd last)
         ++ _default_level_closer)
        (replicate (S (S d)) Py.int)
        _default_level_opener _default_lazy_opener _default_level_closer
        _default_level_delimiter _default_listing_delimiter _default_range_delimiter
        _default_index_specifier _default_random_specifier _default_all_specifier
        p result s
      = Ok (result', s') /\
      flat (S d) (shape_of result') /\
      forall path, paths path (shape_of result') <->
        P path \/
        match path with
        | k :: rest =>
            Exists (fun g => k ∈ listing_values Py.int (fst g) /\ tree_paths rest (snd g))
                   (groups ++ [last])
        | [] => False
        end.
Proof.
  induction groups as [|g groups IH]; intros H n p result P s Hres HP; cbn [app] in H.
  - apply Forall_cons_1 in H as [(Hroots & Hsub & HQ) _].
    destruct (parse_level_tree_round n d (fst last) (snd last) [] p result P s
                Hroots Hsub HQ Hres HP) as (result' & s' & Hflat & Hpaths & Hrun).
    exists result', s'. cbn [fmap list_fmap list_sum concat app Nat.add].
    rewrite app_nil_r in Hrun. split; [exact Hrun|]. split; [exact Hflat|].
    intros path. rewrite Hpaths. destruct path as [|k rest]; [reflexivity|].
    rewrite Exists_cons, Exists_nil. tauto.
  - apply Forall_cons_1 in H as [(Hroots & Hsub & HQ) H].
    cbn [fmap list_fmap list_sum concat].
    change (list_fmap _ _ ?h ?l) with (h <$> l).
    rewrite <- (app_assoc (group_text _)).
    change (list_sum (?x :: ?l)) with (x + list_sum l)%nat.
    set (texts := concat ((fun g0 => group_text (listing_text (fst g0), tree_text (snd g0)))
                            <$> groups)
                  ++ listing_text (fst last) ++ _default_level_opener
                  ++ tree_text (snd last) ++ _default_level_closer).
    set (fuels := list_sum ((fun g0 => 3 + nest_steps (to_nest (snd g0))
                                       + tree_fuel (snd g0))%nat <$> groups)).
    destruct (parse_level_tree_round
                (fuels + (3 + nest_steps (to_nest (snd last)) + tree_fuel (snd last)) + n)
                d (fst g) (snd g) (_default_level_delimiter ++ texts) p result P s
                Hroots Hsub HQ Hres HP) as (result1 & s1 & Hflat1 & Hpaths1 & Hrun1).
    change (_default_level_delimiter ++ texts) with (","%char :: texts) in Hrun1 at 2.
    cbn beta iota in Hrun1.
    change (len _default_level_delimiter) with (len [","%char]) in Hrun1 at 1.
    change (","%char :: texts) with ([","%char] ++ texts) in Hrun1.
    rewrite slice_from_app in Hrun1.
    destruct (IH H (2 + nest_steps (to_nest (snd g)) + tree_fuel (snd g) + n)%nat
                (p + len (listing_text (fst g) ++ _default_level_opener
                          ++ tree_text (snd g) ++ _default_level_closer)
                 + len _default_level_delimiter)
                result1 _ s1 Hflat1 Hpaths1) as (result' & s' & Hrun & Hflat & Hpaths).
    exists result', s'. split; [|split; [exact Hflat|]].
    + unfold group_text. cbn [fst snd]. rewrite <- !app_assoc.
      replace (3 + nest_steps (to_nest (snd g)) + tree_fuel (snd g) + fuels
               + (3 + nest_steps (to_nest (snd last)) + tree_fuel (snd last)) + n)%nat
        with (3 + nest_steps (to_nest (snd g)) + tree_fuel (snd g)
              + (fuels + (3 + nest_steps (to_nest (snd last)) + tree_fuel (snd last)) + n))%nat
        by lia.
      change ([","%char] ++ texts) with (_default_level_delimiter ++ texts) in Hrun1.
      rewrite Hrun1.
      replace (2 + nest_steps (to_nest (snd g)) + tree_fuel (snd g)
               + (fuels + (3 + nest_steps (to_nest (snd last)) + tree_fuel (snd last)) + n))%nat
        with (fuels + (3 + nest_steps (to_nest (snd last)) + tree_fuel (snd last))
              + (2 + nest_steps (to_nest (snd g)) + tree_fuel (snd g) + n))%nat by lia.
      exact Hrun.
    + intros path. rewrite Hpaths. destruct path as [|k rest]; [tauto|].
      cbn [app]. rewrite Exists_cons. tauto.
Qed.

Lemma parse_tree_level_tree (d : nat) : forall (t : level_tree) (n : nat) (p : Z) (s : state),
  levels d t ->
  exists r s',
    parse_tree (tree_fuel t + n) (tree_text t) (replicate (S d) Py.int)
      _default_level_opener _default_lazy_opener _default_level_closer
      _default_level_delimiter _default_listing_delimiter _default_range_delimiter
      _default_index_specifier _default_random_specifier _default_all_specifier p s
    = Ok (r, s') /\
    flat d (shape_of r) /\
    forall path, paths path (shape_of r) <-> tree_paths path t.
Proof.
  induction d as [|d IH]; intros [items|groups last] n p s; cbn [levels]; try contradiction.
  - intros Hl. cbn [tree_fuel Nat.add parse_tree replicate tree_text].
    rewrite (unravel_literals items p s Hl). eexists _, _. split; [reflexivity|].
    cbn [shape_of fmap list_fmap]. split; [reflexivity|].
    intros [|k rest]; cbn [paths tree_paths]; reflexivity.
  - intros H%All_Forall.
    set (d0 := VariableDict (N.succ (N.succ (next_addr s))) (next_addr s) []
                 (N.succ (next_addr s)) []).
    set (s0 := State (N.succ (N.succ (N.succ (next_addr s)))) (random s)).
    assert (Hd : empty_VariableDict s = Ok (d0, s0)) by reflexivity.
    destruct (parse_level_tree d last groups) with (n := n) (p := p) (result := d0)
      (P := fun _ : list Z => False) (s := s0) as (r & s' & Hrun & Hflat & Hpaths).
    + eapply Forall_impl; [exact H|]. intros g [Hroots Hsub].
      split; [exact Hroots|]. split; [exact Hsub|].
      intros n0 q s1. apply IH. exact Hsub.
    + apply flat_dict. split; [reflexivity|]. split; constructor.
    + intros [|k rest]; cbn [paths shape_of fmap list_fmap dict_get]; reflexivity.
    + exists r, s'. split; [|split; [exact Hflat|]].
      * cbn [tree_fuel Nat.add parse_tree replicate tree_text].
        rewrite (bind_ok _ _ _ _ _ Hd). exact Hrun.
      * intros path. rewrite Hpaths. destruct path as [|k rest]; cbn [tree_paths]; tauto.
Qed.

(** The tree parser on strict trees of literal listings of any depth.  With
    the default symbols and [d + 1] [int] converters: the text of a tree
    of depth [d] of strict level groups [roots:[subtree]], separated by the
    level delimiter, whose roots and leaves are listings of integer
    literals and of ranges between integer literals, is parsed, with
    enough fuel and from any position and state, into a tree of depth [d]
    without deferred parts, and a sequence of keys followed by a value is a
    path of the result exactly when the text describes it: each key is a
    value of the roots of a group, the rest of the path is described by the
    subtree of that group, and the last element is a value of a leaf. *)
Theorem parse_tree_levels (d : nat) (t : level_tree) (n : nat) (p : Z) (s : state) :
  levels d t ->
  exists r s',
    parse_tree_default (tree_fuel t + n) (tree_text t) (replicate (S d) Py.int) p s
    = Ok (r, s') /\
    flat d (shape_of r) /\
    forall path, paths path (shape_of r) <-> tree_paths path t.
Proof. apply parse_tree_level_tree. Qed.

Lemma parse_tree_levels_witness :
  exists r s',
    parse_tree_default
      (tree_fuel
         (Node [([Single (str_of "0")],
                 Node [([Single (str_of "1")], Leaf [Single (str_of "2")])]
                      ([Single (str_of "3")], Leaf [Single (str_of "4")]))]
               ([Single (str_of "5"); Single (str_of "0")],
                Node [] ([Single (str_of "1")], Leaf [Span (str_of "7") (str_of "8")])))
       + 0)
      (tree_text
         (Node [([Single (str_of "0")],
                 Node [([Single (str_of "1")], Leaf [Single (str_of "2")])]
                      ([Single (str_of "3")], Leaf [Single (str_of "4")]))]
               ([Single (str_of "5"); Single (str_of "0")],
                Node [] ([Single (str_of "1")], Leaf [Span (str_of "7") (str_of "8")]))))
      (replicate (S 2) Py.int) 0 (State 0 [])
    = Ok (r, s') /\
    flat 2 (shape_of r) /\
    forall path,
      paths path (shape_of r) <->
      tree_paths path
        (Node [([Single (str_of "0")],
                Node [([Single (str_of "1")], Leaf [Single (str_of "2")])]
                     ([Single (str_of "3")], Leaf [Single (str_of "4")]))]
              ([Single (str_of "5"); Single (str_of "0")],
               Node [] ([Single (str_of "1")], Leaf [Span (str_of "7") (str_of "8")]))).
Proof.
  apply (parse_tree_levels 2
           (Node [([Single (str_of "0")],
                   Node [([Single (str_of "1")], Leaf [Single (str_of "2")])]
                        ([Single (str_of "3")], Leaf [Single (str_of "4")]))]
                 ([Single (str_of "5"); Single (str_of "0")],
                  Node [] ([Single (str_of "1")], Leaf [Span (str_of "7") (str_of "8")])))
           0 0 (State 0 [])).
  cbn [levels All app fst snd]. repeat split; repeat constructor; cbn; eauto.
Defined.

(** ** Equality of placeholder objects *)

(** Equality of placeholders, as the sets and dicts of the containers see
    it: it is reflexive, symmetric and transitive; two distinct objects are
    equal exactly when both are sample placeholders, or both random
    placeholders, with the same identifier, whatever their other
    attributes; so the deep copy of a sample or random placeholder equals
    the original, and the deep copy of any other placeholder does not. *)
Theorem placeholder_equality (a b c : varobj) (s : state) :
  var_eq a a = true /\ var_eq a b = var_eq b a /\
  (var_eq a b = true -> var_eq b c = true -> var_eq a c = true) /\
  (addr_of a <> addr_of b -> var_eq a b = same_sample (var a) (var b)) /\
  ((addr_of a < next_addr s)%N ->
   exists a' s', deepcopy_var a s = Ok (a', s') /\ var a' = var a /\
                 var_eq a a' = match var a with
                               | SampleVariable _ _ _ | RandomVariable _ _ => true
                               | _ => false
                               end).
Proof.
  split; [apply var_eq_refl|]. split; [apply var_eq_sym|].
  split; [apply var_eq_trans|]. split; [apply var_eq_same_sample|].
  intros Ha. eexists _, _. split; [reflexivity|]. split; [reflexivity|].
  rewrite var_eq_same_sample by (cbn [addr_of]; lia).
  cbn [var]. destruct (var a); try reflexivity; apply Z.eqb_refl.
Qed.

Lemma placeholder_equality_witness :
  var_eq (VarObj 0 (SampleVariable 2 false 7)) (VarObj 0 (SampleVariable 2 false 7)) = true /\
  var_eq (VarObj 0 (SampleVariable 2 false 7)) (VarObj 1 (SampleVariable 3 true 7))
  = var_eq (VarObj 1 (SampleVariable 3 true 7)) (VarObj 0 (SampleVariable 2 false 7)) /\
  (var_eq (VarObj 0 (SampleVariable 2 false 7)) (VarObj 1 (SampleVariable 3 true 7)) = true ->
   var_eq (VarObj 1 (SampleVariable 3 true 7)) (VarObj 2 (SampleVariable 0 true 7)) = true ->
   var_eq (VarObj 0 (SampleVariable 2 false 7)) (VarObj 2 (SampleVariable 0 true 7)) = true) /\
  (addr_of (VarObj 0 (SampleVariable 2 false 7)) <> addr_of (VarObj 1 (SampleVariable 3 true 7)) ->
   var_eq (VarObj 0 (SampleVariable 2 false 7)) (VarObj 1 (SampleVariable 3 true 7))
   = same_sample (var (VarObj 0 (SampleVariable 2 false 7)))
                 (var (VarObj 1 (SampleVariable 3 true 7)))) /\
  ((addr_of (VarObj 0 (SampleVariable 2 false 7)) < next_addr (State 5 []))%N ->
   exists a' s', deepcopy_var (VarObj 0 (SampleVariable 2 false 7)) (State 5 []) = Ok (a', s') /\
                 var a' = var (VarObj 0 (SampleVariable 2 false 7)) /\
                 var_eq (VarObj 0 (SampleVariable 2 false 7)) a'
                 = match var (VarObj 0 (SampleVariable 2 false 7)) with
                   | SampleVariable _ _ _ | RandomVariable _ _ => true
                   | _ => false
                   end).
Proof.
  exact (placeholder_equality (VarObj 0 (SampleVariable 2 false 7))
           (VarObj 1 (SampleVariable 3 true 7)) (VarObj 2 (SampleVariable 0 true 7))
           (State 5 [])).
Defined.

(** ** The deep merge of trees without common keys *)

Lemma merge_loop_fresh {K} (eqb : K -> K -> bool)
    (rec : container -> container -> M container) (item : K -> M container)
    (theirs : list (K * container)) :
  forall (parts : list (K * container)) (s : state),
    Forall (fun kv => forall s0, item (fst kv) s0 = Ok (snd kv, s0)) theirs ->
    distinct eqb (fst <$> theirs) ->
    Forall (fun k => dict_get eqb parts k = None) (fst <$> theirs) ->
    merge_loop eqb rec item parts (fst <$> theirs) s = Ok (parts ++ theirs, s).
Proof.
  induction theirs as [|[k y] theirs IH]; intros parts s Hitem Hd Hnone.
  - cbn. rewrite app_nil_r. reflexivity.
  - cbn [fmap list_fmap fst distinct] in Hd, Hnone. destruct Hd as [Hk Hd].
    apply Forall_cons_1 in Hnone as [Hnone Hrest].
    apply Forall_cons_1 in Hitem as [Hy Hitem]. cbn [fst snd] in Hy.
    cbn [fmap list_fmap fst merge_loop]. rewrite Hnone.
    unfold bind at 1. unfold bind at 1. rewrite Hy. unfold ret at 1.
    change (list_fmap _ _ ?h ?l) with (h <$> l).
    rewrite dict_set_fresh by exact Hnone. rewrite IH.
    + rewrite <- app_assoc. reflexivity.
    + exact Hitem.
    + exact Hd.
    + rewrite Forall_forall in Hk, Hrest. apply Forall_forall. intros k' Hk'.
      specialize (Hk k' Hk'). specialize (Hrest k' Hk').
      clear -Hk Hrest. induction parts as [|[k0 v0] parts IHp]; cbn [app dict_get] in *.
      * rewrite Hk. reflexivity.
      * destruct (eqb k' k0); [discriminate|]. apply IHp. exact Hrest.
Qed.

Lemma dict_get_own_Z {V} (d : list (Z * V)) :
  NoDup (fst <$> d) -> Forall (fun kv => dict_get Z.eqb d (fst kv) = Some (snd kv)) d.
Proof.
  induction d as [|[k v] d IH]; intros Hnd; [constructor|].
  cbn [fmap list_fmap fst] in Hnd. apply NoDup_cons in Hnd as [Hk Hnd].
  constructor.
  - cbn [dict_get fst snd]. rewrite Z.eqb_refl. reflexivity.
  - specialize (IH Hnd). rewrite Forall_forall in IH. apply Forall_forall.
    intros [k' v'] Hkv. cbn [dict_get fst snd].
    destruct (Z.eqb_spec k' k) as [->|Hne].
    + exfalso. apply Hk. apply list_elem_of_fmap. exists (k, v'). split; [reflexivity|exact Hkv].
    + exact (IH _ Hkv).
Qed.

(** [merge] on keyed trees without common keys.  Whatever the subtrees (no
    two of them need to have the same depth) and for any fuel from 1 on:
    when the second tree has no deferred keys and its fixed keys, pairwise
    different, are not keys of the first tree, [merge] returns a tree with
    the entries of the first tree followed by those of the second, subtrees
    unchanged; the equal depth that [merge] assumes is not checked. *)
Theorem merge_disjoint (fuel : nat) (self1 fa1 va1 self2 fa2 va2 : addr)
    (fixed1 fixed2 : list (Z * container)) (deferred1 : list (varobj * container))
    (s : state) :
  NoDup (fst <$> fixed2) ->
  (forall k, k ∈ fst <$> fixed2 -> k ∉ fst <$> fixed1) ->
  exists r s',
    merge (S fuel) (VariableDict self1 fa1 fixed1 va1 deferred1)
                   (VariableDict self2 fa2 fixed2 va2 []) s = Ok (r, s') /\
    shape_of r
    = DictShape
        (shape_fixed (shape_of (VariableDict self1 fa1 fixed1 va1 deferred1))
         ++ shape_fixed (shape_of (VariableDict self2 fa2 fixed2 va2 [])))
        (shape_deferred (shape_of (VariableDict self1 fa1 fixed1 va1 deferred1))).
Proof.
  intros Hnd Hdisj.
  set (x := VariableDict self1 fa1 fixed1 va1 deferred1).
  set (y := VariableDict self2 fa2 fixed2 va2 []).
  destruct (deepcopy_copies x s) as (x' & s1 & Hx & _ & _ & Hsx & _).
  destruct (deepcopy_copies y s1) as (y' & s2 & Hy & _ & _ & Hsy & _).
  destruct x' as [|self1' fa1' fixed1' va1' deferred1']; [discriminate|].
  destruct y' as [|self2' fa2' fixed2' va2' deferred2']; [discriminate|].
  cbn [shape_of x y] in Hsx, Hsy. injection Hsx as Hf1 Hd1. injection Hsy as Hf2 Hd2.
  destruct deferred2'; [|discriminate].
  assert (Hk1 : fst <$> fixed1' = fst <$> fixed1).
  { apply (f_equal (fmap fst)) in Hf1. rewrite <- !list_fmap_compose in Hf1. exact Hf1. }
  assert (Hk2 : fst <$> fixed2' = fst <$> fixed2).
  { apply (f_equal (fmap fst)) in Hf2. rewrite <- !list_fmap_compose in Hf2. exact Hf2. }
  assert (Hloop : merge_loop Z.eqb (merge fuel)
                    (fun element => getitem (VariableDict self2' fa2' fixed2' va2' [])
                                            (inl element))
                    fixed1' (fst <$> fixed2') s2
                  = Ok (fixed1' ++ fixed2', s2)).
  { apply merge_loop_fresh.
    - eapply Forall_impl; [apply dict_get_own_Z; rewrite Hk2; exact Hnd|].
      intros kv Hkv s0. cbn [getitem]. rewrite Hkv. reflexivity.
    - apply distinct_NoDup. rewrite Hk2. exact Hnd.
    - apply Forall_forall. intros k Hk. apply dict_get_notin. rewrite Hk1.
      apply Hdisj. rewrite <- Hk2. exact Hk. }
  subst x y. eexists _, _. split.
  - cbn [merge]. rewrite (bind_ok _ _ _ _ _ Hx), (bind_ok _ _ _ _ _ Hy).
    rewrite (bind_ok _ _ _ _ _ Hloop). cbn [fmap list_fmap merge_loop].
    unfold ret at 1. unfold bind at 1. unfold new_VariableDict.
    rewrite (bind_ok _ _ _ _ _ (alloc_ok _)). reflexivity.
  - cbn [shape_of fst snd shape_fixed shape_deferred]. rewrite fmap_app, Hf1, Hf2, Hd1.
    reflexivity.
Qed.

Lemma merge_disjoint_witness :
  exists r s',
    merge (S 0)
      (VariableDict 0 1 [(1, VariableSet 3 4 {[ 7 ]} 5 [])] 2 [])
      (VariableDict 6 7 [(2, VariableDict 9 10 [(5, VariableSet 12 13 {[ 8 ]} 14 [])] 11 [])]
         8 []) (State 20 []) = Ok (r, s') /\
    shape_of r
    = DictShape
        (shape_fixed (shape_of (VariableDict 0 1 [(1, VariableSet 3 4 {[ 7 ]} 5 [])] 2 []))
         ++ shape_fixed
              (shape_of (VariableDict 6 7
                           [(2, VariableDict 9 10 [(5, VariableSet 12 13 {[ 8 ]} 14 [])] 11 [])]
                           8 [])))
        (shape_deferred (shape_of (VariableDict 0 1 [(1, VariableSet 3 4 {[ 7 ]} 5 [])] 2 []))).
Proof.
  apply (merge_disjoint 0 0 1 2 6 7 8 [(1, VariableSet 3 4 {[ 7 ]} 5 [])]
           [(2, VariableDict 9 10 [(5, VariableSet 12 13 {[ 8 ]} 14 [])] 11 [])] []
           (State 20 [])).
  - apply (bool_decide_unpack _). vm_compute. exact I.
  - intros k Hk. cbn in Hk. apply list_elem_of_singleton in Hk as ->.
    cbn. intros H. apply list_elem_of_singleton in H. discriminate.
Defined.

(** ** Listings with placeholders: resolution and evaluation *)

Lemma token_delimited (t : str) (x : Z + variable) :
  token_of t x -> (("," : ascii) ∉ t) /\ (("~" : ascii) ∉ t) /\ t <> [].
Proof.
  destruct x as [z|[i| |z| | | |]]; cbn [token_of]; try contradiction.
  - intros H. destruct (int_token t z H) as (H1 & H2 & _).
    destruct (int_chars t z H) as [H3 _]. auto.
  - intros (r & -> & Hr). destruct (int_token r i Hr) as (H1 & H2 & _).
    split; [|split; [|discriminate]]; intros [H|H]%elem_of_cons;
      try discriminate; contradiction.
  - intros (r & -> & H1 & H2).
    split; [|split; [|discriminate]]; intros [H|H]%elem_of_cons; try discriminate;
      apply elem_of_cons in H as [H|H]; try discriminate; contradiction.
  - intros ->. split; [|split; [|discriminate]]; intros H%list_elem_of_singleton;
      discriminate.
Qed.

Lemma classify_token (t : str) (x : Z + variable) (p : Z) (s : state) :
  token_of t x ->
  classify t Py.int p s
  = Ok (match x with
        | inl z => (inr z, s)
        | inr v => (inl (VarObj (next_addr s) v), State (N.succ (next_addr s)) (random s))
        end).
Proof.
  destruct x as [z|[i| |z| | | |]]; cbn [token_of]; try contradiction.
  - intros H. destruct (int_token t z H) as (_ & _ & Hu).
    apply convert_literal; assumption.
  - intros (r & -> & Hr). destruct (int_token r i Hr) as (_ & _ & (Hu & _ & _)).
    unfold classify, convert. rewrite startswith_app.
    change (startswith (_default_index_specifier ++ r)
                       (repeat_str _default_index_specifier 2))
      with (startswith r _default_index_specifier).
    rewrite Hu, slice_from_app, Hr. reflexivity.
  - intros (r & -> & _). unfold classify, convert.
    change (repeat_str _default_index_specifier 2 ++ r)
      with (_default_index_specifier ++ (_default_index_specifier ++ r)) at 1.
    rewrite startswith_app, startswith_app. reflexivity.
  - intros ->. reflexivity.
Qed.

Lemma set_add_fresh (v : list varobj) (o : varobj) :
  Forall (fun o' => (addr_of o' < addr_of o)%N) v ->
  same_sample (var o) (var o) = false ->
  set_add var_eq v o = v ++ [o].
Proof.
  intros Hv Ho. unfold set_add, set_in.
  replace (existsb (var_eq o) v) with false; [reflexivity|].
  symmetry. induction Hv as [|o' v Ho' Hv IH]; [reflexivity|].
  cbn [existsb]. rewrite IH, orb_false_r. unfold var_eq.
  destruct (var o); cbn in Ho; try (rewrite Z.eqb_refl in Ho; discriminate);
    destruct (var o'); try reflexivity; apply N.eqb_neq; lia.
Qed.

Lemma token_placeholder (t : str) (w : variable) :
  token_of t (inr w) -> same_sample w w = false.
Proof. destruct w; cbn [token_of]; try contradiction; reflexivity. Qed.

Lemma Forall_addr_mono (v : list varobj) (a b : addr) :
  Forall (fun o => (addr_of o < a)%N) v -> (a <= b)%N ->
  Forall (fun o => (addr_of o < b)%N) v.
Proof. intros H Hab. eapply Forall_impl; [exact H|]. cbn. intros o Ho. lia. Qed.

Lemma unravel_segment_entry (e : entry) (f : gset Z) (v : list varobj) (p : Z) (s : state) :
  entry_ok e ->
  Forall (fun o => (addr_of o < next_addr s)%N) v ->
  exists v' s',
    unravel_segment (entry_text e) Py.int _default_range_delimiter
      _default_index_specifier _default_random_specifier _default_all_specifier f v p s
    = Ok ((f ∪ entry_fixed e, v ++ v'), s') /\
    var <$> v' = option_list (entry_deferred e) /\
    Forall (fun o => (addr_of o < next_addr s')%N) (v ++ v').
Proof.
  destruct e as [t x|a b xa xb]; cbn [entry_ok entry_text].
  - intros Ht Hv. destruct (token_delimited t x Ht) as (_ & Hr & _).
    pose proof (classify_token t x p s Ht) as Hc. unfold classify in Hc.
    unfold unravel_segment. change _default_range_delimiter with ["~"%char].
    rewrite (contains_notin _ _ Hr).
    destruct x as [z|w].
    + rewrite (bind_ok _ _ _ _ _ Hc). exists [], s. rewrite app_nil_r.
      split; [reflexivity|]. split; [reflexivity|exact Hv].
    + rewrite (bind_ok _ _ _ _ _ Hc).
      exists [VarObj (next_addr s) w], (State (N.succ (next_addr s)) (random s)).
      rewrite set_add_fresh; [|exact Hv|exact (token_placeholder t w Ht)].
      cbn [entry_fixed]. rewrite (right_id_L ∅ (∪)).
      split; [reflexivity|]. split; [reflexivity|].
      apply Forall_app. split.
      * eapply Forall_addr_mono; [exact Hv|]. cbn. lia.
      * repeat constructor. cbn. lia.
  - intros [Ha Hb] Hv.
    destruct (token_delimited a xa Ha) as (_ & Hra & _).
    destruct (token_delimited b xb Hb) as (_ & Hrb & _).
    pose proof (classify_token a xa p s Ha) as Hca. unfold classify in Hca.
    unfold unravel_segment. change _default_range_delimiter with ["~"%char].
    rewrite (contains_in _ _ _ Hra).
    assert (Hsplit : split (a ++ ["~"%char] ++ b) ["~"%char] = Some [a; b]).
    { rewrite <- (split_join "~" [a; b]); [|discriminate|repeat constructor; assumption].
      unfold join. cbn [fmap list_fmap concat]. rewrite app_nil_r. reflexivity. }
    rewrite Hsplit. cbn [of_option]. unfold ret at 1. unfold bind at 1.
    destruct xa as [za|wa].
    + rewrite (bind_ok _ _ _ _ _ Hca).
      pose proof (classify_token b xb (p + len a + len ["~"%char]) s Hb) as Hcb.
      unfold classify in Hcb.
      destruct xb as [zb|wb]; rewrite (bind_ok _ _ _ _ _ Hcb).
      * exists [], s. rewrite app_nil_r.
        split; [reflexivity|]. split; [reflexivity|exact Hv].
      * cbv [new_var bind alloc ret limit].
        eexists [_], _. rewrite set_add_fresh; [| |reflexivity].
        -- cbn [entry_fixed]. rewrite (right_id_L ∅ (∪)).
           split; [reflexivity|]. split; [reflexivity|].
           apply Forall_app. split.
           ++ eapply Forall_addr_mono; [exact Hv|]. cbn. lia.
           ++ repeat constructor. cbn. lia.
        -- eapply Forall_addr_mono; [exact Hv|]. cbn. lia.
    + rewrite (bind_ok _ _ _ _ _ Hca).
      pose proof (classify_token b xb (p + len a + len ["~"%char])
                    (State (N.succ (next_addr s)) (random s)) Hb) as Hcb.
      unfold classify in Hcb.
      destruct xb as [zb|wb]; rewrite (bind_ok _ _ _ _ _ Hcb);
        cbv [new_var bind alloc ret limit];
        (eexists [_], _; rewrite set_add_fresh; [| |reflexivity];
         [ cbn [entry_fixed]; rewrite (right_id_L ∅ (∪));
           split; [reflexivity|]; split; [reflexivity|];
           apply Forall_app; split;
           [ eapply Forall_addr_mono; [exact Hv|]; cbn; lia
           | repeat constructor; cbn; lia ]
         | eapply Forall_addr_mono; [exact Hv|]; cbn; lia ]).
Qed.

Lemma unravel_loop_entries (es : list entry) :
  forall (f : gset Z) (v : list varobj) (p : Z) (s : state),
    Forall entry_ok es ->
    Forall (fun o => (addr_of o < next_addr s)%N) v ->
    exists v' s',
      unravel_loop (entry_text <$> es) Py.int _default_listing_delimiter
        _default_range_delimiter _default_index_specifier _default_random_specifier
        _default_all_specifier f v p s
      = Ok ((f ∪ ⋃ (entry_fixed <$> es), v ++ v'), s') /\
      var <$> v' = omap entry_deferred es.
Proof.
  induction es as [|e es IH]; intros f v p s Hok Hv.
  - exists [], s. cbn. rewrite (right_id_L ∅ (∪)), app_nil_r. split; reflexivity.
  - apply Forall_cons in Hok as [He Hok].
    destruct (unravel_segment_entry e f v p s He Hv) as (v1 & s1 & Hseg & Hv1 & Hfresh).
    destruct (IH (f ∪ entry_fixed e) (v ++ v1)
                 (p + len (entry_text e) + len _default_listing_delimiter) s1 Hok Hfresh)
      as (v2 & s2 & Hloop & Hv2).
    exists (v1 ++ v2), s2. cbn [fmap list_fmap unravel_loop].
    rewrite (bind_ok _ _ _ _ _ Hseg). cbn [fst snd].
    change (list_fmap _ _ ?h ?l) with (h <$> l). rewrite Hloop.
    cbn [union_list foldr]. rewrite (assoc_L (∪)), app_assoc.
    split; [reflexivity|].
    rewrite fmap_app, Hv1, Hv2. cbn [omap list_omap].
    destruct (entry_deferred e); reflexivity.
Qed.

Lemma entry_text_delimited (e : entry) :
  entry_ok e -> (("," : ascii) ∉ entry_text e) /\ entry_text e <> [].
Proof.
  destruct e as [t x|a b xa xb]; cbn [entry_ok entry_text].
  - intros Ht. destruct (token_delimited t x Ht) as (H1 & _ & H3). auto.
  - intros [Ha Hb].
    destruct (token_delimited a xa Ha) as (H1 & _ & H3).
    destruct (token_delimited b xb Hb) as (H2 & _ & _).
    split; [|destruct a; [contradiction|discriminate]].
    change _default_range_delimiter with ["~"%char].
    rewrite !elem_of_app, list_elem_of_singleton. intros [?|[?|?]]; try tauto. discriminate.
Qed.

Lemma unravel_entries (es : list entry) (p : Z) (s : state) :
  es <> [] -> Forall entry_ok es ->
  exists r s',
    resolve_listing (join _default_listing_delimiter (entry_text <$> es)) Py.int p s
    = Ok (r, s') /\
    set_fixed r = ⋃ (entry_fixed <$> es) /\
    var <$> set_deferred r = omap entry_deferred es.
Proof.
  intros Hne Hok. unfold resolve_listing. rewrite unravel_split.
  - destruct (unravel_loop_entries es ∅ [] p
                (State (N.succ (N.succ (next_addr s))) (random s)) Hok ltac:(constructor))
      as (v' & s' & Hloop & Hv').
    rewrite (bind_ok _ _ _ _ _ Hloop). unfold new_VariableSet.
    rewrite (bind_ok _ _ _ _ _ (alloc_ok _)). cbn [fst snd ret app].
    eexists _, _. split; [reflexivity|]. cbn [set_fixed set_deferred].
    rewrite (left_id_L ∅ (∪)). split; [reflexivity|exact Hv'].
  - destruct es; [contradiction|discriminate].
  - destruct es as [|e es]; [contradiction|]. apply Forall_cons in Hok as [He _].
    destruct (entry_text_delimited e He) as [_ Hn].
    cbn [fmap list_fmap join]. unfold join. cbn [fmap list_fmap].
    destruct (entry_text e); [contradiction|discriminate].
  - rewrite Forall_fmap. eapply Forall_impl; [exact Hok|].
    intros e He. exact (proj1 (entry_text_delimited e He)).
Qed.

Lemma evaluate_entry (container : list Z) (e : entry) (w : variable) (S : gset Z)
    (s : state) :
  entry_values container e = Some S -> entry_deferred e = Some w ->
  entry_fixed e = ∅ /\ exists s', evaluate w container None s = Ok (S, s').
Proof.
  destruct e as [t x|a b xa xb]; cbn [entry_values entry_deferred entry_fixed].
  - destruct x as [z|v]; [discriminate|]. intros HS [= <-]. split; [reflexivity|].
    destruct v as [i| |z| | | |];
      cbn [token_values limit_value fmap option_fmap option_map] in HS;
      try discriminate.
    + destruct (Py.index container i) as [x|] eqn:Hi; [|discriminate].
      injection HS as <-. exists s. cbn [evaluate]. unfold bind. rewrite Hi. reflexivity.
    + injection HS as <-. exists s. reflexivity.
    + injection HS as <-. exists s. reflexivity.
    + injection HS as <-. exists s. reflexivity.
  - destruct (limit_value container xa) as [za|] eqn:Ha; [|discriminate].
    destruct (limit_value container xb) as [zb|] eqn:Hb; [|destruct xa; discriminate].
    intros [= <-] Hw.
    assert (Hr : w = RangeVariable xa xb /\
                 match xa, xb with inl _, inl _ => False | _, _ => True end).
    { destruct xa, xb; try discriminate; injection Hw as <-; split; constructor. }
    destruct Hr as [-> Hr]. split; [destruct xa, xb; try reflexivity; contradiction|].
    destruct (resolve_endpoint_limit container xa za s Ha) as (s1 & H1).
    destruct (resolve_endpoint_limit container xb zb s1 Hb) as (s2 & H2).
    exists s2. rewrite evaluate_RangeVariable. unfold bind at 1. rewrite H1.
    unfold bind at 1. rewrite H2. reflexivity.
Qed.

Lemma entry_fixed_values (container : list Z) (e : entry) (S : gset Z) :
  entry_values container e = Some S -> entry_deferred e = None -> entry_fixed e = S.
Proof.
  destruct e as [t x|a b xa xb]; cbn [entry_values entry_deferred entry_fixed].
  - destruct x as [z|v]; [|discriminate]. cbn. intros [= <-] _. reflexivity.
  - destruct xa as [za|], xb as [zb|]; try discriminate. cbn. intros [= <-] _. reflexivity.
Qed.

Lemma evaluate_entries (container : list Z) (es : list entry) (values : list (gset Z)) :
  Forall2 (fun e S => entry_values container e = Some S) es values ->
  forall (v : list varobj) (own : gset Z) (s : state),
    var <$> v = omap entry_deferred es ->
    exists R s',
      evaluate_elements v container own s = Ok (own ∪ R, s') /\
      ⋃ (entry_fixed <$> es) ∪ R = ⋃ values.
Proof.
  induction 1 as [|e S es values He Hes IH]; intros v own s Hv.
  - destruct v; [|discriminate]. exists ∅, s. cbn. rewrite !(right_id_L ∅ (∪)).
    split; reflexivity.
  - cbn [omap list_omap] in Hv. change (list_omap ?f ?l) with (omap f l) in Hv.
    cbn [fmap list_fmap union_list foldr]. change (list_fmap _ _ ?h ?l) with (h <$> l).
    destruct (entry_deferred e) as [w|] eqn:Hd.
    + destruct v as [|o v]; [discriminate|]. cbn [fmap list_fmap] in Hv.
      injection Hv as Ho Hv. change (list_fmap _ _ ?h ?l) with (h <$> l) in Hv.
      destruct (evaluate_entry container e w S s He Hd) as (Hf & s1 & Hev).
      destruct (IH v (own ∪ S) s1 Hv) as (R & s2 & Hrun & HR).
      exists (S ∪ R), s2. cbn [evaluate_elements]. rewrite Ho.
      rewrite (bind_ok _ _ _ _ _ Hev), Hrun, Hf, (assoc_L (∪)).
      split; [reflexivity|]. rewrite <- HR. set_solver.
    + destruct (IH v own s Hv) as (R & s2 & Hrun & HR).
      exists R, s2. split; [exact Hrun|].
      rewrite (entry_fixed_values container e S He Hd), <- HR. set_solver.
Qed.

(** Listings of literals and of placeholders that do not draw, from the
    text to the evaluated set.  A listing of one or more entries joined by
    the listing delimiter, each a token or a range between two tokens,
    where a token is an integer literal, an index placeholder (the index
    marker and an integer literal), the size placeholder (the doubled
    index marker and any text without delimiter) or the placeholder of all
    values, resolves with the [int] converter, from any position and state,
    to a value set that holds the values of the entries made of literals
    only as fixed elements and, as deferred elements, one placeholder for
    every other entry and nothing else (the deferred part is a set, so
    this is stated up to the order of enumeration).  When every entry has
    values on the value space (no index out of range, no range limit that
    stands for all values), [VariableSet.evaluate] then returns exactly the
    union of the values of the entries: the literal, the element at the
    index (negative indices counting from the end), the size of the space,
    all its elements, and for a range every integer between the values of
    its limits, both included. *)
Theorem resolve_listing_evaluate (es : list entry) (container : list Z)
    (values : list (gset Z)) (p : Z) (s : state) :
  es <> [] -> Forall entry_ok es ->
  Forall2 (fun e S => entry_values container e = Some S) es values ->
  exists r s1 s2,
    resolve_listing (join _default_listing_delimiter (entry_text <$> es)) Py.int p s
    = Ok (r, s1) /\
    set_fixed r = ⋃ (entry_fixed <$> es) /\
    var <$> set_deferred r ≡ₚ omap entry_deferred es /\
    VariableSet_evaluate (set_fixed r) (set_deferred r) container s1 = Ok (⋃ values, s2).
Proof.
  intros Hne Hok Hvalues.
  destruct (unravel_entries es p s Hne Hok) as (r & s1 & Hr & Hf & Hd).
  destruct (evaluate_entries container es values Hvalues (set_deferred r) (set_fixed r) s1 Hd)
    as (R & s2 & Hrun & HR).
  exists r, s1, s2. split; [exact Hr|]. split; [exact Hf|]. split; [rewrite Hd; reflexivity|].
  unfold VariableSet_evaluate. rewrite Hrun, Hf, HR. reflexivity.
Qed.

Lemma resolve_listing_evaluate_witness :
  exists r s1 s2,
    resolve_listing
      (join _default_listing_delimiter
         (entry_text <$>
           [One (str_of "3") (inl 3);
            One (str_of "#-1") (inr (IndexVariable (-1)));
            FromTo (str_of "#0") (str_of "##") (inr (IndexVariable 0)) (inr SizeVariable);
            One (str_of "*") (inr AllVariable)]))
      Py.int 0 (State 0 []) = Ok (r, s1) /\
    set_fixed r
    = ⋃ (entry_fixed <$>
           [One (str_of "3") (inl 3);
            One (str_of "#-1") (inr (IndexVariable (-1)));
            FromTo (str_of "#0") (str_of "##") (inr (IndexVariable 0)) (inr SizeVariable);
            One (str_of "*") (inr AllVariable)]) /\
    var <$> set_deferred r
    ≡ₚ omap entry_deferred
           [One (str_of "3") (inl 3);
            One (str_of "#-1") (inr (IndexVariable (-1)));
            FromTo (str_of "#0") (str_of "##") (inr (IndexVariable 0)) (inr SizeVariable);
            One (str_of "*") (inr AllVariable)] /\
    VariableSet_evaluate (set_fixed r) (set_deferred r) [1; 7; 2] s1
    = Ok (⋃ [{[ 3 ]}; {[ 2 ]}; list_to_set (range 1 (3 + 1)); list_to_set [1; 7; 2]], s2).
Proof.
  apply (resolve_listing_evaluate
           [One (str_of "3") (inl 3);
            One (str_of "#-1") (inr (IndexVariable (-1)));
            FromTo (str_of "#0") (str_of "##") (inr (IndexVariable 0)) (inr SizeVariable);
            One (str_of "*") (inr AllVariable)]
           [1; 7; 2]
           [{[ 3 ]}; {[ 2 ]}; list_to_set (range 1 (3 + 1)); list_to_set [1; 7; 2]]
           0 (State 0 [])).
  - discriminate.
  - constructor. { cbn [entry_ok token_of]. reflexivity. }
    constructor.
    { cbn [entry_ok token_of]. exists (str_of "-1"). split; reflexivity. }
    constructor.
    { cbn [entry_ok token_of]. split.
      - exists (str_of "0"). split; reflexivity.
      - exists []. split; [reflexivity|]. split; apply not_elem_of_nil. }
    constructor. { cbn [entry_ok token_of]. reflexivity. }
    constructor.
  - constructor. { reflexivity. }
    constructor.
    { cbn [entry_values token_values limit_value].
      change (Py.index [1; 7; 2] (-1)) with (Some 2). reflexivity. }
    constructor.
    { cbn [entry_values limit_value].
      change (Py.index [1; 7; 2] 0) with (Some 1).
      change (len [1; 7; 2]) with 3. reflexivity. }
    constructor. { reflexivity. }
    constructor.
Defined.

(** ** Positions of malformed tokens *)








